(** * JpegToBmpConverter: a shallow embedding of the streaming
      JPEG-to-indexed-BMP pipeline and the properties of its specification.

    The C++ source is embedded function by function.  [int] values are
    integers of [Z]; every conversion to an unsigned or a 16-bit type is
    written out as a reduction ([C.u8], [C.u16], [C.u32], [C.i16]).  Signed
    [int] overflow is undefined in C++, so the embedding computes in [Z] and
    the statements carry the ranges in which the source is defined.  [float]
    is IEEE-754 binary32 with round-to-nearest-even, taken from the
    specification of floating-point arithmetic of the Standard Library
    ([SpecFloat] at precision 24 and maximal exponent 128). *)

From Stdlib Require Import ZArith List Bool Lia.
From Stdlib Require Import QArith Qround.
From Stdlib Require Import Reals Lra.
From Stdlib Require Import Floats.SpecFloat.
Import ListNotations.
Local Open Scope Z_scope.

(** ** Machine integers *)

Module C.

(** Conversion to [uint8_t], [uint16_t], [uint32_t]. *)
Definition u8 (z : Z) : Z := z mod 256.
Definition u16 (z : Z) : Z := z mod 65536.
Definition u32 (z : Z) : Z := z mod 4294967296.

(** Conversion to [int16_t] (two's complement). *)
Definition i16 (z : Z) : Z := (z + 32768) mod 65536 - 32768.

(** [a / b] on [int]: truncation toward zero. *)
Definition sdiv (a b : Z) : Z := Z.quot a b.

(** [a >> n] on [int]: arithmetic shift. *)
Definition sar (a n : Z) : Z := Z.shiftr a n.

End C.

(** ** Buffers: arrays of integers addressed by an [int] index *)

Module Buf.

Definition zeros (n : Z) : list Z := repeat 0 (Z.to_nat n).

Definition get (l : list Z) (i : Z) : Z :=
  if i <? 0 then 0 else nth (Z.to_nat i) l 0.

Fixpoint set_nat (l : list Z) (i : nat) (v : Z) : list Z :=
  match l, i with
  | [], _ => []
  | _ :: t, O => v :: t
  | h :: t, S j => h :: set_nat t j v
  end.

(** A store outside the array is undefined behaviour in the source; the
    embedding leaves the array unchanged there. *)
Definition set (l : list Z) (i : Z) (v : Z) : list Z :=
  if i <? 0 then l else set_nat l (Z.to_nat i) v.

(** The index values of [for (int i = 0; i < n; i++)]. *)
Definition range (n : Z) : list Z := map Z.of_nat (seq 0 (Z.to_nat n)).

Definition sum (l : list Z) : Z := fold_right Z.add 0 l.

End Buf.

(** ** binary32 arithmetic *)

Module F32.

Definition prec : Z := 24.
Definition emax : Z := 128.

(** [static_cast<float>(n)] *)
Definition of_int (n : Z) : spec_float := binary_normalize prec emax n 0 false.

Definition div (x y : spec_float) : spec_float := SFdiv prec emax x y.
Definition mul (x y : spec_float) : spec_float := SFmul prec emax x y.
Definition ltb (x y : spec_float) : bool := SFltb x y.

(** [static_cast<int>(x)]: truncation toward zero.  The conversion of an
    infinity or a NaN is undefined in C++; the embedding gives 0. *)
Definition to_int (x : spec_float) : Z :=
  match x with
  | S754_finite s m e =>
      let a := if 0 <=? e then Z.pos m * 2 ^ e else Z.pos m / 2 ^ (- e) in
      if s then - a else a
  | _ => 0
  end.

(** The real number a binary32 datum stands for (0 for an infinity or a
    NaN). *)
Definition value (x : spec_float) : R :=
  match x with
  | S754_finite s m e =>
      ((if s then -1 else 1) * IZR (Z.pos m) * powerRZ 2 e)%R
  | _ => 0%R
  end.

(** A zero, a negative number or the negative infinity. *)
Definition nonPositive (x : spec_float) : Prop :=
  match x with
  | S754_zero _ => True
  | S754_finite true _ _ => True
  | S754_infinity true => True
  | _ => False
  end.

End F32.

(** ** Image processing options *)

Record Config := {
  USE_ATKINSON : bool;
  USE_FLOYD_STEINBERG : bool;
  USE_NOISE_DITHERING : bool;
  USE_BRIGHTNESS : bool;
  BRIGHTNESS_BOOST : Z;
  GAMMA_CORRECTION : bool;
  CONTRAST_FACTOR : spec_float;
  USE_PRESCALE : bool;
  TARGET_MAX_WIDTH : Z;
  TARGET_MAX_HEIGHT : Z
}.

(** The options as the source sets them.  The literal [1.15f] is the
    binary32 number nearest to 115/100, which is what the correctly rounded
    quotient gives. *)
Definition default_config : Config := {|
  USE_ATKINSON := true;
  USE_FLOYD_STEINBERG := false;
  USE_NOISE_DITHERING := false;
  USE_BRIGHTNESS := true;
  BRIGHTNESS_BOOST := 10;
  GAMMA_CORRECTION := true;
  CONTRAST_FACTOR := F32.div (F32.of_int 115) (F32.of_int 100);
  USE_PRESCALE := true;
  TARGET_MAX_WIDTH := 480;
  TARGET_MAX_HEIGHT := 800
|}.

(** ** Tone mapper *)

Definition applyGamma (cfg : Config) (gray : Z) : Z :=
  if negb (GAMMA_CORRECTION cfg) then gray
  else
    let product := gray * 255 in
    let x := gray in
    let x :=
      if 0 <? x then
        let x1 := C.sar (x + C.sdiv product x) 1 in
        C.sar (x1 + C.sdiv product x1) 1
      else x in
    if 255 <? x then 255 else x.

Definition factorNum (cfg : Config) : Z :=
  F32.to_int (F32.mul (CONTRAST_FACTOR cfg) (F32.of_int 100)).

Definition applyContrast (cfg : Config) (gray : Z) : Z :=
  let adjusted := C.sdiv ((gray - 128) * factorNum cfg) 100 + 128 in
  let adjusted := if adjusted <? 0 then 0 else adjusted in
  if 255 <? adjusted then 255 else adjusted.

Definition adjustPixel (cfg : Config) (gray : Z) : Z :=
  if negb (USE_BRIGHTNESS cfg) then gray
  else
    let gray := applyContrast cfg gray in
    let gray := gray + BRIGHTNESS_BOOST cfg in
    let gray := if 255 <? gray then 255 else gray in
    let gray := if gray <? 0 then 0 else gray in
    applyGamma cfg gray.

(** ** Quantizers *)

Definition quantizeAdjustedSimple (gray levelCount : Z) : Z :=
  if levelCount <=? 1 then 0
  else
    let gray := if gray <? 0 then 0 else gray in
    let gray := if 255 <? gray then 255 else gray in
    let level := C.sar (gray * levelCount) 8 in
    let level := if levelCount <=? level then levelCount - 1 else level in
    C.u8 level.

(** The result pairs the returned level with the value stored through the
    reference parameter [quantizedValue]. *)
Definition quantizeAdjustedWithValue (gray levelCount : Z) : Z * Z :=
  if levelCount <=? 1 then (0, 0)
  else
    let gray := if gray <? 0 then 0 else gray in
    let gray := if 255 <? gray then 255 else gray in
    let level := C.sar (gray * levelCount) 8 in
    let level := if levelCount <=? level then levelCount - 1 else level in
    let denom := levelCount - 1 in
    let quantizedValue := if 0 <? denom then C.sdiv (level * 255) denom else 0 in
    (C.u8 level, quantizedValue).

Definition quantizeSimple (cfg : Config) (gray levelCount : Z) : Z :=
  quantizeAdjustedSimple (adjustPixel cfg gray) levelCount.

Definition quantizeNoise (cfg : Config) (gray x y levelCount : Z) : Z :=
  if levelCount <=? 1 then 0
  else
    let gray := adjustPixel cfg gray in
    let hash := C.u32 (C.u32 (C.u32 x * 374761393) + C.u32 (C.u32 y * 668265263)) in
    let hash := C.u32 (Z.lxor hash (Z.shiftr hash 13) * 1274126177) in
    let threshold := Z.shiftr hash 24 in
    let scaled := gray * levelCount in
    let level := C.sar scaled 8 in
    let level := if levelCount <=? level then levelCount - 1 else level in
    let remainder := Z.land scaled 255 in
    let level :=
      if (level <? levelCount - 1) && (256 <=? remainder + threshold)
      then level + 1 else level in
    C.u8 level.

Definition quantize (cfg : Config) (gray x y levelCount : Z) : Z :=
  if USE_NOISE_DITHERING cfg then quantizeNoise cfg gray x y levelCount
  else quantizeSimple cfg gray levelCount.

(** ** Atkinson error diffusion *)

(** [row[i] += d] on an [int16_t] array. *)
Definition bump (row : list Z) (i d : Z) : list Z :=
  Buf.set row i (C.i16 (Buf.get row i + d)).

Module Atkinson.

Record t := {
  width : Z;
  levelCount : Z;
  errorRow0 : list Z;
  errorRow1 : list Z;
  errorRow2 : list Z
}.

Definition make (w l : Z) : t := {|
  width := w;
  levelCount := l;
  errorRow0 := Buf.zeros (w + 4);
  errorRow1 := Buf.zeros (w + 4);
  errorRow2 := Buf.zeros (w + 4)
|}.

Definition processPixel (cfg : Config) (d : t) (gray x : Z) : t * Z :=
  let gray := adjustPixel cfg gray in
  let adjusted := gray + Buf.get (errorRow0 d) (x + 2) in
  let adjusted := if adjusted <? 0 then 0 else adjusted in
  let adjusted := if 255 <? adjusted then 255 else adjusted in
  let '(quantized, quantizedValue) :=
    quantizeAdjustedWithValue adjusted (levelCount d) in
  let error := C.sar (adjusted - quantizedValue) 3 in
  let r0 := bump (errorRow0 d) (x + 3) error in
  let r0 := bump r0 (x + 4) error in
  let r1 := bump (errorRow1 d) (x + 1) error in
  let r1 := bump r1 (x + 2) error in
  let r1 := bump r1 (x + 3) error in
  let r2 := bump (errorRow2 d) (x + 2) error in
  ({| width := width d; levelCount := levelCount d;
      errorRow0 := r0; errorRow1 := r1; errorRow2 := r2 |}, quantized).

Definition nextRow (d : t) : t := {|
  width := width d;
  levelCount := levelCount d;
  errorRow0 := errorRow1 d;
  errorRow1 := errorRow2 d;
  errorRow2 := Buf.zeros (width d + 4)
|}.

Definition reset (d : t) : t := make (width d) (levelCount d).

End Atkinson.

(** ** Floyd-Steinberg error diffusion *)

Module FloydSteinberg.

Record t := {
  width : Z;
  levelCount : Z;
  rowCount : Z;
  errorCurRow : list Z;
  errorNextRow : list Z
}.

Definition make (w l : Z) : t := {|
  width := w;
  levelCount := l;
  rowCount := 0;
  errorCurRow := Buf.zeros (w + 2);
  errorNextRow := Buf.zeros (w + 2)
|}.

Definition processPixel (cfg : Config) (d : t) (gray x : Z)
  (reverseDirection : bool) : t * Z :=
  let gray := adjustPixel cfg gray in
  let adjusted := gray + Buf.get (errorCurRow d) (x + 1) in
  let adjusted := if adjusted <? 0 then 0 else adjusted in
  let adjusted := if 255 <? adjusted then 255 else adjusted in
  let '(quantized, quantizedValue) :=
    quantizeAdjustedWithValue adjusted (levelCount d) in
  let error := adjusted - quantizedValue in
  let '(cur, next) :=
    if negb reverseDirection then
      let cur := bump (errorCurRow d) (x + 2) (C.sar (error * 7) 4) in
      let next := bump (errorNextRow d) x (C.sar (error * 3) 4) in
      let next := bump next (x + 1) (C.sar (error * 5) 4) in
      let next := bump next (x + 2) (C.sar error 4) in
      (cur, next)
    else
      let cur := bump (errorCurRow d) x (C.sar (error * 7) 4) in
      let next := bump (errorNextRow d) (x + 2) (C.sar (error * 3) 4) in
      let next := bump next (x + 1) (C.sar (error * 5) 4) in
      let next := bump next x (C.sar error 4) in
      (cur, next) in
  ({| width := width d; levelCount := levelCount d; rowCount := rowCount d;
      errorCurRow := cur; errorNextRow := next |}, quantized).

Definition nextRow (d : t) : t := {|
  width := width d;
  levelCount := levelCount d;
  rowCount := rowCount d + 1;
  errorCurRow := errorNextRow d;
  errorNextRow := Buf.zeros (width d + 2)
|}.

Definition isReverseRow (d : t) : bool :=
  negb (Z.land (rowCount d) 1 =? 0).

Definition reset (d : t) : t := make (width d) (levelCount d).

End FloydSteinberg.

(** ** BMP encoder.  The sink [Print& out] is the list of the bytes written
    so far; every writer returns the bytes it appends. *)

Definition write16 (value : Z) : list Z :=
  let value := C.u16 value in
  [Z.land value 255; Z.land (Z.shiftr value 8) 255].

Definition write32 (value : Z) : list Z :=
  let value := C.u32 value in
  [Z.land value 255; Z.land (Z.shiftr value 8) 255;
   Z.land (Z.shiftr value 16) 255; Z.land (Z.shiftr value 24) 255].

Definition write32Signed (value : Z) : list Z :=
  [Z.land value 255; Z.land (Z.shiftr value 8) 255;
   Z.land (Z.shiftr value 16) 255; Z.land (Z.shiftr value 24) 255].

Definition writeIndexedPixel (rowBuffer : list Z) (x bitsPerPixel value : Z)
  : list Z :=
  let bitPos := x * bitsPerPixel in
  let byteIndex := C.sar bitPos 3 in
  let bitOffset := 8 - bitsPerPixel - Z.land bitPos 7 in
  Buf.set rowBuffer byteIndex
    (Z.lor (Buf.get rowBuffer byteIndex) (C.u8 (Z.shiftl value bitOffset))).

Definition getBytesPerRow (width bitsPerPixel : Z) : Z :=
  if bitsPerPixel =? 8 then C.sdiv (width + 3) 4 * 4
  else if bitsPerPixel =? 2 then C.sdiv (width * 2 + 31) 32 * 4
  else C.sdiv (width + 31) 32 * 4.

Definition getColorsUsed (bitsPerPixel : Z) : Z :=
  if bitsPerPixel =? 8 then 256
  else if bitsPerPixel =? 2 then 4
  else 2.

Definition grayRamp : list Z :=
  flat_map (fun i => [C.u8 i; C.u8 i; C.u8 i; C.u8 0]) (Buf.range 256).

Definition palette2bit : list Z :=
  [0x00; 0x00; 0x00; 0x00;
   0x55; 0x55; 0x55; 0x00;
   0xAA; 0xAA; 0xAA; 0x00;
   0xFF; 0xFF; 0xFF; 0x00].

Definition palette1bit : list Z :=
  [0x00; 0x00; 0x00; 0x00;
   0xFF; 0xFF; 0xFF; 0x00].

Definition writeBmpHeader (width height bitsPerPixel : Z) : list Z :=
  let bytesPerRow := getBytesPerRow width bitsPerPixel in
  let colorsUsed := getColorsUsed bitsPerPixel in
  let paletteSize := colorsUsed * 4 in
  let imageSize := bytesPerRow * height in
  let fileSize := C.u32 (14 + 40 + paletteSize + imageSize) in
  [66; 77]
  ++ write32 fileSize
  ++ write32 0
  ++ write32 (14 + 40 + paletteSize)
  ++ write32 40
  ++ write32Signed width
  ++ write32Signed (- height)
  ++ write16 1
  ++ write16 bitsPerPixel
  ++ write32 0
  ++ write32 imageSize
  ++ write32 2835
  ++ write32 2835
  ++ write32 colorsUsed
  ++ write32 colorsUsed
  ++ (if bitsPerPixel =? 8 then grayRamp
      else if bitsPerPixel =? 2 then palette2bit
      else palette1bit).

(** ** Stream adapter *)

(** The file object comes from the platform library.  It is taken here as
    what the adapter observes of it: whether the handle tests true, and the
    outcomes of the successive calls of [read]: whether the platform read
    failed, the value returned once converted to [size_t], and the bytes
    stored at the start of the destination.  A file with no outcome left is
    at its end. *)
Record ReadOutcome := {
  rd_failed : bool;
  rd_count : Z;
  rd_bytes : list Z
}.

Record File := {
  is_open : bool;
  reads : list ReadOutcome
}.

Definition end_of_file : ReadOutcome :=
  {| rd_failed := false; rd_count := 0; rd_bytes := [] |}.

(** [file.read(dst, n)]: the outcome, the destination afterwards, the file
    afterwards. *)
Definition file_read (f : File) (dst : list Z) : ReadOutcome * list Z * File :=
  match reads f with
  | [] => (end_of_file, dst, f)
  | o :: rest =>
      (o, rd_bytes o ++ skipn (length (rd_bytes o)) dst,
       {| is_open := is_open f; reads := rest |})
  end.

Record JpegReadContext := {
  file : File;
  buffer : list Z;
  bufferPos : Z;
  bufferFilled : Z
}.

(** What one call of the callback leaves behind: the returned status, the
    bytes copied to [pBuf], the value stored in [*pBytes_actually_read] (if
    any), the context afterwards, and the outcomes of the platform reads the
    call performed. *)
Record ReadResult := {
  status : Z;
  pBuf : list Z;
  pBytes_actually_read : option Z;
  context : option JpegReadContext;
  performed : list ReadOutcome
}.

Section StreamAdapter.

(** The status code of picojpeg for a stream read error. *)
Variable PJPG_STREAM_READ_ERROR : Z.

Definition copyOut (ctx : JpegReadContext) (buf_size : Z)
  (done : list ReadOutcome) : ReadResult :=
  let available := bufferFilled ctx - bufferPos ctx in
  let toRead := if available <? buf_size then available else buf_size in
  {| status := 0;
     pBuf := firstn (Z.to_nat toRead) (skipn (Z.to_nat (bufferPos ctx)) (buffer ctx));
     pBytes_actually_read := Some (C.u8 toRead);
     context := Some {| file := file ctx; buffer := buffer ctx;
                        bufferPos := bufferPos ctx + toRead;
                        bufferFilled := bufferFilled ctx |};
     performed := done |}.

Definition jpegReadCallback (pCallback_data : option JpegReadContext)
  (buf_size : Z) : ReadResult :=
  match pCallback_data with
  | None =>
      {| status := PJPG_STREAM_READ_ERROR; pBuf := [];
         pBytes_actually_read := None; context := None; performed := [] |}
  | Some ctx =>
      if negb (is_open (file ctx)) then
        {| status := PJPG_STREAM_READ_ERROR; pBuf := [];
           pBytes_actually_read := None; context := Some ctx; performed := [] |}
      else if bufferFilled ctx <=? bufferPos ctx then
        let '(o, buf', f') := file_read (file ctx) (buffer ctx) in
        let ctx' := {| file := f'; buffer := buf'; bufferPos := 0;
                       bufferFilled := rd_count o |} in
        if rd_count o =? 0 then
          {| status := 0; pBuf := []; pBytes_actually_read := Some 0;
             context := Some ctx'; performed := [o] |}
        else copyOut ctx' buf_size [o]
      else copyOut ctx buf_size []
  end.

End StreamAdapter.

(** ** The decoding engine, as the converter sees it *)

Record pjpeg_image_info := {
  m_width : Z;
  m_height : Z;
  m_comps : Z;
  m_MCUSPerRow : Z;
  m_MCUSPerCol : Z;
  m_MCUWidth : Z;
  m_MCUHeight : Z
}.

(** One call of [pjpeg_decode_mcu]: its status and the sample planes it
    leaves in [m_pMCUBufR], [m_pMCUBufG], [m_pMCUBufB]. *)
Record McuResult := {
  mcuStatus : Z;
  m_pMCUBufR : list Z;
  m_pMCUBufG : list Z;
  m_pMCUBufB : list Z
}.

(** The engine run on a given stream: the status of [pjpeg_decode_init],
    the image descriptor it fills, and the result of the n-th call of
    [pjpeg_decode_mcu]. *)
Record Decoder := {
  init_status : Z;
  imageInfo : pjpeg_image_info;
  decode_mcu : nat -> McuResult
}.

(** ** Heap blocks of one conversion *)

Inductive Block :=
| RowBuffer | McuRowBuffer
| AtkinsonObject | AtkinsonRow0 | AtkinsonRow1 | AtkinsonRow2
| FloydSteinbergObject | FloydSteinbergCurRow | FloydSteinbergNextRow
| RowAccum | RowCount.

Definition Block_eq_dec (a b : Block) : {a = b} + {a <> b}.
Proof. decide equality. Defined.

(** The live blocks.  [free] and [delete] release one block. *)
Definition Heap := list Block.

Definition alloc (b : Block) (h : Heap) : Heap := b :: h.

Fixpoint release (b : Block) (h : Heap) : Heap :=
  match h with
  | [] => []
  | c :: rest => if Block_eq_dec b c then rest else c :: release b rest
  end.

(** Whether each [malloc] of the conversion returns a block. *)
Record Memory := {
  rowBuffer_ok : bool;
  mcuRowBuffer_ok : bool
}.

(** ** Scaling decision *)

Record ScalePlan := {
  outWidth : Z;
  outHeight : Z;
  scaleX_fp : Z;
  scaleY_fp : Z;
  needsScaling : bool
}.

Definition computeScale (cfg : Config) (info : pjpeg_image_info)
  (targetWidth targetHeight : Z) : ScalePlan :=
  if USE_PRESCALE cfg
     && ((targetWidth <? m_width info) || (targetHeight <? m_height info))
  then
    let scaleToFitWidth :=
      F32.div (F32.of_int targetWidth) (F32.of_int (m_width info)) in
    let scaleToFitHeight :=
      F32.div (F32.of_int targetHeight) (F32.of_int (m_height info)) in
    let scale :=
      if F32.ltb scaleToFitWidth scaleToFitHeight
      then scaleToFitWidth else scaleToFitHeight in
    let outWidth := F32.to_int (F32.mul (F32.of_int (m_width info)) scale) in
    let outHeight := F32.to_int (F32.mul (F32.of_int (m_height info)) scale) in
    let outWidth := if outWidth <? 1 then 1 else outWidth in
    let outHeight := if outHeight <? 1 then 1 else outHeight in
    {| outWidth := outWidth;
       outHeight := outHeight;
       scaleX_fp := C.u32 (C.u32 (m_width info) * 65536) / C.u32 outWidth;
       scaleY_fp := C.u32 (C.u32 (m_height info) * 65536) / C.u32 outHeight;
       needsScaling := true |}
  else
    {| outWidth := m_width info;
       outHeight := m_height info;
       scaleX_fp := 65536;
       scaleY_fp := 65536;
       needsScaling := false |}.

(** ** Dispatch on the ditherer of the conversion *)

Inductive Ditherer :=
| NoDitherer
| UseAtkinson (d : Atkinson.t)
| UseFloydSteinberg (d : FloydSteinberg.t).

Definition indexPixel (cfg : Config) (d : Ditherer) (gray x y levelCount : Z)
  : Ditherer * Z :=
  match d with
  | UseAtkinson a =>
      let '(a', v) := Atkinson.processPixel cfg a gray x in (UseAtkinson a', v)
  | UseFloydSteinberg f =>
      let '(f', v) :=
        FloydSteinberg.processPixel cfg f gray x (FloydSteinberg.isReverseRow f) in
      (UseFloydSteinberg f', v)
  | NoDitherer => (NoDitherer, quantize cfg gray x y levelCount)
  end.

Definition advanceRow (d : Ditherer) : Ditherer :=
  match d with
  | UseAtkinson a => UseAtkinson (Atkinson.nextRow a)
  | UseFloydSteinberg f => UseFloydSteinberg (FloydSteinberg.nextRow f)
  | NoDitherer => NoDitherer
  end.

(** One output row: [memset] of the row buffer, then the loop over
    [x = 0 .. outWidth-1], then the step of the ditherer.  The source has
    this block twice, once on the direct path and once where a scaled row is
    flushed; the two copies differ in the gray sample of column [x], given
    here by [grayAt], and in the row number handed to [quantize], given by
    [y]. *)
Definition packPixel (cfg : Config) (bitsPerPixel levelCount : Z)
  (grayAt : Z -> Z) (y : Z) (acc : Ditherer * list Z) (x : Z)
  : Ditherer * list Z :=
  let '(d, rowBuffer) := acc in
  let '(d', indexedValue) := indexPixel cfg d (grayAt x) x y levelCount in
  (d', writeIndexedPixel rowBuffer x bitsPerPixel indexedValue).

Definition packRow (cfg : Config) (bitsPerPixel outWidth bytesPerRow : Z)
  (grayAt : Z -> Z) (y : Z) (d : Ditherer) : Ditherer * list Z :=
  let levelCount := Z.shiftl 1 bitsPerPixel in
  let rowBuffer := Buf.zeros bytesPerRow in
  if bitsPerPixel =? 8 then
    (d, fold_left
          (fun rb x => Buf.set rb x (C.u8 (adjustPixel cfg (grayAt x))))
          (Buf.range outWidth) rowBuffer)
  else
    let '(d', rb) :=
      fold_left (packPixel cfg bitsPerPixel levelCount grayAt y)
        (Buf.range outWidth) (d, rowBuffer) in
    (advanceRow d', rb).

(** ** The conversion loop *)

(** The variables of [jpegFileToBmpStream] that change while it runs. *)
Record Work := {
  sink : list Z;
  ditherer : Ditherer;
  rowAccum : list Z;
  rowCount : list Z;
  currentOutY : Z;
  nextOutY_srcStart : Z;
  calls : nat;
  mcuRowBuffer : list Z
}.

Section Loop.

Variable cfg : Config.
Variable dec : Decoder.
Variable plan : ScalePlan.
Variable bitsPerPixel : Z.

Let info := imageInfo dec.
Let bytesPerRow := getBytesPerRow (outWidth plan) bitsPerPixel.

(** The two loops over [blockY] and [blockX] that copy one decoded MCU into
    the MCU row buffer as gray samples. *)
Definition storeSample (mcuX : Z) (m : McuResult) (blockY : Z)
  (buf : list Z) (blockX : Z) : list Z :=
  let mcuPixelWidth := m_MCUWidth info in
  let pixelX := mcuX * mcuPixelWidth + blockX in
  if m_width info <=? pixelX then buf
  else
    let blockCol := C.sdiv blockX 8 in
    let blockRow := C.sdiv blockY 8 in
    let localX := Z.rem blockX 8 in
    let localY := Z.rem blockY 8 in
    let blocksPerRow := C.sdiv mcuPixelWidth 8 in
    let blockIndex := blockRow * blocksPerRow + blockCol in
    let pixelOffset := blockIndex * 64 + localY * 8 + localX in
    let gray :=
      if m_comps info =? 1 then C.u8 (Buf.get (m_pMCUBufR m) pixelOffset)
      else
        let r := C.u8 (Buf.get (m_pMCUBufR m) pixelOffset) in
        let g := C.u8 (Buf.get (m_pMCUBufG m) pixelOffset) in
        let b := C.u8 (Buf.get (m_pMCUBufB m) pixelOffset) in
        C.u8 (C.sdiv (r * 25 + g * 50 + b * 25) 100) in
    Buf.set buf (blockY * m_width info + pixelX) gray.

Definition storeMcu (mcuX : Z) (m : McuResult) (buf : list Z) : list Z :=
  fold_left
    (fun buf blockY =>
       fold_left (storeSample mcuX m blockY) (Buf.range (m_MCUWidth info)) buf)
    (Buf.range (m_MCUHeight info)) buf.

(** The loop over [mcuX]: [None] when a call of [pjpeg_decode_mcu] fails. *)
Fixpoint decodeMcuRow (xs : list Z) (n : nat) (buf : list Z)
  : option (nat * list Z) :=
  match xs with
  | [] => Some (n, buf)
  | mcuX :: rest =>
      let m := decode_mcu dec n in
      if mcuStatus m =? 0 then decodeMcuRow rest (S n) (storeMcu mcuX m buf)
      else None
  end.

(** Writing one packed row to the sink. *)
Definition emitRow (grayAt : Z -> Z) (y : Z) (w : Work) : Work :=
  let '(d, rowBuffer) :=
    packRow cfg bitsPerPixel (outWidth plan) bytesPerRow grayAt y (ditherer w) in
  {| sink := sink w ++ rowBuffer;
     ditherer := d;
     rowAccum := rowAccum w;
     rowCount := rowCount w;
     currentOutY := currentOutY w;
     nextOutY_srcStart := nextOutY_srcStart w;
     calls := calls w;
     mcuRowBuffer := mcuRowBuffer w |}.

(** The inner loop [for (srcX = srcXStart; srcX < srcXEnd && srcX < width;
    srcX++)] of the area average. *)
Definition sumRange (srcRow : Z -> Z) (srcXStart srcXEnd : Z) : Z * Z :=
  fold_left
    (fun '(sum, count) k => (sum + srcRow (srcXStart + k), count + 1))
    (Buf.range (Z.min srcXEnd (m_width info) - srcXStart)) (0, 0).

Definition accumulatePixel (srcRow : Z -> Z) (acc : list Z * list Z)
  (outX : Z) : list Z * list Z :=
  let '(rowAccum, rowCount) := acc in
  let srcXStart := Z.shiftr (C.u32 (C.u32 outX * scaleX_fp plan)) 16 in
  let srcXEnd := Z.shiftr (C.u32 (C.u32 (outX + 1) * scaleX_fp plan)) 16 in
  let '(sum, count) := sumRange srcRow srcXStart srcXEnd in
  let '(sum, count) :=
    if (count =? 0) && (srcXStart <? m_width info)
    then (srcRow srcXStart, 1) else (sum, count) in
  (Buf.set rowAccum outX (C.u32 (Buf.get rowAccum outX + sum)),
   Buf.set rowCount outX (C.u16 (Buf.get rowCount outX + count))).

(** The body of the loop over the source rows [y] of one MCU row. *)
Definition processSourceRow (y startRow : Z) (w : Work) : Work :=
  let bufferY := y - startRow in
  let srcRow := fun x => Buf.get (mcuRowBuffer w) (bufferY * m_width info + x) in
  if negb (needsScaling plan) then emitRow srcRow y w
  else
    let '(acc, cnt) :=
      fold_left (accumulatePixel srcRow) (Buf.range (outWidth plan))
        (rowAccum w, rowCount w) in
    let srcY_fp := C.u32 (C.u32 (y + 1) * 65536) in
    if (nextOutY_srcStart w <=? srcY_fp) && (currentOutY w <? outHeight plan)
    then
      let averaged := fun x =>
        if 0 <? Buf.get cnt x then C.u8 (Buf.get acc x / Buf.get cnt x) else 0 in
      let w' := emitRow averaged (currentOutY w) w in
      {| sink := sink w';
         ditherer := ditherer w';
         rowAccum := Buf.zeros (outWidth plan);
         rowCount := Buf.zeros (outWidth plan);
         currentOutY := currentOutY w + 1;
         nextOutY_srcStart := C.u32 (C.u32 (currentOutY w + 1 + 1) * scaleY_fp plan);
         calls := calls w';
         mcuRowBuffer := mcuRowBuffer w' |}
    else
      {| sink := sink w;
         ditherer := ditherer w;
         rowAccum := acc;
         rowCount := cnt;
         currentOutY := currentOutY w;
         nextOutY_srcStart := nextOutY_srcStart w;
         calls := calls w;
         mcuRowBuffer := mcuRowBuffer w |}.

(** [for (y = startRow; y < endRow && y < height; y++)], with [n] the
    number of values from [y] to [endRow]. *)
Fixpoint sourceRows (n : nat) (y startRow : Z) (w : Work) : Work :=
  match n with
  | O => w
  | S n' =>
      if y <? m_height info
      then sourceRows n' (y + 1) startRow (processSourceRow y startRow w)
      else w
  end.

(** The loop over [mcuY].  The flag tells whether every MCU decoded; on a
    failure the state is the one at the failing call. *)
Fixpoint mcuRows (ys : list Z) (w : Work) : bool * Work :=
  match ys with
  | [] => (true, w)
  | mcuY :: rest =>
      let mcuPixelHeight := m_MCUHeight info in
      let mcuRowPixels := m_width info * mcuPixelHeight in
      match decodeMcuRow (Buf.range (m_MCUSPerRow info)) (calls w)
              (Buf.zeros mcuRowPixels) with
      | None => (false, w)
      | Some (n, buf) =>
          let w1 := {| sink := sink w; ditherer := ditherer w;
                       rowAccum := rowAccum w; rowCount := rowCount w;
                       currentOutY := currentOutY w;
                       nextOutY_srcStart := nextOutY_srcStart w;
                       calls := n; mcuRowBuffer := buf |} in
          let startRow := mcuY * mcuPixelHeight in
          mcuRows rest (sourceRows (Z.to_nat mcuPixelHeight) startRow startRow w1)
      end
  end.

End Loop.

(** ** The converter *)

Definition MAX_IMAGE_WIDTH : Z := 2048.
Definition MAX_IMAGE_HEIGHT : Z := 3072.
Definition MAX_MCU_ROW_BYTES : Z := 65536.

(** What the caller observes when the call returns: the returned flag, the
    bytes the sink received, and the blocks still allocated. *)
Record Outcome := {
  result : bool;
  bmpOut : list Z;
  heap : Heap
}.

(** [new AtkinsonDitherer(...)] and [new FloydSteinbergDitherer(...)]: the
    object and the error rows its constructor allocates. *)
Definition createDitherer (cfg : Config) (indexedOutput : bool)
  (outWidth levelCount : Z) (h : Heap) : Ditherer * Heap :=
  if indexedOutput then
    if USE_ATKINSON cfg then
      (UseAtkinson (Atkinson.make outWidth levelCount),
       alloc AtkinsonRow2 (alloc AtkinsonRow1 (alloc AtkinsonRow0
         (alloc AtkinsonObject h))))
    else if USE_FLOYD_STEINBERG cfg then
      (UseFloydSteinberg (FloydSteinberg.make outWidth levelCount),
       alloc FloydSteinbergNextRow (alloc FloydSteinbergCurRow
         (alloc FloydSteinbergObject h)))
    else (NoDitherer, h)
  else (NoDitherer, h).

(** [delete] of the ditherer: its destructor frees the error rows. *)
Definition deleteDitherer (d : Ditherer) (h : Heap) : Heap :=
  match d with
  | UseAtkinson _ =>
      release AtkinsonObject (release AtkinsonRow2 (release AtkinsonRow1
        (release AtkinsonRow0 h)))
  | UseFloydSteinberg _ =>
      release FloydSteinbergObject (release FloydSteinbergNextRow
        (release FloydSteinbergCurRow h))
  | NoDitherer => h
  end.

Definition jpegFileToBmpStream (cfg : Config) (dec : Decoder) (mem : Memory)
  (bitsPerPixel targetWidth targetHeight : Z) : Outcome :=
  if negb ((bitsPerPixel =? 1) || (bitsPerPixel =? 2) || (bitsPerPixel =? 8))
  then {| result := false; bmpOut := []; heap := [] |}
  else if negb (init_status dec =? 0)
  then {| result := false; bmpOut := []; heap := [] |}
  else
    let info := imageInfo dec in
    if (MAX_IMAGE_WIDTH <? m_width info) || (MAX_IMAGE_HEIGHT <? m_height info)
    then {| result := false; bmpOut := []; heap := [] |}
    else
      let plan := computeScale cfg info targetWidth targetHeight in
      let out := writeBmpHeader (outWidth plan) (outHeight plan) bitsPerPixel in
      let levelCount := Z.shiftl 1 bitsPerPixel in
      let indexedOutput := negb (bitsPerPixel =? 8) in
      if negb (rowBuffer_ok mem)
      then {| result := false; bmpOut := out; heap := [] |}
      else
        let h := alloc RowBuffer [] in
        let mcuPixelHeight := m_MCUHeight info in
        let mcuRowPixels := m_width info * mcuPixelHeight in
        if MAX_MCU_ROW_BYTES <? mcuRowPixels
        then {| result := false; bmpOut := out; heap := release RowBuffer h |}
        else if negb (mcuRowBuffer_ok mem)
        then {| result := false; bmpOut := out; heap := release RowBuffer h |}
        else
          let h := alloc McuRowBuffer h in
          let '(d, h) :=
            createDitherer cfg indexedOutput (outWidth plan) levelCount h in
          let '(acc, cnt, next, h) :=
            if needsScaling plan
            then (Buf.zeros (outWidth plan), Buf.zeros (outWidth plan),
                  scaleY_fp plan, alloc RowCount (alloc RowAccum h))
            else ([], [], 0, h) in
          let w0 := {| sink := out; ditherer := d;
                       rowAccum := acc; rowCount := cnt;
                       currentOutY := 0; nextOutY_srcStart := next;
                       calls := O; mcuRowBuffer := Buf.zeros mcuRowPixels |} in
          let '(ok, w) :=
            mcuRows cfg dec plan bitsPerPixel (Buf.range (m_MCUSPerCol info)) w0 in
          if negb ok
          then {| result := false; bmpOut := sink w;
                  heap := release RowBuffer (release McuRowBuffer h) |}
          else
            let h := if needsScaling plan
                     then release RowCount (release RowAccum h) else h in
            let h := deleteDitherer (ditherer w) h in
            let h := release RowBuffer (release McuRowBuffer h) in
            {| result := true; bmpOut := sink w; heap := h |}.

(** The overload without explicit depth and bounds. *)
Definition jpegFileToBmpStream_default (cfg : Config) (dec : Decoder)
  (mem : Memory) : Outcome :=
  jpegFileToBmpStream cfg dec mem 2 (TARGET_MAX_WIDTH cfg) (TARGET_MAX_HEIGHT cfg).

(** ** Closed forms used in the statements *)

(** The level of a gray value in [0,255]: [(gray * levelCount) >> 8],
    clamped to [levelCount - 1]. *)
Definition levelOf (gray levelCount : Z) : Z :=
  Z.min (gray * levelCount / 256) (levelCount - 1).


(** Bit [p] of a packed row, counted from the most significant bit of the
    first byte: the bit the BMP reader takes for position [p]. *)
Definition rowBit (row : list Z) (p : Z) : bool :=
  Z.testbit (Buf.get row (p / 8)) (7 - p mod 8).

(** The fields of a BMP file as a reader decodes them (little endian). *)
Definition le16 (bs : list Z) : Z :=
  match bs with
  | [b0; b1] => b0 + 256 * b1
  | _ => 0
  end.

Definition le32 (bs : list Z) : Z :=
  match bs with
  | [b0; b1; b2; b3] => b0 + 256 * b1 + 65536 * b2 + 16777216 * b3
  | _ => 0
  end.

Definition signed32 (z : Z) : Z :=
  if z <? 2147483648 then z else z - 4294967296.

Definition slice (offset len : nat) (bmp : list Z) : list Z :=
  firstn len (skipn offset bmp).

Definition fileSizeField (bmp : list Z) : Z := le32 (slice 2 4 bmp).
Definition widthField (bmp : list Z) : Z := signed32 (le32 (slice 18 4 bmp)).
Definition heightField (bmp : list Z) : Z := signed32 (le32 (slice 22 4 bmp)).
Definition bitsPerPixelField (bmp : list Z) : Z := le16 (slice 28 2 bmp).
Definition imageSizeField (bmp : list Z) : Z := le32 (slice 34 4 bmp).

(** The sink holds [header] followed by [k] packed rows of [bytesPerRow]
    bytes each, and nothing else. *)
Definition holdsRows (header : list Z) (bytesPerRow k : Z) (s : list Z) : Prop :=
  exists rows,
    s = header ++ concat rows
    /\ Z.of_nat (length rows) = k
    /\ Forall (fun r => Z.of_nat (length r) = bytesPerRow) rows.

(** The number of output rows due once the source rows before [y] are
    processed. *)
Definition rowsDue (plan : ScalePlan) (y : Z) : Z :=
  if needsScaling plan
  then Z.min (outHeight plan) (y * 65536 / scaleY_fp plan)
  else y.

(** The state of the conversion loop before source row [y]. *)
Definition loopInv (header : list Z) (bytesPerRow : Z) (plan : ScalePlan)
  (y : Z) (w : Work) : Prop :=
  holdsRows header bytesPerRow (rowsDue plan y) (sink w)
  /\ (needsScaling plan = true ->
      currentOutY w = rowsDue plan y
      /\ nextOutY_srcStart w = (currentOutY w + 1) * scaleY_fp plan).

(** The state in which the conversion enters its loop over the MCU rows, and
    the blocks allocated by then. *)
Definition startWork (cfg : Config) (info : pjpeg_image_info)
  (plan : ScalePlan) (bitsPerPixel : Z) : Work :=
  {| sink := writeBmpHeader (outWidth plan) (outHeight plan) bitsPerPixel;
     ditherer :=
       fst (createDitherer cfg (negb (bitsPerPixel =? 8)) (outWidth plan)
              (Z.shiftl 1 bitsPerPixel) []);
     rowAccum := if needsScaling plan then Buf.zeros (outWidth plan) else [];
     rowCount := if needsScaling plan then Buf.zeros (outWidth plan) else [];
     currentOutY := 0;
     nextOutY_srcStart := if needsScaling plan then scaleY_fp plan else 0;
     calls := O;
     mcuRowBuffer := Buf.zeros (m_width info * m_MCUHeight info) |}.

Definition startHeap (cfg : Config) (plan : ScalePlan) (bitsPerPixel : Z)
  : Heap :=
  let h :=
    snd (createDitherer cfg (negb (bitsPerPixel =? 8)) (outWidth plan)
           (Z.shiftl 1 bitsPerPixel) [McuRowBuffer; RowBuffer]) in
  if needsScaling plan then RowCount :: RowAccum :: h else h.

(** The conversion gets as far as its loop: the depth is supported, the
    engine initialises, the image is within the limits and both buffers are
    obtained. *)
Definition entersLoop (dec : Decoder) (mem : Memory) (bitsPerPixel : Z)
  : Prop :=
  (bitsPerPixel = 1 \/ bitsPerPixel = 2 \/ bitsPerPixel = 8)
  /\ init_status dec = 0
  /\ m_width (imageInfo dec) <= MAX_IMAGE_WIDTH
  /\ m_height (imageInfo dec) <= MAX_IMAGE_HEIGHT
  /\ rowBuffer_ok mem = true
  /\ m_width (imageInfo dec) * m_MCUHeight (imageInfo dec) <= MAX_MCU_ROW_BYTES
  /\ mcuRowBuffer_ok mem = true.

(** Two ditherers of the same class. *)
Definition sameDitherer (d1 d2 : Ditherer) : Prop :=
  match d1, d2 with
  | NoDitherer, NoDitherer => True
  | UseAtkinson _, UseAtkinson _ => True
  | UseFloydSteinberg _, UseFloydSteinberg _ => True
  | _, _ => False
  end.

(** The blocks a conversion still holds when it returns after a failing
    MCU: the source frees the two buffers there and nothing else. *)
Definition leakedBlocks (cfg : Config) (plan : ScalePlan) (bitsPerPixel : Z)
  : Heap :=
  (if needsScaling plan then [RowCount; RowAccum] else [])
  ++ (if negb (bitsPerPixel =? 8) then
        if USE_ATKINSON cfg
        then [AtkinsonRow2; AtkinsonRow1; AtkinsonRow0; AtkinsonObject]
        else if USE_FLOYD_STEINBERG cfg
        then [FloydSteinbergNextRow; FloydSteinbergCurRow; FloydSteinbergObject]
        else []
      else []).

(** ** Inputs used in the examples *)

(** Both buffers are obtained. *)
Definition enoughMemory : Memory :=
  {| rowBuffer_ok := true; mcuRowBuffer_ok := true |}.

(** A 16x16 colour image of one MCU: the engine initialises, and its first
    call of [pjpeg_decode_mcu] fails. *)
Definition firstMcuFails : Decoder :=
  {| init_status := 0;
     imageInfo := {| m_width := 16; m_height := 16; m_comps := 3;
                     m_MCUSPerRow := 1; m_MCUSPerCol := 1;
                     m_MCUWidth := 16; m_MCUHeight := 16 |};
     decode_mcu := fun _ =>
       {| mcuStatus := 1; m_pMCUBufR := []; m_pMCUBufG := [];
          m_pMCUBufB := [] |} |}.

(** A 300x450 grayscale image in 8x8 MCUs, every MCU decoding to black. *)
Definition gray300x450 : Decoder :=
  {| init_status := 0;
     imageInfo := {| m_width := 300; m_height := 450; m_comps := 1;
                     m_MCUSPerRow := 38; m_MCUSPerCol := 57;
                     m_MCUWidth := 8; m_MCUHeight := 8 |};
     decode_mcu := fun _ =>
       {| mcuStatus := 0; m_pMCUBufR := Buf.zeros 64;
          m_pMCUBufG := []; m_pMCUBufB := [] |} |}.

(** The options with Floyd-Steinberg diffusion selected instead of
    Atkinson. *)
Definition floydSteinberg_config : Config := {|
  USE_ATKINSON := false;
  USE_FLOYD_STEINBERG := true;
  USE_NOISE_DITHERING := false;
  USE_BRIGHTNESS := USE_BRIGHTNESS default_config;
  BRIGHTNESS_BOOST := BRIGHTNESS_BOOST default_config;
  GAMMA_CORRECTION := GAMMA_CORRECTION default_config;
  CONTRAST_FACTOR := CONTRAST_FACTOR default_config;
  USE_PRESCALE := USE_PRESCALE default_config;
  TARGET_MAX_WIDTH := TARGET_MAX_WIDTH default_config;
  TARGET_MAX_HEIGHT := TARGET_MAX_HEIGHT default_config
|}.

(** The order in which the specification has a row visited: from right to
    left on a row the Floyd-Steinberg ditherer marks as reverse. *)
Definition serpentineOrder (d : Ditherer) (outWidth : Z) : list Z :=
  match d with
  | UseFloydSteinberg f =>
      if FloydSteinberg.isReverseRow f
      then rev (Buf.range outWidth) else Buf.range outWidth
  | _ => Buf.range outWidth
  end.

(** The row loop as the specification words it: [packRow] with the pixels
    visited in serpentine order. *)
Definition packRow_serpentine (cfg : Config)
  (bitsPerPixel outWidth bytesPerRow : Z) (grayAt : Z -> Z) (y : Z)
  (d : Ditherer) : Ditherer * list Z :=
  let levelCount := Z.shiftl 1 bitsPerPixel in
  let rowBuffer := Buf.zeros bytesPerRow in
  if bitsPerPixel =? 8 then
    (d, fold_left
          (fun rb x => Buf.set rb x (C.u8 (adjustPixel cfg (grayAt x))))
          (Buf.range outWidth) rowBuffer)
  else
    let '(d', rb) :=
      fold_left (packPixel cfg bitsPerPixel levelCount grayAt y)
        (serpentineOrder d outWidth) (d, rowBuffer) in
    (advanceRow d', rb).


(** An 820x1230 colour image in 16x16 MCUs. *)
Definition info820x1230 : pjpeg_image_info :=
  {| m_width := 820; m_height := 1230; m_comps := 3;
     m_MCUSPerRow := 52; m_MCUSPerCol := 77;
     m_MCUWidth := 16; m_MCUHeight := 16 |}.

(** A 1000x1500 colour image in 16x16 MCUs. *)
Definition info1000x1500 : pjpeg_image_info :=
  {| m_width := 1000; m_height := 1500; m_comps := 3;
     m_MCUSPerRow := 63; m_MCUSPerCol := 94;
     m_MCUWidth := 16; m_MCUHeight := 16 |}.

(** A 16x16 grayscale image in four 8x8 MCUs, every sample 100. *)
Definition gray16x16 : Decoder :=
  {| init_status := 0;
     imageInfo := {| m_width := 16; m_height := 16; m_comps := 1;
                     m_MCUSPerRow := 2; m_MCUSPerCol := 2;
                     m_MCUWidth := 8; m_MCUHeight := 8 |};
     decode_mcu := fun _ =>
       {| mcuStatus := 0; m_pMCUBufR := repeat 100 64;
          m_pMCUBufG := []; m_pMCUBufB := [] |} |}.

(** A scale factor that is not positive, or a normal number at most
    [1 - 2^-12]. *)
Definition smallScale (s : spec_float) : Prop :=
  F32.nonPositive s
  \/ exists m e,
       s = S754_finite false m e
       /\ 2 ^ 23 <= Z.pos m < 2 ^ 24
       /\ -55 <= e <= 9
       /\ (IZR (Z.pos m) * powerRZ 2 e <= 1 - / 4096)%R.

(** A normal scale factor of at least [1 - 2^-20]. *)
Definition bigScale (s : spec_float) : Prop :=
  exists m e,
    s = S754_finite false m e
    /\ 2 ^ 23 <= Z.pos m < 2 ^ 24
    /\ (1 - / 1048576 <= IZR (Z.pos m) * powerRZ 2 e)%R.

(** ** Reading the output back, and the states the proofs speak of *)

(** The other fields of the header, and the palette entry of an index. *)
Definition dataOffsetField (bmp : list Z) : Z := le32 (slice 10 4 bmp).
Definition headerSizeField (bmp : list Z) : Z := le32 (slice 14 4 bmp).
Definition planesField (bmp : list Z) : Z := le16 (slice 26 2 bmp).
Definition compressionField (bmp : list Z) : Z := le32 (slice 30 4 bmp).
Definition colorsUsedField (bmp : list Z) : Z := le32 (slice 46 4 bmp).
Definition colorsImportantField (bmp : list Z) : Z := le32 (slice 50 4 bmp).

Definition paletteEntry (bmp : list Z) (index : Z) : list Z :=
  slice (54 + 4 * Z.to_nat index) 4 bmp.

(** A value of [uint8_t]. *)
Definition isByte (b : Z) : Prop := 0 <= b <= 255.

(** The palette index a BMP reader takes for pixel [x] of a packed row:
    [bitsPerPixel] bits, the leftmost pixel in the most significant bits of
    its byte. *)
Definition pixelAt (row : list Z) (x bitsPerPixel : Z) : Z :=
  let bitPos := x * bitsPerPixel in
  Z.land (Z.shiftr (Buf.get row (bitPos / 8))
                   (8 - bitsPerPixel - bitPos mod 8))
         (Z.ones bitsPerPixel).

(** Every cell of an error row is within [bound] of zero. *)
Definition cellsWithin (bound : Z -> Z) (row : list Z) : Prop :=
  forall i, - bound i <= Buf.get row i <= bound i.

(** An Atkinson ditherer between two rows: the row about to be dithered has
    received at most four shares, the next one at most one, the last one
    none; a share is at most 32. *)
Definition atkinsonRowStart (d : Atkinson.t) : Prop :=
  cellsWithin (fun _ => 128) (Atkinson.errorRow0 d)
  /\ cellsWithin (fun _ => 32) (Atkinson.errorRow1 d)
  /\ cellsWithin (fun _ => 0) (Atkinson.errorRow2 d).

(** The same within a row, before pixel [x]: the shares of the pixels
    already done are added. *)
Definition atkinsonBefore (x : Z) (d : Atkinson.t) : Prop :=
  cellsWithin (fun i => 32 * (4 + Z.b2z (i <? x + 3) + Z.b2z (i <? x + 4)))
    (Atkinson.errorRow0 d)
  /\ cellsWithin (fun i => 32 * (1 + Z.b2z (i <? x + 1) + Z.b2z (i <? x + 2)
                                 + Z.b2z (i <? x + 3)))
       (Atkinson.errorRow1 d)
  /\ cellsWithin (fun i => 32 * Z.b2z (i <? x + 2)) (Atkinson.errorRow2 d).

(** The pixels of one row handed to the Atkinson ditherer in turn. *)
Definition atkinsonRow (cfg : Config) (grayAt : Z -> Z) (xs : list Z)
  (d : Atkinson.t) : Atkinson.t :=
  fold_left (fun d x => fst (Atkinson.processPixel cfg d (grayAt x) x)) xs d.

(** A Floyd-Steinberg ditherer between two rows: a cell of the row about to
    be dithered has received at most the three shares 3/16, 5/16 and 1/16 of
    errors of at most 255, the next row none. *)
Definition floydSteinbergRowStart (d : FloydSteinberg.t) : Prop :=
  cellsWithin (fun _ => 144) (FloydSteinberg.errorCurRow d)
  /\ cellsWithin (fun _ => 0) (FloydSteinberg.errorNextRow d).

(** The same within a row that distributes in direction [reverse], before
    pixel [x]. *)
Definition floydSteinbergBefore (reverse : bool) (x : Z)
  (d : FloydSteinberg.t) : Prop :=
  cellsWithin
    (fun i => 144 + 112 * Z.b2z (i <? (if reverse then x else x + 2)))
    (FloydSteinberg.errorCurRow d)
  /\ cellsWithin
       (fun i => 48 * Z.b2z (i <? (if reverse then x + 2 else x))
                 + 80 * Z.b2z (i <? x + 1)
                 + 16 * Z.b2z (i <? (if reverse then x else x + 2)))
       (FloydSteinberg.errorNextRow d).

(** The pixels of one row handed to the Floyd-Steinberg ditherer in turn. *)
Definition floydSteinbergRow (cfg : Config) (grayAt : Z -> Z)
  (reverse : bool) (xs : list Z) (d : FloydSteinberg.t) : FloydSteinberg.t :=
  fold_left
    (fun d x => fst (FloydSteinberg.processPixel cfg d (grayAt x) x reverse))
    xs d.

(** The bytes a context has still to deliver: what is left in its buffer,
    then what the platform reads to come will bring. *)
Definition pending (ctx : JpegReadContext) : list Z :=
  firstn (Z.to_nat (bufferFilled ctx - bufferPos ctx))
    (skipn (Z.to_nat (bufferPos ctx)) (buffer ctx))
  ++ concat (map rd_bytes (reads (file ctx))).

(** The read position and the fill mark lie within the buffer. *)
Definition windowOk (ctx : JpegReadContext) : Prop :=
  0 <= bufferPos ctx
  /\ bufferFilled ctx <= Z.of_nat (length (buffer ctx)).

(** A platform read that reports the number of bytes it stored. *)
Definition countsItsBytes (o : ReadOutcome) : Prop :=
  rd_count o = Z.of_nat (length (rd_bytes o)).

(** The decoder calling the callback [n] times in a row with a buffer of
    [buf_size] bytes: the bytes it receives, in order, and the context
    left. *)
Fixpoint pullBytes (errorCode : Z) (buf_size : Z) (n : nat)
  (ctx : JpegReadContext) : list Z * JpegReadContext :=
  match n with
  | O => ([], ctx)
  | S n' =>
      let r := jpegReadCallback errorCode (Some ctx) buf_size in
      match context r with
      | Some ctx' =>
          let '(bytes, last) := pullBytes errorCode buf_size n' ctx' in
          (pBuf r ++ bytes, last)
      | None => (pBuf r, ctx)
      end
  end.

(** A file of five bytes that the platform hands over in two reads, behind
    a context that has read nothing yet. *)
Definition fiveByteContext : JpegReadContext :=
  {| file := {| is_open := true;
                reads := [ {| rd_failed := false; rd_count := 3;
                              rd_bytes := [255; 216; 255] |};
                           {| rd_failed := false; rd_count := 2;
                              rd_bytes := [224; 0] |} ] |};
     buffer := Buf.zeros 8; bufferPos := 0; bufferFilled := 0 |}.

(** The first source column that output column [outX] averages: the
    fixed-point product [outX * scaleX_fp], shifted back. *)
Definition srcXStart (plan : ScalePlan) (outX : Z) : Z :=
  outX * scaleX_fp plan / 65536.

(** The sum of the samples of the columns from [a] up to [b], [b] left
    out. *)
Definition sampleSum (srcRow : Z -> Z) (a b : Z) : Z :=
  Buf.sum (map (fun k => srcRow (a + k)) (Buf.range (b - a))).

(** The row buffer cannot be obtained. *)
Definition noRowBuffer : Memory :=
  {| rowBuffer_ok := false; mcuRowBuffer_ok := true |}.

(** The gray sample that the converter takes from place [(blockX, blockY)]
    of a decoded MCU: the 8x8 block the place lies in, the offset within
    it, and the weighted sum of the three planes of a colour image. *)
Definition mcuGray (info : pjpeg_image_info) (m : McuResult)
  (blockX blockY : Z) : Z :=
  let blockCol := C.sdiv blockX 8 in
  let blockRow := C.sdiv blockY 8 in
  let localX := Z.rem blockX 8 in
  let localY := Z.rem blockY 8 in
  let blocksPerRow := C.sdiv (m_MCUWidth info) 8 in
  let blockIndex := blockRow * blocksPerRow + blockCol in
  let pixelOffset := blockIndex * 64 + localY * 8 + localX in
  if m_comps info =? 1 then C.u8 (Buf.get (m_pMCUBufR m) pixelOffset)
  else
    let r := C.u8 (Buf.get (m_pMCUBufR m) pixelOffset) in
    let g := C.u8 (Buf.get (m_pMCUBufG m) pixelOffset) in
    let b := C.u8 (Buf.get (m_pMCUBufB m) pixelOffset) in
    C.u8 (C.sdiv (r * 25 + g * 50 + b * 25) 100).

(** The gray sample of pixel [(x, y)] of the decoded image: the MCUs come
    row by row, [m_MCUSPerRow] to a row. *)
Definition sampleAt (dec : Decoder) (x y : Z) : Z :=
  let info := imageInfo dec in
  mcuGray info
    (decode_mcu dec
       (Z.to_nat (y / m_MCUHeight info * m_MCUSPerRow info
                  + x / m_MCUWidth info)))
    (x mod m_MCUWidth info) (y mod m_MCUHeight info).

(** Rows packed one after the other, the ditherer carried along: row [y]
    takes its samples from [grayAt x y]. *)
Definition packRows (cfg : Config) (bitsPerPixel outWidth bytesPerRow : Z)
  (grayAt : Z -> Z -> Z) (ys : list Z) (start : list Z * Ditherer)
  : list Z * Ditherer :=
  fold_left
    (fun '(out, d) y =>
       let '(d', row) :=
         packRow cfg bitsPerPixel outWidth bytesPerRow
           (fun x => grayAt x y) y d in
       (out ++ row, d'))
    ys start.

(** The MCU row buffer holds the samples of the MCU row that begins at
    source row [startRow]. *)
Definition holdsMcuRow (dec : Decoder) (startRow : Z) (buf : list Z) : Prop :=
  forall x y,
    0 <= x < m_width (imageInfo dec) ->
    startRow <= y < startRow + m_MCUHeight (imageInfo dec) ->
    Buf.get buf ((y - startRow) * m_width (imageInfo dec) + x)
    = sampleAt dec x y.

(** The state with another MCU row decoded: the call counter and the MCU row
    buffer change, nothing else. *)
Definition withMcuRow (wk : Work) (c : nat) (buf : list Z) : Work :=
  {| sink := sink wk; ditherer := ditherer wk;
     rowAccum := rowAccum wk; rowCount := rowCount wk;
     currentOutY := currentOutY wk;
     nextOutY_srcStart := nextOutY_srcStart wk;
     calls := c; mcuRowBuffer := buf |}.

(** The rows above [y] are in the sink, packed from the samples [grayAt],
    and the ditherer is the one they leave. *)
Definition rowsDone (cfg : Config) (plan : ScalePlan) (bitsPerPixel : Z)
  (grayAt : Z -> Z -> Z) (start : list Z * Ditherer) (y : Z) (wk : Work)
  : Prop :=
  (sink wk, ditherer wk)
  = packRows cfg bitsPerPixel (outWidth plan)
      (getBytesPerRow (outWidth plan) bitsPerPixel) grayAt (Buf.range y) start.

(** The first source row that output row [outY] averages: the least [y]
    with [y * 65536 >= outY * scaleY_fp]. *)
Definition srcYStart (plan : ScalePlan) (outY : Z) : Z :=
  (outY * scaleY_fp plan + 65535) / 65536.

(** The samples of source row [y] that output column [outX] takes, summed;
    the same over the [n] rows from [y0] on. *)
Definition rowSum (dec : Decoder) (plan : ScalePlan) (outX y : Z) : Z :=
  sampleSum (fun x => sampleAt dec x y)
    (srcXStart plan outX) (srcXStart plan (outX + 1)).

Definition rowsSum (dec : Decoder) (plan : ScalePlan) (outX y0 n : Z) : Z :=
  Buf.sum (map (fun k => rowSum dec plan outX (y0 + k)) (Buf.range n)).

(** The block of source pixels behind output pixel [(outX, outY)]: how many
    they are, the sum of their samples, and their mean rounded down. *)
Definition blockCount (plan : ScalePlan) (outX outY : Z) : Z :=
  (srcYStart plan (outY + 1) - srcYStart plan outY)
  * (srcXStart plan (outX + 1) - srcXStart plan outX).

Definition blockSum (dec : Decoder) (plan : ScalePlan) (outX outY : Z) : Z :=
  rowsSum dec plan outX (srcYStart plan outY)
    (srcYStart plan (outY + 1) - srcYStart plan outY).

Definition blockMean (dec : Decoder) (plan : ScalePlan) (outX outY : Z) : Z :=
  blockSum dec plan outX outY / blockCount plan outX outY.

(** The state of a scaling conversion before source row [y]: the output
    rows due are in the sink, each pixel the mean of its block, and the
    accumulators hold the rows of the block under way. *)
Definition blocksDone (cfg : Config) (dec : Decoder) (plan : ScalePlan)
  (bitsPerPixel : Z) (start : list Z * Ditherer) (y : Z) (wk : Work)
  : Prop :=
  let outY := currentOutY wk in
  outY = rowsDue plan y
  /\ nextOutY_srcStart wk = (outY + 1) * scaleY_fp plan
  /\ rowsDone cfg plan bitsPerPixel (blockMean dec plan) start outY wk
  /\ Z.of_nat (length (rowAccum wk)) = outWidth plan
  /\ Z.of_nat (length (rowCount wk)) = outWidth plan
  /\ (outY < outHeight plan ->
      forall outX, 0 <= outX < outWidth plan ->
        Buf.get (rowAccum wk) outX
        = rowsSum dec plan outX (srcYStart plan outY)
            (y - srcYStart plan outY)
        /\ Buf.get (rowCount wk) outX
           = (y - srcYStart plan outY)
             * (srcXStart plan (outX + 1) - srcXStart plan outX)).

(** * Properties *)

(** ** Buffers *)

Lemma length_set_nat (l : list Z) (i : nat) (v : Z) :
  length (Buf.set_nat l i v) = length l.
Proof.
  revert i; induction l as [|h t IH]; intros [|j]; simpl; auto.
Qed.

Lemma length_set (l : list Z) (i v : Z) : length (Buf.set l i v) = length l.
Proof.
  unfold Buf.set; destruct (i <? 0); auto using length_set_nat.
Qed.

Lemma length_zeros (n : Z) : length (Buf.zeros n) = Z.to_nat n.
Proof. unfold Buf.zeros; apply repeat_length. Qed.

Lemma nth_set_nat (l : list Z) (i j : nat) (v : Z) :
  nth j (Buf.set_nat l i v) 0 =
  if (Nat.eqb i j && Nat.ltb i (length l))%bool then v else nth j l 0.
Proof.
  revert i j; induction l as [|h t IH]; intros i j.
  - simpl; rewrite Bool.andb_false_r; destruct i, j; reflexivity.
  - destruct i as [|i], j as [|j]; simpl; auto.
Qed.

Lemma get_set (l : list Z) (i j v : Z) :
  0 <= i ->
  Buf.get (Buf.set l i v) j =
  if (i =? j) && (i <? Z.of_nat (length l)) then v else Buf.get l j.
Proof.
  intros Hi; unfold Buf.get, Buf.set.
  destruct (Z.ltb_spec i 0); [lia|].
  destruct (Z.ltb_spec j 0).
  - destruct (Z.eqb_spec i j); [lia | reflexivity].
  - rewrite nth_set_nat.
    destruct (Z.eqb_spec i j) as [->|Hne].
    + rewrite Nat.eqb_refl; simpl.
      destruct (Z.ltb_spec j (Z.of_nat (length l)));
        destruct (Nat.ltb_spec (Z.to_nat j) (length l)); auto; lia.
    + destruct (Nat.eqb_spec (Z.to_nat i) (Z.to_nat j)); [lia | reflexivity].
Qed.

Lemma get_zeros (n i : Z) : Buf.get (Buf.zeros n) i = 0.
Proof.
  unfold Buf.get, Buf.zeros; destruct (i <? 0); auto.
  generalize (Z.to_nat i); induction (Z.to_nat n) as [|k IH]; intros [|j];
    simpl; auto.
Qed.

Lemma sum_set_nat (l : list Z) (i : nat) (v : Z) :
  (i < length l)%nat ->
  Buf.sum (Buf.set_nat l i v) = Buf.sum l - nth i l 0 + v.
Proof.
  revert i; induction l as [|h t IH]; intros [|i] Hi; simpl in *; try lia.
  rewrite IH by lia; lia.
Qed.

Lemma sum_set (l : list Z) (i v : Z) :
  0 <= i < Z.of_nat (length l) ->
  Buf.sum (Buf.set l i v) = Buf.sum l - Buf.get l i + v.
Proof.
  intros Hi; unfold Buf.set, Buf.get.
  destruct (Z.ltb_spec i 0); [lia|].
  apply sum_set_nat; lia.
Qed.

Lemma length_range (n : Z) : length (Buf.range n) = Z.to_nat n.
Proof. unfold Buf.range; rewrite length_map, length_seq; reflexivity. Qed.

Lemma range_succ (n : Z) :
  0 <= n -> Buf.range (n + 1) = Buf.range n ++ [n].
Proof.
  intros Hn; unfold Buf.range.
  replace (Z.to_nat (n + 1)) with (S (Z.to_nat n)) by lia.
  rewrite seq_S, map_app; simpl; rewrite Z2Nat.id by lia; reflexivity.
Qed.

Lemma in_range (n x : Z) : In x (Buf.range n) <-> 0 <= x < n.
Proof.
  unfold Buf.range; rewrite in_map_iff; split.
  - intros (k & <- & Hk); apply in_seq in Hk; lia.
  - intros Hx; exists (Z.to_nat x); split; [lia | apply in_seq; lia].
Qed.

(** ** Machine integers *)

Lemma sar_div (a n : Z) : 0 <= n -> C.sar a n = a / 2 ^ n.
Proof. intros; unfold C.sar; apply Z.shiftr_div_pow2; assumption. Qed.

Lemma i16_small (z : Z) : -32768 <= z < 32768 -> C.i16 z = z.
Proof.
  intros Hz; unfold C.i16; rewrite Z.mod_small; lia.
Qed.

Lemma u8_small (z : Z) : 0 <= z < 256 -> C.u8 z = z.
Proof. intros; unfold C.u8; apply Z.mod_small; assumption. Qed.

Lemma u32_small (z : Z) : 0 <= z < 4294967296 -> C.u32 z = z.
Proof. intros; unfold C.u32; apply Z.mod_small; assumption. Qed.

(** ** Row byte width (claim C8) *)

Lemma Qceiling_quotient (n : Z) (d : positive) :
  Qceiling (inject_Z n / inject_Z (Z.pos d)) = - ((- n) / Z.pos d).
Proof.
  unfold Qceiling, Qfloor, Qdiv, Qmult, Qinv, Qopp, inject_Z; simpl.
  rewrite Z.mul_1_r; reflexivity.
Qed.

(** C8.  For a width that is not negative, [getBytesPerRow] is
    [ceil(width/4)*4] at 8 bits per pixel, [ceil(width*2/32)*4] at 2 bits per
    pixel and [ceil(width/32)*4] at 1 bit per pixel; for width 480 this is
    480, 120 and 60. *)
Theorem getBytesPerRow_is_aligned_ceiling (width : Z) (Hw : 0 <= width) :
  getBytesPerRow width 8 = Qceiling (inject_Z width / 4) * 4
  /\ getBytesPerRow width 2 = Qceiling (inject_Z (width * 2) / 32) * 4
  /\ getBytesPerRow width 1 = Qceiling (inject_Z width / 32) * 4
  /\ getBytesPerRow 480 2 = 120
  /\ getBytesPerRow 480 1 = 60
  /\ getBytesPerRow 480 8 = 480.
Proof.
  change 4%Q with (inject_Z (Z.pos 4)); change 32%Q with (inject_Z (Z.pos 32)).
  rewrite !Qceiling_quotient.
  unfold getBytesPerRow, C.sdiv; simpl Z.eqb; cbv iota.
  repeat split; try reflexivity.
  all: rewrite Z.quot_div_nonneg by lia.
  all: pose proof (Z.div_mod (width + 3) 4); pose proof (Z.mod_pos_bound (width + 3) 4);
    pose proof (Z.div_mod (- width) 4); pose proof (Z.mod_pos_bound (- width) 4);
    pose proof (Z.div_mod (width * 2 + 31) 32); pose proof (Z.mod_pos_bound (width * 2 + 31) 32);
    pose proof (Z.div_mod (- (width * 2)) 32); pose proof (Z.mod_pos_bound (- (width * 2)) 32);
    pose proof (Z.div_mod (width + 31) 32); pose proof (Z.mod_pos_bound (width + 31) 32);
    pose proof (Z.div_mod (- width) 32); pose proof (Z.mod_pos_bound (- width) 32);
    lia.
Qed.

Lemma getBytesPerRow_is_aligned_ceiling_witness :
  0 <= 300
  /\ getBytesPerRow 300 2 = Qceiling (inject_Z (300 * 2) / 32) * 4.
Proof.
  split; [lia | apply (getBytesPerRow_is_aligned_ceiling 300); lia].
Defined.

(** ** Tone mapper and quantizers *)

Lemma applyGamma_range (cfg : Config) (g : Z) :
  0 <= g <= 255 -> 0 <= applyGamma cfg g <= 255.
Proof.
  intros Hg; unfold applyGamma.
  destruct (GAMMA_CORRECTION cfg); simpl; [|lia].
  destruct (Z.ltb_spec 0 g).
  - set (x1 := C.sar (g + C.sdiv (g * 255) g) 1).
    assert (H1 : 0 < x1).
    { unfold x1, C.sdiv. rewrite (Z.mul_comm g 255), Z.quot_mul by lia.
      rewrite sar_div by lia. change (2 ^ 1) with 2.
      apply Z.div_str_pos; lia. }
    assert (H2 : 0 <= C.sar (x1 + C.sdiv (g * 255) x1) 1).
    { rewrite sar_div by lia. apply Z.div_pos; [|lia].
      unfold C.sdiv.
      pose proof (Z.quot_pos (g * 255) x1); lia. }
    destruct (Z.ltb_spec 255 (C.sar (x1 + C.sdiv (g * 255) x1) 1)); lia.
  - destruct (Z.ltb_spec 255 g); lia.
Qed.

Lemma applyContrast_range (cfg : Config) (g : Z) :
  0 <= applyContrast cfg g <= 255.
Proof.
  unfold applyContrast.
  repeat match goal with |- context [?a <? ?b] => destruct (Z.ltb_spec a b) end;
    lia.
Qed.

Lemma adjustPixel_range (cfg : Config) (g : Z) :
  0 <= g <= 255 -> 0 <= adjustPixel cfg g <= 255.
Proof.
  intros Hg; unfold adjustPixel.
  destruct (USE_BRIGHTNESS cfg); simpl; [|lia].
  apply applyGamma_range.
  pose proof (applyContrast_range cfg g).
  repeat match goal with |- context [?a <? ?b] => destruct (Z.ltb_spec a b) end;
    lia.
Qed.

Lemma levelOf_range (gray levelCount : Z) :
  0 <= gray -> 1 <= levelCount -> 0 <= levelOf gray levelCount <= levelCount - 1.
Proof.
  intros Hg Hl; unfold levelOf.
  assert (0 <= gray * levelCount / 256) by (apply Z.div_pos; nia).
  lia.
Qed.

Lemma quantizeAdjustedWithValue_spec (gray levelCount : Z) :
  0 <= gray <= 255 -> 2 <= levelCount <= 256 ->
  quantizeAdjustedWithValue gray levelCount =
  (levelOf gray levelCount, levelOf gray levelCount * 255 / (levelCount - 1)).
Proof.
  intros Hg Hl; unfold quantizeAdjustedWithValue.
  destruct (Z.leb_spec levelCount 1); [lia|].
  destruct (Z.ltb_spec gray 0); [lia|].
  destruct (Z.ltb_spec 255 gray); [lia|].
  rewrite sar_div by lia; change (2 ^ 8) with 256.
  pose proof (levelOf_range gray levelCount ltac:(lia) ltac:(lia)) as Hr.
  assert (Hlev : (if levelCount <=? gray * levelCount / 256
                  then levelCount - 1 else gray * levelCount / 256)
                 = levelOf gray levelCount).
  { unfold levelOf.
    destruct (Z.leb_spec levelCount (gray * levelCount / 256)); lia. }
  rewrite Hlev.
  destruct (Z.ltb_spec 0 (levelCount - 1)); [|lia].
  rewrite u8_small by lia.
  unfold C.sdiv; rewrite Z.quot_div_nonneg by lia; reflexivity.
Qed.

Lemma quantizeAdjustedSimple_spec (gray levelCount : Z) :
  0 <= gray <= 255 -> 2 <= levelCount <= 256 ->
  quantizeAdjustedSimple gray levelCount = levelOf gray levelCount.
Proof.
  intros Hg Hl; unfold quantizeAdjustedSimple.
  destruct (Z.leb_spec levelCount 1); [lia|].
  destruct (Z.ltb_spec gray 0); [lia|].
  destruct (Z.ltb_spec 255 gray); [lia|].
  rewrite sar_div by lia; change (2 ^ 8) with 256.
  pose proof (levelOf_range gray levelCount ltac:(lia) ltac:(lia)) as Hr.
  unfold levelOf in *.
  destruct (Z.leb_spec levelCount (gray * levelCount / 256));
    rewrite u8_small; lia.
Qed.

Lemma quantizeNoise_range (cfg : Config) (gray x y levelCount : Z) :
  0 <= gray <= 255 -> 2 <= levelCount <= 256 ->
  0 <= quantizeNoise cfg gray x y levelCount <= levelCount - 1.
Proof.
  intros Hg Hl; unfold quantizeNoise.
  destruct (Z.leb_spec levelCount 1); [lia|].
  pose proof (adjustPixel_range cfg gray Hg) as Ha.
  set (g := adjustPixel cfg gray) in *.
  rewrite sar_div by lia; change (2 ^ 8) with 256.
  assert (H0 : 0 <= g * levelCount / 256) by (apply Z.div_pos; nia).
  match goal with |- context [C.u8 ?e] => assert (Hr : 0 <= e <= levelCount - 1) end.
  { destruct (Z.leb_spec levelCount (g * levelCount / 256)).
    - destruct (Z.ltb_spec (levelCount - 1) (levelCount - 1)); simpl; lia.
    - destruct (Z.ltb_spec (g * levelCount / 256) (levelCount - 1)); simpl.
      + match goal with |- context [if ?b then _ else _] => destruct b end; lia.
      + lia. }
  rewrite u8_small; lia.
Qed.

(** ** Packing of palette indices (claim C10) *)

Lemma testbit_small_shifted (v n off j : Z) :
  0 <= v < 2 ^ n -> 0 <= n -> 0 <= j ->
  (j - off < 0 \/ n <= j - off) ->
  Z.testbit (Z.shiftl v off) j = false.
Proof.
  intros Hv Hn Hj Hout.
  rewrite Z.shiftl_spec by assumption.
  destruct Hout as [Hneg|Hhigh].
  - apply Z.testbit_neg_r; assumption.
  - rewrite <- (Z.mod_small v (2 ^ n)) by assumption.
    apply Z.mod_pow2_bits_high; lia.
Qed.

Lemma writeIndexedPixel_is_local (row : list Z) (x bpp v p : Z) :
  bpp = 1 \/ bpp = 2 \/ bpp = 8 ->
  0 <= x -> 0 <= v < 2 ^ bpp -> 0 <= p ->
  ~ (x * bpp <= p < (x + 1) * bpp) ->
  rowBit (writeIndexedPixel row x bpp v) p = rowBit row p.
Proof.
  intros Hb Hx Hv Hp Hout.
  unfold rowBit, writeIndexedPixel.
  rewrite sar_div by lia; change (2 ^ 3) with 8.
  assert (H8 : 0 <= x * bpp / 8) by (apply Z.div_pos; nia).
  rewrite get_set by assumption.
  destruct (Z.eqb_spec (x * bpp / 8) (p / 8)) as [Heq|Hne]; [|reflexivity].
  destruct (x * bpp / 8 <? Z.of_nat (length row)); [|reflexivity].
  cbn [andb]; rewrite Z.lor_spec, Heq.
  replace (Z.testbit (C.u8 _) _) with false; [apply Bool.orb_false_r|].
  symmetry.
  pose proof (Z.mod_pos_bound p 8 ltac:(lia)) as Hp8.
  unfold C.u8; change 256 with (2 ^ 8).
  rewrite Z.mod_pow2_bits_low by lia.
  change 7 with (Z.ones 3) at 1; rewrite Z.land_ones by lia; change (2 ^ 3) with 8.
  apply testbit_small_shifted with (n := bpp); try lia.
  pose proof (Z.div_mod p 8 ltac:(lia)).
  pose proof (Z.div_mod (x * bpp) 8 ltac:(lia)).
  pose proof (Z.mod_pos_bound (x * bpp) 8 ltac:(lia)).
  lia.
Qed.

Lemma atkinson_level (cfg : Config) (d : Atkinson.t) (gray x : Z) :
  2 <= Atkinson.levelCount d <= 256 ->
  snd (Atkinson.processPixel cfg d gray x) =
  levelOf (Z.max 0 (Z.min 255 (adjustPixel cfg gray
                                + Buf.get (Atkinson.errorRow0 d) (x + 2))))
          (Atkinson.levelCount d).
Proof.
  intros Hl; unfold Atkinson.processPixel.
  set (a0 := adjustPixel cfg gray + Buf.get (Atkinson.errorRow0 d) (x + 2)).
  set (a1 := if a0 <? 0 then 0 else a0).
  set (a2 := if 255 <? a1 then 255 else a1).
  assert (Ha : a2 = Z.max 0 (Z.min 255 a0)).
  { unfold a2, a1; destruct (Z.ltb_spec a0 0);
      [destruct (Z.ltb_spec 255 0) | destruct (Z.ltb_spec 255 a0)]; lia. }
  rewrite quantizeAdjustedWithValue_spec by lia.
  simpl; rewrite Ha; reflexivity.
Qed.

Lemma floydSteinberg_level (cfg : Config) (d : FloydSteinberg.t) (gray x : Z)
  (rev : bool) :
  2 <= FloydSteinberg.levelCount d <= 256 ->
  snd (FloydSteinberg.processPixel cfg d gray x rev) =
  levelOf (Z.max 0 (Z.min 255 (adjustPixel cfg gray
                                + Buf.get (FloydSteinberg.errorCurRow d) (x + 1))))
          (FloydSteinberg.levelCount d).
Proof.
  intros Hl; unfold FloydSteinberg.processPixel.
  set (a0 := adjustPixel cfg gray + Buf.get (FloydSteinberg.errorCurRow d) (x + 1)).
  set (a1 := if a0 <? 0 then 0 else a0).
  set (a2 := if 255 <? a1 then 255 else a1).
  assert (Ha : a2 = Z.max 0 (Z.min 255 a0)).
  { unfold a2, a1; destruct (Z.ltb_spec a0 0);
      [destruct (Z.ltb_spec 255 0) | destruct (Z.ltb_spec 255 a0)]; lia. }
  rewrite quantizeAdjustedWithValue_spec by lia.
  destruct rev; simpl; rewrite Ha; reflexivity.
Qed.

Lemma levelCount_pow2 (bpp : Z) :
  bpp = 1 \/ bpp = 2 \/ bpp = 8 ->
  Z.shiftl 1 bpp = 2 ^ bpp /\ 2 <= 2 ^ bpp <= 256.
Proof. intros [H|[H|H]]; subst bpp; split; try reflexivity; simpl; lia. Qed.

(** C10.  At a supported depth, with [levelCount = 2^bitsPerPixel], the
    palette index given by each of the four policies (plain, hash-noise,
    Atkinson, Floyd-Steinberg) lies in [0, levelCount - 1]; and packing such
    an index with [writeIndexedPixel] leaves every bit of the row outside the
    [bitsPerPixel] bits of pixel [x] as it was. *)
Theorem palette_index_fits_its_pixel (cfg : Config) (bitsPerPixel gray x y : Z)
  (a : Atkinson.t) (f : FloydSteinberg.t) (reverse : bool)
  (Hdepth : bitsPerPixel = 1 \/ bitsPerPixel = 2 \/ bitsPerPixel = 8)
  (Hgray : 0 <= gray <= 255)
  (Hx : 0 <= x)
  (Ha : Atkinson.levelCount a = Z.shiftl 1 bitsPerPixel)
  (Hf : FloydSteinberg.levelCount f = Z.shiftl 1 bitsPerPixel) :
  let levelCount := Z.shiftl 1 bitsPerPixel in
  levelCount = 2 ^ bitsPerPixel
  /\ Forall
       (fun v =>
          0 <= v <= levelCount - 1
          /\ forall row p,
               0 <= p -> ~ (x * bitsPerPixel <= p < (x + 1) * bitsPerPixel) ->
               rowBit (writeIndexedPixel row x bitsPerPixel v) p = rowBit row p)
       [ quantizeSimple cfg gray levelCount;
         quantizeNoise cfg gray x y levelCount;
         snd (Atkinson.processPixel cfg a gray x);
         snd (FloydSteinberg.processPixel cfg f gray x reverse) ].
Proof.
  intros levelCount.
  destruct (levelCount_pow2 bitsPerPixel Hdepth) as [Hpow Hrange].
  fold levelCount in Hpow, Ha, Hf.
  split; [assumption|].
  assert (Hpack : forall v, 0 <= v <= levelCount - 1 ->
            0 <= v <= levelCount - 1
            /\ forall row p,
                 0 <= p -> ~ (x * bitsPerPixel <= p < (x + 1) * bitsPerPixel) ->
                 rowBit (writeIndexedPixel row x bitsPerPixel v) p = rowBit row p).
  { intros v Hv; split; [assumption|].
    intros row p Hp Hout; apply writeIndexedPixel_is_local; auto; lia. }
  pose proof (adjustPixel_range cfg gray Hgray) as Hadj.
  repeat apply Forall_cons; try apply Forall_nil; apply Hpack.
  - unfold quantizeSimple; rewrite quantizeAdjustedSimple_spec by lia.
    apply levelOf_range; lia.
  - apply quantizeNoise_range; lia.
  - rewrite atkinson_level by lia; rewrite Ha; apply levelOf_range; lia.
  - rewrite floydSteinberg_level by lia; rewrite Hf; apply levelOf_range; lia.
Qed.

Lemma palette_index_fits_its_pixel_witness :
  Forall (fun v => 0 <= v <= 3)
    [ quantizeSimple default_config 200 4;
      quantizeNoise default_config 200 5 7 4;
      snd (Atkinson.processPixel default_config (Atkinson.make 8 4) 200 5);
      snd (FloydSteinberg.processPixel default_config
             (FloydSteinberg.make 8 4) 200 5 true) ].
Proof.
  pose proof (palette_index_fits_its_pixel default_config 2 200 5 7
                (Atkinson.make 8 4) (FloydSteinberg.make 8 4) true
                ltac:(lia) ltac:(lia) ltac:(lia) eq_refl eq_refl) as [_ H].
  eapply Forall_impl; [|exact H].
  intros v [Hv _]; exact Hv.
Defined.

(** ** Atkinson diffusion (claim C6) *)

Lemma length_bump (row : list Z) (i d : Z) : length (bump row i d) = length row.
Proof. unfold bump; apply length_set. Qed.

Lemma get_bump (row : list Z) (i d j : Z) :
  0 <= i < Z.of_nat (length row) ->
  -32768 <= Buf.get row i + d < 32768 ->
  Buf.get (bump row i d) j = Buf.get row j + (if i =? j then d else 0).
Proof.
  intros Hi Hd; unfold bump.
  rewrite get_set, i16_small by lia.
  destruct (Z.eqb_spec i j) as [->|]; cbn [andb]; [|lia].
  destruct (Z.ltb_spec j (Z.of_nat (length row))); lia.
Qed.

Lemma sum_bump (row : list Z) (i d : Z) :
  0 <= i < Z.of_nat (length row) ->
  -32768 <= Buf.get row i + d < 32768 ->
  Buf.sum (bump row i d) = Buf.sum row + d.
Proof.
  intros Hi Hd; unfold bump.
  rewrite sum_set, i16_small by lia; lia.
Qed.

(** A row to which the same amount is added at the places [ps], none of
    which overflows its [int16_t] cell. *)
Lemma bumps_spec (ps : list Z) (e : Z) :
  -32 <= e <= 32 ->
  NoDup ps ->
  forall row,
  (forall i, In i ps ->
     0 <= i < Z.of_nat (length row) /\ -16384 <= Buf.get row i <= 16383) ->
  let row' := fold_left (fun r i => bump r i e) ps row in
  length row' = length row
  /\ (forall j, Buf.get row' j
                = Buf.get row j + (if existsb (Z.eqb j) ps then e else 0))
  /\ Buf.sum row' = Buf.sum row + Z.of_nat (length ps) * e.
Proof.
  intros He; induction ps as [|i rest IH]; intros Hnd row Hin.
  - simpl; repeat split; intros; lia.
  - inversion Hnd as [|? ? Hni Hnd']; subst.
    destruct (Hin i (or_introl eq_refl)) as [Hi Hc].
    assert (Hv : -32768 <= Buf.get row i + e < 32768) by lia.
    cbn [fold_left].
    destruct (IH Hnd' (bump row i e)) as (Hl' & Hg' & Hs').
    + intros k Hk; rewrite length_bump, get_bump by assumption.
      destruct (Z.eqb_spec i k) as [->|]; [contradiction|].
      rewrite Z.add_0_r; apply Hin; right; assumption.
    + rewrite length_bump in Hl'.
      split; [assumption|]; split.
      * intros j; rewrite Hg', get_bump by assumption.
        cbn [existsb]; rewrite (Z.eqb_sym j i).
        destruct (Z.eqb_spec i j) as [->|]; cbn [orb]; [|lia].
        replace (existsb (Z.eqb j) rest) with false; [lia|].
        symmetry; apply Bool.not_true_is_false; intros Hex.
        apply existsb_exists in Hex; destruct Hex as (k & Hk & Hjk).
        apply Z.eqb_eq in Hjk; subst; contradiction.
      * rewrite Hs', sum_bump by assumption.
        cbn [length]; lia.
Qed.

Lemma atkinson_rows (cfg : Config) (d : Atkinson.t) (gray x : Z) :
  let adjusted := Z.max 0 (Z.min 255 (adjustPixel cfg gray
                                       + Buf.get (Atkinson.errorRow0 d) (x + 2))) in
  let error := C.sar (adjusted - snd (quantizeAdjustedWithValue adjusted
                                        (Atkinson.levelCount d))) 3 in
  let d' := fst (Atkinson.processPixel cfg d gray x) in
  Atkinson.errorRow0 d'
  = fold_left (fun r i => bump r i error) [x + 3; x + 4] (Atkinson.errorRow0 d)
  /\ Atkinson.errorRow1 d'
    = fold_left (fun r i => bump r i error) [x + 1; x + 2; x + 3]
        (Atkinson.errorRow1 d)
  /\ Atkinson.errorRow2 d'
    = fold_left (fun r i => bump r i error) [x + 2] (Atkinson.errorRow2 d).
Proof.
  intros adjusted error d'; unfold d', Atkinson.processPixel.
  set (a0 := adjustPixel cfg gray + Buf.get (Atkinson.errorRow0 d) (x + 2)).
  set (a1 := if a0 <? 0 then 0 else a0).
  set (a2 := if 255 <? a1 then 255 else a1).
  assert (Ha : a2 = adjusted).
  { unfold a2, a1, adjusted; fold a0; destruct (Z.ltb_spec a0 0);
      [destruct (Z.ltb_spec 255 0) | destruct (Z.ltb_spec 255 a0)]; lia. }
  rewrite Ha; fold error.
  unfold error.
  destruct (quantizeAdjustedWithValue adjusted (Atkinson.levelCount d)) as [q qv].
  simpl; repeat split; reflexivity.
Qed.



(** ** Stream adapter (claim C9) *)

(** A closed file handle with bytes still buffered: the callback answers
    with the error status although it performs no read at all, so the error
    status is not tied to a failing read. *)
Lemma read_error_without_failing_read :
  ~ (forall (code : Z) (ctx : option JpegReadContext) (K : Z),
       code <> 0 ->
       status (jpegReadCallback code ctx K) <> 0 ->
       exists o, In o (performed (jpegReadCallback code ctx K))
                 /\ rd_failed o = true).
Proof.
  intros H.
  destruct (H 1
              (Some {| file := {| is_open := false; reads := [] |};
                       buffer := [255; 216; 255; 224];
                       bufferPos := 0; bufferFilled := 4 |})
              4 ltac:(lia) ltac:(simpl; lia)) as (o & Hin & _).
  exact Hin.
Qed.

Lemma copyOut_status (ctx : JpegReadContext) (K : Z) (done : list ReadOutcome) :
  status (copyOut ctx K done) = 0 /\ performed (copyOut ctx K done) = done.
Proof. split; reflexivity. Qed.

(** C9, as the code has it.  On a request for up to [K] bytes the adapter
    returns the error status exactly when the context pointer is null or the
    file handle tests false.  Otherwise the status is success: with bytes
    left in the chunk buffer it copies [min K available] of them and performs
    no read; with the buffer exhausted it performs one read of the file, and
    reports zero bytes when that read delivers nothing, whether the read
    reached the end of the stream or failed, and otherwise copies
    [min K count] bytes from the start of the refilled buffer. *)
Theorem read_callback_contract (code : Z) (ctx : JpegReadContext) (K : Z)
  (Hcode : code <> 0)
  (HK : 0 <= K <= 255)
  (Hcounts : Forall (fun o => 0 <= rd_count o) (reads (file ctx))) :
  let r := jpegReadCallback code (Some ctx) K in
  status (jpegReadCallback code None K) = code
  /\ (status r <> 0 <-> is_open (file ctx) = false)
  /\ (is_open (file ctx) = true ->
      bufferPos ctx < bufferFilled ctx ->
      let n := Z.min K (bufferFilled ctx - bufferPos ctx) in
      status r = 0
      /\ performed r = []
      /\ pBytes_actually_read r = Some (C.u8 n)
      /\ pBuf r = firstn (Z.to_nat n) (skipn (Z.to_nat (bufferPos ctx)) (buffer ctx))
      /\ option_map bufferPos (context r) = Some (bufferPos ctx + n))
  /\ (is_open (file ctx) = true ->
      bufferFilled ctx <= bufferPos ctx ->
      let '(o, refilled, _) := file_read (file ctx) (buffer ctx) in
      let n := Z.min K (rd_count o) in
      status r = 0
      /\ performed r = [o]
      /\ pBytes_actually_read r = Some n
      /\ pBuf r = firstn (Z.to_nat n) refilled
      /\ (rd_count o = 0 -> pBuf r = [] /\ pBytes_actually_read r = Some 0)).
Proof.
  intros r; unfold r, jpegReadCallback.
  split; [reflexivity|].
  destruct (is_open (file ctx)) eqn:Hopen; cbn [negb].
  2:{ split; [split; [reflexivity | intros _; simpl; assumption]|].
      split; intros Hc; discriminate Hc. }
  assert (Ho : 0 <= rd_count (fst (fst (file_read (file ctx) (buffer ctx))))).
  { unfold file_read; destruct (reads (file ctx)) as [|o rest]; simpl; [lia|].
    inversion Hcounts; assumption. }
  destruct (file_read (file ctx) (buffer ctx)) as [[o refilled] f'] eqn:Hread.
  cbn [fst] in Ho.
  split.
  { split; [|intros Hc; discriminate Hc].
    intros Hs; exfalso; apply Hs.
    destruct (bufferFilled ctx <=? bufferPos ctx); [|reflexivity].
    destruct (rd_count o =? 0); reflexivity. }
  split.
  - intros _ Hlt; set (n := Z.min K (bufferFilled ctx - bufferPos ctx)).
    destruct (Z.leb_spec (bufferFilled ctx) (bufferPos ctx)); [lia|].
    unfold copyOut; cbn.
    assert (Hn : (if bufferFilled ctx - bufferPos ctx <? K
                  then bufferFilled ctx - bufferPos ctx else K) = n).
    { unfold n; destruct (Z.ltb_spec (bufferFilled ctx - bufferPos ctx) K); lia. }
    rewrite Hn; repeat split; reflexivity.
  - intros _ Hle; set (n := Z.min K (rd_count o)).
    destruct (Z.leb_spec (bufferFilled ctx) (bufferPos ctx)); [|lia].
    destruct (Z.eqb_spec (rd_count o) 0) as [H0|Hn0].
    + cbn. assert (n = 0) by (unfold n; lia).
      replace n with 0; repeat split; reflexivity.
    + unfold copyOut; cbn.
      assert (Hn : (if rd_count o - 0 <? K then rd_count o - 0 else K) = n).
      { unfold n; destruct (Z.ltb_spec (rd_count o - 0) K); lia. }
      rewrite Hn, u8_small by (unfold n; lia).
      repeat split; try reflexivity; intros; contradiction.
Qed.

Lemma read_callback_contract_witness :
  let ctx := {| file := {| is_open := true;
                           reads := [{| rd_failed := true; rd_count := 0;
                                        rd_bytes := [] |}] |};
                buffer := [255; 216]; bufferPos := 2; bufferFilled := 2 |} in
  status (jpegReadCallback 1 (Some ctx) 16) <> 0 <-> is_open (file ctx) = false.
Proof.
  intros ctx.
  refine (proj1 (proj2 (read_callback_contract 1 ctx 16 _ _ _))).
  - lia.
  - lia.
  - repeat constructor; simpl; lia.
Defined.

(** ** binary32: mantissas and shifts *)

Lemma digits2_pos_bounds (p : positive) :
  2 ^ (Z.pos (digits2_pos p) - 1) <= Z.pos p < 2 ^ Z.pos (digits2_pos p).
Proof.
  induction p as [p IH|p IH|]; cbn [digits2_pos].
  - rewrite Pos2Z.inj_succ; change (Z.pos p~1) with (2 * Z.pos p + 1).
    replace (Z.succ (Z.pos (digits2_pos p)) - 1)
      with (Z.succ (Z.pos (digits2_pos p) - 1)) by lia.
    rewrite !Z.pow_succ_r by lia.
    set (a := 2 ^ (Z.pos (digits2_pos p) - 1)) in *.
    set (b := 2 ^ Z.pos (digits2_pos p)) in *; lia.
  - rewrite Pos2Z.inj_succ; change (Z.pos p~0) with (2 * Z.pos p).
    replace (Z.succ (Z.pos (digits2_pos p)) - 1)
      with (Z.succ (Z.pos (digits2_pos p) - 1)) by lia.
    rewrite !Z.pow_succ_r by lia.
    set (a := 2 ^ (Z.pos (digits2_pos p) - 1)) in *.
    set (b := 2 ^ Z.pos (digits2_pos p)) in *; lia.
  - simpl; lia.
Qed.

Lemma digits2_pos_unique (p : positive) (k : Z) :
  2 ^ (k - 1) <= Z.pos p < 2 ^ k -> Z.pos (digits2_pos p) = k.
Proof.
  intros [Hlo Hhi].
  pose proof (digits2_pos_bounds p) as [Dlo Dhi].
  set (d := Z.pos (digits2_pos p)) in *.
  assert (Hd : 0 < d) by (unfold d; lia).
  destruct (Z.lt_trichotomy d k) as [Hlt|[Heq|Hgt]]; [|assumption|].
  - assert (2 ^ d <= 2 ^ (k - 1)) by (apply Z.pow_le_mono_r; lia); lia.
  - assert (0 <= k).
    { destruct (Z.le_gt_cases 0 k); [assumption|].
      rewrite (Z.pow_neg_r 2 k) in Hhi by lia; lia. }
    assert (2 ^ k <= 2 ^ (d - 1)) by (apply Z.pow_le_mono_r; lia); lia.
Qed.

Lemma shr_1_m (r : shr_record) :
  0 <= shr_m r -> shr_m (shr_1 r) = shr_m r / 2 /\ 0 <= shr_m (shr_1 r).
Proof.
  destruct r as [m rb sb]; cbn [shr_m]; intros Hm.
  destruct m as [|q|q]; [cbn; split; [reflexivity | lia] | | lia].
  destruct q as [p|p|]; cbn [shr_1 shr_m].
  - change (Z.pos p~1) with (2 * Z.pos p + 1); split; [|lia].
    apply (Z.div_unique _ _ _ 1); lia.
  - change (Z.pos p~0) with (2 * Z.pos p); split; [|lia].
    apply (Z.div_unique _ _ _ 0); lia.
  - split; [reflexivity | lia].
Qed.

Lemma iter_shr_1_m (n : positive) :
  forall r, 0 <= shr_m r ->
    shr_m (iter_pos shr_1 n r) = shr_m r / 2 ^ Z.pos n
    /\ 0 <= shr_m (iter_pos shr_1 n r).
Proof.
  induction n as [n IH|n IH|]; intros r Hr; cbn [iter_pos].
  - destruct (shr_1_m r Hr) as [E1 P1].
    destruct (IH _ P1) as [E2 P2].
    destruct (IH _ P2) as [E3 P3].
    split; [|assumption].
    rewrite E3, E2, E1, !Z.div_div by lia.
    f_equal; change (Z.pos n~1) with (2 * Z.pos n + 1);
      rewrite Z.pow_add_r, Z.pow_mul_r by lia.
    change (2 ^ 2) with 4; change (2 ^ 1) with 2.
    replace (4 ^ Z.pos n) with (2 ^ Z.pos n * 2 ^ Z.pos n); [lia|].
    rewrite <- Z.pow_mul_l; reflexivity.
  - destruct (IH _ Hr) as [E2 P2].
    destruct (IH _ P2) as [E3 P3].
    split; [|assumption].
    rewrite E3, E2, !Z.div_div by lia.
    f_equal; change (Z.pos n~0) with (2 * Z.pos n); rewrite Z.pow_mul_r by lia.
    change (2 ^ 2) with 4.
    rewrite <- Z.pow_mul_l; reflexivity.
  - destruct (shr_1_m r Hr) as [E1 P1].
    split; [|assumption]; rewrite E1; reflexivity.
Qed.

(** Shifting right by [n] places keeps the quotient by [2^n]. *)
Lemma shr_m_spec (r : shr_record) (e n : Z) :
  0 <= shr_m r -> 0 <= n ->
  shr_m (fst (shr r e n)) = shr_m r / 2 ^ n
  /\ snd (shr r e n) = e + n.
Proof.
  intros Hr Hn; unfold shr.
  destruct n as [|p|p]; cbn [fst snd]; try lia.
  - rewrite Z.div_1_r; split; [reflexivity | lia].
  - destruct (iter_shr_1_m p r Hr) as [E _]; split; [assumption | reflexivity].
Qed.

Lemma shr_m_of_loc (m : Z) (l : location) : shr_m (shr_record_of_loc m l) = m.
Proof. destruct l as [|[| |]]; reflexivity. Qed.

Lemma round_nearest_even_cases (m : Z) (l : location) :
  round_nearest_even m l = m \/ round_nearest_even m l = m + 1.
Proof.
  destruct l as [|[| |]]; cbn [round_nearest_even]; auto.
  destruct (Z.even m); auto.
Qed.

Lemma Zdigits2_unique (m k : Z) :
  0 < m -> 2 ^ (k - 1) <= m < 2 ^ k -> Zdigits2 m = k.
Proof.
  intros Hm Hk; destruct m as [|p|p]; try lia.
  cbn [Zdigits2]; apply digits2_pos_unique; assumption.
Qed.

Lemma Zdigits2_bounds (m : Z) :
  0 < m -> 2 ^ (Zdigits2 m - 1) <= m < 2 ^ Zdigits2 m.
Proof.
  intros Hm; destruct m as [|p|p]; try lia.
  cbn [Zdigits2]; apply digits2_pos_bounds.
Qed.

(** Rounding a mantissa of at least 24 bits in the normal range: the result
    is a normal number whose mantissa, at the exponent [e + n] of the
    24-bit truncation, is that truncation or the next integer. *)
Lemma round_aux_normal (s : bool) (m e : Z) (l : location) :
  2 ^ 23 <= m -> -149 <= e -> e + Zdigits2 m <= 127 ->
  let n := Zdigits2 m - 24 in
  exists (m' : positive) (e' m2 : Z),
    binary_round_aux 24 128 s m e l = S754_finite s m' e'
    /\ 2 ^ 23 <= Z.pos m' < 2 ^ 24
    /\ 0 <= n
    /\ e + n <= e' <= e + n + 1
    /\ Z.pos m' * 2 ^ (e' - (e + n)) = m2
    /\ m / 2 ^ n <= m2 <= m / 2 ^ n + 1
    /\ (l = loc_Exact -> n = 0 -> Z.pos m' = m /\ e' = e).
Proof.
  intros Hm He Hmax n.
  assert (Hm0 : 0 < m) by lia.
  pose proof (Zdigits2_bounds m Hm0) as [Dlo Dhi].
  set (d := Zdigits2 m) in *.
  assert (Hd : 24 <= d).
  { destruct (Z.le_gt_cases 24 d); [assumption|].
    assert (2 ^ d <= 2 ^ 23) by (apply Z.pow_le_mono_r; lia); lia. }
  assert (Hn : 0 <= n) by (unfold n; lia).
  unfold binary_round_aux, shr_fexp; fold d.
  assert (Hf : fexp 24 128 (d + e) - e = n).
  { unfold fexp, emin, n; lia. }
  rewrite Hf.
  pose proof (shr_m_spec (shr_record_of_loc m l) e n) as Hshr.
  rewrite shr_m_of_loc in Hshr; specialize (Hshr ltac:(lia) Hn).
  destruct (shr (shr_record_of_loc m l) e n) as [r1 e1] eqn:Hshr1.
  cbn [fst snd] in Hshr; destruct Hshr as [Hr1 He1].
  set (m1 := m / 2 ^ n) in *.
  assert (Hm1 : 2 ^ 23 <= m1 < 2 ^ 24).
  { unfold m1.
    assert (Hp : 0 < 2 ^ n) by (apply Z.pow_pos_nonneg; lia).
    assert (E1 : 2 ^ (d - 1) = 2 ^ 23 * 2 ^ n)
      by (rewrite <- Z.pow_add_r by lia; f_equal; unfold n; lia).
    assert (E2 : 2 ^ d = 2 ^ 24 * 2 ^ n)
      by (rewrite <- Z.pow_add_r by lia; f_equal; unfold n; lia).
    split.
    - apply Z.div_le_lower_bound; lia.
    - apply Z.div_lt_upper_bound; lia. }
  remember (round_nearest_even (shr_m r1) (loc_of_shr_record r1)) as m2 eqn:Em2.
  assert (Hm2 : m2 = m1 \/ m2 = m1 + 1)
    by (rewrite Em2, <- Hr1; apply round_nearest_even_cases).
  assert (Hexact : l = loc_Exact -> n = 0 -> m2 = m).
  { intros Hl Hn0; rewrite Hl, Hn0 in Hshr1; cbn in Hshr1.
    inversion Hshr1; subst r1; cbn in Em2; assumption. }
  change (2 ^ 23) with 8388608 in *; change (2 ^ 24) with 16777216 in *.
  destruct (Z.lt_ge_cases m2 16777216) as [Hsmall|Hbig].
  - assert (Hd2 : Zdigits2 m2 = 24)
      by (apply Zdigits2_unique; [lia | change (2 ^ (24 - 1)) with 8388608;
          change (2 ^ 24) with 16777216; lia]).
    rewrite Hd2.
    replace (fexp 24 128 (24 + e1) - e1) with 0 by (unfold fexp, emin; lia).
    cbn [shr]; rewrite shr_m_of_loc.
    destruct m2 as [|p2|p2]; try lia.
    replace (e1 <=? 128 - 24) with true by (symmetry; apply Z.leb_le; lia).
    exists p2, e1, (Z.pos p2).
    split; [reflexivity|]; split; [lia|]; split; [lia|]; split; [lia|].
    split; [replace (e1 - (e + n)) with 0 by lia; lia|].
    split; [lia|].
    intros Hl Hn0; split; [apply Hexact; assumption | lia].
  - assert (Em : m2 = 16777216) by lia.
    rewrite Em.
    change (Zdigits2 16777216) with 25.
    replace (fexp 24 128 (25 + e1) - e1) with 1 by (unfold fexp, emin; lia).
    cbn [shr iter_pos shr_record_of_loc shr_1 shr_m].
    replace (e1 + 1 <=? 128 - 24) with true by (symmetry; apply Z.leb_le; lia).
    exists 8388608%positive, (e1 + 1), 16777216.
    split; [reflexivity|]; split; [lia|]; split; [lia|]; split; [lia|].
    split; [replace (e1 + 1 - (e + n)) with 1 by lia; reflexivity|].
    split; [lia|].
    intros Hl Hn0; specialize (Hexact Hl Hn0).
    assert (m1 = m) by (unfold m1; rewrite Hn0, Z.div_1_r; reflexivity).
    lia.
Qed.

(** ** binary32: values *)

Lemma bpow_pos (e : Z) : (0 < powerRZ 2 e)%R.
Proof. apply powerRZ_lt; lra. Qed.

Lemma bpow_add (a b : Z) : (powerRZ 2 (a + b) = powerRZ 2 a * powerRZ 2 b)%R.
Proof. apply powerRZ_add; lra. Qed.

Lemma bpow_nonneg_exp (k : Z) : 0 <= k -> powerRZ 2 k = IZR (2 ^ k).
Proof.
  intros Hk; destruct k as [|p|p]; try lia.
  - reflexivity.
  - change (2 ^ Z.pos p) with (Z.pow_pos 2 p).
    rewrite Zpower_pos_powerRZ; reflexivity.
Qed.

Lemma shr_nonneg (r : shr_record) (e k : Z) :
  0 <= shr_m r -> 0 <= shr_m (fst (shr r e k)).
Proof.
  intros Hr; unfold shr; destruct k as [|p|p]; cbn [fst]; try assumption.
  apply iter_shr_1_m; assumption.
Qed.

(** Rounding keeps the sign. *)
Lemma round_aux_sign (s : bool) (m e : Z) (l : location) :
  0 <= m ->
  match binary_round_aux 24 128 s m e l with
  | S754_zero s' | S754_infinity s' | S754_finite s' _ _ => s' = s
  | S754_nan => False
  end.
Proof.
  intros Hm; unfold binary_round_aux, shr_fexp.
  pose proof (shr_nonneg (shr_record_of_loc m l) e
                (fexp 24 128 (Zdigits2 m + e) - e)) as H1.
  rewrite shr_m_of_loc in H1; specialize (H1 Hm).
  destruct (shr (shr_record_of_loc m l) e _) as [r1 e1]; cbn [fst] in H1.
  set (m2 := round_nearest_even (shr_m r1) (loc_of_shr_record r1)).
  assert (H2 : 0 <= m2).
  { unfold m2; destruct (round_nearest_even_cases (shr_m r1) (loc_of_shr_record r1))
      as [E|E]; rewrite E; lia. }
  pose proof (shr_nonneg (shr_record_of_loc m2 loc_Exact) e1
                (fexp 24 128 (Zdigits2 m2 + e1) - e1)) as H3.
  rewrite shr_m_of_loc in H3; specialize (H3 H2).
  destruct (shr (shr_record_of_loc m2 loc_Exact) e1 _) as [r2 e2];
    cbn [fst] in H3.
  destruct (shr_m r2) as [|p|p]; try lia; [reflexivity|].
  destruct (e2 <=? 128 - 24); reflexivity.
Qed.

(** The unit roundoff used in the bounds: [2^-23]. *)
Lemma round_aux_value (s : bool) (m e : Z) (l : location) :
  2 ^ 23 <= m -> -149 <= e -> e + Zdigits2 m <= 127 ->
  exists (m' : positive) (e' : Z),
    binary_round_aux 24 128 s m e l = S754_finite s m' e'
    /\ 2 ^ 23 <= Z.pos m' < 2 ^ 24
    /\ e + (Zdigits2 m - 24) <= e' <= e + (Zdigits2 m - 24) + 1
    /\ (IZR m * powerRZ 2 e * (1 - / 8388608)
        <= IZR (Z.pos m') * powerRZ 2 e'
        <= IZR m * powerRZ 2 e * (1 + / 8388608))%R
    /\ (l = loc_Exact -> Zdigits2 m = 24 -> Z.pos m' = m /\ e' = e).
Proof.
  intros Hm He Hmax.
  destruct (round_aux_normal s m e l Hm He Hmax)
    as (m' & e' & m2 & Hres & Hm' & Hn & He' & Hval & Hm2 & Hexact).
  exists m', e'.
  split; [assumption|]; split; [assumption|]; split; [assumption|].
  split; [|intros Hl Hd; apply Hexact; [assumption | lia]].
  assert (Hm0 : 0 < m) by lia.
  pose proof (Zdigits2_bounds m Hm0) as [Dlo _].
  set (n := Zdigits2 m - 24) in *.
  set (t := 2 ^ n).
  assert (Ht : 0 < t) by (apply Z.pow_pos_nonneg; lia).
  assert (Hmt : 2 ^ 23 * t <= m).
  { replace (Zdigits2 m - 1) with (23 + n) in Dlo by (unfold n; lia).
    rewrite Z.pow_add_r in Dlo by lia; exact Dlo. }
  pose proof (Z.div_mod m t ltac:(lia)) as Ediv.
  pose proof (Z.mod_pos_bound m t Ht) as Bmod.
  (* the value, in units of [2^e] *)
  assert (Hunits : (IZR (Z.pos m') * powerRZ 2 e' = IZR (m2 * t) * powerRZ 2 e)%R).
  { replace e' with ((e' - (e + n)) + (n + e)) at 1 by lia.
    rewrite !bpow_add, (bpow_nonneg_exp (e' - (e + n))), (bpow_nonneg_exp n)
      by lia.
    fold t; rewrite <- Hval, !mult_IZR; ring. }
  rewrite Hunits.
  change (2 ^ 23) with 8388608 in *.
  fold t in Hm2.
  assert (Hp1 : (m / t) * t <= m2 * t) by (apply Z.mul_le_mono_nonneg_r; lia).
  assert (Hp2 : m2 * t <= (m / t + 1) * t) by (apply Z.mul_le_mono_nonneg_r; lia).
  assert (Hlo : m * 8388607 <= 8388608 * (m2 * t)) by lia.
  assert (Hhi : 8388608 * (m2 * t) <= m * 8388609) by lia.
  apply IZR_le in Hlo, Hhi.
  rewrite !mult_IZR in Hlo, Hhi.
  pose proof (bpow_pos e) as Hb.
  set (X := IZR m) in *; set (Y := (IZR m2 * IZR t)%R) in *;
    set (b := powerRZ 2 e) in *.
  rewrite mult_IZR; fold Y.
  split.
  - apply Rmult_le_reg_l with 8388608%R; [lra|].
    replace (8388608 * (X * b * (1 - / 8388608)))%R with ((X * 8388607) * b)%R
      by (field).
    replace (8388608 * (Y * b))%R with ((8388608 * Y) * b)%R by ring.
    apply Rmult_le_compat_r; lra.
  - apply Rmult_le_reg_l with 8388608%R; [lra|].
    replace (8388608 * (X * b * (1 + / 8388608)))%R with ((X * 8388609) * b)%R
      by (field).
    replace (8388608 * (Y * b))%R with ((8388608 * Y) * b)%R by ring.
    apply Rmult_le_compat_r; lra.
Qed.

(** ** binary32: conversions from and to [int] *)

Lemma pos_iter_xO (p k : positive) :
  Z.pos (Pos.iter xO p k) = Z.pos p * 2 ^ Z.pos k.
Proof.
  induction k as [|k IH] using Pos.peano_ind.
  - cbn [Pos.iter]; change (Z.pos p~0) with (2 * Z.pos p);
      change (2 ^ 1) with 2; ring.
  - rewrite Pos.iter_succ, Pos2Z.inj_succ, Z.pow_succ_r by lia.
    change (Z.pos (Pos.iter xO p k)~0) with (2 * Z.pos (Pos.iter xO p k)).
    rewrite IH; ring.
Qed.

Lemma of_int_pos (n : Z) :
  1 <= n < 2147483648 ->
  exists m e,
    F32.of_int n = S754_finite false m e
    /\ 2 ^ 23 <= Z.pos m < 2 ^ 24
    /\ -23 <= e <= 8
    /\ (IZR n * (1 - / 8388608) <= IZR (Z.pos m) * powerRZ 2 e
        <= IZR n * (1 + / 8388608))%R
    /\ (n < 16777216 -> (IZR (Z.pos m) * powerRZ 2 e = IZR n)%R /\ e <= 0).
Proof.
  intros Hn; destruct n as [|p|p]; try lia.
  unfold F32.of_int, F32.prec, F32.emax, binary_normalize, binary_round, shl_align.
  pose proof (digits2_pos_bounds p) as [Dlo Dhi].
  set (d := Z.pos (digits2_pos p)) in *.
  assert (Hd1 : 1 <= d) by (unfold d; lia).
  assert (Hd31 : d <= 31).
  { destruct (Z.le_gt_cases d 31); [assumption|].
    assert (2 ^ 31 <= 2 ^ (d - 1)) by (apply Z.pow_le_mono_r; lia).
    change (2 ^ 31) with 2147483648 in *; lia. }
  assert (Hf : fexp 24 128 (d + 0) - 0 = d - 24) by (unfold fexp, emin; lia).
  rewrite Hf.
  destruct (Z.lt_ge_cases d 24) as [Hsmall|Hbig].
  - (* fewer than 24 bits: the mantissa is shifted left, exactly *)
    destruct (d - 24) as [|q|q] eqn:Eq; try lia.
    replace (fexp 24 128 (d + 0)) with (Z.neg q) by (unfold fexp, emin; lia).
    assert (Hmz : Z.pos (Pos.iter xO p q) = Z.pos p * 2 ^ Z.pos q)
      by apply pos_iter_xO.
    assert (Hq : Z.pos q = 24 - d) by lia.
    assert (Hpow : 2 ^ 23 <= Z.pos p * 2 ^ Z.pos q < 2 ^ 24).
    { rewrite Hq.
      assert (E23 : 2 ^ 23 = 2 ^ (d - 1) * 2 ^ (24 - d))
        by (rewrite <- Z.pow_add_r by lia; f_equal; lia).
      assert (E24 : 2 ^ 24 = 2 ^ d * 2 ^ (24 - d))
        by (rewrite <- Z.pow_add_r by lia; f_equal; lia).
      assert (0 < 2 ^ (24 - d)) by (apply Z.pow_pos_nonneg; lia).
      rewrite E23, E24; split.
      - apply Z.mul_le_mono_nonneg_r; lia.
      - apply Z.mul_lt_mono_pos_r; lia. }
    assert (Hdig : Zdigits2 (Z.pos (Pos.iter xO p q)) = 24).
    { apply Zdigits2_unique; [lia|]. rewrite Hmz; exact Hpow. }
    destruct (round_aux_value false (Z.pos (Pos.iter xO p q)) (Z.neg q) loc_Exact)
      as (m' & e' & Hres & Hm' & He' & _ & Hexact).
    { rewrite Hmz; lia. }
    { lia. }
    { rewrite Hdig; lia. }
    destruct (Hexact eq_refl Hdig) as [Em Ee].
    exists m', e'; split; [exact Hres|]; split; [assumption|].
    split; [lia|].
    assert (Hv : (IZR (Z.pos m') * powerRZ 2 e' = IZR (Z.pos p))%R).
    { rewrite Em, Ee, Hmz, mult_IZR.
      rewrite <- (bpow_nonneg_exp (Z.pos q)) by lia.
      rewrite Rmult_assoc, <- bpow_add.
      replace (Z.pos q + Z.neg q) with 0 by lia.
      simpl; ring. }
    rewrite Hv.
    assert (0 < IZR (Z.pos p))%R by (apply IZR_lt; lia).
    split; [split; nra|].
    intros _; split; [reflexivity | lia].
  - (* at least 24 bits: rounded *)
    destruct (d - 24) as [|q|q] eqn:Eq; try lia.
    all: destruct (round_aux_value false (Z.pos p) 0 loc_Exact)
      as (m' & e' & Hres & Hm' & He' & Hv & Hexact);
      [ assert (2 ^ 23 <= 2 ^ (d - 1)) by (apply Z.pow_le_mono_r; lia); lia
      | lia | cbn [Zdigits2]; fold d; lia | ].
    all: cbn [Zdigits2] in He', Hexact; fold d in He', Hexact.
    all: exists m', e'; split; [exact Hres|]; split; [assumption|].
    all: split; [lia|].
    all: rewrite powerRZ_O, Rmult_1_r in Hv.
    all: split; [exact Hv|].
    all: intros H24.
    all: assert (d = 24)
      by (destruct (Z.eq_dec d 24); [assumption|];
          assert (2 ^ 24 <= 2 ^ (d - 1)) by (apply Z.pow_le_mono_r; lia);
          change (2 ^ 24) with 16777216 in *; lia).
    all: destruct (Hexact eq_refl ltac:(assumption)) as [Em Ee].
    all: rewrite Em, Ee, powerRZ_O; split; [ring | lia].
Qed.

Lemma of_int_nonpos (n : Z) : n <= 0 -> F32.nonPositive (F32.of_int n).
Proof.
  intros Hn; destruct n as [|p|p]; try lia; [exact I|].
  unfold F32.of_int, F32.prec, F32.emax, binary_normalize, binary_round.
  destruct (shl_align p 0 _) as [mz ez].
  pose proof (round_aux_sign true (Z.pos mz) ez loc_Exact ltac:(lia)) as H.
  destruct (binary_round_aux 24 128 true (Z.pos mz) ez loc_Exact)
    as [s|s| |s m e]; try contradiction; subst s; exact I.
Qed.

Lemma to_int_le_value (m : positive) (e : Z) :
  (IZR (F32.to_int (S754_finite false m e))
   <= F32.value (S754_finite false m e))%R.
Proof.
  cbn [F32.to_int F32.value].
  rewrite Rmult_1_l.
  destruct (Z.leb_spec 0 e) as [He|He].
  - rewrite mult_IZR, <- bpow_nonneg_exp by lia; lra.
  - set (k := - e).
    assert (Hk : 0 < 2 ^ k) by (apply Z.pow_pos_nonneg; unfold k; lia).
    pose proof (Z.mul_div_le (Z.pos m) (2 ^ k) Hk) as Hdiv.
    apply IZR_le in Hdiv; rewrite mult_IZR in Hdiv.
    rewrite <- bpow_nonneg_exp in Hdiv by (unfold k; lia).
    pose proof (bpow_pos e) as Hb.
    assert (Hone : (powerRZ 2 k * powerRZ 2 e = 1)%R).
    { rewrite <- bpow_add; replace (k + e) with 0 by (unfold k; lia).
      reflexivity. }
    set (a := IZR (Z.pos m / 2 ^ k)) in *.
    replace a with (powerRZ 2 k * a * powerRZ 2 e)%R
      by (rewrite (Rmult_comm (powerRZ 2 k) a), Rmult_assoc, Hone; ring).
    apply Rmult_le_compat_r; lra.
Qed.

Lemma to_int_nonPositive (x : spec_float) :
  F32.nonPositive x -> F32.to_int x <= 0.
Proof.
  destruct x as [s|s| |[|] m e]; cbn [F32.to_int F32.nonPositive];
    try lia; try contradiction.
  intros _.
  destruct (0 <=? e).
  - assert (0 <= 2 ^ e) by (apply Z.pow_nonneg; lia).
    assert (0 <= Z.pos m * 2 ^ e) by (apply Z.mul_nonneg_nonneg; lia).
    lia.
  - assert (0 <= Z.pos m / 2 ^ (- e)).
    { destruct (Z.le_gt_cases 0 (- e)).
      - apply Z.div_pos; [lia | apply Z.pow_pos_nonneg; lia].
      - rewrite Z.pow_neg_r by lia; rewrite Z.div_0_r; lia. }
    lia.
Qed.

(** ** binary32: division, multiplication, comparison *)

Lemma div_core (mx my : positive) (ex ey : Z) :
  2 ^ 23 <= Z.pos mx < 2 ^ 24 -> 2 ^ 23 <= Z.pos my < 2 ^ 24 ->
  -125 <= ex - ey ->
  exists l,
    SFdiv_core_binary 24 128 (Z.pos mx) ex (Z.pos my) ey
    = (Z.pos mx * 2 ^ 24 / Z.pos my, ex - ey - 24, l).
Proof.
  intros Hx Hy He; unfold SFdiv_core_binary.
  rewrite (Zdigits2_unique (Z.pos mx) 24), (Zdigits2_unique (Z.pos my) 24)
    by (try lia; assumption).
  replace (Z.min (fexp 24 128 (24 + ex - (24 + ey))) (ex - ey))
    with (ex - ey - 24) by (unfold fexp, emin; lia).
  replace (ex - ey - (ex - ey - 24)) with 24 by lia.
  cbv iota.
  rewrite Z.shiftl_mul_pow2 by lia.
  unfold Z.div.
  destruct (Z.div_eucl (Z.pos mx * 2 ^ 24) (Z.pos my)) as [q r].
  eexists; reflexivity.
Qed.

Lemma div_normal (mx my : positive) (ex ey : Z) :
  2 ^ 23 <= Z.pos mx < 2 ^ 24 -> 2 ^ 23 <= Z.pos my < 2 ^ 24 ->
  -23 <= ex <= 8 -> -23 <= ey <= 8 ->
  exists m e,
    F32.div (S754_finite false mx ex) (S754_finite false my ey)
    = S754_finite false m e
    /\ 2 ^ 23 <= Z.pos m < 2 ^ 24
    /\ -55 <= e <= 9
    /\ let v := (IZR (Z.pos m) * powerRZ 2 e)%R in
       let vx := (IZR (Z.pos mx) * powerRZ 2 ex)%R in
       let vy := (IZR (Z.pos my) * powerRZ 2 ey)%R in
       (v * vy <= vx * (1 + / 8388608))%R
       /\ (vx * (1 - / 8388608) <= v * vy * (1 + / 8388608))%R.
Proof.
  intros Hx Hy Hex Hey.
  unfold F32.div, F32.prec, F32.emax, SFdiv.
  destruct (div_core mx my ex ey Hx Hy ltac:(lia)) as (l & Hcore).
  rewrite Hcore; cbn [xorb].
  change (2 ^ 23) with 8388608 in *; change (2 ^ 24) with 16777216 in *.
  set (A := Z.pos mx * 16777216).
  set (B := Z.pos my).
  set (q := A / B).
  pose proof (Z.div_mod A B ltac:(unfold B; lia)) as Ediv.
  pose proof (Z.mod_pos_bound A B ltac:(unfold B; lia)) as Bmod.
  fold q in Ediv.
  assert (Hq : 8388608 <= q < 33554432).
  { unfold q, A, B; split.
    - apply Z.div_le_lower_bound; lia.
    - apply Z.div_lt_upper_bound; lia. }
  assert (Hdq : 24 <= Zdigits2 q <= 25).
  { pose proof (Zdigits2_bounds q ltac:(lia)) as [Dlo Dhi].
    split.
    - destruct (Z.le_gt_cases 24 (Zdigits2 q)); [assumption|].
      assert (2 ^ Zdigits2 q <= 2 ^ 23) by (apply Z.pow_le_mono_r; lia).
      change (2 ^ 23) with 8388608 in *; lia.
    - destruct (Z.le_gt_cases (Zdigits2 q) 25); [assumption|].
      assert (2 ^ 25 <= 2 ^ (Zdigits2 q - 1)) by (apply Z.pow_le_mono_r; lia).
      change (2 ^ 25) with 33554432 in *; lia. }
  destruct (round_aux_value false q (ex - ey - 24) l)
    as (m & e & Hres & Hm & He & Hv & _);
    [change (2 ^ 23) with 8388608; lia | lia | lia |].
  exists m, e; split; [exact Hres|]; split; [exact Hm|]; split; [lia|].
  cbv zeta.
  set (v := (IZR (Z.pos m) * powerRZ 2 e)%R) in *.
  set (vx := (IZR (Z.pos mx) * powerRZ 2 ex)%R).
  set (vy := (IZR B * powerRZ 2 ey)%R).
  (* everything in units of [2^(ex-24)] *)
  pose proof (bpow_pos (ex - 24)) as Hc.
  set (c := powerRZ 2 (ex - 24)) in *.
  assert (Evx : vx = (IZR A * c)%R).
  { unfold vx, A, c; rewrite mult_IZR.
    replace ex with (24 + (ex - 24)) at 1 by lia.
    rewrite bpow_add, (bpow_nonneg_exp 24) by lia.
    change (2 ^ 24) with 16777216; ring. }
  assert (EX : (IZR q * powerRZ 2 (ex - ey - 24) * vy = IZR (q * B) * c)%R).
  { unfold vy, c; rewrite mult_IZR.
    replace (ex - 24) with ((ex - ey - 24) + ey) by lia.
    rewrite bpow_add; ring. }
  pose proof (bpow_pos ey) as Hbey.
  assert (Hvy : (0 < vy)%R).
  { unfold vy; apply Rmult_lt_0_compat; [apply IZR_lt; unfold B; lia | assumption]. }
  set (X := (IZR q * powerRZ 2 (ex - ey - 24))%R) in *.
  assert (HXlo : (IZR (q * B) * c <= IZR A * c)%R)
    by (apply Rmult_le_compat_r; [lra | apply IZR_le; lia]).
  assert (HXhi : (IZR A * c * 8388608 <= IZR (q * B) * c * 8388609)%R).
  { assert (Hz : A * 8388608 <= q * B * 8388609) by (unfold B in *; nia).
    apply IZR_le in Hz; rewrite !mult_IZR in Hz.
    rewrite mult_IZR.
    replace (IZR A * c * 8388608)%R with ((IZR A * 8388608) * c)%R by ring.
    replace (IZR q * IZR B * c * 8388609)%R
      with ((IZR q * IZR B * 8388609) * c)%R by ring.
    apply Rmult_le_compat_r; lra. }
  rewrite <- EX in HXlo, HXhi; rewrite <- Evx in HXlo, HXhi.
  destruct Hv as [Hv1 Hv2].
  assert (HXpos : (0 < X)%R).
  { unfold X; apply Rmult_lt_0_compat; [apply IZR_lt; lia | apply bpow_pos]. }
  split.
  - apply Rle_trans with (X * (1 + / 8388608) * vy)%R.
    + apply Rmult_le_compat_r; lra.
    + replace (X * (1 + / 8388608) * vy)%R with (X * vy * (1 + / 8388608))%R by ring.
      apply Rmult_le_compat_r; lra.
  - assert (H1 : (X * (1 - / 8388608) * vy <= v * vy)%R)
      by (apply Rmult_le_compat_r; lra).
    assert (H2 : (vx <= X * vy * (1 + / 8388608))%R) by lra.
    set (P := (X * vy)%R) in *; set (W := (v * vy)%R) in *.
    replace (X * (1 - / 8388608) * vy)%R with (P * (1 - / 8388608))%R in H1
      by (unfold P; ring).
    clearbody P W vx; lra.
Qed.

Lemma div_core_nonneg (mx my : positive) (ex ey : Z) :
  0 <= fst (fst (SFdiv_core_binary 24 128 (Z.pos mx) ex (Z.pos my) ey)).
Proof.
  unfold SFdiv_core_binary.
  match goal with |- context [Z.div_eucl ?a ?b] =>
    assert (Ha : 0 <= a);
    [| pose proof (Z.div_pos a b Ha ltac:(lia)) as Hq; unfold Z.div in Hq;
       destruct (Z.div_eucl a b) as [q r]; exact Hq ]
  end.
  match goal with |- 0 <= match ?s with _ => _ end => destruct s end;
    try lia.
  apply Z.shiftl_nonneg; lia.
Qed.

Lemma div_nonPositive (x : spec_float) (my : positive) (ey : Z) :
  F32.nonPositive x ->
  F32.nonPositive (F32.div x (S754_finite false my ey)).
Proof.
  destruct x as [s|[|]| |[|] mx ex]; cbn [F32.nonPositive];
    try contradiction; intros _.
  - exact I.
  - exact I.
  - unfold F32.div, F32.prec, F32.emax, SFdiv; cbn [xorb].
    pose proof (div_core_nonneg mx my ex ey) as Hq.
    destruct (SFdiv_core_binary 24 128 (Z.pos mx) ex (Z.pos my) ey)
      as [[mz ez] lz]; cbn [fst] in Hq.
    pose proof (round_aux_sign true mz ez lz Hq) as Hs.
    destruct (binary_round_aux 24 128 true mz ez lz) as [s|s| |s m e];
      try contradiction; subst s; exact I.
Qed.

Lemma mul_normal (mx my : positive) (ex ey : Z) :
  2 ^ 23 <= Z.pos mx < 2 ^ 24 -> 2 ^ 23 <= Z.pos my < 2 ^ 24 ->
  -23 <= ex <= 8 -> -55 <= ey <= 9 ->
  exists m e,
    F32.mul (S754_finite false mx ex) (S754_finite false my ey)
    = S754_finite false m e
    /\ (IZR (Z.pos m) * powerRZ 2 e
        <= (IZR (Z.pos mx) * powerRZ 2 ex) * (IZR (Z.pos my) * powerRZ 2 ey)
           * (1 + / 8388608))%R.
Proof.
  intros Hx Hy Hex Hey.
  unfold F32.mul, F32.prec, F32.emax, SFmul; cbn [xorb].
  change (2 ^ 23) with 8388608 in *; change (2 ^ 24) with 16777216 in *.
  assert (HM : 70368744177664 <= Z.pos (mx * my) < 281474976710656)
    by (rewrite Pos2Z.inj_mul; nia).
  assert (Hd : Zdigits2 (Z.pos (mx * my)) <= 48).
  { pose proof (Zdigits2_bounds (Z.pos (mx * my)) ltac:(lia)) as [Dlo _].
    destruct (Z.le_gt_cases (Zdigits2 (Z.pos (mx * my))) 48); [assumption|].
    assert (2 ^ 48 <= 2 ^ (Zdigits2 (Z.pos (mx * my)) - 1))
      by (apply Z.pow_le_mono_r; lia).
    change (2 ^ 48) with 281474976710656 in *; lia. }
  destruct (round_aux_value false (Z.pos (mx * my)) (ex + ey) loc_Exact)
    as (m & e & Hres & _ & _ & [_ Hv] & _);
    [change (2 ^ 23) with 8388608; lia | lia | lia |].
  exists m, e; split; [exact Hres|].
  rewrite Pos2Z.inj_mul, mult_IZR, bpow_add in Hv.
  replace (IZR (Z.pos mx) * powerRZ 2 ex * (IZR (Z.pos my) * powerRZ 2 ey))%R
    with (IZR (Z.pos mx) * IZR (Z.pos my) * (powerRZ 2 ex * powerRZ 2 ey))%R
    by ring.
  exact Hv.
Qed.

Lemma mul_nonPositive (mx : positive) (ex : Z) (y : spec_float) :
  F32.nonPositive y ->
  F32.nonPositive (F32.mul (S754_finite false mx ex) y).
Proof.
  destruct y as [s|[|]| |[|] my ey]; cbn [F32.nonPositive];
    try contradiction; intros _.
  - exact I.
  - exact I.
  - unfold F32.mul, F32.prec, F32.emax, SFmul; cbn [xorb].
    pose proof (round_aux_sign true (Z.pos (mx * my)) (ex + ey) loc_Exact
                  ltac:(lia)) as Hs.
    destruct (binary_round_aux 24 128 true _ _ _) as [s|s| |s m e];
      try contradiction; subst s; exact I.
Qed.

Lemma ltb_nonPositive_l (x : spec_float) (my : positive) (ey : Z) :
  F32.nonPositive x -> F32.ltb x (S754_finite false my ey) = true.
Proof.
  destruct x as [s|[|]| |[|] mx ex]; cbn [F32.nonPositive];
    try contradiction; intros _; reflexivity.
Qed.

Lemma ltb_nonPositive_r (mx : positive) (ex : Z) (y : spec_float) :
  F32.nonPositive y -> F32.ltb (S754_finite false mx ex) y = false.
Proof.
  destruct y as [s|[|]| |[|] my ey]; cbn [F32.nonPositive];
    try contradiction; intros _; reflexivity.
Qed.

(** On normal numbers the comparison of the data is the comparison of the
    values. *)
Lemma ltb_normal (mx my : positive) (ex ey : Z) :
  2 ^ 23 <= Z.pos mx < 2 ^ 24 -> 2 ^ 23 <= Z.pos my < 2 ^ 24 ->
  let vx := (IZR (Z.pos mx) * powerRZ 2 ex)%R in
  let vy := (IZR (Z.pos my) * powerRZ 2 ey)%R in
  ((vx < vy)%R -> F32.ltb (S754_finite false mx ex) (S754_finite false my ey) = true)
  /\ ((vy <= vx)%R ->
      F32.ltb (S754_finite false mx ex) (S754_finite false my ey) = false).
Proof.
  intros Hx Hy vx vy.
  change (2 ^ 23) with 8388608 in *; change (2 ^ 24) with 16777216 in *.
  assert (Hgap : forall (a b : positive) (ea eb : Z),
            8388608 <= Z.pos a < 16777216 -> 8388608 <= Z.pos b < 16777216 ->
            ea < eb ->
            (IZR (Z.pos a) * powerRZ 2 ea < IZR (Z.pos b) * powerRZ 2 eb)%R).
  { intros a b ea eb Ha Hb Hlt.
    replace eb with ((eb - ea) + ea) by lia.
    rewrite bpow_add, (bpow_nonneg_exp (eb - ea)) by lia.
    pose proof (bpow_pos ea) as Hp.
    assert (H2 : 2 <= 2 ^ (eb - ea)).
    { change 2 with (2 ^ 1) at 1; apply Z.pow_le_mono_r; lia. }
    apply IZR_le in H2.
    assert (Ha' : (IZR (Z.pos a) < 16777216)%R) by (apply IZR_lt; lia).
    assert (Hb' : (8388608 <= IZR (Z.pos b))%R) by (apply IZR_le; lia).
    rewrite <- Rmult_assoc.
    apply Rmult_lt_compat_r; [assumption|].
    apply Rlt_le_trans with (8388608 * 2)%R; [lra|].
    apply Rmult_le_compat; lra. }
  unfold F32.ltb, SFltb, SFcompare.
  destruct (Z.compare_spec ex ey) as [Heq|Hlt|Hgt].
  - subst ey.
    pose proof (bpow_pos ex) as Hp.
    change (Pos.compare_cont Eq mx my) with (Pos.compare mx my).
    destruct (Pos.compare_spec mx my) as [E|L|G]; split; intros H; try reflexivity.
    + subst my; unfold vx, vy in H; lra.
    + assert (IZR (Z.pos mx) < IZR (Z.pos my))%R by (apply IZR_lt; lia).
      unfold vx, vy in H; nra.
    + assert (IZR (Z.pos my) < IZR (Z.pos mx))%R by (apply IZR_lt; lia).
      unfold vx, vy in H; nra.
  - pose proof (Hgap mx my ex ey Hx Hy Hlt).
    split; intros H0; [reflexivity | unfold vx, vy in H0; lra].
  - pose proof (Hgap my mx ey ex Hy Hx Hgt).
    split; intros H0; [unfold vx, vy in H0; lra | reflexivity].
Qed.

(** ** The scale factor never enlarges *)

Lemma quotient_small (t n : Z) :
  1 <= n <= 3072 -> -2147483648 <= t < n ->
  smallScale (F32.div (F32.of_int t) (F32.of_int n)).
Proof.
  intros Hn Ht.
  destruct (of_int_pos n ltac:(lia)) as (mn & en & En & Hmn & Hen & _ & Hvn).
  destruct (Hvn ltac:(lia)) as [Hvn' Hen']; clear Hvn.
  rewrite En.
  destruct (Z.le_gt_cases t 0) as [Hneg|Hpos].
  - left; apply div_nonPositive, of_int_nonpos; assumption.
  - right.
    destruct (of_int_pos t ltac:(lia)) as (mt & et & Et & Hmt & Het & _ & Hvt).
    destruct (Hvt ltac:(lia)) as [Hvt' Het']; clear Hvt.
    rewrite Et.
    destruct (div_normal mt mn et en Hmt Hmn Het Hen)
      as (m & e & Hres & Hm & He & Hhi & _).
    exists m, e; repeat split; try assumption; try lia.
    cbv zeta in Hhi; rewrite Hvt', Hvn' in Hhi.
    set (v := (IZR (Z.pos m) * powerRZ 2 e)%R) in *.
    assert (Hn1 : (1 <= IZR n <= 3072)%R) by (split; apply IZR_le; lia).
    assert (Ht1 : (IZR t <= IZR n - 1)%R).
    { rewrite <- minus_IZR; apply IZR_le; lia. }
    apply Rmult_le_reg_r with (IZR n); [lra|].
    apply Rle_trans with (IZR t * (1 + / 8388608))%R; [assumption|].
    apply Rle_trans with ((IZR n - 1) * (1 + / 8388608))%R;
      [apply Rmult_le_compat_r; lra | lra].
Qed.

Lemma quotient_big (t n : Z) :
  1 <= n <= 3072 -> n <= t <= 2147483647 ->
  bigScale (F32.div (F32.of_int t) (F32.of_int n)).
Proof.
  intros Hn Ht.
  destruct (of_int_pos n ltac:(lia)) as (mn & en & En & Hmn & Hen & _ & Hvn).
  destruct (Hvn ltac:(lia)) as [Hvn' Hen']; clear Hvn.
  destruct (of_int_pos t ltac:(lia)) as (mt & et & Et & Hmt & Het & [Hvt _] & _).
  rewrite En, Et.
  destruct (div_normal mt mn et en Hmt Hmn Het Hen)
    as (m & e & Hres & Hm & He & _ & Hlo).
  exists m, e; repeat split; try assumption; try lia.
  cbv zeta in Hlo; rewrite Hvn' in Hlo.
  set (v := (IZR (Z.pos m) * powerRZ 2 e)%R) in *.
  set (vt := (IZR (Z.pos mt) * powerRZ 2 et)%R) in *.
  assert (Hn1 : (1 <= IZR n <= 3072)%R) by (split; apply IZR_le; lia).
  assert (Ht1 : (IZR n <= IZR t)%R) by (apply IZR_le; lia).
  assert (Hvt1 : (IZR n * (1 - / 8388608) <= vt)%R).
  { apply Rle_trans with (IZR t * (1 - / 8388608))%R;
      [apply Rmult_le_compat_r; lra | assumption]. }
  assert (H1 : (IZR n * (1 - / 8388608) * (1 - / 8388608)
                <= v * IZR n * (1 + / 8388608))%R).
  { apply Rle_trans with (vt * (1 - / 8388608))%R;
      [apply Rmult_le_compat_r; lra | assumption]. }
  apply Rmult_le_reg_r with (IZR n * (1 + / 8388608))%R; [nra|].
  apply Rle_trans with (IZR n * (1 - / 8388608) * (1 - / 8388608))%R;
    [|lra].
  assert (H2 : ((1 - / 1048576) * (1 + / 8388608)
                <= (1 - / 8388608) * (1 - / 8388608))%R) by lra.
  replace ((1 - / 1048576) * (IZR n * (1 + / 8388608)))%R
    with (IZR n * ((1 - / 1048576) * (1 + / 8388608)))%R by ring.
  replace (IZR n * (1 - / 8388608) * (1 - / 8388608))%R
    with (IZR n * ((1 - / 8388608) * (1 - / 8388608)))%R by ring.
  apply Rmult_le_compat_l; lra.
Qed.

Lemma ltb_small_big (a b : spec_float) :
  smallScale a -> bigScale b -> F32.ltb a b = true.
Proof.
  intros [Ha|(ma & ea & -> & Hma & _ & Hva)] (mb & eb & -> & Hmb & Hvb).
  - apply ltb_nonPositive_l; assumption.
  - apply (ltb_normal ma mb ea eb Hma Hmb); lra.
Qed.

Lemma ltb_big_small (a b : spec_float) :
  bigScale a -> smallScale b -> F32.ltb a b = false.
Proof.
  intros (ma & ea & -> & Hma & Hva) [Hb|(mb & eb & -> & Hmb & _ & Hvb)].
  - apply ltb_nonPositive_r; assumption.
  - apply (ltb_normal ma mb ea eb Hma Hmb); lra.
Qed.

(** The scale chosen when the source exceeds the box on some axis. *)
Lemma chosen_scale_small (w h tw th : Z) :
  1 <= w <= 3072 -> 1 <= h <= 3072 ->
  -2147483648 <= tw <= 2147483647 -> -2147483648 <= th <= 2147483647 ->
  tw < w \/ th < h ->
  let sw := F32.div (F32.of_int tw) (F32.of_int w) in
  let sh := F32.div (F32.of_int th) (F32.of_int h) in
  smallScale (if F32.ltb sw sh then sw else sh).
Proof.
  intros Hw Hh Htw Hth Hex sw sh.
  destruct (Z.lt_ge_cases tw w) as [Hw1|Hw1];
    destruct (Z.lt_ge_cases th h) as [Hh1|Hh1]; try lia.
  - destruct (F32.ltb sw sh); apply quotient_small; lia.
  - assert (Hs : smallScale sw) by (apply quotient_small; lia).
    assert (Hb : bigScale sh) by (apply quotient_big; lia).
    rewrite (ltb_small_big _ _ Hs Hb); assumption.
  - assert (Hb : bigScale sw) by (apply quotient_big; lia).
    assert (Hs : smallScale sh) by (apply quotient_small; lia).
    rewrite (ltb_big_small _ _ Hb Hs); assumption.
Qed.

Lemma scaled_dimension_le (n : Z) (s : spec_float) :
  1 <= n <= 3072 -> smallScale s ->
  F32.to_int (F32.mul (F32.of_int n) s) <= n.
Proof.
  intros Hn Hs.
  destruct (of_int_pos n ltac:(lia)) as (mn & en & En & Hmn & Hen & _ & Hvn).
  destruct (Hvn ltac:(lia)) as [Hvn' Hen']; clear Hvn.
  rewrite En.
  destruct Hs as [Hs|(m & e & -> & Hm & He & Hv)].
  - pose proof (to_int_nonPositive _ (mul_nonPositive mn en s Hs)); lia.
  - destruct (mul_normal mn m en e Hmn Hm ltac:(lia) He) as (mp & ep & Hres & Hp).
    rewrite Hres.
    pose proof (to_int_le_value mp ep) as Hti.
    cbn [F32.value] in Hti; rewrite Rmult_1_l in Hti.
    rewrite Hvn' in Hp.
    assert (Hn1 : (1 <= IZR n)%R) by (apply IZR_le; lia).
    set (v := (IZR (Z.pos m) * powerRZ 2 e)%R) in *.
    assert (Hlt : (IZR (F32.to_int (S754_finite false mp ep)) < IZR n + 1)%R).
    { apply Rle_lt_trans with (IZR n * v * (1 + / 8388608))%R; [lra|].
      assert (IZR n * v <= IZR n * (1 - / 4096))%R
        by (apply Rmult_le_compat_l; lra).
      nra. }
    rewrite <- plus_IZR in Hlt; apply lt_IZR in Hlt; lia.
Qed.

Lemma computeScale_bounds (cfg : Config) (info : pjpeg_image_info) (tw th : Z) :
  1 <= m_width info <= 2048 -> 1 <= m_height info <= 3072 ->
  -2147483648 <= tw <= 2147483647 -> -2147483648 <= th <= 2147483647 ->
  needsScaling (computeScale cfg info tw th) = true ->
  1 <= outWidth (computeScale cfg info tw th) <= m_width info
  /\ 1 <= outHeight (computeScale cfg info tw th) <= m_height info.
Proof.
  intros Hw Hh Htw Hth; unfold computeScale.
  destruct (USE_PRESCALE cfg); cbn [andb needsScaling]; [|intros H; discriminate H].
  destruct ((tw <? m_width info) || (th <? m_height info)) eqn:Hex;
    cbn [needsScaling outWidth outHeight]; [|intros H; discriminate H].
  intros _.
  assert (Hex' : tw < m_width info \/ th < m_height info).
  { apply Bool.orb_true_iff in Hex; destruct Hex as [H|H];
      apply Z.ltb_lt in H; auto. }
  pose proof (chosen_scale_small (m_width info) (m_height info) tw th
                ltac:(lia) Hh Htw Hth Hex') as Hs.
  cbv zeta in Hs.
  pose proof (scaled_dimension_le (m_width info) _ ltac:(lia) Hs) as H1.
  pose proof (scaled_dimension_le (m_height info) _ Hh Hs) as H2.
  split.
  - match goal with |- context [if ?x <? 1 then _ else _] =>
      destruct (Z.ltb_spec x 1) end; lia.
  - match goal with |- 1 <= (if ?x <? 1 then _ else _) <= _ =>
      destruct (Z.ltb_spec x 1) end; lia.
Qed.

(** ** Packed rows *)

Lemma length_writeIndexedPixel (row : list Z) (x b v : Z) :
  length (writeIndexedPixel row x b v) = length row.
Proof. unfold writeIndexedPixel; apply length_set. Qed.

Lemma fold_left_preserves {A B : Type} (P : A -> Prop) (f : A -> B -> A)
  (l : list B) (a : A) :
  (forall a b, P a -> P (f a b)) -> P a -> P (fold_left f l a).
Proof.
  intros Hf; revert a; induction l as [|b l IH]; simpl; auto.
Qed.

Lemma length_packRow (cfg : Config) (bpp outW bpr : Z) (g : Z -> Z) (y : Z)
  (d : Ditherer) :
  length (snd (packRow cfg bpp outW bpr g y d)) = Z.to_nat bpr.
Proof.
  unfold packRow.
  destruct (bpp =? 8); cbn [snd].
  - apply (fold_left_preserves (fun rb => length rb = Z.to_nat bpr)).
    + intros rb x Hrb; rewrite length_set; assumption.
    + apply length_zeros.
  - pose proof (fold_left_preserves
                  (fun acc : Ditherer * list Z => length (snd acc) = Z.to_nat bpr)
                  (packPixel cfg bpp (Z.shiftl 1 bpp) g y)
                  (Buf.range outW) (d, Buf.zeros bpr)) as H.
    destruct (fold_left _ _ _) as [d' rb]; cbn [snd] in *.
    apply H.
    + intros [d0 rb0] x Hrb; unfold packPixel.
      destruct (indexPixel _ _ _ _ _ _) as [d1 v]; cbn [snd] in *.
      rewrite length_writeIndexedPixel; assumption.
    + apply length_zeros.
Qed.

Lemma holdsRows_snoc (header : list Z) (bpr k : Z) (s row : list Z) :
  holdsRows header bpr k s -> Z.of_nat (length row) = bpr ->
  holdsRows header bpr (k + 1) (s ++ row).
Proof.
  intros (rows & Hs & Hk & Hall) Hrow.
  exists (rows ++ [row]); repeat split.
  - rewrite Hs, concat_app; simpl; rewrite app_nil_r, app_assoc; reflexivity.
  - rewrite length_app; simpl; lia.
  - apply Forall_app; split; [assumption | repeat constructor; assumption].
Qed.

Section LoopFacts.

Variable cfg : Config.
Variable dec : Decoder.
Variable plan : ScalePlan.
Variable bitsPerPixel : Z.
Variable header : list Z.

Let info := imageInfo dec.
Let bpr := getBytesPerRow (outWidth plan) bitsPerPixel.

Hypothesis Hbpr : 0 <= bpr.
Hypothesis Hheight : 1 <= m_height info <= 3072.
Hypothesis Hdirect :
  needsScaling plan = false -> outHeight plan = m_height info.
Hypothesis Hscaled :
  needsScaling plan = true ->
  1 <= outHeight plan <= m_height info
  /\ scaleY_fp plan = m_height info * 65536 / outHeight plan.

Lemma emitRow_spec (g : Z -> Z) (y : Z) (w : Work) :
  exists row,
    Z.of_nat (length row) = bpr
    /\ sink (emitRow cfg plan bitsPerPixel g y w) = sink w ++ row
    /\ currentOutY (emitRow cfg plan bitsPerPixel g y w) = currentOutY w
    /\ nextOutY_srcStart (emitRow cfg plan bitsPerPixel g y w)
       = nextOutY_srcStart w.
Proof.
  unfold emitRow.
  pose proof (length_packRow cfg bitsPerPixel (outWidth plan) bpr g y (ditherer w))
    as Hlen.
  fold bpr.
  destruct (packRow _ _ _ _ _ _ _) as [d row]; cbn [snd] in Hlen.
  exists row; cbn; repeat split; lia.
Qed.

Lemma scale_facts :
  needsScaling plan = true ->
  65536 <= scaleY_fp plan
  /\ outHeight plan * scaleY_fp plan <= m_height info * 65536.
Proof.
  intros Hs; destruct (Hscaled Hs) as [Hout ->]; split.
  - apply Z.div_le_lower_bound; nia.
  - apply Z.mul_div_le; lia.
Qed.

Lemma rowsDue_step (y : Z) :
  needsScaling plan = true -> 0 <= y ->
  let S := scaleY_fp plan in
  let q := y * 65536 / S in
  let q' := (y + 1) * 65536 / S in
  q <= q' <= q + 1 /\ ((q + 1) * S <= (y + 1) * 65536 <-> q' = q + 1) /\ 0 <= q.
Proof.
  intros Hs Hy S q q'.
  destruct (scale_facts Hs) as [HS _]; fold S in HS.
  pose proof (Z.div_mod (y * 65536) S ltac:(lia)) as E1.
  pose proof (Z.mod_pos_bound (y * 65536) S ltac:(lia)) as B1.
  pose proof (Z.div_mod ((y + 1) * 65536) S ltac:(lia)) as E2.
  pose proof (Z.mod_pos_bound ((y + 1) * 65536) S ltac:(lia)) as B2.
  fold q in E1; fold q' in E2.
  assert (0 <= q) by (apply Z.div_pos; lia).
  assert (q <= q') by (apply Z.div_le_mono; lia).
  assert (q' <= q + 1) by nia.
  repeat split; try lia; nia.
Qed.

Lemma processSourceRow_inv (y startRow : Z) (w : Work) :
  0 <= y < m_height info ->
  loopInv header bpr plan y w ->
  loopInv header bpr plan (y + 1)
    (processSourceRow cfg dec plan bitsPerPixel y startRow w).
Proof.
  intros Hy [Hrows Hsc]; unfold processSourceRow, loopInv, rowsDue in Hrows, Hsc |- *.
  pose proof scale_facts as Hfacts.
  pose proof (fun H => rowsDue_step y H ltac:(lia)) as Hstep.
  pose proof Hscaled as Hplan.
  destruct (needsScaling plan) eqn:Hs; cbn [negb].
  - destruct (Hsc eq_refl) as [Hc Hn]; clear Hsc.
    destruct (Hplan eq_refl) as [Hout HS].
    destruct (Hfacts eq_refl) as [HS1 HS2].
    destruct (Hstep eq_refl) as (Hq & Hflush & Hq0).
    cbv zeta in Hq, Hflush, Hq0.
    set (S := scaleY_fp plan) in *.
    set (q := y * 65536 / S) in *.
    set (q' := (y + 1) * 65536 / S) in *.
    destruct (fold_left _ _ _) as [acc cnt].
    rewrite (u32_small (y + 1)) by lia.
    rewrite (u32_small ((y + 1) * 65536)) by lia.
    destruct (Z.leb_spec (nextOutY_srcStart w) ((y + 1) * 65536)) as [Hle|Hgt];
      destruct (Z.ltb_spec (currentOutY w) (outHeight plan)) as [Hlt|Hge];
      cbn [andb].
    + (* a row is flushed *)
      destruct (emitRow_spec
                  (fun x => if 0 <? Buf.get cnt x
                            then C.u8 (Buf.get acc x / Buf.get cnt x) else 0)
                  (currentOutY w) w) as (row & Hlen & Hsink & _ & _).
      cbn [sink currentOutY nextOutY_srcStart].
      assert (Hcq : currentOutY w = q) by lia.
      assert (Hq' : q' = q + 1) by (apply Hflush; rewrite <- Hcq, <- Hn; lia).
      split.
      * rewrite Hsink.
        replace (Z.min (outHeight plan) q') with (Z.min (outHeight plan) q + 1)
          by lia.
        apply holdsRows_snoc; assumption.
      * intros _; split; [lia|].
        rewrite (u32_small (currentOutY w + 1 + 1)) by lia.
        rewrite u32_small; [reflexivity|].
        split; [nia|].
        assert ((currentOutY w + 1 + 1) * S <= 2 * (outHeight plan * S)) by nia.
        lia.
    + cbn [sink currentOutY nextOutY_srcStart].
      assert (q' >= outHeight plan) by lia.
      replace (Z.min (outHeight plan) q') with (Z.min (outHeight plan) q) by lia.
      split; [assumption | intros _; split; [lia | assumption]].
    + cbn [sink currentOutY nextOutY_srcStart].
      assert (Hcq : currentOutY w = q) by lia.
      assert (Hq' : q' = q).
      { destruct (Z.eq_dec q' (q + 1)) as [E|]; [|lia].
        apply Hflush in E; rewrite <- Hcq, <- Hn in E; lia. }
      replace (Z.min (outHeight plan) q') with (Z.min (outHeight plan) q) by lia.
      split; [assumption | intros _; split; [lia | assumption]].
    + cbn [sink currentOutY nextOutY_srcStart].
      replace (Z.min (outHeight plan) q') with (Z.min (outHeight plan) q) by lia.
      split; [assumption | intros _; split; [lia | assumption]].
  - destruct (emitRow_spec
                (fun x => Buf.get (mcuRowBuffer w)
                            ((y - startRow) * m_width (imageInfo dec) + x))
                y w) as (row & Hlen & Hsink & _ & _).
    split; [|intros Hc; discriminate Hc].
    rewrite Hsink; apply holdsRows_snoc; assumption.
Qed.

Lemma sourceRows_past (n : nat) (y startRow : Z) (w : Work) :
  m_height info <= y ->
  sourceRows cfg dec plan bitsPerPixel n y startRow w = w.
Proof.
  intros Hy; destruct n as [|n]; simpl; [reflexivity|].
  fold info; destruct (Z.ltb_spec y (m_height info)); [lia | reflexivity].
Qed.

Lemma sourceRows_inv (n : nat) :
  forall y startRow w,
    0 <= y <= m_height info ->
    loopInv header bpr plan y w ->
    loopInv header bpr plan (Z.min (y + Z.of_nat n) (m_height info))
      (sourceRows cfg dec plan bitsPerPixel n y startRow w).
Proof.
  induction n as [|n IH]; intros y startRow w Hy Hinv.
  - simpl; replace (Z.min (y + 0) (m_height info)) with y by lia; assumption.
  - cbn [sourceRows]; fold info.
    destruct (Z.ltb_spec y (m_height info)) as [Hlt|Hge].
    + replace (Z.min (y + Z.of_nat (S n)) (m_height info))
        with (Z.min (y + 1 + Z.of_nat n) (m_height info)) by lia.
      apply IH; [lia|].
      apply processSourceRow_inv; [lia | assumption].
    + replace (Z.min (y + Z.of_nat (S n)) (m_height info)) with y by lia.
      assumption.
Qed.

Lemma loopInv_ext (y : Z) (w w1 : Work) :
  sink w1 = sink w -> currentOutY w1 = currentOutY w ->
  nextOutY_srcStart w1 = nextOutY_srcStart w ->
  loopInv header bpr plan y w -> loopInv header bpr plan y w1.
Proof.
  intros Hs Hc Hn [Hrows Hsc]; split; [rewrite Hs; assumption|].
  intros H; rewrite Hc, Hn; apply Hsc; assumption.
Qed.

(** The loop over the MCU rows [a .. a+n-1]: it stops at the first MCU row
    [a+k] with a failing MCU, having processed the source rows above it. *)
Lemma mcuRows_inv (n : nat) :
  forall (a : nat) (w : Work),
    1 <= m_MCUHeight info ->
    loopInv header bpr plan
      (Z.min (Z.of_nat a * m_MCUHeight info) (m_height info)) w ->
    exists k : nat,
      loopInv header bpr plan
        (Z.min (Z.of_nat (a + k) * m_MCUHeight info) (m_height info))
        (snd (mcuRows cfg dec plan bitsPerPixel (map Z.of_nat (seq a n)) w))
      /\ (if fst (mcuRows cfg dec plan bitsPerPixel (map Z.of_nat (seq a n)) w)
          then k = n else (k < n)%nat).
Proof.
  induction n as [|n IH]; intros a w HH Hinv.
  - exists O; cbn; split; [|reflexivity].
    replace (a + 0)%nat with a by lia; assumption.
  - cbn [seq map mcuRows]; fold info.
    destruct (decodeMcuRow _ _ _ _) as [[c buf]|].
    2:{ exists O; cbn; split; [|lia].
        replace (a + 0)%nat with a by lia; assumption. }
    set (w1 := {| sink := sink w; ditherer := ditherer w;
                  rowAccum := rowAccum w; rowCount := rowCount w;
                  currentOutY := currentOutY w;
                  nextOutY_srcStart := nextOutY_srcStart w;
                  calls := c; mcuRowBuffer := buf |}).
    assert (Hinv1 : loopInv header bpr plan
              (Z.min (Z.of_nat a * m_MCUHeight info) (m_height info)) w1)
      by (apply (loopInv_ext _ w); auto).
    destruct (IH (S a)
                (sourceRows cfg dec plan bitsPerPixel
                   (Z.to_nat (m_MCUHeight info))
                   (Z.of_nat a * m_MCUHeight info)
                   (Z.of_nat a * m_MCUHeight info) w1) HH) as (k & Hk & Hfst).
    + destruct (Z.le_gt_cases (Z.of_nat a * m_MCUHeight info) (m_height info))
        as [Hin|Hpast].
      * replace (Z.min (Z.of_nat (S a) * m_MCUHeight info) (m_height info))
          with (Z.min (Z.of_nat a * m_MCUHeight info
                       + Z.of_nat (Z.to_nat (m_MCUHeight info)))
                      (m_height info)) by lia.
        apply sourceRows_inv; [lia|].
        replace (Z.min (Z.of_nat a * m_MCUHeight info) (m_height info))
          with (Z.of_nat a * m_MCUHeight info) in Hinv1 by lia.
        assumption.
      * rewrite sourceRows_past by lia.
        replace (Z.min (Z.of_nat (S a) * m_MCUHeight info) (m_height info))
          with (Z.min (Z.of_nat a * m_MCUHeight info) (m_height info)) by lia.
        assumption.
    + exists (S k); split.
      * replace (a + S k)%nat with (S a + k)%nat by lia; exact Hk.
      * destruct (fst _); lia.
Qed.

End LoopFacts.

(** ** The BMP header *)

Lemma le32_write32 (v : Z) : le32 (write32 v) = C.u32 v.
Proof.
  unfold write32, le32.
  pose proof (Z.mod_pos_bound v 4294967296 ltac:(lia)) as Hv.
  unfold C.u32 in *; set (u := v mod 4294967296) in *.
  change 255 with (Z.ones 8); rewrite !Z.land_ones, !Z.shiftr_div_pow2 by lia.
  change (2 ^ 8) with 256; change (2 ^ 16) with 65536;
    change (2 ^ 24) with 16777216.
  Z.to_euclidean_division_equations; lia.
Qed.

Lemma le32_write32Signed (v : Z) :
  -2147483648 <= v < 2147483648 -> signed32 (le32 (write32Signed v)) = v.
Proof.
  intros Hv; unfold write32Signed, le32, signed32.
  change 255 with (Z.ones 8); rewrite !Z.land_ones, !Z.shiftr_div_pow2 by lia.
  change (2 ^ 8) with 256; change (2 ^ 16) with 65536;
    change (2 ^ 24) with 16777216.
  match goal with |- context [?a <? ?b] => destruct (Z.ltb_spec a b) end;
    Z.to_euclidean_division_equations; lia.
Qed.

Lemma le16_write16 (v : Z) : le16 (write16 v) = C.u16 v.
Proof.
  unfold write16, le16.
  pose proof (Z.mod_pos_bound v 65536 ltac:(lia)) as Hv.
  unfold C.u16 in *; set (u := v mod 65536) in *.
  change 255 with (Z.ones 8); rewrite !Z.land_ones, !Z.shiftr_div_pow2 by lia.
  change (2 ^ 8) with 256.
  Z.to_euclidean_division_equations; lia.
Qed.

Lemma length_grayRamp : length grayRamp = 1024%nat.
Proof. vm_compute; reflexivity. Qed.

Lemma length_writeBmpHeader (width height bpp : Z) :
  bpp = 1 \/ bpp = 2 \/ bpp = 8 ->
  Z.of_nat (length (writeBmpHeader width height bpp)) = 54 + 4 * getColorsUsed bpp.
Proof.
  intros Hb; unfold writeBmpHeader.
  rewrite !length_app.
  assert (Hp : Z.of_nat (length (if bpp =? 8 then grayRamp
                                 else if bpp =? 2 then palette2bit else palette1bit))
               = 4 * getColorsUsed bpp).
  { destruct Hb as [H|[H|H]]; subst bpp; cbn [Z.eqb Pos.eqb getColorsUsed];
      rewrite ?length_grayRamp; reflexivity. }
  cbn [length write32 write16 write32Signed] in *; lia.
Qed.

(** The fixed part of the header is at fixed offsets, whatever follows. *)
Lemma header_fields (width height bpp : Z) (rest : list Z) :
  let bmp := writeBmpHeader width height bpp ++ rest in
  fileSizeField bmp
  = C.u32 (14 + 40 + getColorsUsed bpp * 4 + getBytesPerRow width bpp * height)
  /\ widthField bmp = signed32 (le32 (write32Signed width))
  /\ heightField bmp = signed32 (le32 (write32Signed (- height)))
  /\ bitsPerPixelField bmp = C.u16 bpp
  /\ imageSizeField bmp = C.u32 (getBytesPerRow width bpp * height).
Proof.
  intros bmp; unfold bmp, writeBmpHeader.
  unfold fileSizeField, widthField, heightField, bitsPerPixelField,
    imageSizeField, slice.
  rewrite <- !app_assoc.
  set (tail := (if bpp =? 8 then grayRamp else _) ++ rest).
  unfold write32 at 1 2 3 4 5 6 7 8 9, write32Signed, write16.
  cbn [app skipn firstn].
  repeat split.
  - etransitivity; [exact (le32_write32 (C.u32 _))|].
    unfold C.u32; apply Z.mod_mod; lia.
  - exact (le16_write16 bpp).
  - exact (le32_write32 _).
Qed.

(** ** The shape of a run of the converter *)

Lemma converter_in_loop (cfg : Config) (dec : Decoder) (mem : Memory)
  (bpp tw th : Z) :
  entersLoop dec mem bpp ->
  let plan := computeScale cfg (imageInfo dec) tw th in
  let run := mcuRows cfg dec plan bpp (Buf.range (m_MCUSPerCol (imageInfo dec)))
               (startWork cfg (imageInfo dec) plan bpp) in
  jpegFileToBmpStream cfg dec mem bpp tw th
  = if fst run
    then {| result := true; bmpOut := sink (snd run);
            heap := release RowBuffer (release McuRowBuffer
                      (deleteDitherer (ditherer (snd run))
                         (if needsScaling plan
                          then release RowCount (release RowAccum
                                 (startHeap cfg plan bpp))
                          else startHeap cfg plan bpp))) |}
    else {| result := false; bmpOut := sink (snd run);
            heap := release RowBuffer (release McuRowBuffer
                      (startHeap cfg plan bpp)) |}.
Proof.
  intros (Hb & Hinit & Hw & Hh & Hrb & Hmcu & Hmb) plan run.
  unfold jpegFileToBmpStream.
  replace ((bpp =? 1) || (bpp =? 2) || (bpp =? 8)) with true
    by (destruct Hb as [H|[H|H]]; subst bpp; reflexivity).
  rewrite Hinit, Hrb, Hmb; cbn [negb Z.eqb].
  destruct (Z.ltb_spec MAX_IMAGE_WIDTH (m_width (imageInfo dec))); [lia|].
  destruct (Z.ltb_spec MAX_IMAGE_HEIGHT (m_height (imageInfo dec))); [lia|].
  cbn [orb].
  destruct (Z.ltb_spec MAX_MCU_ROW_BYTES
              (m_width (imageInfo dec) * m_MCUHeight (imageInfo dec))); [lia|].
  fold plan.
  subst run; unfold startWork, startHeap, createDitherer, alloc.
  destruct (negb (bpp =? 8)), (USE_ATKINSON cfg), (USE_FLOYD_STEINBERG cfg),
    (needsScaling plan); cbv beta iota zeta; cbn [fst snd];
    destruct (mcuRows _ _ _ _ _ _) as [[|] w]; reflexivity.
Qed.

Ltac failed_run := let H := fresh "Hrun" in intros H; discriminate H.

Lemma converter_success (cfg : Config) (dec : Decoder) (mem : Memory)
  (bpp tw th : Z) :
  result (jpegFileToBmpStream cfg dec mem bpp tw th) = true ->
  entersLoop dec mem bpp.
Proof.
  unfold jpegFileToBmpStream, entersLoop.
  destruct (Z.eqb_spec bpp 1); [|destruct (Z.eqb_spec bpp 2);
    [|destruct (Z.eqb_spec bpp 8); [|failed_run]]];
    cbn [orb negb].
  all: destruct (Z.eqb_spec (init_status dec) 0); cbn [negb];
    [|failed_run].
  all: destruct (Z.ltb_spec MAX_IMAGE_WIDTH (m_width (imageInfo dec)));
    [failed_run|].
  all: destruct (Z.ltb_spec MAX_IMAGE_HEIGHT (m_height (imageInfo dec)));
    [failed_run|]; cbn [orb].
  all: destruct (rowBuffer_ok mem); [|failed_run]; cbn [negb].
  all: destruct (Z.ltb_spec MAX_MCU_ROW_BYTES
                   (m_width (imageInfo dec) * m_MCUHeight (imageInfo dec)));
    [failed_run|].
  all: destruct (mcuRowBuffer_ok mem); [|failed_run].
  all: intros _; repeat split; auto.
Qed.

(** ** Length of the written file (claim C1) *)

Lemma computeScale_direct (cfg : Config) (info : pjpeg_image_info) (tw th : Z) :
  needsScaling (computeScale cfg info tw th) = false ->
  computeScale cfg info tw th
  = {| outWidth := m_width info; outHeight := m_height info;
       scaleX_fp := 65536; scaleY_fp := 65536; needsScaling := false |}.
Proof.
  unfold computeScale.
  destruct (USE_PRESCALE cfg && ((tw <? m_width info) || (th <? m_height info)));
    [intros H; discriminate H | reflexivity].
Qed.

Lemma computeScale_fixed_point (cfg : Config) (info : pjpeg_image_info)
  (tw th : Z) :
  let plan := computeScale cfg info tw th in
  needsScaling plan = true ->
  scaleX_fp plan = C.u32 (C.u32 (m_width info) * 65536) / C.u32 (outWidth plan)
  /\ scaleY_fp plan
     = C.u32 (C.u32 (m_height info) * 65536) / C.u32 (outHeight plan).
Proof.
  unfold computeScale.
  destruct (USE_PRESCALE cfg && ((tw <? m_width info) || (th <? m_height info)));
    [split; reflexivity | intros H; discriminate H].
Qed.

Lemma getBytesPerRow_nonneg (width bpp : Z) :
  0 <= width -> 0 <= getBytesPerRow width bpp.
Proof.
  intros Hw; unfold getBytesPerRow, C.sdiv.
  destruct (bpp =? 8); [|destruct (bpp =? 2)];
    rewrite Z.quot_div_nonneg by lia;
    match goal with |- 0 <= ?a / ?b * 4 =>
      assert (0 <= a / b) by (apply Z.div_pos; lia) end; lia.
Qed.

Lemma plan_facts (cfg : Config) (info : pjpeg_image_info) (tw th : Z) :
  1 <= m_width info <= 2048 -> 1 <= m_height info <= 3072 ->
  -2147483648 <= tw <= 2147483647 -> -2147483648 <= th <= 2147483647 ->
  let plan := computeScale cfg info tw th in
  1 <= outWidth plan
  /\ (needsScaling plan = false -> outHeight plan = m_height info)
  /\ (needsScaling plan = true ->
      1 <= outHeight plan <= m_height info
      /\ scaleY_fp plan = m_height info * 65536 / outHeight plan).
Proof.
  intros Hw Hh Htw Hth plan.
  destruct (needsScaling plan) eqn:Hs.
  - destruct (computeScale_bounds cfg info tw th Hw Hh Htw Hth Hs) as [Ho1 Ho2].
    destruct (computeScale_fixed_point cfg info tw th Hs) as [_ Hy].
    fold plan in Ho1, Ho2, Hy.
    split; [lia|]; split; [intros H; discriminate H|].
    intros _; split; [assumption|].
    rewrite Hy, (u32_small (m_height info)), !u32_small by lia; reflexivity.
  - unfold plan in *; rewrite (computeScale_direct _ _ _ _ Hs); cbn.
    split; [lia|]; split; [reflexivity | intros H; discriminate H].
Qed.

Lemma rowsDue_start (plan : ScalePlan) :
  (needsScaling plan = true -> 1 <= outHeight plan) -> rowsDue plan 0 = 0.
Proof.
  intros H; unfold rowsDue; destruct (needsScaling plan); [|reflexivity].
  rewrite Z.mul_0_l, Zdiv_0_l; specialize (H eq_refl); lia.
Qed.

Lemma holdsRows_length (header : list Z) (bpr k : Z) (s : list Z) :
  holdsRows header bpr k s ->
  Z.of_nat (length s) = Z.of_nat (length header) + bpr * k.
Proof.
  intros (rows & -> & <- & Hall); rewrite length_app, Nat2Z.inj_add; f_equal.
  induction Hall as [|r rows Hr Hall IH]; simpl; [lia|].
  rewrite length_app; lia.
Qed.

Lemma loopInv_start (cfg : Config) (info : pjpeg_image_info)
  (plan : ScalePlan) (bpp y : Z) :
  y = 0 ->
  (needsScaling plan = true -> 1 <= outHeight plan) ->
  loopInv (writeBmpHeader (outWidth plan) (outHeight plan) bpp)
    (getBytesPerRow (outWidth plan) bpp) plan y (startWork cfg info plan bpp).
Proof.
  intros -> Hs.
  assert (H0 : rowsDue plan 0 = 0) by (apply rowsDue_start; assumption).
  split.
  - rewrite H0; exists []; cbn [startWork sink concat length].
    rewrite app_nil_r; repeat split; constructor.
  - intros Hsc; cbn [startWork currentOutY nextOutY_srcStart].
    rewrite H0, Hsc; split; lia.
Qed.

(** A run that returns [true] leaves the header and then [outHeight] packed
    rows in the sink. *)
Lemma successful_run_rows (cfg : Config) (dec : Decoder) (mem : Memory)
  (bpp tw th : Z) :
  1 <= m_width (imageInfo dec) -> 1 <= m_height (imageInfo dec) ->
  1 <= m_MCUHeight (imageInfo dec) ->
  m_height (imageInfo dec)
    <= m_MCUSPerCol (imageInfo dec) * m_MCUHeight (imageInfo dec) ->
  -2147483648 <= tw <= 2147483647 -> -2147483648 <= th <= 2147483647 ->
  result (jpegFileToBmpStream cfg dec mem bpp tw th) = true ->
  let plan := computeScale cfg (imageInfo dec) tw th in
  holdsRows (writeBmpHeader (outWidth plan) (outHeight plan) bpp)
    (getBytesPerRow (outWidth plan) bpp) (outHeight plan)
    (bmpOut (jpegFileToBmpStream cfg dec mem bpp tw th)).
Proof.
  intros Hw Hh HH Hgrid Htw Hth Hok plan.
  pose proof (converter_success _ _ _ _ _ _ Hok) as Hloop.
  pose proof Hloop as (Hb & _ & Hw' & Hh' & _).
  unfold MAX_IMAGE_WIDTH, MAX_IMAGE_HEIGHT in Hw', Hh'.
  rewrite (converter_in_loop cfg dec mem bpp tw th Hloop) in Hok |- *.
  fold plan in Hok |- *.
  destruct (mcuRows cfg dec plan bpp _ _) as [ok w] eqn:Hrun.
  cbn [fst snd] in Hok |- *.
  destruct ok; [|discriminate Hok]; cbn [bmpOut].
  destruct (plan_facts cfg (imageInfo dec) tw th ltac:(lia) ltac:(lia) Htw Hth)
    as (HoutW & Hdirect & Hscaled); fold plan in HoutW, Hdirect, Hscaled.
  pose proof (getBytesPerRow_nonneg (outWidth plan) bpp ltac:(lia)) as Hbpr.
  unfold Buf.range in Hrun.
  assert (Hinit : loopInv (writeBmpHeader (outWidth plan) (outHeight plan) bpp)
                    (getBytesPerRow (outWidth plan) bpp) plan
                    (Z.min (Z.of_nat 0 * m_MCUHeight (imageInfo dec))
                       (m_height (imageInfo dec)))
                    (startWork cfg (imageInfo dec) plan bpp)).
  { apply loopInv_start; [lia|].
    intros Hs; apply (Hscaled Hs). }
  destruct (mcuRows_inv cfg dec plan bpp
              (writeBmpHeader (outWidth plan) (outHeight plan) bpp)
              Hbpr ltac:(lia) Hdirect Hscaled
              (Z.to_nat (m_MCUSPerCol (imageInfo dec))) O
              (startWork cfg (imageInfo dec) plan bpp) HH Hinit)
    as (k & [Hrows _] & Hk).
  rewrite Hrun in Hrows, Hk; cbn [fst snd] in Hrows, Hk; subst k.
  replace (Z.min (Z.of_nat (0 + Z.to_nat (m_MCUSPerCol (imageInfo dec)))
                  * m_MCUHeight (imageInfo dec)) (m_height (imageInfo dec)))
    with (m_height (imageInfo dec)) in Hrows by nia.
  replace (rowsDue plan (m_height (imageInfo dec))) with (outHeight plan)
    in Hrows; [assumption|].
  unfold rowsDue; destruct (needsScaling plan) eqn:Hs.
  - destruct (Hscaled eq_refl) as [Hout HS].
    assert (outHeight plan <= m_height (imageInfo dec) * 65536 / scaleY_fp plan).
    { apply Z.div_le_lower_bound.
      - rewrite HS; apply Z.div_str_pos; nia.
      - rewrite HS, Z.mul_comm; apply Z.mul_div_le; lia. }
    lia.
  - apply Hdirect; reflexivity.
Qed.

(** C1.  For a conversion that returns [true] (the depth is then 1, 2 or 8),
    on an image whose MCU grid covers its rows, the number of bytes written
    to the sink is [54 + paletteBytes + bytesPerRow * outputHeight] with
    [paletteBytes = 4 * colorsUsed]; it equals the [fileSize] field of the
    header; and the sink holds the header, written once, followed by exactly
    [outputHeight] packed rows of [bytesPerRow] bytes, on the scaling path as
    on the direct one. *)
Theorem written_bytes_match_header (cfg : Config) (dec : Decoder)
  (mem : Memory) (bitsPerPixel targetWidth targetHeight : Z)
  (Hwidth : 1 <= m_width (imageInfo dec))
  (Hheight : 1 <= m_height (imageInfo dec))
  (Hmcu : 1 <= m_MCUHeight (imageInfo dec))
  (Hgrid : m_height (imageInfo dec)
           <= m_MCUSPerCol (imageInfo dec) * m_MCUHeight (imageInfo dec))
  (Htw : -2147483648 <= targetWidth <= 2147483647)
  (Hth : -2147483648 <= targetHeight <= 2147483647)
  (Hok : result (jpegFileToBmpStream cfg dec mem bitsPerPixel
                   targetWidth targetHeight) = true) :
  let out := bmpOut (jpegFileToBmpStream cfg dec mem bitsPerPixel
                       targetWidth targetHeight) in
  let plan := computeScale cfg (imageInfo dec) targetWidth targetHeight in
  let paletteBytes := 4 * getColorsUsed bitsPerPixel in
  let bytesPerRow := getBytesPerRow (outWidth plan) bitsPerPixel in
  (bitsPerPixel = 1 \/ bitsPerPixel = 2 \/ bitsPerPixel = 8)
  /\ Z.of_nat (length out) = 54 + paletteBytes + bytesPerRow * outHeight plan
  /\ fileSizeField out = Z.of_nat (length out)
  /\ holdsRows (writeBmpHeader (outWidth plan) (outHeight plan) bitsPerPixel)
       bytesPerRow (outHeight plan) out.
Proof.
  intros out plan paletteBytes bytesPerRow.
  pose proof (successful_run_rows cfg dec mem bitsPerPixel targetWidth
                targetHeight Hwidth Hheight Hmcu Hgrid Htw Hth Hok) as Hrows.
  fold plan out bytesPerRow in Hrows.
  pose proof (converter_success _ _ _ _ _ _ Hok) as (Hb & _ & Hw' & Hh' & _).
  unfold MAX_IMAGE_WIDTH, MAX_IMAGE_HEIGHT in Hw', Hh'.
  assert (Hlen : Z.of_nat (length out)
                 = 54 + paletteBytes + bytesPerRow * outHeight plan).
  { rewrite (holdsRows_length _ _ _ _ Hrows), length_writeBmpHeader by assumption.
    reflexivity. }
  split; [assumption|]; split; [assumption|]; split; [|assumption].
  rewrite Hlen.
  destruct Hrows as (rows & Hout & _ & _); rewrite Hout.
  destruct (header_fields (outWidth plan) (outHeight plan) bitsPerPixel
              (concat rows)) as (Hfs & _).
  rewrite Hfs.
  destruct (plan_facts cfg (imageInfo dec) targetWidth targetHeight
              ltac:(lia) ltac:(lia) Htw Hth) as (HoutW & Hdirect & Hscaled).
  fold plan in HoutW, Hdirect, Hscaled.
  assert (HoutH : 1 <= outHeight plan <= 3072).
  { destruct (needsScaling plan);
      [destruct (Hscaled eq_refl) | rewrite (Hdirect eq_refl)]; lia. }
  assert (HoutW' : outWidth plan <= 2048).
  { destruct (needsScaling plan) eqn:Hs.
    - pose proof (computeScale_bounds cfg (imageInfo dec) targetWidth
                    targetHeight ltac:(lia) ltac:(lia) Htw Hth Hs); fold plan in H; lia.
    - unfold plan; rewrite (computeScale_direct _ _ _ _ Hs); cbn; lia. }
  assert (Hbpr : 0 <= bytesPerRow <= 2052).
  { unfold bytesPerRow, getBytesPerRow, C.sdiv.
    destruct (bitsPerPixel =? 8); [|destruct (bitsPerPixel =? 2)];
      rewrite Z.quot_div_nonneg by lia;
      Z.to_euclidean_division_equations; lia. }
  assert (Hpal : 0 <= paletteBytes <= 1024).
  { unfold paletteBytes; destruct Hb as [H|[H|H]]; subst bitsPerPixel; cbn; lia. }
  unfold paletteBytes, bytesPerRow in *.
  rewrite u32_small; [lia | nia].
Qed.

(** A 16x16 image scaled into 8x8 at depth 2: 70 bytes of header and palette
    and 8 rows of 4 bytes. *)
Lemma written_bytes_match_header_witness :
  Z.of_nat (length (bmpOut (jpegFileToBmpStream default_config gray16x16
                              enoughMemory 2 8 8)))
  = 54 + 4 * 4 + 4 * 8.
Proof.
  refine (proj1 (proj2 (written_bytes_match_header default_config gray16x16
                          enoughMemory 2 8 8 _ _ _ _ _ _ _))).
  - vm_compute; discriminate.
  - vm_compute; discriminate.
  - vm_compute; discriminate.
  - vm_compute; discriminate.
  - lia.
  - lia.
  - vm_compute; reflexivity.
Defined.

(** ** Runs that stop before the loop *)

Ltac early_exit :=
  right; cbv beta iota; unfold alloc; cbn [result bmpOut heap release];
  repeat (destruct (Block_eq_dec _ _); [|contradiction]);
  repeat split; auto 6;
  let E := fresh "E" in
  intros (E & ? & ? & ? & ? & ? & ?);
  first [ congruence | lia
        | destruct E as [E|[E|E]]; subst; discriminate ].

Lemma converter_cases (cfg : Config) (dec : Decoder) (mem : Memory)
  (bpp tw th : Z) :
  let o := jpegFileToBmpStream cfg dec mem bpp tw th in
  let plan := computeScale cfg (imageInfo dec) tw th in
  entersLoop dec mem bpp
  \/ (result o = false /\ heap o = []
      /\ ~ entersLoop dec mem bpp
      /\ (bmpOut o = []
          \/ (init_status dec = 0
              /\ m_width (imageInfo dec) <= MAX_IMAGE_WIDTH
              /\ m_height (imageInfo dec) <= MAX_IMAGE_HEIGHT
              /\ bmpOut o = writeBmpHeader (outWidth plan) (outHeight plan) bpp))).
Proof.
  intros o plan; unfold o, jpegFileToBmpStream; fold plan.
  destruct ((bpp =? 1) || (bpp =? 2) || (bpp =? 8)) eqn:Hb; cbn [negb];
    [|early_exit].
  assert (Hb' : bpp = 1 \/ bpp = 2 \/ bpp = 8).
  { apply Bool.orb_true_iff in Hb; destruct Hb as [Hb|Hb];
      [apply Bool.orb_true_iff in Hb; destruct Hb as [Hb|Hb]|];
      apply Z.eqb_eq in Hb; auto. }
  destruct (Z.eqb_spec (init_status dec) 0) as [Hi|Hi]; cbn [negb];
    [|early_exit].
  destruct (Z.ltb_spec MAX_IMAGE_WIDTH (m_width (imageInfo dec)));
    cbn [orb]; [early_exit|].
  destruct (Z.ltb_spec MAX_IMAGE_HEIGHT (m_height (imageInfo dec)));
    [early_exit|].
  destruct (rowBuffer_ok mem) eqn:Hrb; cbn [negb]; [|early_exit].
  destruct (Z.ltb_spec MAX_MCU_ROW_BYTES
              (m_width (imageInfo dec) * m_MCUHeight (imageInfo dec)));
    [early_exit|].
  destruct (mcuRowBuffer_ok mem) eqn:Hmb; cbn [negb]; [|early_exit].
  left; unfold entersLoop; repeat split; auto.
Qed.

(** ** Heap blocks *)

Lemma sameDitherer_refl (d : Ditherer) : sameDitherer d d.
Proof. destruct d; exact I. Qed.

Lemma sameDitherer_trans (d1 d2 d3 : Ditherer) :
  sameDitherer d1 d2 -> sameDitherer d2 d3 -> sameDitherer d1 d3.
Proof. destruct d1, d2, d3; simpl; tauto. Qed.

Lemma sameDitherer_packRow (cfg : Config) (bpp outW bpr : Z) (g : Z -> Z)
  (y : Z) (d : Ditherer) :
  sameDitherer d (fst (packRow cfg bpp outW bpr g y d)).
Proof.
  unfold packRow.
  destruct (bpp =? 8); cbn [fst]; [apply sameDitherer_refl|].
  pose proof (fold_left_preserves
                (fun acc : Ditherer * list Z => sameDitherer d (fst acc))
                (packPixel cfg bpp (Z.shiftl 1 bpp) g y)
                (Buf.range outW) (d, Buf.zeros bpr)) as H.
  destruct (fold_left _ _ _) as [d' rb]; cbn [fst] in *.
  apply sameDitherer_trans with d'.
  - apply H; [|apply sameDitherer_refl].
    intros [d0 rb0] x Hd; unfold packPixel, indexPixel.
    destruct d0 as [|a|f]; cbn [fst] in *.
    + exact Hd.
    + destruct (Atkinson.processPixel _ _ _ _); destruct d; exact Hd.
    + destruct (FloydSteinberg.processPixel _ _ _ _ _); destruct d; exact Hd.
  - destruct d'; exact I.
Qed.

Section DithererKept.

Variable cfg : Config.
Variable dec : Decoder.
Variable plan : ScalePlan.
Variable bitsPerPixel : Z.

Lemma sameDitherer_emitRow (g : Z -> Z) (y : Z) (w : Work) :
  sameDitherer (ditherer w) (ditherer (emitRow cfg plan bitsPerPixel g y w)).
Proof.
  unfold emitRow.
  pose proof (sameDitherer_packRow cfg bitsPerPixel (outWidth plan)
                (getBytesPerRow (outWidth plan) bitsPerPixel) g y (ditherer w)).
  destruct (packRow _ _ _ _ _ _ _); exact H.
Qed.

Lemma sameDitherer_processSourceRow (y startRow : Z) (w : Work) :
  sameDitherer (ditherer w)
    (ditherer (processSourceRow cfg dec plan bitsPerPixel y startRow w)).
Proof.
  unfold processSourceRow.
  destruct (negb (needsScaling plan)); [apply sameDitherer_emitRow|].
  destruct (fold_left _ _ _) as [acc cnt].
  destruct (_ && _); cbn [ditherer];
    [apply sameDitherer_emitRow | apply sameDitherer_refl].
Qed.

Lemma sameDitherer_sourceRows (n : nat) :
  forall y startRow w,
    sameDitherer (ditherer w)
      (ditherer (sourceRows cfg dec plan bitsPerPixel n y startRow w)).
Proof.
  induction n as [|n IH]; intros y startRow w; cbn [sourceRows].
  - apply sameDitherer_refl.
  - destruct (y <? m_height (imageInfo dec)); [|apply sameDitherer_refl].
    eapply sameDitherer_trans; [apply sameDitherer_processSourceRow | apply IH].
Qed.

Lemma sameDitherer_mcuRows (ys : list Z) :
  forall w,
    sameDitherer (ditherer w)
      (ditherer (snd (mcuRows cfg dec plan bitsPerPixel ys w))).
Proof.
  induction ys as [|mcuY ys IH]; intros w; cbn [mcuRows snd].
  - apply sameDitherer_refl.
  - destruct (decodeMcuRow _ _ _ _) as [[c buf]|]; cbn [snd];
      [|apply sameDitherer_refl].
    eapply sameDitherer_trans; [|apply IH].
    eapply sameDitherer_trans; [|apply sameDitherer_sourceRows].
    apply sameDitherer_refl.
Qed.

End DithererKept.

(** What is still allocated when the conversion returns. *)
Lemma heap_at_return (cfg : Config) (dec : Decoder) (mem : Memory)
  (bpp tw th : Z) :
  let o := jpegFileToBmpStream cfg dec mem bpp tw th in
  let plan := computeScale cfg (imageInfo dec) tw th in
  (result o = true -> heap o = [])
  /\ (~ entersLoop dec mem bpp -> heap o = [])
  /\ (entersLoop dec mem bpp -> result o = false ->
      heap o = leakedBlocks cfg plan bpp).
Proof.
  intros o plan.
  destruct (converter_cases cfg dec mem bpp tw th) as [Hloop|(Hr & Hh & Hn & _)].
  2:{ fold o in Hr, Hh; repeat split; intros; auto; contradiction. }
  split; [|split; [intros Hn; contradiction|]].
  - intros Hok; unfold o in *.
    rewrite (converter_in_loop cfg dec mem bpp tw th Hloop) in Hok |- *.
    fold plan in Hok |- *.
    pose proof (sameDitherer_mcuRows cfg dec plan bpp
                  (Buf.range (m_MCUSPerCol (imageInfo dec)))
                  (startWork cfg (imageInfo dec) plan bpp)) as Hsame.
    destruct (mcuRows _ _ _ _ _ _) as [[|] w]; cbn [fst snd] in *;
      [|discriminate Hok].
    cbn [heap]; unfold startWork, startHeap, createDitherer in *.
    cbn [ditherer] in Hsame.
    destruct (negb (bpp =? 8)), (USE_ATKINSON cfg), (USE_FLOYD_STEINBERG cfg),
      (needsScaling plan), (ditherer w); cbn in Hsame |- *;
      try contradiction; reflexivity.
  - intros _ Hfail; unfold o in *.
    rewrite (converter_in_loop cfg dec mem bpp tw th Hloop) in Hfail |- *.
    fold plan in Hfail |- *.
    destruct (mcuRows _ _ _ _ _ _) as [[|] w]; cbn [fst snd] in *;
      [discriminate Hfail|].
    cbn [heap]; unfold leakedBlocks, startHeap, createDitherer.
    destruct (negb (bpp =? 8)), (USE_ATKINSON cfg), (USE_FLOYD_STEINBERG cfg),
      (needsScaling plan); reflexivity.
Qed.

(** ** The sink only grows *)

Section SinkGrows.

Variable cfg : Config.
Variable dec : Decoder.
Variable plan : ScalePlan.
Variable bitsPerPixel : Z.

Lemma emitRow_appends (g : Z -> Z) (y : Z) (w : Work) :
  exists t, sink (emitRow cfg plan bitsPerPixel g y w) = sink w ++ t.
Proof.
  unfold emitRow; destruct (packRow _ _ _ _ _ _ _) as [d row].
  exists row; reflexivity.
Qed.

Lemma processSourceRow_appends (y startRow : Z) (w : Work) :
  exists t,
    sink (processSourceRow cfg dec plan bitsPerPixel y startRow w) = sink w ++ t.
Proof.
  unfold processSourceRow.
  destruct (negb (needsScaling plan)); [apply emitRow_appends|].
  destruct (fold_left _ _ _) as [acc cnt].
  destruct (_ && _); cbn [sink];
    [apply emitRow_appends | exists []; rewrite app_nil_r; reflexivity].
Qed.

Lemma sourceRows_appends (n : nat) :
  forall y startRow w,
  exists t, sink (sourceRows cfg dec plan bitsPerPixel n y startRow w) = sink w ++ t.
Proof.
  induction n as [|n IH]; intros y startRow w; cbn [sourceRows].
  - exists []; rewrite app_nil_r; reflexivity.
  - destruct (y <? m_height (imageInfo dec));
      [|exists []; rewrite app_nil_r; reflexivity].
    destruct (processSourceRow_appends y startRow w) as (t1 & H1).
    destruct (IH (y + 1) startRow
                (processSourceRow cfg dec plan bitsPerPixel y startRow w))
      as (t2 & H2).
    exists (t1 ++ t2); rewrite H2, H1, app_assoc; reflexivity.
Qed.

Lemma mcuRows_appends (ys : list Z) :
  forall w,
  exists t, sink (snd (mcuRows cfg dec plan bitsPerPixel ys w)) = sink w ++ t.
Proof.
  induction ys as [|mcuY ys IH]; intros w; cbn [mcuRows snd].
  - exists []; rewrite app_nil_r; reflexivity.
  - destruct (decodeMcuRow _ _ _ _) as [[c buf]|]; cbn [snd];
      [|exists []; rewrite app_nil_r; reflexivity].
    match goal with |- context [mcuRows _ _ _ _ ys ?w1] =>
      destruct (IH w1) as (t2 & H2) end.
    match type of H2 with context [sourceRows _ _ _ _ ?n ?y ?s ?w1] =>
      destruct (sourceRows_appends n y s w1) as (t1 & H1) end.
    exists (t1 ++ t2); rewrite H2, H1, app_assoc; reflexivity.
Qed.

End SinkGrows.

(** Once the conversion is in its loop, the sink starts with the header. *)
Lemma header_comes_first (cfg : Config) (dec : Decoder) (mem : Memory)
  (bpp tw th : Z) :
  entersLoop dec mem bpp ->
  let plan := computeScale cfg (imageInfo dec) tw th in
  exists t,
    bmpOut (jpegFileToBmpStream cfg dec mem bpp tw th)
    = writeBmpHeader (outWidth plan) (outHeight plan) bpp ++ t.
Proof.
  intros Hloop plan.
  rewrite (converter_in_loop cfg dec mem bpp tw th Hloop); fold plan.
  destruct (mcuRows_appends cfg dec plan bpp
              (Buf.range (m_MCUSPerCol (imageInfo dec)))
              (startWork cfg (imageInfo dec) plan bpp)) as (t & Ht).
  exists t; destruct (fst _); cbn [bmpOut]; exact Ht.
Qed.

(** ** No scaling within the bounding box (claim C7) *)

(** The row of a 300 pixel wide image at 2 bits per pixel takes 76 bytes
    (600 bits are 75 bytes, padded to a multiple of 4), not 40. *)
Lemma row_of_300_pixels_at_depth_2_is_not_40_bytes :
  getBytesPerRow 300 2 <> 40.
Proof. vm_compute; intros H; discriminate H. Qed.

(** C7, with the row width the code computes.  When the source width and
    height are within the target bounding box, no scaling is applied: the
    output dimensions are the source dimensions, and every source row is
    packed directly from the samples of the MCU row buffer, one output pixel
    per source pixel, the scaling accumulators being left alone.  For a
    300x450 source at depth 2 the header of the file declares width 300,
    height -450, 2 bits per pixel, an image of 450 rows of 76 bytes, and the
    palette 0, 85, 170, 255. *)
Theorem no_scaling_within_bounds (cfg : Config) (dec : Decoder) (mem : Memory)
  (targetWidth targetHeight : Z)
  (Hw : m_width (imageInfo dec) <= targetWidth)
  (Hh : m_height (imageInfo dec) <= targetHeight) :
  let plan := computeScale cfg (imageInfo dec) targetWidth targetHeight in
  needsScaling plan = false
  /\ outWidth plan = m_width (imageInfo dec)
  /\ outHeight plan = m_height (imageInfo dec)
  /\ (forall bitsPerPixel y startRow w,
        processSourceRow cfg dec plan bitsPerPixel y startRow w
        = emitRow cfg plan bitsPerPixel
            (fun x => Buf.get (mcuRowBuffer w)
                        ((y - startRow) * m_width (imageInfo dec) + x))
            y w
        /\ rowAccum (processSourceRow cfg dec plan bitsPerPixel y startRow w)
           = rowAccum w
        /\ rowCount (processSourceRow cfg dec plan bitsPerPixel y startRow w)
           = rowCount w)
  /\ (m_width (imageInfo dec) = 300 -> m_height (imageInfo dec) = 450 ->
      entersLoop dec mem 2 ->
      let bmp := bmpOut (jpegFileToBmpStream cfg dec mem 2
                           targetWidth targetHeight) in
      widthField bmp = 300
      /\ heightField bmp = -450
      /\ bitsPerPixelField bmp = 2
      /\ getBytesPerRow 300 2 = 76
      /\ imageSizeField bmp = 76 * 450
      /\ slice 54 16 bmp
         = [0; 0; 0; 0; 85; 85; 85; 0; 170; 170; 170; 0; 255; 255; 255; 0]).
Proof.
  intros plan.
  assert (Hplan : plan = {| outWidth := m_width (imageInfo dec);
                            outHeight := m_height (imageInfo dec);
                            scaleX_fp := 65536; scaleY_fp := 65536;
                            needsScaling := false |}).
  { unfold plan, computeScale.
    destruct (Z.ltb_spec targetWidth (m_width (imageInfo dec))); [lia|].
    destruct (Z.ltb_spec targetHeight (m_height (imageInfo dec))); [lia|].
    rewrite Bool.andb_false_r; reflexivity. }
  split; [rewrite Hplan; reflexivity|].
  split; [rewrite Hplan; reflexivity|].
  split; [rewrite Hplan; reflexivity|].
  split.
  - intros bpp y startRow w.
    unfold processSourceRow; rewrite Hplan; cbn [needsScaling negb].
    repeat split; unfold emitRow; destruct (packRow _ _ _ _ _ _ _); reflexivity.
  - intros H300 H450 Hloop bmp.
    destruct (header_comes_first cfg dec mem 2 targetWidth targetHeight Hloop)
      as (t & Ht).
    fold plan in Ht; rewrite Hplan in Ht; cbn [outWidth outHeight] in Ht.
    rewrite H300, H450 in Ht; fold bmp in Ht; rewrite Ht.
    destruct (header_fields 300 450 2 t) as (_ & Hwf & Hhf & Hbf & Hif).
    cbv zeta in Hwf, Hhf, Hbf, Hif.
    rewrite Hwf, Hhf, Hbf, Hif.
    repeat split; reflexivity.
Qed.

Lemma no_scaling_within_bounds_witness :
  computeScale default_config (imageInfo gray300x450) 480 800
  = {| outWidth := 300; outHeight := 450; scaleX_fp := 65536;
       scaleY_fp := 65536; needsScaling := false |}.
Proof.
  pose proof (no_scaling_within_bounds default_config gray300x450
                enoughMemory 480 800 ltac:(cbn; lia) ltac:(cbn; lia))
    as (H1 & H2 & H3 & _).
  reflexivity.
Defined.

(** ** Failing conversions (claims C2 and C3) *)

Lemma range_cons (n : Z) :
  1 <= n -> Buf.range n = 0 :: map Z.of_nat (seq 1 (Z.to_nat n - 1)).
Proof.
  intros Hn; unfold Buf.range.
  replace (Z.to_nat n) with (S (Z.to_nat n - 1)) at 1 by lia.
  reflexivity.
Qed.

Lemma first_mcu_fails (cfg : Config) (dec : Decoder) (plan : ScalePlan)
  (bpp : Z) (w : Work) :
  1 <= m_MCUSPerRow (imageInfo dec) -> 1 <= m_MCUSPerCol (imageInfo dec) ->
  calls w = O -> mcuStatus (decode_mcu dec O) <> 0 ->
  mcuRows cfg dec plan bpp (Buf.range (m_MCUSPerCol (imageInfo dec))) w
  = (false, w).
Proof.
  intros Hrow Hcol Hcalls Hfail.
  rewrite (range_cons _ Hcol); cbn [mcuRows].
  rewrite (range_cons _ Hrow), Hcalls; cbn [decodeMcuRow].
  destruct (Z.eqb_spec (mcuStatus (decode_mcu dec O)) 0); [contradiction|].
  reflexivity.
Qed.


Lemma rowsDue_before_end (plan : ScalePlan) (h y : Z) :
  1 <= h <= 3072 -> 0 <= y < h ->
  (needsScaling plan = false -> outHeight plan = h) ->
  (needsScaling plan = true ->
   1 <= outHeight plan <= h /\ scaleY_fp plan = h * 65536 / outHeight plan) ->
  0 <= rowsDue plan y < outHeight plan.
Proof.
  intros Hh Hy Hdirect Hscaled; unfold rowsDue.
  destruct (needsScaling plan).
  - destruct (Hscaled eq_refl) as [Hout HS].
    assert (H1 : 65536 <= scaleY_fp plan)
      by (rewrite HS; apply Z.div_le_lower_bound; nia).
    assert (H2 : 0 <= y * 65536 / scaleY_fp plan) by (apply Z.div_pos; lia).
    assert (H3 : y * 65536 / scaleY_fp plan < outHeight plan).
    { apply Z.div_lt_upper_bound; [lia|].
      pose proof (Z.div_mod (h * 65536) (outHeight plan) ltac:(lia)) as E.
      pose proof (Z.mod_pos_bound (h * 65536) (outHeight plan) ltac:(lia)) as B.
      rewrite <- HS in E; nia. }
    lia.
  - rewrite (Hdirect eq_refl); lia.
Qed.



(** C3, on the code.  A run that reaches the MCU loop and fails there returns
    with [mcuRowBuffer] and [rowBuffer] released and nothing else: what the
    ditherer holds is still allocated, and so are both accumulators when the
    image is scaled.  A successful run of the same function leaves nothing
    allocated ([heap_at_return]). *)
Theorem mcu_failure_leaks_the_ditherer (cfg : Config) (dec : Decoder)
  (mem : Memory) (bpp tw th : Z) :
  let o := jpegFileToBmpStream cfg dec mem bpp tw th in
  let plan := computeScale cfg (imageInfo dec) tw th in
  entersLoop dec mem bpp ->
  result o = false ->
  heap o = leakedBlocks cfg plan bpp
  /\ ~ In McuRowBuffer (heap o)
  /\ ~ In RowBuffer (heap o)
  /\ (bpp <> 8 -> USE_ATKINSON cfg = true ->
      incl [AtkinsonObject; AtkinsonRow0; AtkinsonRow1; AtkinsonRow2] (heap o))
  /\ (bpp <> 8 -> USE_ATKINSON cfg = false ->
      USE_FLOYD_STEINBERG cfg = true ->
      incl [FloydSteinbergObject; FloydSteinbergCurRow; FloydSteinbergNextRow]
        (heap o))
  /\ (needsScaling plan = true -> incl [RowAccum; RowCount] (heap o)).
Proof.
  intros o plan Hloop Hfail.
  destruct (heap_at_return cfg dec mem bpp tw th) as (_ & _ & Hleak).
  specialize (Hleak Hloop Hfail); fold o plan in Hleak.
  rewrite Hleak; unfold leakedBlocks.
  split; [reflexivity|].
  split.
  { destruct (needsScaling plan), (negb (bpp =? 8)), (USE_ATKINSON cfg),
      (USE_FLOYD_STEINBERG cfg); cbn; intuition discriminate. }
  split.
  { destruct (needsScaling plan), (negb (bpp =? 8)), (USE_ATKINSON cfg),
      (USE_FLOYD_STEINBERG cfg); cbn; intuition discriminate. }
  split.
  { intros Hbpp Hatk; rewrite Hatk.
    destruct (Z.eqb_spec bpp 8) as [E|_]; [contradiction|]; cbn [negb].
    intros b Hb; apply in_or_app; right; cbn in Hb |- *; tauto. }
  split.
  { intros Hbpp Hatk Hfs; rewrite Hatk, Hfs.
    destruct (Z.eqb_spec bpp 8) as [E|_]; [contradiction|]; cbn [negb].
    intros b Hb; apply in_or_app; right; cbn in Hb |- *; tauto. }
  intros Hs; rewrite Hs.
  intros b Hb; apply in_or_app; left; cbn in Hb |- *; tauto.
Qed.

(** The run whose first MCU fails returns with the Atkinson ditherer and its
    three error rows still allocated. *)
Lemma mcu_failure_leaks_the_ditherer_witness :
  heap (jpegFileToBmpStream default_config firstMcuFails enoughMemory
          2 480 800)
  = [AtkinsonRow2; AtkinsonRow1; AtkinsonRow0; AtkinsonObject].
Proof.
  refine (eq_trans
            (proj1 (mcu_failure_leaks_the_ditherer default_config
                      firstMcuFails enoughMemory 2 480 800 _ _)) _).
  - unfold entersLoop; vm_compute; repeat split; auto; discriminate.
  - vm_compute; reflexivity.
  - vm_compute; reflexivity.
Defined.

(** ** Floyd-Steinberg scan direction (claim C4) *)

(** The direction flag alternates with the row parity. *)
Lemma isReverseRow_alternates (d : FloydSteinberg.t) :
  0 <= FloydSteinberg.rowCount d ->
  FloydSteinberg.isReverseRow (FloydSteinberg.nextRow d)
  = negb (FloydSteinberg.isReverseRow d).
Proof.
  intros Hr; unfold FloydSteinberg.isReverseRow, FloydSteinberg.nextRow.
  cbn [FloydSteinberg.rowCount].
  change 1 with (Z.ones 1) at 2 3; rewrite !Z.land_ones by lia.
  change (2 ^ 1) with 2.
  destruct (Z.eqb_spec ((FloydSteinberg.rowCount d + 1) mod 2) 0);
    destruct (Z.eqb_spec (FloydSteinberg.rowCount d mod 2) 0);
    cbn [negb]; try reflexivity;
    Z.to_euclidean_division_equations; lia.
Qed.

(** On a reverse row the source still goes on to pixel [x + 1], whose
    accumulated error is the cell [x + 2]: processing pixel [x] leaves that
    cell as it was, the 7/16 share going to the cell [x] of the pixel before.
    No error is carried along a reverse row. *)
Lemma reverse_row_carries_nothing_ahead (cfg : Config) (d : FloydSteinberg.t)
  (gray x : Z) :
  0 <= x ->
  Buf.get (FloydSteinberg.errorCurRow
             (fst (FloydSteinberg.processPixel cfg d gray x true))) (x + 2)
  = Buf.get (FloydSteinberg.errorCurRow d) (x + 2).
Proof.
  intros Hx; unfold FloydSteinberg.processPixel.
  destruct (quantizeAdjustedWithValue _ _) as [q qv].
  cbn [negb fst FloydSteinberg.errorCurRow]; unfold bump.
  rewrite get_set by assumption.
  destruct (Z.eqb_spec x (x + 2)); [lia | reflexivity].
Qed.

(** C4 at the failing input.  With Floyd-Steinberg selected, at 1 bit per
    pixel, on two rows of eight pixels of gray 100: the first (even) row is
    the same whether packed by the source or in serpentine order; the second
    (odd) row packed by the source is all white, because the source visits it
    from left to right while pushing the 7/16 share to the left, onto pixels
    already done; visited from right to left as the specification says, it is
    the dithered pattern 01101101. *)
Theorem floydSteinberg_odd_row_scanned_left_to_right :
  let gray := fun _ : Z => 100 in
  let d0 := UseFloydSteinberg (FloydSteinberg.make 8 2) in
  let row0 := packRow floydSteinberg_config 1 8 4 gray 0 d0 in
  snd row0 = snd (packRow_serpentine floydSteinberg_config 1 8 4 gray 0 d0)
  /\ snd (packRow floydSteinberg_config 1 8 4 gray 1 (fst row0))
     = [255; 0; 0; 0]
  /\ snd (packRow_serpentine floydSteinberg_config 1 8 4 gray 1 (fst row0))
     = [109; 0; 0; 0].
Proof. vm_compute; repeat split; reflexivity. Qed.

(** ** Output dimensions of the scaling path (claim C5) *)

(** The scenario of the specification: 1000x1500 into 480x800 gives the
    binary32 scale nearest to 0.48 and the output 480x720. *)
Lemma scale_1000x1500 :
  F32.div (F32.of_int 480) (F32.of_int 1000) = S754_finite false 16106127 (-25)
  /\ computeScale default_config info1000x1500 480 800
     = {| outWidth := 480; outHeight := 720; scaleX_fp := 136533;
          scaleY_fp := 136533; needsScaling := true |}.
Proof. vm_compute; split; reflexivity. Qed.

(** C5 at the failing input.  An 820x1230 source into 480x800: the scale is
    the binary32 quotient 480/820, a little below the exact one; 820 times it
    rounds to a number just below 480, which the conversion to [int]
    truncates to 479.  The output is 479x720: neither axis fills its
    bound. *)
Theorem scaled_output_misses_both_bounds :
  let plan := computeScale default_config info820x1230 480 800 in
  needsScaling plan = true
  /\ outWidth plan = 479
  /\ outHeight plan = 720
  /\ outWidth plan <> 480
  /\ outHeight plan <> 800.
Proof. vm_compute; repeat split; intros H; discriminate H. Qed.

(** * Further properties of the code *)

(** ** Tone mapping *)

Lemma factorNum_default : factorNum default_config = 115.
Proof. vm_compute. reflexivity. Qed.

(** A property checked on every index below [n] holds on the interval. *)
Lemma forallb_range (P : Z -> bool) (n : Z) :
  forallb P (Buf.range n) = true -> forall g, 0 <= g < n -> P g = true.
Proof.
  intros H g Hg; rewrite forallb_forall in H; apply H, in_range; exact Hg.
Qed.

(** The Newton iteration of [applyGamma] on its own. *)
Lemma applyGamma_on (cfg : Config) (g : Z) :
  GAMMA_CORRECTION cfg = true ->
  applyGamma cfg g = applyGamma default_config g.
Proof. intros H; unfold applyGamma; rewrite H; reflexivity. Qed.

Lemma applyGamma_off (cfg : Config) (g : Z) :
  GAMMA_CORRECTION cfg = false -> applyGamma cfg g = g.
Proof. intros H; unfold applyGamma; rewrite H; reflexivity. Qed.

(** X1. Gamma correction never darkens a gray level: for a level of 0..255 the
    result lies between the level and 255, black and white are fixed, and
    with the correction on the result is the integer square root of
    255 * gray or above (255 * gray < (result + 1)^2). *)
Theorem applyGamma_brightens (cfg : Config) (gray : Z)
  (Hgray : 0 <= gray <= 255) :
  gray <= applyGamma cfg gray <= 255
  /\ applyGamma cfg 0 = 0
  /\ applyGamma cfg 255 = 255
  /\ (GAMMA_CORRECTION cfg = true ->
      255 * gray < (applyGamma cfg gray + 1) ^ 2).
Proof.
  destruct (GAMMA_CORRECTION cfg) eqn:E.
  - rewrite !(applyGamma_on cfg) by exact E.
    assert (H : forallb (fun g =>
                  (g <=? applyGamma default_config g)
                  && (applyGamma default_config g <=? 255)
                  && (255 * g <? (applyGamma default_config g + 1) ^ 2))
                (Buf.range 256) = true) by (vm_compute; reflexivity).
    pose proof (forallb_range _ _ H gray ltac:(lia)) as Hg; cbv beta in Hg.
    apply andb_prop in Hg; destruct Hg as [Hg H3].
    apply andb_prop in Hg; destruct Hg as [H1 H2].
    repeat split; try (vm_compute; reflexivity); try lia.
  - rewrite !(applyGamma_off cfg) by exact E.
    repeat split; lia.
Qed.

Lemma applyGamma_brightens_witness :
  100 <= applyGamma default_config 100 <= 255.
Proof. apply (applyGamma_brightens default_config 100); lia. Defined.

(** [applyGamma] keeps the order of two gray values. *)
Lemma applyGamma_monotone (cfg : Config) (a b : Z) :
  0 <= a -> a <= b -> b <= 255 -> applyGamma cfg a <= applyGamma cfg b.
Proof.
  intros Ha Hab Hb.
  destruct (GAMMA_CORRECTION cfg) eqn:E.
  - rewrite !(applyGamma_on cfg) by exact E.
    assert (H : forallb (fun a =>
                  forallb (fun b =>
                    negb (a <=? b)
                    || (applyGamma default_config a
                        <=? applyGamma default_config b))
                    (Buf.range 256))
                (Buf.range 256) = true) by (vm_compute; reflexivity).
    pose proof (forallb_range _ _ H a ltac:(lia)) as H1; cbv beta in H1.
    pose proof (forallb_range _ _ H1 b ltac:(lia)) as H2; cbv beta in H2.
    apply orb_prop in H2; destruct H2 as [H2|H2]; [|lia].
    apply negb_true_iff in H2; lia.
  - rewrite !(applyGamma_off cfg) by exact E; exact Hab.
Qed.

Lemma applyContrast_monotone (cfg : Config) (a b : Z) :
  0 <= factorNum cfg -> a <= b -> applyContrast cfg a <= applyContrast cfg b.
Proof.
  intros Hf Hab; unfold applyContrast, C.sdiv.
  assert (H : (a - 128) * factorNum cfg ÷ 100 <= (b - 128) * factorNum cfg ÷ 100).
  { apply Z.quot_le_mono; [lia|]. apply Z.mul_le_mono_nonneg_r; lia. }
  set (qa := (a - 128) * factorNum cfg ÷ 100) in *.
  set (qb := (b - 128) * factorNum cfg ÷ 100) in *.
  cbv zeta.
  destruct (Z.ltb_spec (qa + 128) 0), (Z.ltb_spec (qb + 128) 0);
    repeat match goal with |- context [?x <? ?y] => destruct (Z.ltb_spec x y) end;
    lia.
Qed.

(** X2. Tone mapping keeps the order of gray levels: with a contrast factor
    that is not negative, a darker input never comes out lighter than a
    lighter one; with the adjustments on, the result is a level of 0..255. *)
Theorem adjustPixel_monotone (cfg : Config) (a b : Z)
  (Hfactor : 0 <= factorNum cfg) (Hab : a <= b) :
  (USE_BRIGHTNESS cfg = true ->
   0 <= adjustPixel cfg a /\ adjustPixel cfg b <= 255)
  /\ adjustPixel cfg a <= adjustPixel cfg b.
Proof.
  unfold adjustPixel.
  destruct (USE_BRIGHTNESS cfg); cbn [negb].
  2:{ split; [intros H; discriminate H | exact Hab]. }
  pose proof (applyContrast_monotone cfg a b Hfactor Hab) as Hc.
  pose proof (applyContrast_range cfg a) as Ra.
  pose proof (applyContrast_range cfg b) as Rb.
  set (ca := applyContrast cfg a) in *; set (cb := applyContrast cfg b) in *.
  set (fa := if (if 255 <? ca + BRIGHTNESS_BOOST cfg then 255
                 else ca + BRIGHTNESS_BOOST cfg) <? 0 then 0
             else (if 255 <? ca + BRIGHTNESS_BOOST cfg then 255
                   else ca + BRIGHTNESS_BOOST cfg)).
  set (fb := if (if 255 <? cb + BRIGHTNESS_BOOST cfg then 255
                 else cb + BRIGHTNESS_BOOST cfg) <? 0 then 0
             else (if 255 <? cb + BRIGHTNESS_BOOST cfg then 255
                   else cb + BRIGHTNESS_BOOST cfg)).
  assert (Hfa : 0 <= fa <= 255 /\ 0 <= fb <= 255 /\ fa <= fb).
  { subst fa fb.
    destruct (Z.ltb_spec 255 (ca + BRIGHTNESS_BOOST cfg)),
      (Z.ltb_spec 255 (cb + BRIGHTNESS_BOOST cfg));
      repeat match goal with |- context [?x <? ?y] => destruct (Z.ltb_spec x y) end;
      lia. }
  destruct Hfa as (Hfa & Hfb & Hle).
  split.
  - intros _. split.
    + pose proof (applyGamma_range cfg fa Hfa); lia.
    + pose proof (applyGamma_range cfg fb Hfb); lia.
  - apply applyGamma_monotone; lia.
Qed.

Lemma adjustPixel_monotone_witness :
  adjustPixel default_config 40 <= adjustPixel default_config 200.
Proof.
  apply (adjustPixel_monotone default_config 40 200); [vm_compute; discriminate | lia].
Defined.

(** ** Quantization *)

Lemma levelOf_monotone (a b levelCount : Z) :
  0 <= a -> a <= b -> 1 <= levelCount ->
  levelOf a levelCount <= levelOf b levelCount.
Proof.
  intros Ha Hab HL; unfold levelOf.
  assert (a * levelCount / 256 <= b * levelCount / 256).
  { apply Z.div_le_mono; [lia|]. apply Z.mul_le_mono_nonneg_r; lia. }
  lia.
Qed.

Lemma levelOf_top (levelCount : Z) :
  1 <= levelCount <= 256 -> levelOf 255 levelCount = levelCount - 1.
Proof.
  intros HL; unfold levelOf.
  assert (255 * levelCount / 256 = levelCount - 1).
  { symmetry; apply (Z.div_unique _ _ _ (256 - levelCount)); lia. }
  lia.
Qed.

(** X3. The two quantizers of an already adjusted gray agree on the level; level
    and reconstructed value grow with the gray, stay within 0..levelCount-1
    and 0..255, send black to (0, 0) and white to (levelCount-1, 255), clamp
    a gray outside 0..255 to the nearer end, and at 256 levels are the
    identity. *)
Theorem quantizer_levels (levelCount a b : Z)
  (HL : 2 <= levelCount <= 256) (Ha : 0 <= a) (Hab : a <= b) (Hb : b <= 255) :
  let q := fun g => quantizeAdjustedWithValue g levelCount in
  quantizeAdjustedSimple a levelCount = fst (q a)
  /\ 0 <= fst (q a) <= fst (q b) /\ fst (q b) <= levelCount - 1
  /\ 0 <= snd (q a) <= snd (q b) /\ snd (q b) <= 255
  /\ q 0 = (0, 0)
  /\ q 255 = (levelCount - 1, 255)
  /\ (forall g, g < 0 -> q g = q 0)
  /\ (forall g, 255 < g -> q g = q 255)
  /\ (levelCount = 256 -> q a = (a, a)).
Proof.
  intros q; subst q; cbv beta.
  assert (Hlow : forall g, g < 0 ->
            quantizeAdjustedWithValue g levelCount
            = quantizeAdjustedWithValue 0 levelCount).
  { intros g Hg; unfold quantizeAdjustedWithValue.
    destruct (Z.ltb_spec g 0); [|lia].
    destruct (Z.ltb_spec 0 0); [lia|]. reflexivity. }
  assert (Hhigh : forall g, 255 < g ->
            quantizeAdjustedWithValue g levelCount
            = quantizeAdjustedWithValue 255 levelCount).
  { intros g Hg; unfold quantizeAdjustedWithValue.
    destruct (Z.ltb_spec g 0); [lia|].
    destruct (Z.ltb_spec 255 g); [|lia].
    destruct (Z.ltb_spec 255 0); [lia|].
    destruct (Z.ltb_spec 255 255); [lia|]. reflexivity. }
  rewrite quantizeAdjustedSimple_spec by lia.
  rewrite !quantizeAdjustedWithValue_spec by lia.
  cbn [fst snd].
  pose proof (levelOf_range a levelCount ltac:(lia) ltac:(lia)) as Ra.
  pose proof (levelOf_range b levelCount ltac:(lia) ltac:(lia)) as Rb.
  pose proof (levelOf_monotone a b levelCount Ha Hab ltac:(lia)) as Hm.
  split; [reflexivity|].
  split; [lia|]. split; [lia|].
  assert (Hq : levelOf a levelCount * 255 / (levelCount - 1)
               <= levelOf b levelCount * 255 / (levelCount - 1)).
  { apply Z.div_le_mono; lia. }
  assert (Hq0 : 0 <= levelOf a levelCount * 255 / (levelCount - 1)).
  { apply Z.div_pos; lia. }
  assert (Hq1 : levelOf b levelCount * 255 / (levelCount - 1) <= 255).
  { apply Z.div_le_upper_bound; nia. }
  split; [lia|]. split; [lia|].
  assert (E0 : levelOf 0 levelCount = 0).
  { unfold levelOf; cbn; lia. }
  split; [rewrite E0; reflexivity|].
  split.
  { rewrite levelOf_top by lia. f_equal.
    replace ((levelCount - 1) * 255) with (255 * (levelCount - 1)) by lia.
    apply Z.div_mul; lia. }
  split.
  { intros g Hg; rewrite Hlow by exact Hg.
    apply quantizeAdjustedWithValue_spec; lia. }
  split.
  { intros g Hg; rewrite Hhigh by exact Hg.
    apply quantizeAdjustedWithValue_spec; lia. }
  intros E; subst levelCount.
  assert (El : levelOf a 256 = a).
  { unfold levelOf. rewrite Z.div_mul by lia. lia. }
  rewrite El. f_equal. change (256 - 1) with 255. apply Z.div_mul; lia.
Qed.

Lemma quantizer_levels_witness :
  quantizeAdjustedWithValue 255 4 = (3, 255).
Proof.
  destruct (quantizer_levels 4 100 200) as (_ & _ & _ & _ & _ & _ & H & _);
    [lia | lia | lia | lia | exact H].
Defined.

(** X4. Noise dithering moves a pixel by at most one level: it returns the level
    of plain quantization or the next one, never above the top level, and
    exactly the plain level when the scaled gray has no remainder. *)
Theorem quantizeNoise_near_simple (cfg : Config) (gray x y levelCount : Z)
  (Hgray : 0 <= gray <= 255) (HL : 2 <= levelCount <= 256) :
  let s := quantizeSimple cfg gray levelCount in
  let n := quantizeNoise cfg gray x y levelCount in
  s <= n <= s + 1
  /\ n <= levelCount - 1
  /\ (Z.land (adjustPixel cfg gray * levelCount) 255 = 0 -> n = s).
Proof.
  intros s n; subst s n.
  pose proof (adjustPixel_range cfg gray Hgray) as Hadj.
  unfold quantizeSimple. rewrite quantizeAdjustedSimple_spec by lia.
  unfold quantizeNoise.
  destruct (Z.leb_spec levelCount 1); [lia|].
  set (g := adjustPixel cfg gray) in *.
  set (hash := C.u32 (Z.lxor _ _ * 1274126177)).
  assert (Hhash : 0 <= hash < 4294967296) by (apply Z.mod_pos_bound; lia).
  assert (Ht : 0 <= Z.shiftr hash 24 < 256).
  { rewrite Z.shiftr_div_pow2 by lia. change (2 ^ 24) with 16777216.
    split; [apply Z.div_pos; lia|].
    apply Z.div_lt_upper_bound; lia. }
  assert (Hr : Z.land (g * levelCount) 255 = (g * levelCount) mod 256).
  { change 255 with (Z.ones 8). rewrite Z.land_ones by lia. reflexivity. }
  rewrite Hr.
  pose proof (Z.mod_pos_bound (g * levelCount) 256 ltac:(lia)) as Hm.
  unfold C.sar. rewrite Z.shiftr_div_pow2 by lia. change (2 ^ 8) with 256.
  assert (Hd : 0 <= g * levelCount / 256 <= levelCount - 1).
  { split; [apply Z.div_pos; nia|].
    assert (g * levelCount / 256 < levelCount); [|lia].
    apply Z.div_lt_upper_bound; nia. }
  unfold levelOf.
  destruct (Z.leb_spec levelCount (g * levelCount / 256)); [lia|].
  replace (Z.min (g * levelCount / 256) (levelCount - 1))
    with (g * levelCount / 256) by lia.
  destruct (Z.ltb_spec (g * levelCount / 256) (levelCount - 1));
    destruct (Z.leb_spec 256 ((g * levelCount) mod 256 + Z.shiftr hash 24));
    cbn [andb]; unfold C.u8; rewrite Z.mod_small by lia;
    repeat split; try lia.
Qed.

Lemma quantizeNoise_near_simple_witness :
  quantizeNoise default_config 100 3 5 4 <= 3.
Proof.
  destruct (quantizeNoise_near_simple default_config 100 3 5 4) as (_ & H & _);
    [lia | lia | exact H].
Defined.

(** ** Header and palette *)

Lemma land_255_byte (v : Z) : isByte (Z.land v 255).
Proof.
  unfold isByte. change (Z.land v 255) with (Z.land v (Z.ones 8)).
  rewrite Z.land_ones by lia. change (2 ^ 8) with 256.
  pose proof (Z.mod_pos_bound v 256 ltac:(lia)); lia.
Qed.

Lemma land_255_shiftr_mod (v k : Z) :
  0 <= k <= 24 ->
  Z.land (Z.shiftr (v mod 4294967296) k) 255 = Z.land (Z.shiftr v k) 255.
Proof.
  intros Hk. apply Z.bits_inj'; intros n Hn.
  change 255 with (Z.ones 8).
  rewrite !Z.land_spec, !Z.shiftr_spec by lia.
  destruct (Z.ltb_spec n 8) as [Hlt|Hge].
  - change 4294967296 with (2 ^ 32).
    rewrite Z.mod_pow2_bits_low by lia. reflexivity.
  - rewrite Z.ones_spec_high by lia. rewrite !andb_false_r. reflexivity.
Qed.

(** X5. The little-endian writers round-trip: the bytes of write32, write16 and
    write32Signed are bytes of 0..255 that read back as the value reduced to
    the width; in range, the value itself (signed for write32Signed, which
    writes the bytes of write32). *)
Theorem little_endian_round_trip (v : Z) :
  le32 (write32 v) = C.u32 v
  /\ le16 (write16 v) = C.u16 v
  /\ write32Signed v = write32 v
  /\ Forall isByte (write32 v ++ write16 v)
  /\ (0 <= v < 4294967296 -> le32 (write32 v) = v)
  /\ (0 <= v < 65536 -> le16 (write16 v) = v)
  /\ (-2147483648 <= v < 2147483648 -> signed32 (le32 (write32Signed v)) = v).
Proof.
  split; [apply le32_write32|].
  split; [apply le16_write16|].
  split.
  { unfold write32Signed, write32, C.u32.
    pose proof (land_255_shiftr_mod v 0 ltac:(lia)) as H0.
    rewrite !Z.shiftr_0_r in H0.
    rewrite H0, !land_255_shiftr_mod by lia. reflexivity. }
  split.
  { unfold write32, write16; cbn [app].
    repeat constructor; apply land_255_byte. }
  split.
  { intros Hv; rewrite le32_write32; unfold C.u32; apply Z.mod_small; lia. }
  split.
  { intros Hv; rewrite le16_write16; unfold C.u16; apply Z.mod_small; lia. }
  apply le32_write32Signed.
Qed.

Lemma little_endian_round_trip_witness :
  signed32 (le32 (write32Signed (-450))) = -450.
Proof.
  destruct (little_endian_round_trip (-450)) as (_ & _ & _ & _ & _ & _ & H).
  apply H; lia.
Defined.

(** The bytes after the 54 bytes of the two fixed headers. *)
Lemma skipn_header (width height bpp : Z) (rest : list Z) :
  skipn 54 (writeBmpHeader width height bpp ++ rest)
  = (if bpp =? 8 then grayRamp
     else if bpp =? 2 then palette2bit else palette1bit) ++ rest.
Proof.
  unfold writeBmpHeader. rewrite <- !app_assoc.
  unfold write32, write32Signed, write16. cbn [app skipn]. reflexivity.
Qed.

Lemma getColorsUsed_pow2 (bpp : Z) :
  bpp = 1 \/ bpp = 2 \/ bpp = 8 -> getColorsUsed bpp = 2 ^ bpp.
Proof. intros [H|[H|H]]; subst bpp; reflexivity. Qed.

(** Lay the fixed part of the header out byte by byte. *)
Ltac open_header :=
  unfold slice, writeBmpHeader; rewrite <- !app_assoc;
  unfold write32, write32Signed, write16; cbn [app skipn firstn].

(** X6. A reader of the BMP finds what the converter was asked to write: the
    magic BM, a data offset equal to the length of header and palette (so
    the pixel rows start right there), info size 40, the width, the height
    negated (top-down rows), one plane, the depth, no compression, and
    2^depth colours used and important; all header bytes are 0..255. *)
Theorem header_round_trip (width height bitsPerPixel : Z) (rest : list Z)
  (Hdepth : bitsPerPixel = 1 \/ bitsPerPixel = 2 \/ bitsPerPixel = 8)
  (Hwidth : 0 <= width < 2147483648)
  (Hheight : 0 <= height < 2147483648) :
  let header := writeBmpHeader width height bitsPerPixel in
  let bmp := header ++ rest in
  slice 0 2 bmp = [66; 77]
  /\ dataOffsetField bmp = Z.of_nat (length header)
  /\ skipn (Z.to_nat (dataOffsetField bmp)) bmp = rest
  /\ headerSizeField bmp = 40
  /\ widthField bmp = width
  /\ heightField bmp = - height
  /\ planesField bmp = 1
  /\ bitsPerPixelField bmp = bitsPerPixel
  /\ compressionField bmp = 0
  /\ colorsUsedField bmp = 2 ^ bitsPerPixel
  /\ colorsImportantField bmp = 2 ^ bitsPerPixel
  /\ Forall isByte header.
Proof.
  intros header bmp.
  pose proof (length_writeBmpHeader width height bitsPerPixel Hdepth) as Hlen.
  fold header in Hlen.
  pose proof (getColorsUsed_pow2 bitsPerPixel Hdepth) as Hcol.
  assert (Hrange : 2 <= getColorsUsed bitsPerPixel <= 256).
  { destruct Hdepth as [H|[H|H]]; subst bitsPerPixel; cbn; lia. }
  destruct (header_fields width height bitsPerPixel rest)
    as (_ & Hw & Hh & Hb & _).
  fold header bmp in Hw, Hh, Hb.
  assert (Hcu : C.u32 (getColorsUsed bitsPerPixel) = 2 ^ bitsPerPixel).
  { unfold C.u32. rewrite Z.mod_small; lia. }
  assert (Hoff : dataOffsetField bmp = 54 + 4 * getColorsUsed bitsPerPixel).
  { unfold dataOffsetField; subst bmp header; open_header.
    etransitivity; [exact (le32_write32 _)|].
    unfold C.u32. rewrite Z.mod_small; lia. }
  split.
  { subst bmp header; open_header. reflexivity. }
  split; [lia|].
  split.
  { rewrite Hoff, <- Hlen, Nat2Z.id. unfold bmp.
    rewrite skipn_app, skipn_all, Nat.sub_diag. reflexivity. }
  split.
  { unfold headerSizeField; subst bmp header; open_header.
    exact (le32_write32 40). }
  split; [rewrite Hw; apply le32_write32Signed; lia|].
  split; [rewrite Hh; apply le32_write32Signed; lia|].
  split.
  { unfold planesField; subst bmp header; open_header.
    exact (le16_write16 1). }
  split.
  { rewrite Hb. unfold C.u16.
    destruct Hdepth as [H|[H|H]]; subst bitsPerPixel; reflexivity. }
  split.
  { unfold compressionField; subst bmp header; open_header.
    exact (le32_write32 0). }
  split.
  { unfold colorsUsedField; subst bmp header; open_header.
    etransitivity; [exact (le32_write32 _)|exact Hcu]. }
  split.
  { unfold colorsImportantField; subst bmp header; open_header.
    etransitivity; [exact (le32_write32 _)|exact Hcu]. }
  unfold header, writeBmpHeader.
  repeat (apply Forall_app; split).
  all: try (unfold write32, write32Signed, write16;
            repeat constructor; apply land_255_byte).
  - repeat constructor; unfold isByte; lia.
  - destruct Hdepth as [H|[H|H]]; subst bitsPerPixel; cbn [Z.eqb Pos.eqb].
    + unfold palette1bit, isByte; repeat constructor; lia.
    + unfold palette2bit, isByte; repeat constructor; lia.
    + unfold grayRamp. apply Forall_flat_map, Forall_forall.
      intros i Hi. unfold C.u8, isByte.
      pose proof (Z.mod_pos_bound i 256 ltac:(lia)).
      repeat constructor; cbn; lia.
Qed.

Lemma header_round_trip_witness :
  heightField (writeBmpHeader 480 720 2 ++ [27; 27]) = - 720.
Proof.
  destruct (header_round_trip 480 720 2 [27; 27])
    as (_ & _ & _ & _ & _ & H & _); [auto | lia | lia | exact H].
Defined.

(** A window that lies within the first of two appended lists. *)
Lemma slice_app_l (offset len : nat) (p rest : list Z) :
  (offset + len <= length p)%nat ->
  slice offset len (p ++ rest) = slice offset len p.
Proof.
  intros H; unfold slice.
  rewrite skipn_app, firstn_app, length_skipn.
  replace (len - (length p - offset))%nat with 0%nat by lia.
  cbn [firstn]. apply app_nil_r.
Qed.

Lemma paletteEntry_header (width height bpp : Z) (rest : list Z) (i : Z) :
  bpp = 1 \/ bpp = 2 \/ bpp = 8 -> 0 <= i < 2 ^ bpp ->
  paletteEntry (writeBmpHeader width height bpp ++ rest) i
  = slice (4 * Z.to_nat i) 4
      (if bpp =? 8 then grayRamp
       else if bpp =? 2 then palette2bit else palette1bit).
Proof.
  intros Hb Hi; unfold paletteEntry, slice.
  rewrite Nat.add_comm, <- skipn_skipn.
  rewrite skipn_header.
  change (firstn 4 (skipn (4 * Z.to_nat i) ?l)) with (slice (4 * Z.to_nat i) 4 l).
  apply slice_app_l.
  destruct Hb as [H|[H|H]]; subst bpp; cbn [Z.eqb Pos.eqb];
    rewrite ?length_grayRamp; cbn [length palette1bit palette2bit]; lia.
Qed.

(** X7. The palette of the header is the one the quantizer assumes: the entry of
    the level chosen for a gray holds, as blue, green and red, the value the
    quantizer reconstructs for that level, and a zero fourth byte. *)
Theorem palette_matches_quantizer (width height bitsPerPixel gray : Z)
  (rest : list Z)
  (Hdepth : bitsPerPixel = 1 \/ bitsPerPixel = 2 \/ bitsPerPixel = 8)
  (Hgray : 0 <= gray <= 255) :
  let level := fst (quantizeAdjustedWithValue gray (Z.shiftl 1 bitsPerPixel)) in
  let value := snd (quantizeAdjustedWithValue gray (Z.shiftl 1 bitsPerPixel)) in
  paletteEntry (writeBmpHeader width height bitsPerPixel ++ rest) level
  = [value; value; value; 0].
Proof.
  intros level value.
  destruct (levelCount_pow2 bitsPerPixel Hdepth) as (Hpow & Hrange).
  assert (Hlevel : 0 <= level < 2 ^ bitsPerPixel).
  { subst level. rewrite Hpow.
    rewrite quantizeAdjustedWithValue_spec by lia. cbn [fst].
    pose proof (levelOf_range gray (2 ^ bitsPerPixel)); lia. }
  rewrite paletteEntry_header by assumption.
  subst level value.
  assert (H : forall bpp,
             bpp = 1 \/ bpp = 2 \/ bpp = 8 ->
             forallb (fun g =>
               let q := quantizeAdjustedWithValue g (Z.shiftl 1 bpp) in
               if list_eq_dec Z.eq_dec
                    (slice (4 * Z.to_nat (fst q)) 4
                       (if bpp =? 8 then grayRamp
                        else if bpp =? 2 then palette2bit else palette1bit))
                    [snd q; snd q; snd q; 0]
               then true else false)
             (Buf.range 256) = true).
  { intros bpp [E|[E|E]]; subst bpp; vm_compute; reflexivity. }
  pose proof (forallb_range _ _ (H bitsPerPixel Hdepth) gray ltac:(lia)) as Hg.
  cbv beta zeta in Hg.
  destruct (list_eq_dec Z.eq_dec _ _) as [E|_]; [exact E | discriminate Hg].
Qed.

Lemma palette_matches_quantizer_witness :
  paletteEntry (writeBmpHeader 480 720 2 ++ [27; 27])
    (fst (quantizeAdjustedWithValue 100 (Z.shiftl 1 2)))
  = [85; 85; 85; 0].
Proof.
  refine (eq_trans (palette_matches_quantizer 480 720 2 100 [27; 27] _ _) _).
  - auto.
  - lia.
  - vm_compute; reflexivity.
Defined.

(** ** Packed pixels *)

Lemma pixelAt_bits (row : list Z) (x bpp n : Z) :
  0 <= n -> 0 <= bpp -> 0 <= 8 - bpp - (x * bpp) mod 8 ->
  Z.testbit (pixelAt row x bpp) n
  = Z.testbit (Buf.get row (x * bpp / 8)) (8 - bpp - (x * bpp) mod 8 + n)
    && (n <? bpp).
Proof.
  intros Hn Hb Hoff; unfold pixelAt.
  rewrite Z.land_spec, Z.shiftr_spec by lia.
  rewrite (Z.add_comm n). f_equal.
  destruct (Z.ltb_spec n bpp).
  - apply Z.ones_spec_low; lia.
  - apply Z.ones_spec_high; lia.
Qed.

(** Where [writeIndexedPixel] puts pixel [x]. *)
Lemma pixel_place (x bpp : Z) :
  bpp = 1 \/ bpp = 2 \/ bpp = 8 -> 0 <= x ->
  C.sar (x * bpp) 3 = x * bpp / 8
  /\ Z.land (x * bpp) 7 = (x * bpp) mod 8
  /\ 0 <= 8 - bpp - (x * bpp) mod 8 <= 8 - bpp
  /\ (8 - bpp - (x * bpp) mod 8) mod bpp = 0.
Proof.
  intros Hb Hx.
  split; [apply sar_div; lia|].
  split; [change 7 with (Z.ones 3); apply Z.land_ones; lia|].
  change (2 ^ 3) with 8.
  destruct Hb as [H|[H|H]]; subst bpp;
    Z.to_euclidean_division_equations; lia.
Qed.

(** The index of a pixel, moved to its place, still fits the byte. *)
Lemma shifted_index_fits (x bpp v : Z) :
  bpp = 1 \/ bpp = 2 \/ bpp = 8 -> 0 <= x -> 0 <= v < 2 ^ bpp ->
  C.u8 (Z.shiftl v (8 - bpp - (x * bpp) mod 8))
  = Z.shiftl v (8 - bpp - (x * bpp) mod 8).
Proof.
  intros Hb Hx Hv.
  destruct (pixel_place x bpp Hb Hx) as (_ & _ & Ho & _).
  assert (Hbp : 0 < bpp) by (destruct Hb as [H|[H|H]]; lia).
  unfold C.u8. apply Z.mod_small.
  rewrite Z.shiftl_mul_pow2 by lia.
  split; [apply Z.mul_nonneg_nonneg; [lia | apply Z.pow_nonneg; lia]|].
  set (off := 8 - bpp - (x * bpp) mod 8) in *.
  assert (2 ^ off * 2 ^ bpp <= 256).
  { rewrite <- Z.pow_add_r by lia. change 256 with (2 ^ 8).
    apply Z.pow_le_mono_r; lia. }
  assert (0 < 2 ^ off) by (apply Z.pow_pos_nonneg; lia).
  nia.
Qed.

(** X8. Packing a pixel of a row stays inside the row: for x below the width the
    byte index is below getBytesPerRow, the shift keeps the value inside the
    byte, and the row length is a multiple of 4 that holds all pixels with
    fewer than 32 bits of padding. *)
Theorem writeIndexedPixel_in_bounds (width bitsPerPixel x : Z)
  (Hdepth : bitsPerPixel = 1 \/ bitsPerPixel = 2 \/ bitsPerPixel = 8)
  (Hx : 0 <= x < width) :
  let bitPos := x * bitsPerPixel in
  let byteIndex := C.sar bitPos 3 in
  let bitOffset := 8 - bitsPerPixel - Z.land bitPos 7 in
  0 <= byteIndex < getBytesPerRow width bitsPerPixel
  /\ 0 <= bitOffset /\ bitOffset + bitsPerPixel <= 8
  /\ (forall v, 0 <= v < 2 ^ bitsPerPixel ->
                C.u8 (Z.shiftl v bitOffset) = Z.shiftl v bitOffset)
  /\ getBytesPerRow width bitsPerPixel mod 4 = 0
  /\ width * bitsPerPixel <= 8 * getBytesPerRow width bitsPerPixel
     < width * bitsPerPixel + 32.
Proof.
  intros bitPos byteIndex bitOffset; subst bitPos byteIndex bitOffset.
  destruct (pixel_place x bitsPerPixel Hdepth ltac:(lia)) as (E1 & E2 & Ho & _).
  rewrite E1, E2.
  assert (Hrow : getBytesPerRow width bitsPerPixel mod 4 = 0
                 /\ width * bitsPerPixel <= 8 * getBytesPerRow width bitsPerPixel
                    < width * bitsPerPixel + 32).
  { unfold getBytesPerRow, C.sdiv.
    destruct Hdepth as [H|[H|H]]; subst bitsPerPixel; cbn [Z.eqb Pos.eqb];
      rewrite Z.quot_div_nonneg by lia;
      rewrite Z.mod_mul by lia;
      Z.to_euclidean_division_equations; lia. }
  split.
  { split; [apply Z.div_pos; lia|].
    apply Z.div_lt_upper_bound; [lia|].
    destruct Hdepth as [H|[H|H]]; subst bitsPerPixel; lia. }
  split; [lia|]. split; [lia|].
  split; [|exact Hrow].
  intros v Hv. apply shifted_index_fits; [exact Hdepth | lia | exact Hv].
Qed.

Lemma writeIndexedPixel_in_bounds_witness :
  0 <= C.sar (299 * 2) 3 < getBytesPerRow 300 2.
Proof.
  destruct (writeIndexedPixel_in_bounds 300 2 299) as (H & _);
    [auto | lia | exact H].
Defined.

(** What a reader finds in a row after one pixel is written. *)
Lemma pixelAt_writeIndexedPixel (row : list Z) (bitsPerPixel x value : Z)
  (Hdepth : bitsPerPixel = 1 \/ bitsPerPixel = 2 \/ bitsPerPixel = 8)
  (Hx : 0 <= x)
  (Hfit : x * bitsPerPixel / 8 < Z.of_nat (length row))
  (Hvalue : 0 <= value < 2 ^ bitsPerPixel) :
  let row' := writeIndexedPixel row x bitsPerPixel value in
  pixelAt row' x bitsPerPixel = Z.lor (pixelAt row x bitsPerPixel) value
  /\ (pixelAt row x bitsPerPixel = 0 -> pixelAt row' x bitsPerPixel = value)
  /\ (forall x', 0 <= x' -> x' <> x ->
        pixelAt row' x' bitsPerPixel = pixelAt row x' bitsPerPixel)
  /\ length row' = length row.
Proof.
  intros row'.
  destruct (pixel_place x bitsPerPixel Hdepth Hx) as (E1 & E2 & Ho & Hm).
  assert (Hb : 0 < bitsPerPixel) by (destruct Hdepth as [H|[H|H]]; lia).
  assert (Hget : forall j,
             Buf.get row' j
             = if (x * bitsPerPixel / 8 =? j)
               then Z.lor (Buf.get row j)
                      (C.u8 (Z.shiftl value (8 - bitsPerPixel
                                             - (x * bitsPerPixel) mod 8)))
               else Buf.get row j).
  { intros j; subst row'; unfold writeIndexedPixel.
    rewrite E1, E2. rewrite get_set by (apply Z.div_pos; lia).
    destruct (Z.eqb_spec (x * bitsPerPixel / 8) j); [|reflexivity].
    destruct (Z.ltb_spec (x * bitsPerPixel / 8) (Z.of_nat (length row)));
      [|lia].
    subst j; reflexivity. }
  assert (Hu8 : forall k, 0 <= k ->
             Z.testbit (C.u8 (Z.shiftl value (8 - bitsPerPixel
                                               - (x * bitsPerPixel) mod 8))) k
             = Z.testbit value (k - (8 - bitsPerPixel
                                     - (x * bitsPerPixel) mod 8))).
  { intros k Hk.
    rewrite shifted_index_fits by assumption.
    apply Z.shiftl_spec; exact Hk. }
  assert (Hself : pixelAt row' x bitsPerPixel
                  = Z.lor (pixelAt row x bitsPerPixel) value).
  { apply Z.bits_inj'; intros n Hn.
    rewrite Z.lor_spec, !pixelAt_bits by lia.
    rewrite Hget, Z.eqb_refl, Z.lor_spec, Hu8 by lia.
    replace (8 - bitsPerPixel - (x * bitsPerPixel) mod 8 + n
             - (8 - bitsPerPixel - (x * bitsPerPixel) mod 8)) with n by lia.
    destruct (Z.ltb_spec n bitsPerPixel) as [Hlt|Hge].
    - rewrite !andb_true_r; reflexivity.
    - rewrite !andb_false_r. cbn [orb]. symmetry.
      apply Z.bits_above_log2; [lia|].
      destruct (Z.eq_dec value 0) as [->|Hnz]; [cbn; lia|].
      apply Z.log2_lt_pow2; [lia|].
      apply Z.lt_le_trans with (2 ^ bitsPerPixel); [lia|].
      apply Z.pow_le_mono_r; lia. }
  split; [exact Hself|].
  split; [intros H0; rewrite Hself, H0; reflexivity|].
  split; [|subst row'; apply length_writeIndexedPixel].
  intros x' Hx' Hne.
  destruct (pixel_place x' bitsPerPixel Hdepth Hx') as (_ & _ & Ho' & Hm').
  apply Z.bits_inj'; intros n Hn.
  rewrite !pixelAt_bits by lia.
  destruct (Z.ltb_spec n bitsPerPixel) as [Hlt|Hge];
    [rewrite !andb_true_r | rewrite !andb_false_r; reflexivity].
  rewrite Hget.
  destruct (Z.eqb_spec (x * bitsPerPixel / 8) (x' * bitsPerPixel / 8))
    as [Esame|_]; [|reflexivity].
  rewrite Z.lor_spec, Hu8 by lia.
  replace (Z.testbit value _) with false; [apply orb_false_r|].
  symmetry.
  set (off := 8 - bitsPerPixel - (x * bitsPerPixel) mod 8) in *.
  set (off' := 8 - bitsPerPixel - (x' * bitsPerPixel) mod 8) in *.
  assert (Hfar : off' + bitsPerPixel <= off \/ off + bitsPerPixel <= off').
  { subst off off'.
    destruct Hdepth as [H|[H|H]]; subst bitsPerPixel;
      Z.to_euclidean_division_equations; lia. }
  destruct Hfar as [Hfar|Hfar].
  - apply Z.testbit_neg_r; lia.
  - apply Z.bits_above_log2; [lia|].
    destruct (Z.eq_dec value 0) as [->|Hnz]; [cbn; lia|].
    apply Z.log2_lt_pow2; [lia|].
    apply Z.lt_le_trans with (2 ^ bitsPerPixel); [lia|].
    apply Z.pow_le_mono_r; lia.
Qed.

(** X9. Writing a pixel and reading it back: the packed pixel at x becomes the
    bitwise or of what was there and the value, hence the value itself in a
    cleared row; every other pixel and the row length are unchanged. *)
Theorem writeIndexedPixel_round_trip (row : list Z) (bitsPerPixel x value : Z)
  (Hdepth : bitsPerPixel = 1 \/ bitsPerPixel = 2 \/ bitsPerPixel = 8)
  (Hx : 0 <= x)
  (Hfit : x * bitsPerPixel / 8 < Z.of_nat (length row))
  (Hvalue : 0 <= value < 2 ^ bitsPerPixel) :
  let row' := writeIndexedPixel row x bitsPerPixel value in
  pixelAt row' x bitsPerPixel = Z.lor (pixelAt row x bitsPerPixel) value
  /\ (pixelAt row x bitsPerPixel = 0 -> pixelAt row' x bitsPerPixel = value)
  /\ (forall x', 0 <= x' -> x' <> x ->
        pixelAt row' x' bitsPerPixel = pixelAt row x' bitsPerPixel)
  /\ length row' = length row.
Proof.
  exact (pixelAt_writeIndexedPixel row bitsPerPixel x value Hdepth Hx Hfit
           Hvalue).
Qed.

Lemma writeIndexedPixel_round_trip_witness :
  pixelAt (writeIndexedPixel [0; 0; 0; 0] 5 2 3) 5 2 = 3.
Proof.
  destruct (writeIndexedPixel_round_trip [0; 0; 0; 0] 2 5 3) as (_ & H & _);
    [auto | lia | vm_compute; reflexivity | vm_compute; split; [discriminate | reflexivity]
    | apply H; vm_compute; reflexivity].
Defined.

(** ** Rows without error diffusion *)

Lemma range_of_nat_succ (n : nat) :
  Buf.range (Z.of_nat (S n)) = Buf.range (Z.of_nat n) ++ [Z.of_nat n].
Proof.
  rewrite Nat2Z.inj_succ, <- Z.add_1_r. apply range_succ; lia.
Qed.

Lemma pixelAt_zeros (n x bpp : Z) : pixelAt (Buf.zeros n) x bpp = 0.
Proof.
  unfold pixelAt. rewrite get_zeros, Z.shiftr_0_l. apply Z.land_0_l.
Qed.

Lemma quantize_range (cfg : Config) (gray x y levelCount : Z) :
  0 <= gray <= 255 -> 2 <= levelCount <= 256 ->
  0 <= quantize cfg gray x y levelCount <= levelCount - 1.
Proof.
  intros Hg HL; unfold quantize.
  destruct (USE_NOISE_DITHERING cfg).
  - apply quantizeNoise_range; assumption.
  - unfold quantizeSimple.
    rewrite quantizeAdjustedSimple_spec
      by (try apply adjustPixel_range; assumption).
    apply levelOf_range; [apply adjustPixel_range; assumption | lia].
Qed.

(** The 8-bit loop [rowBuffer[x] = adjustPixel(gray)] after its first [n]
    steps. *)
Lemma fill_bytes (cfg : Config) (grayAt : Z -> Z) (bpr : Z) (n : nat) :
  Z.of_nat n <= bpr ->
  (forall x, 0 <= x < Z.of_nat n -> 0 <= grayAt x <= 255) ->
  let row := fold_left
               (fun rb x => Buf.set rb x (C.u8 (adjustPixel cfg (grayAt x))))
               (Buf.range (Z.of_nat n)) (Buf.zeros bpr) in
  length row = Z.to_nat bpr
  /\ forall x, Buf.get row x
               = if (0 <=? x) && (x <? Z.of_nat n)
                 then adjustPixel cfg (grayAt x) else 0.
Proof.
  induction n as [|n IH]; intros Hn Hg row.
  - subst row; cbn [Buf.range Z.of_nat Z.to_nat seq map fold_left].
    split; [apply length_zeros|].
    intros x; rewrite get_zeros.
    destruct (Z.leb_spec 0 x), (Z.ltb_spec x 0); cbn [andb];
      try reflexivity; lia.
  - subst row. rewrite range_of_nat_succ, fold_left_app. cbn [fold_left].
    destruct IH as (Hlen & Hget); [lia | intros; apply Hg; lia |].
    set (r := fold_left _ (Buf.range (Z.of_nat n)) _) in *.
    split; [rewrite length_set; exact Hlen|].
    intros x. rewrite get_set by lia. rewrite Hget, Hlen.
    pose proof (adjustPixel_range cfg (grayAt (Z.of_nat n))
                  (Hg (Z.of_nat n) ltac:(lia))) as Hr.
    rewrite u8_small by lia.
    rewrite Nat2Z.inj_succ, Z2Nat.id by lia.
    destruct (Z.eqb_spec (Z.of_nat n) x) as [E|Hne],
      (Z.ltb_spec (Z.of_nat n) bpr), (Z.leb_spec 0 x),
      (Z.ltb_spec x (Z.of_nat n)), (Z.ltb_spec x (Z.succ (Z.of_nat n)));
      cbn [andb]; try subst x; try reflexivity; lia.
Qed.

(** The indexed loop without a ditherer after its first [n] steps. *)
Lemma fill_indices (cfg : Config) (bpp : Z) (grayAt : Z -> Z) (y bpr : Z)
  (n : nat) :
  bpp = 1 \/ bpp = 2 \/ bpp = 8 ->
  Z.of_nat n * bpp <= 8 * bpr ->
  (forall x, 0 <= x < Z.of_nat n -> 0 <= grayAt x <= 255) ->
  let acc := fold_left (packPixel cfg bpp (Z.shiftl 1 bpp) grayAt y)
               (Buf.range (Z.of_nat n)) (NoDitherer, Buf.zeros bpr) in
  fst acc = NoDitherer
  /\ length (snd acc) = Z.to_nat bpr
  /\ forall x, 0 <= x ->
       pixelAt (snd acc) x bpp
       = if x <? Z.of_nat n
         then quantize cfg (grayAt x) x y (Z.shiftl 1 bpp) else 0.
Proof.
  intros Hb.
  destruct (levelCount_pow2 bpp Hb) as (Hpow & Hrange).
  induction n as [|n IH]; intros Hn Hg acc.
  - subst acc; cbn [Buf.range Z.of_nat Z.to_nat seq map fold_left fst snd].
    split; [reflexivity|]. split; [apply length_zeros|].
    intros x Hx; rewrite pixelAt_zeros.
    destruct (Z.ltb_spec x 0); [lia | reflexivity].
  - subst acc. rewrite range_of_nat_succ, fold_left_app. cbn [fold_left].
    destruct IH as (Hd & Hlen & Hpix); [lia | intros; apply Hg; lia |].
    destruct (fold_left _ (Buf.range (Z.of_nat n)) _) as [d row].
    cbn [fst snd] in Hd, Hlen, Hpix; subst d.
    unfold packPixel, indexPixel. cbn [fst snd].
    set (v := quantize cfg (grayAt (Z.of_nat n)) (Z.of_nat n) y
                (Z.shiftl 1 bpp)).
    assert (Hv : 0 <= v < 2 ^ bpp).
    { pose proof (quantize_range cfg (grayAt (Z.of_nat n)) (Z.of_nat n) y
                    (Z.shiftl 1 bpp) (Hg (Z.of_nat n) ltac:(lia)) ltac:(lia)).
      fold v in H. lia. }
    assert (Hfit : Z.of_nat n * bpp / 8 < Z.of_nat (length row)).
    { rewrite Hlen. apply Z.div_lt_upper_bound; [lia|].
      destruct Hb as [H|[H|H]]; subst bpp; lia. }
    destruct (pixelAt_writeIndexedPixel row bpp (Z.of_nat n) v Hb
                ltac:(lia) Hfit Hv) as (_ & Hself & Hothers & Hlen').
    cbv zeta in Hself, Hothers, Hlen'.
    split; [reflexivity|]. split; [lia|].
    intros x Hx. rewrite Nat2Z.inj_succ.
    destruct (Z.eq_dec x (Z.of_nat n)) as [->|Hne].
    + rewrite Hself.
      * destruct (Z.ltb_spec (Z.of_nat n) (Z.succ (Z.of_nat n))); [|lia].
        reflexivity.
      * rewrite Hpix by lia.
        destruct (Z.ltb_spec (Z.of_nat n) (Z.of_nat n)); [lia|reflexivity].
    + rewrite Hothers by lia. rewrite Hpix by lia.
      destruct (Z.ltb_spec x (Z.of_nat n)), (Z.ltb_spec x (Z.succ (Z.of_nat n)));
        try reflexivity; lia.
Qed.

(** X10. A row packed without an error-diffusion ditherer has bytesPerRow bytes;
    pixel x below the width is the tone-mapped gray (8-bit) or the quantized
    level (1- and 2-bit), the padding is zero, and no ditherer appears. *)
Theorem packRow_without_dithering (cfg : Config)
  (bitsPerPixel outWidth bytesPerRow : Z) (grayAt : Z -> Z) (y : Z)
  (Hdepth : bitsPerPixel = 1 \/ bitsPerPixel = 2 \/ bitsPerPixel = 8)
  (Hwidth : 0 <= outWidth)
  (Hfit : outWidth * bitsPerPixel <= 8 * bytesPerRow)
  (Hgray : forall x, 0 <= x < outWidth -> 0 <= grayAt x <= 255) :
  let packed :=
    packRow cfg bitsPerPixel outWidth bytesPerRow grayAt y NoDitherer in
  fst packed = NoDitherer
  /\ length (snd packed) = Z.to_nat bytesPerRow
  /\ (forall x, 0 <= x ->
        pixelAt (snd packed) x bitsPerPixel
        = if x <? outWidth
          then (if bitsPerPixel =? 8 then adjustPixel cfg (grayAt x)
                else quantize cfg (grayAt x) x y (Z.shiftl 1 bitsPerPixel))
          else 0).
Proof.
  intros packed; subst packed; unfold packRow.
  assert (Hn : outWidth = Z.of_nat (Z.to_nat outWidth)) by lia.
  set (n := Z.to_nat outWidth) in *. clearbody n. subst outWidth.
  destruct (Z.eqb_spec bitsPerPixel 8) as [E|Hne].
  - subst bitsPerPixel. cbn [fst snd].
    destruct (fill_bytes cfg grayAt bytesPerRow n ltac:(lia) Hgray)
      as (Hlen & Hget).
    cbv zeta in Hlen, Hget.
    split; [reflexivity|]. split; [exact Hlen|].
    intros x Hx. unfold pixelAt.
    rewrite Z.div_mul, Z.mod_mul by lia.
    change (8 - 8 - 0) with 0. rewrite Z.shiftr_0_r, Hget.
    destruct (Z.leb_spec 0 x); [|lia]. cbn [andb].
    destruct (Z.ltb_spec x (Z.of_nat n)); [|apply Z.land_0_l].
    pose proof (adjustPixel_range cfg (grayAt x) (Hgray x ltac:(lia))).
    rewrite Z.land_ones by lia. apply Z.mod_small. change (2 ^ 8) with 256. lia.
  - destruct (fill_indices cfg bitsPerPixel grayAt y bytesPerRow n Hdepth
                ltac:(lia) Hgray) as (Hd & Hlen & Hpix).
    cbv zeta in Hd, Hlen, Hpix.
    destruct (fold_left _ _ _) as [d row]. cbn [fst snd] in *.
    subst d. split; [reflexivity|]. split; [exact Hlen|]. exact Hpix.
Qed.

Lemma packRow_without_dithering_witness :
  pixelAt (snd (packRow default_config 2 8 4 (fun _ => 100) 0 NoDitherer)) 5 2
  = quantize default_config 100 5 0 (Z.shiftl 1 2).
Proof.
  destruct (packRow_without_dithering default_config 2 8 4 (fun _ => 100) 0)
    as (_ & _ & H); [auto | lia | lia | intros; lia |].
  exact (H 5 ltac:(lia)).
Defined.

(** ** Atkinson error rows *)

Lemma get_bump_any (row : list Z) (i d j : Z) :
  0 <= i ->
  Buf.get (bump row i d) j
  = if (i =? j) && (i <? Z.of_nat (length row))
    then C.i16 (Buf.get row i + d) else Buf.get row j.
Proof. intros Hi; unfold bump; apply get_set; exact Hi. Qed.

Lemma bump_within (f f' : Z -> Z) (row : list Z) (i d D : Z) :
  cellsWithin f row -> 0 <= i -> - D <= d <= D -> f i + D < 32768 ->
  (forall j, f j + (if j =? i then D else 0) <= f' j) ->
  cellsWithin f' (bump row i d).
Proof.
  intros Hrow Hi Hd Hfit Hf j.
  rewrite get_bump_any by exact Hi.
  pose proof (Hrow j) as Hj. pose proof (Hrow i) as Hi'.
  pose proof (Hf j) as Hfj.
  destruct (Z.eqb_spec i j) as [->|Hne].
  - rewrite Z.eqb_refl in Hfj.
    destruct (_ <? _); cbn [andb]; [rewrite i16_small|]; lia.
  - destruct (Z.eqb_spec j i); [lia|]. cbn [andb]. lia.
Qed.

Lemma quantizedValue_range (gray levelCount : Z) :
  0 <= snd (quantizeAdjustedWithValue gray levelCount) <= 255.
Proof.
  unfold quantizeAdjustedWithValue.
  destruct (Z.leb_spec levelCount 1); [cbn; lia|].
  cbn [snd].
  set (g := if 255 <? _ then 255 else _).
  assert (Hg : 0 <= g <= 255).
  { subst g. destruct (Z.ltb_spec gray 0);
      match goal with |- context [255 <? ?a] => destruct (Z.ltb_spec 255 a) end;
      lia. }
  unfold C.sar. rewrite Z.shiftr_div_pow2 by lia. change (2 ^ 8) with 256.
  assert (Hl : 0 <= g * levelCount / 256) by (apply Z.div_pos; nia).
  set (level := if levelCount <=? _ then levelCount - 1 else _).
  assert (Hlevel : 0 <= level <= levelCount - 1).
  { subst level. destruct (Z.leb_spec levelCount (g * levelCount / 256)); lia. }
  destruct (Z.ltb_spec 0 (levelCount - 1)); [|lia].
  unfold C.sdiv. rewrite Z.quot_div_nonneg by lia.
  split; [apply Z.div_pos; lia|].
  apply Z.div_le_upper_bound; nia.
Qed.

(** The share an Atkinson step hands out is between -32 and 31, and the
    error a Floyd-Steinberg step distributes between -255 and 255. *)
Lemma diffusion_error_range (a gray levelCount : Z) :
  let adjusted := if 255 <? (if a <? 0 then 0 else a) then 255
                  else (if a <? 0 then 0 else a) in
  let e := adjusted - snd (quantizeAdjustedWithValue adjusted levelCount) in
  -255 <= e <= 255 /\ -32 <= C.sar e 3 <= 31.
Proof.
  intros adjusted e.
  assert (Ha : 0 <= adjusted <= 255).
  { subst adjusted. destruct (Z.ltb_spec a 0);
      match goal with |- context [255 <? ?b] => destruct (Z.ltb_spec 255 b) end;
      lia. }
  pose proof (quantizedValue_range adjusted levelCount) as Hq.
  assert (He : -255 <= e <= 255) by (subst e; lia).
  split; [exact He|].
  unfold C.sar. rewrite Z.shiftr_div_pow2 by lia. change (2 ^ 3) with 8.
  Z.to_euclidean_division_equations; lia.
Qed.

Ltac cases_b2z :=
  repeat match goal with
         | |- context [?a <? ?b] => destruct (Z.ltb_spec a b)
         | |- context [?a =? ?b] => destruct (Z.eqb_spec a b)
         end;
  cbn [Z.b2z]; lia.

Lemma atkinson_step (cfg : Config) (d : Atkinson.t) (gray x : Z) :
  0 <= x -> atkinsonBefore x d ->
  atkinsonBefore (x + 1) (fst (Atkinson.processPixel cfg d gray x)).
Proof.
  intros Hx (H0 & H1 & H2). unfold Atkinson.processPixel.
  pose proof (diffusion_error_range
                (adjustPixel cfg gray + Buf.get (Atkinson.errorRow0 d) (x + 2))
                gray (Atkinson.levelCount d)) as He.
  cbv zeta in He. destruct He as (_ & He).
  destruct (quantizeAdjustedWithValue _ _) as [q qv] eqn:Eq.
  cbn [snd] in He. cbn [fst Atkinson.errorRow0 Atkinson.errorRow1
                         Atkinson.errorRow2].
  set (e := C.sar _ 3) in *.
  unfold atkinsonBefore.
  cbn [Atkinson.errorRow0 Atkinson.errorRow1 Atkinson.errorRow2].
  clearbody e. clear Eq.
  split; [|split].
  - apply (bump_within
             (fun i => 32 * (4 + Z.b2z (i <? x + 4) + Z.b2z (i <? x + 4)))
             (fun i => 32 * (4 + Z.b2z (i <? x + 1 + 3)
                             + Z.b2z (i <? x + 1 + 4)))
             _ (x + 4) e 32); [| lia | lia | cases_b2z | intros j; cases_b2z].
    apply (bump_within
             (fun i => 32 * (4 + Z.b2z (i <? x + 3) + Z.b2z (i <? x + 4)))
             (fun i => 32 * (4 + Z.b2z (i <? x + 4) + Z.b2z (i <? x + 4)))
             _ (x + 3) e 32);
      [exact H0 | lia | lia | cases_b2z | intros j; cases_b2z].
  - apply (bump_within
             (fun i => 32 * (1 + Z.b2z (i <? x + 2) + Z.b2z (i <? x + 3)
                             + Z.b2z (i <? x + 3)))
             (fun i => 32 * (1 + Z.b2z (i <? x + 1 + 1)
                             + Z.b2z (i <? x + 1 + 2)
                             + Z.b2z (i <? x + 1 + 3)))
             _ (x + 3) e 32); [| lia | lia | cases_b2z | intros j; cases_b2z].
    apply (bump_within
             (fun i => 32 * (1 + Z.b2z (i <? x + 2) + Z.b2z (i <? x + 2)
                             + Z.b2z (i <? x + 3)))
             (fun i => 32 * (1 + Z.b2z (i <? x + 2) + Z.b2z (i <? x + 3)
                             + Z.b2z (i <? x + 3)))
             _ (x + 2) e 32); [| lia | lia | cases_b2z | intros j; cases_b2z].
    apply (bump_within
             (fun i => 32 * (1 + Z.b2z (i <? x + 1) + Z.b2z (i <? x + 2)
                             + Z.b2z (i <? x + 3)))
             (fun i => 32 * (1 + Z.b2z (i <? x + 2) + Z.b2z (i <? x + 2)
                             + Z.b2z (i <? x + 3)))
             _ (x + 1) e 32);
      [exact H1 | lia | lia | cases_b2z | intros j; cases_b2z].
  - apply (bump_within
             (fun i => 32 * Z.b2z (i <? x + 2))
             (fun i => 32 * Z.b2z (i <? x + 1 + 2))
             _ (x + 2) e 32);
      [exact H2 | lia | lia | cases_b2z | intros j; cases_b2z].
Qed.

Lemma atkinsonRowStart_before (d : Atkinson.t) :
  atkinsonRowStart d -> atkinsonBefore 0 d.
Proof.
  intros (H0 & H1 & H2); split; [|split]; intros i;
    [pose proof (H0 i) as H | pose proof (H1 i) as H | pose proof (H2 i) as H];
    cbv beta in *; revert H; cases_b2z.
Qed.

Lemma atkinsonBefore_small (x : Z) (d : Atkinson.t) :
  atkinsonBefore x d ->
  cellsWithin (fun _ => 192) (Atkinson.errorRow0 d)
  /\ cellsWithin (fun _ => 128) (Atkinson.errorRow1 d)
  /\ cellsWithin (fun _ => 32) (Atkinson.errorRow2 d).
Proof.
  intros (H0 & H1 & H2); split; [|split]; intros i;
    [pose proof (H0 i) as H | pose proof (H1 i) as H | pose proof (H2 i) as H];
    cbv beta in *; revert H; cases_b2z.
Qed.

Lemma cellsWithin_zeros (n : Z) : cellsWithin (fun _ => 0) (Buf.zeros n).
Proof. intros i; rewrite get_zeros; lia. Qed.

Lemma atkinsonBefore_nextRow (x : Z) (d : Atkinson.t) :
  atkinsonBefore x d -> atkinsonRowStart (Atkinson.nextRow d).
Proof.
  intros H; destruct (atkinsonBefore_small x d H) as (_ & H1 & H2).
  unfold atkinsonRowStart, Atkinson.nextRow.
  cbn [Atkinson.errorRow0 Atkinson.errorRow1 Atkinson.errorRow2].
  split; [exact H1|]. split; [exact H2|]. apply cellsWithin_zeros.
Qed.

Lemma atkinsonRow_snoc (cfg : Config) (grayAt : Z -> Z) (xs : list Z)
  (x : Z) (d : Atkinson.t) :
  atkinsonRow cfg grayAt (xs ++ [x]) d
  = fst (Atkinson.processPixel cfg (atkinsonRow cfg grayAt xs d) (grayAt x) x).
Proof. unfold atkinsonRow; rewrite fold_left_app; reflexivity. Qed.

Lemma atkinsonRow_inv (cfg : Config) (grayAt : Z -> Z) (d : Atkinson.t)
  (n : nat) :
  atkinsonBefore 0 d ->
  atkinsonBefore (Z.of_nat n)
    (atkinsonRow cfg grayAt (Buf.range (Z.of_nat n)) d).
Proof.
  intros H; induction n as [|n IH]; [exact H|].
  rewrite range_of_nat_succ, atkinsonRow_snoc, Nat2Z.inj_succ, <- Z.add_1_r.
  apply atkinson_step; [lia | exact IH].
Qed.

Lemma firstn_seq_min (k : nat) :
  forall a n, firstn k (seq a n) = seq a (Nat.min k n).
Proof.
  induction k as [|k IH]; intros a [|n]; cbn [firstn seq Nat.min];
    try reflexivity.
  rewrite IH; reflexivity.
Qed.

Lemma firstn_range (k : nat) (n : Z) :
  firstn k (Buf.range n) = Buf.range (Z.of_nat (Nat.min k (Z.to_nat n))).
Proof.
  unfold Buf.range. rewrite firstn_map, firstn_seq_min, Nat2Z.id. reflexivity.
Qed.

(** The ditherer that the row loop of [packRow] leaves. *)
Lemma packRow_fold_atkinson (cfg : Config) (bpp L : Z) (grayAt : Z -> Z)
  (y : Z) (xs : list Z) :
  forall d row,
    fst (fold_left (packPixel cfg bpp L grayAt y) xs (UseAtkinson d, row))
    = UseAtkinson (atkinsonRow cfg grayAt xs d).
Proof.
  induction xs as [|x xs IH]; intros d row; [reflexivity|].
  cbn [fold_left]. unfold packPixel at 2, indexPixel.
  destruct (Atkinson.processPixel cfg d (grayAt x) x) as [d' v] eqn:E.
  rewrite IH. unfold atkinsonRow at 2. cbn [fold_left]. rewrite E. reflexivity.
Qed.

(** X11. The Atkinson error rows never leave the int16_t range: from a row start
    (as after make or nextRow) every cell stays within 192, 128 and 32 in
    absolute value while a row of any grays is processed, and packing a row
    ends in a row start again. *)
Theorem atkinson_errors_fit_int16 (cfg : Config)
  (bitsPerPixel outWidth bytesPerRow : Z) (grayAt : Z -> Z) (y : Z)
  (d : Atkinson.t)
  (Hdepth : bitsPerPixel <> 8)
  (Hstart : atkinsonRowStart d) :
  (forall k : nat,
     let d_k := atkinsonRow cfg grayAt (firstn k (Buf.range outWidth)) d in
     cellsWithin (fun _ => 192) (Atkinson.errorRow0 d_k)
     /\ cellsWithin (fun _ => 128) (Atkinson.errorRow1 d_k)
     /\ cellsWithin (fun _ => 32) (Atkinson.errorRow2 d_k))
  /\ (exists d',
        fst (packRow cfg bitsPerPixel outWidth bytesPerRow grayAt y
               (UseAtkinson d)) = UseAtkinson d'
        /\ atkinsonRowStart d')
  /\ (forall width levelCount,
        atkinsonRowStart (Atkinson.make width levelCount)).
Proof.
  pose proof (atkinsonRowStart_before d Hstart) as H0.
  split; [|split].
  - intros k d_k; subst d_k. rewrite firstn_range.
    eapply atkinsonBefore_small, atkinsonRow_inv, H0.
  - exists (Atkinson.nextRow (atkinsonRow cfg grayAt (Buf.range outWidth) d)).
    split.
    + unfold packRow.
      destruct (Z.eqb_spec bitsPerPixel 8) as [E|_]; [contradiction|].
      pose proof (packRow_fold_atkinson cfg bitsPerPixel
                    (Z.shiftl 1 bitsPerPixel) grayAt y (Buf.range outWidth)
                    d (Buf.zeros bytesPerRow)) as Hf.
      destruct (fold_left _ _ _) as [d1 rb]. cbn [fst] in *.
      rewrite Hf. reflexivity.
    + unfold Buf.range at 1.
      change (map Z.of_nat (seq 0 (Z.to_nat outWidth)))
        with (Buf.range outWidth).
      rewrite <- (firstn_all (Buf.range outWidth)), firstn_range.
      eapply atkinsonBefore_nextRow, atkinsonRow_inv, H0.
  - intros width levelCount; unfold atkinsonRowStart, Atkinson.make.
    cbn [Atkinson.errorRow0 Atkinson.errorRow1 Atkinson.errorRow2].
    split; [|split]; intros i; rewrite get_zeros; lia.
Qed.

Lemma atkinson_errors_fit_int16_witness :
  exists d',
    fst (packRow default_config 2 8 4 (fun _ => 100) 0
           (UseAtkinson (Atkinson.make 8 4))) = UseAtkinson d'
    /\ atkinsonRowStart d'.
Proof.
  assert (H : atkinsonRowStart (Atkinson.make 8 4)).
  { unfold atkinsonRowStart, Atkinson.make.
    cbn [Atkinson.errorRow0 Atkinson.errorRow1 Atkinson.errorRow2].
    split; [|split]; intros i; rewrite get_zeros; lia. }
  destruct (atkinson_errors_fit_int16 default_config 2 8 4 (fun _ => 100) 0
              (Atkinson.make 8 4) ltac:(discriminate) H) as (_ & Hrow & _).
  exact Hrow.
Defined.

(** ** Floyd-Steinberg error rows *)

(** The four shares of an error [e] between -255 and 255. *)
Lemma shares_range (e : Z) :
  -255 <= e <= 255 ->
  -112 <= C.sar (e * 7) 4 <= 112
  /\ -48 <= C.sar (e * 3) 4 <= 48
  /\ -80 <= C.sar (e * 5) 4 <= 80
  /\ -16 <= C.sar e 4 <= 16
  /\ e - 3 <= C.sar (e * 7) 4 + C.sar (e * 3) 4 + C.sar (e * 5) 4 + C.sar e 4
     <= e.
Proof.
  intros He. unfold C.sar. rewrite !Z.shiftr_div_pow2 by lia.
  change (2 ^ 4) with 16.
  Z.to_euclidean_division_equations; lia.
Qed.

Lemma floydSteinberg_step (cfg : Config) (d : FloydSteinberg.t) (gray x : Z)
  (reverse : bool) :
  0 <= x -> floydSteinbergBefore reverse x d ->
  floydSteinbergBefore reverse (x + 1)
    (fst (FloydSteinberg.processPixel cfg d gray x reverse)).
Proof.
  intros Hx (Hc & Hn). unfold FloydSteinberg.processPixel.
  pose proof (diffusion_error_range
                (adjustPixel cfg gray
                 + Buf.get (FloydSteinberg.errorCurRow d) (x + 1))
                gray (FloydSteinberg.levelCount d)) as He.
  cbv zeta in He. destruct He as (He & _).
  destruct (quantizeAdjustedWithValue _ _) as [q qv] eqn:Eq.
  cbn [snd] in He.
  set (e := _ - qv) in *. clearbody e. clear Eq.
  destruct (shares_range e He) as (H7 & H3 & H5 & H1 & _).
  set (s7 := C.sar (e * 7) 4) in *. set (s3 := C.sar (e * 3) 4) in *.
  set (s5 := C.sar (e * 5) 4) in *. set (s1 := C.sar e 4) in *.
  clearbody s7 s3 s5 s1.
  unfold floydSteinbergBefore.
  destruct reverse; cbn [negb fst FloydSteinberg.errorCurRow
                              FloydSteinberg.errorNextRow] in *.
  - split.
    + apply (bump_within
               (fun i => 144 + 112 * Z.b2z (i <? x))
               (fun i => 144 + 112 * Z.b2z (i <? x + 1))
               _ x s7 112);
        [exact Hc | lia | lia | cases_b2z | intros j; cases_b2z].
    + apply (bump_within
               (fun i => 48 * Z.b2z (i <? x + 3) + 80 * Z.b2z (i <? x + 2)
                         + 16 * Z.b2z (i <? x))
               (fun i => 48 * Z.b2z (i <? x + 1 + 2) + 80 * Z.b2z (i <? x + 1 + 1)
                         + 16 * Z.b2z (i <? x + 1))
               _ x s1 16); [| lia | lia | cases_b2z | intros j; cases_b2z].
      apply (bump_within
               (fun i => 48 * Z.b2z (i <? x + 3) + 80 * Z.b2z (i <? x + 1)
                         + 16 * Z.b2z (i <? x))
               (fun i => 48 * Z.b2z (i <? x + 3) + 80 * Z.b2z (i <? x + 2)
                         + 16 * Z.b2z (i <? x))
               _ (x + 1) s5 80); [| lia | lia | cases_b2z | intros j; cases_b2z].
      apply (bump_within
               (fun i => 48 * Z.b2z (i <? x + 2) + 80 * Z.b2z (i <? x + 1)
                         + 16 * Z.b2z (i <? x))
               (fun i => 48 * Z.b2z (i <? x + 3) + 80 * Z.b2z (i <? x + 1)
                         + 16 * Z.b2z (i <? x))
               _ (x + 2) s3 48);
        [exact Hn | lia | lia | cases_b2z | intros j; cases_b2z].
  - split.
    + apply (bump_within
               (fun i => 144 + 112 * Z.b2z (i <? x + 2))
               (fun i => 144 + 112 * Z.b2z (i <? x + 1 + 2))
               _ (x + 2) s7 112);
        [exact Hc | lia | lia | cases_b2z | intros j; cases_b2z].
    + apply (bump_within
               (fun i => 48 * Z.b2z (i <? x + 1) + 80 * Z.b2z (i <? x + 2)
                         + 16 * Z.b2z (i <? x + 2))
               (fun i => 48 * Z.b2z (i <? x + 1) + 80 * Z.b2z (i <? x + 1 + 1)
                         + 16 * Z.b2z (i <? x + 1 + 2))
               _ (x + 2) s1 16); [| lia | lia | cases_b2z | intros j; cases_b2z].
      apply (bump_within
               (fun i => 48 * Z.b2z (i <? x + 1) + 80 * Z.b2z (i <? x + 1)
                         + 16 * Z.b2z (i <? x + 2))
               (fun i => 48 * Z.b2z (i <? x + 1) + 80 * Z.b2z (i <? x + 2)
                         + 16 * Z.b2z (i <? x + 2))
               _ (x + 1) s5 80); [| lia | lia | cases_b2z | intros j; cases_b2z].
      apply (bump_within
               (fun i => 48 * Z.b2z (i <? x) + 80 * Z.b2z (i <? x + 1)
                         + 16 * Z.b2z (i <? x + 2))
               (fun i => 48 * Z.b2z (i <? x + 1) + 80 * Z.b2z (i <? x + 1)
                         + 16 * Z.b2z (i <? x + 2))
               _ x s3 48);
        [exact Hn | lia | lia | cases_b2z | intros j; cases_b2z].
Qed.

Lemma floydSteinbergRowStart_before (reverse : bool) (d : FloydSteinberg.t) :
  floydSteinbergRowStart d -> floydSteinbergBefore reverse 0 d.
Proof.
  intros (Hc & Hn); split; intros i;
    [pose proof (Hc i) as H | pose proof (Hn i) as H];
    cbv beta in *; revert H; destruct reverse; cases_b2z.
Qed.

Lemma floydSteinbergBefore_small (reverse : bool) (x : Z)
  (d : FloydSteinberg.t) :
  floydSteinbergBefore reverse x d ->
  cellsWithin (fun _ => 256) (FloydSteinberg.errorCurRow d)
  /\ cellsWithin (fun _ => 144) (FloydSteinberg.errorNextRow d).
Proof.
  intros (Hc & Hn); split; intros i;
    [pose proof (Hc i) as H | pose proof (Hn i) as H];
    cbv beta in *; revert H; destruct reverse; cases_b2z.
Qed.

Lemma floydSteinbergBefore_nextRow (reverse : bool) (x : Z)
  (d : FloydSteinberg.t) :
  floydSteinbergBefore reverse x d ->
  floydSteinbergRowStart (FloydSteinberg.nextRow d).
Proof.
  intros H; destruct (floydSteinbergBefore_small reverse x d H) as (_ & Hn).
  unfold floydSteinbergRowStart, FloydSteinberg.nextRow.
  cbn [FloydSteinberg.errorCurRow FloydSteinberg.errorNextRow].
  split; [exact Hn | apply cellsWithin_zeros].
Qed.

Lemma floydSteinbergRow_snoc (cfg : Config) (grayAt : Z -> Z) (reverse : bool)
  (xs : list Z) (x : Z) (d : FloydSteinberg.t) :
  floydSteinbergRow cfg grayAt reverse (xs ++ [x]) d
  = fst (FloydSteinberg.processPixel cfg
           (floydSteinbergRow cfg grayAt reverse xs d) (grayAt x) x reverse).
Proof. unfold floydSteinbergRow; rewrite fold_left_app; reflexivity. Qed.

Lemma floydSteinbergRow_inv (cfg : Config) (grayAt : Z -> Z) (reverse : bool)
  (d : FloydSteinberg.t) (n : nat) :
  floydSteinbergBefore reverse 0 d ->
  floydSteinbergBefore reverse (Z.of_nat n)
    (floydSteinbergRow cfg grayAt reverse (Buf.range (Z.of_nat n)) d).
Proof.
  intros H; induction n as [|n IH]; [exact H|].
  rewrite range_of_nat_succ, floydSteinbergRow_snoc, Nat2Z.inj_succ,
    <- Z.add_1_r.
  apply floydSteinberg_step; [lia | exact IH].
Qed.

(** A pixel step leaves the row counter, hence the direction flag, as it
    was. *)
Lemma processPixel_keeps_direction (cfg : Config) (d : FloydSteinberg.t)
  (gray x : Z) (reverse : bool) :
  FloydSteinberg.isReverseRow
    (fst (FloydSteinberg.processPixel cfg d gray x reverse))
  = FloydSteinberg.isReverseRow d.
Proof.
  unfold FloydSteinberg.processPixel, FloydSteinberg.isReverseRow.
  destruct (quantizeAdjustedWithValue _ _) as [q qv].
  destruct (negb reverse); reflexivity.
Qed.

Lemma packRow_fold_floydSteinberg (cfg : Config) (bpp L : Z)
  (grayAt : Z -> Z) (y : Z) (xs : list Z) :
  forall d row,
    fst (fold_left (packPixel cfg bpp L grayAt y) xs
           (UseFloydSteinberg d, row))
    = UseFloydSteinberg
        (floydSteinbergRow cfg grayAt (FloydSteinberg.isReverseRow d) xs d).
Proof.
  induction xs as [|x xs IH]; intros d row; [reflexivity|].
  cbn [fold_left]. unfold packPixel at 2, indexPixel.
  pose proof (processPixel_keeps_direction cfg d (grayAt x) x
                (FloydSteinberg.isReverseRow d)) as Hdir.
  destruct (FloydSteinberg.processPixel cfg d (grayAt x) x
              (FloydSteinberg.isReverseRow d)) as [d' v] eqn:E.
  cbn [fst] in Hdir.
  rewrite IH, Hdir. unfold floydSteinbergRow at 2. cbn [fold_left].
  rewrite E. reflexivity.
Qed.

(** X12. The Floyd-Steinberg error rows never leave the int16_t range: from a row
    start every cell stays within 256 and 144 in absolute value while a row
    of any grays is processed in the row's direction, and packing a row ends
    in a row start again. *)
Theorem floydSteinberg_errors_fit_int16 (cfg : Config)
  (bitsPerPixel outWidth bytesPerRow : Z) (grayAt : Z -> Z) (y : Z)
  (d : FloydSteinberg.t)
  (Hdepth : bitsPerPixel <> 8)
  (Hstart : floydSteinbergRowStart d) :
  (forall k : nat,
     let d_k := floydSteinbergRow cfg grayAt (FloydSteinberg.isReverseRow d)
                  (firstn k (Buf.range outWidth)) d in
     cellsWithin (fun _ => 256) (FloydSteinberg.errorCurRow d_k)
     /\ cellsWithin (fun _ => 144) (FloydSteinberg.errorNextRow d_k))
  /\ (exists d',
        fst (packRow cfg bitsPerPixel outWidth bytesPerRow grayAt y
               (UseFloydSteinberg d)) = UseFloydSteinberg d'
        /\ floydSteinbergRowStart d')
  /\ (forall width levelCount,
        floydSteinbergRowStart (FloydSteinberg.make width levelCount)).
Proof.
  pose proof (floydSteinbergRowStart_before (FloydSteinberg.isReverseRow d)
                d Hstart) as H0.
  split; [|split].
  - intros k d_k; subst d_k. rewrite firstn_range.
    eapply floydSteinbergBefore_small, floydSteinbergRow_inv, H0.
  - exists (FloydSteinberg.nextRow
              (floydSteinbergRow cfg grayAt (FloydSteinberg.isReverseRow d)
                 (Buf.range outWidth) d)).
    split.
    + unfold packRow.
      destruct (Z.eqb_spec bitsPerPixel 8) as [E|_]; [contradiction|].
      pose proof (packRow_fold_floydSteinberg cfg bitsPerPixel
                    (Z.shiftl 1 bitsPerPixel) grayAt y (Buf.range outWidth)
                    d (Buf.zeros bytesPerRow)) as Hf.
      destruct (fold_left _ _ _) as [d1 rb]. cbn [fst] in *.
      rewrite Hf. reflexivity.
    + rewrite <- (firstn_all (Buf.range outWidth)), firstn_range.
      eapply floydSteinbergBefore_nextRow, floydSteinbergRow_inv, H0.
  - intros width levelCount; unfold floydSteinbergRowStart, FloydSteinberg.make.
    cbn [FloydSteinberg.errorCurRow FloydSteinberg.errorNextRow].
    split; intros i; rewrite get_zeros; lia.
Qed.

Lemma floydSteinberg_errors_fit_int16_witness :
  exists d',
    fst (packRow floydSteinberg_config 1 8 4 (fun _ => 100) 0
           (UseFloydSteinberg (FloydSteinberg.make 8 2)))
    = UseFloydSteinberg d'
    /\ floydSteinbergRowStart d'.
Proof.
  assert (H : floydSteinbergRowStart (FloydSteinberg.make 8 2)).
  { unfold floydSteinbergRowStart, FloydSteinberg.make.
    cbn [FloydSteinberg.errorCurRow FloydSteinberg.errorNextRow].
    split; intros i; rewrite get_zeros; lia. }
  destruct (floydSteinberg_errors_fit_int16 floydSteinberg_config 1 8 4
              (fun _ => 100) 0 (FloydSteinberg.make 8 2)
              ltac:(discriminate) H) as (_ & Hrow & _).
  exact Hrow.
Defined.

(** ** Floyd-Steinberg shares *)

Lemma clamp_max_min (a : Z) :
  (if 255 <? (if a <? 0 then 0 else a) then 255
   else (if a <? 0 then 0 else a))
  = Z.max 0 (Z.min 255 a).
Proof.
  destruct (Z.ltb_spec a 0);
    match goal with |- context [255 <? ?b] => destruct (Z.ltb_spec 255 b) end;
    lia.
Qed.

(** X13. One Floyd-Steinberg pixel spreads its quantization error as 7/16 ahead on
    the current row and 3/16, 5/16, 1/16 behind, below and ahead on the next
    row (ahead is x+1, or x-1 on a reverse row), each share rounded down;
    the shares add up to the error or up to 3 less, no other cell changes,
    and the row counter is untouched. *)
Theorem floydSteinberg_distributes_sixteenths (cfg : Config)
  (d : FloydSteinberg.t) (gray x : Z) (reverse : bool)
  (Hlevels : 2 <= FloydSteinberg.levelCount d <= 256)
  (Hx : 0 <= x < FloydSteinberg.width d)
  (Hcur : Z.of_nat (length (FloydSteinberg.errorCurRow d))
          = FloydSteinberg.width d + 2)
  (Hnext : Z.of_nat (length (FloydSteinberg.errorNextRow d))
           = FloydSteinberg.width d + 2)
  (Hcells : forall i,
      -16384 <= Buf.get (FloydSteinberg.errorCurRow d) i <= 16383
      /\ -16384 <= Buf.get (FloydSteinberg.errorNextRow d) i <= 16383) :
  let adjusted :=
    Z.max 0 (Z.min 255 (adjustPixel cfg gray
                        + Buf.get (FloydSteinberg.errorCurRow d) (x + 1))) in
  let d' := fst (FloydSteinberg.processPixel cfg d gray x reverse) in
  let level := snd (FloydSteinberg.processPixel cfg d gray x reverse) in
  let reconstructed := level * 255 / (FloydSteinberg.levelCount d - 1) in
  let error := adjusted - reconstructed in
  let ahead := if reverse then x else x + 2 in
  let behind := if reverse then x + 2 else x in
  let s7 := Z.shiftr (error * 7) 4 in
  let s3 := Z.shiftr (error * 3) 4 in
  let s5 := Z.shiftr (error * 5) 4 in
  let s1 := Z.shiftr error 4 in
  (forall i, Buf.get (FloydSteinberg.errorCurRow d') i
             = Buf.get (FloydSteinberg.errorCurRow d) i
               + (if i =? ahead then s7 else 0))
  /\ (forall i, Buf.get (FloydSteinberg.errorNextRow d') i
                = Buf.get (FloydSteinberg.errorNextRow d) i
                  + (if i =? behind then s3 else 0)
                  + (if i =? x + 1 then s5 else 0)
                  + (if i =? ahead then s1 else 0))
  /\ (Buf.sum (FloydSteinberg.errorCurRow d')
      + Buf.sum (FloydSteinberg.errorNextRow d'))
     - (Buf.sum (FloydSteinberg.errorCurRow d)
        + Buf.sum (FloydSteinberg.errorNextRow d))
     = s7 + s3 + s5 + s1
  /\ error - 3 <= s7 + s3 + s5 + s1 <= error
  /\ FloydSteinberg.rowCount d' = FloydSteinberg.rowCount d.
Proof.
  intros adjusted d' level reconstructed error ahead behind s7 s3 s5 s1.
  assert (Hadj : 0 <= adjusted <= 255) by (subst adjusted; lia).
  assert (Hlevel : level = levelOf adjusted (FloydSteinberg.levelCount d))
    by (apply floydSteinberg_level; exact Hlevels).
  clearbody level. subst level.
  assert (Hpix : FloydSteinberg.processPixel cfg d gray x reverse
                 = (let '(cur, next) :=
                      if negb reverse then
                        (bump (FloydSteinberg.errorCurRow d) (x + 2) s7,
                         bump (bump (bump (FloydSteinberg.errorNextRow d) x s3)
                                 (x + 1) s5) (x + 2) s1)
                      else
                        (bump (FloydSteinberg.errorCurRow d) x s7,
                         bump (bump (bump (FloydSteinberg.errorNextRow d)
                                       (x + 2) s3) (x + 1) s5) x s1) in
                    {| FloydSteinberg.width := FloydSteinberg.width d;
                       FloydSteinberg.levelCount := FloydSteinberg.levelCount d;
                       FloydSteinberg.rowCount := FloydSteinberg.rowCount d;
                       FloydSteinberg.errorCurRow := cur;
                       FloydSteinberg.errorNextRow := next |},
                    levelOf adjusted (FloydSteinberg.levelCount d))).
  { unfold FloydSteinberg.processPixel.
    rewrite clamp_max_min. fold adjusted.
    rewrite quantizeAdjustedWithValue_spec by lia.
    subst s7 s3 s5 s1 error reconstructed. unfold C.sar.
    destruct (negb reverse); reflexivity. }
  assert (He : -255 <= error <= 255).
  { subst error reconstructed.
    pose proof (levelOf_range adjusted (FloydSteinberg.levelCount d)
                  ltac:(lia) ltac:(lia)) as Hl.
    assert (0 <= levelOf adjusted (FloydSteinberg.levelCount d) * 255
                 / (FloydSteinberg.levelCount d - 1) <= 255).
    { split; [apply Z.div_pos; lia|]. apply Z.div_le_upper_bound; nia. }
    lia. }
  destruct (shares_range error He) as (H7 & H3 & H5 & H1 & Hsum).
  unfold C.sar in H7, H3, H5, H1, Hsum.
  fold s7 s3 s5 s1 in H7, H3, H5, H1, Hsum.
  clearbody s7 s3 s5 s1.
  subst d'. rewrite Hpix. subst ahead behind.
  pose proof (fun i => proj1 (Hcells i)) as Hc.
  pose proof (fun i => proj2 (Hcells i)) as Hn.
  destruct reverse; cbn [negb fst FloydSteinberg.errorCurRow
                              FloydSteinberg.errorNextRow
                              FloydSteinberg.rowCount].
  - (* right to left *)
    assert (G1 : forall i, Buf.get (bump (FloydSteinberg.errorNextRow d)
                                       (x + 2) s3) i
                           = Buf.get (FloydSteinberg.errorNextRow d) i
                             + (if x + 2 =? i then s3 else 0)).
    { intros i; apply get_bump; [lia | specialize (Hn (x + 2)); lia]. }
    assert (G2 : forall i, Buf.get (bump (bump (FloydSteinberg.errorNextRow d)
                                             (x + 2) s3) (x + 1) s5) i
                           = Buf.get (FloydSteinberg.errorNextRow d) i
                             + (if x + 2 =? i then s3 else 0)
                             + (if x + 1 =? i then s5 else 0)).
    { intros i; rewrite get_bump, G1;
        [reflexivity | rewrite length_bump; lia
        | rewrite G1; specialize (Hn (x + 1));
          destruct (Z.eqb_spec (x + 2) (x + 1)); lia]. }
    repeat split.
    + intros i; rewrite get_bump; [| lia | specialize (Hc x); lia].
      rewrite (Z.eqb_sym i x); reflexivity.
    + intros i; rewrite get_bump, G2;
        [| rewrite !length_bump; lia
         | rewrite G2; specialize (Hn x);
           destruct (Z.eqb_spec (x + 2) x), (Z.eqb_spec (x + 1) x); lia].
      rewrite (Z.eqb_sym i (x + 2)), (Z.eqb_sym i (x + 1)), (Z.eqb_sym i x).
      reflexivity.
    + rewrite (sum_bump (FloydSteinberg.errorCurRow d) x s7)
        by (try specialize (Hc x); lia).
      rewrite (sum_bump _ x s1);
        [| rewrite !length_bump; lia
         | rewrite G2; specialize (Hn x);
           destruct (Z.eqb_spec (x + 2) x), (Z.eqb_spec (x + 1) x); lia].
      rewrite (sum_bump _ (x + 1) s5);
        [| rewrite length_bump; lia
         | rewrite G1; specialize (Hn (x + 1));
           destruct (Z.eqb_spec (x + 2) (x + 1)); lia].
      rewrite (sum_bump _ (x + 2) s3) by (try specialize (Hn (x + 2)); lia).
      lia.
    + lia.
    + lia.
  - (* left to right *)
    assert (G1 : forall i, Buf.get (bump (FloydSteinberg.errorNextRow d) x s3) i
                           = Buf.get (FloydSteinberg.errorNextRow d) i
                             + (if x =? i then s3 else 0)).
    { intros i; apply get_bump; [lia | specialize (Hn x); lia]. }
    assert (G2 : forall i, Buf.get (bump (bump (FloydSteinberg.errorNextRow d)
                                             x s3) (x + 1) s5) i
                           = Buf.get (FloydSteinberg.errorNextRow d) i
                             + (if x =? i then s3 else 0)
                             + (if x + 1 =? i then s5 else 0)).
    { intros i; rewrite get_bump, G1;
        [reflexivity | rewrite length_bump; lia
        | rewrite G1; specialize (Hn (x + 1));
          destruct (Z.eqb_spec x (x + 1)); lia]. }
    repeat split.
    + intros i; rewrite get_bump; [| lia | specialize (Hc (x + 2)); lia].
      rewrite (Z.eqb_sym i (x + 2)); reflexivity.
    + intros i; rewrite get_bump, G2;
        [| rewrite !length_bump; lia
         | rewrite G2; specialize (Hn (x + 2));
           destruct (Z.eqb_spec x (x + 2)), (Z.eqb_spec (x + 1) (x + 2)); lia].
      rewrite (Z.eqb_sym i (x + 2)), (Z.eqb_sym i (x + 1)), (Z.eqb_sym i x).
      reflexivity.
    + rewrite (sum_bump (FloydSteinberg.errorCurRow d) (x + 2) s7)
        by (try specialize (Hc (x + 2)); lia).
      rewrite (sum_bump _ (x + 2) s1);
        [| rewrite !length_bump; lia
         | rewrite G2; specialize (Hn (x + 2));
           destruct (Z.eqb_spec x (x + 2)), (Z.eqb_spec (x + 1) (x + 2)); lia].
      rewrite (sum_bump _ (x + 1) s5);
        [| rewrite length_bump; lia
         | rewrite G1; specialize (Hn (x + 1));
           destruct (Z.eqb_spec x (x + 1)); lia].
      rewrite (sum_bump _ x s3) by (try specialize (Hn x); lia).
      lia.
    + lia.
    + lia.
Qed.

Lemma floydSteinberg_distributes_sixteenths_witness :
  let d := FloydSteinberg.make 8 2 in
  let d' := fst (FloydSteinberg.processPixel floydSteinberg_config d 100 3
                   false) in
  (Buf.sum (FloydSteinberg.errorCurRow d')
   + Buf.sum (FloydSteinberg.errorNextRow d'))
  - (Buf.sum (FloydSteinberg.errorCurRow d)
     + Buf.sum (FloydSteinberg.errorNextRow d))
  = -92.
Proof.
  intros d d'.
  destruct (floydSteinberg_distributes_sixteenths floydSteinberg_config d
              100 3 false) as (_ & _ & H & _).
  - vm_compute; split; discriminate.
  - vm_compute; split; [discriminate | reflexivity].
  - vm_compute; reflexivity.
  - vm_compute; reflexivity.
  - intros i; unfold d, FloydSteinberg.make.
    cbn [FloydSteinberg.errorCurRow FloydSteinberg.errorNextRow].
    rewrite get_zeros; lia.
  - refine (eq_trans H _). vm_compute; reflexivity.
Defined.

(** ** The read callback as a stream *)

Lemma firstn_split (a t : nat) (l : list Z) :
  (t <= a)%nat ->
  firstn t l ++ firstn (a - t) (skipn t l) = firstn a l.
Proof.
  intros H. rewrite <- (firstn_skipn t (firstn a l)).
  rewrite firstn_firstn, Nat.min_l by exact H.
  rewrite skipn_firstn_comm. reflexivity.
Qed.

Section Pull.

Variable errorCode : Z.
Variable buf_size : Z.
Hypothesis Hsize : 1 <= buf_size.

(** The copy out of a buffer that holds at least one byte. *)
Lemma copyOut_delivers_next (c : JpegReadContext) (done : list ReadOutcome) :
  windowOk c -> bufferPos c < bufferFilled c ->
  let r := copyOut c buf_size done in
  exists c',
    context r = Some c'
    /\ status r = 0
    /\ pBuf r ++ pending c' = pending c
    /\ file c' = file c
    /\ windowOk c'
    /\ pBuf r <> [].
Proof.
  intros (Hp & Hf) Hlt r; subst r. unfold copyOut.
  set (available := bufferFilled c - bufferPos c).
  set (toRead := if available <? buf_size then available else buf_size).
  assert (Ht : 1 <= toRead <= available).
  { subst toRead. destruct (Z.ltb_spec available buf_size); lia. }
  eexists; split; [reflexivity|]. cbn [status pBuf].
  split; [reflexivity|].
  split.
  { unfold pending; cbn [file buffer bufferPos bufferFilled].
    rewrite app_assoc. f_equal.
    replace (Z.to_nat (bufferFilled c - (bufferPos c + toRead)))
      with (Z.to_nat available - Z.to_nat toRead)%nat by lia.
    replace (Z.to_nat (bufferPos c + toRead))
      with (Z.to_nat toRead + Z.to_nat (bufferPos c))%nat by lia.
    rewrite <- skipn_skipn. apply firstn_split. lia. }
  unfold windowOk. cbn [file bufferPos bufferFilled buffer].
  split; [reflexivity|].
  split; [lia|].
  intros E. apply (f_equal (@length Z)) in E.
  rewrite length_firstn, length_skipn in E. cbn [length] in E. lia.
Qed.

(** One call hands over the first bytes still to deliver. *)
Lemma callback_delivers_next (ctx : JpegReadContext) :
  is_open (file ctx) = true ->
  windowOk ctx ->
  Forall countsItsBytes (reads (file ctx)) ->
  let r := jpegReadCallback errorCode (Some ctx) buf_size in
  exists ctx',
    context r = Some ctx'
    /\ status r = 0
    /\ pBuf r ++ pending ctx' = pending ctx
    /\ is_open (file ctx') = true
    /\ windowOk ctx'
    /\ Forall countsItsBytes (reads (file ctx'))
    /\ ((length (pending ctx') + length (reads (file ctx'))
         < length (pending ctx) + length (reads (file ctx)))%nat
        \/ pending ctx = []).
Proof.
  intros Hopen Hwin Hreads r; subst r. unfold jpegReadCallback.
  rewrite Hopen; cbn [negb].
  destruct (Z.leb_spec (bufferFilled ctx) (bufferPos ctx)) as [Hempty|Hsome].
  - (* refill *)
    assert (Hnone : firstn (Z.to_nat (bufferFilled ctx - bufferPos ctx))
                      (skipn (Z.to_nat (bufferPos ctx)) (buffer ctx)) = []).
    { replace (Z.to_nat (bufferFilled ctx - bufferPos ctx)) with 0%nat by lia.
      reflexivity. }
    unfold file_read.
    destruct (reads (file ctx)) as [|o rest] eqn:Er.
    + cbn [rd_count end_of_file Z.eqb].
      eexists; split; [reflexivity|]. cbn [status pBuf].
      split; [reflexivity|].
      assert (Ep : pending ctx = []).
      { unfold pending. rewrite Hnone, Er. reflexivity. }
      split.
      { rewrite Ep. unfold pending; cbn [file buffer bufferPos bufferFilled].
        rewrite Er. reflexivity. }
      cbn [file]. split; [exact Hopen|].
      split; [split; cbn [bufferPos bufferFilled buffer]; lia|].
      split; [rewrite Er; constructor|]. right; exact Ep.
    + inversion Hreads as [|o' rest' Ho Hrest]; subst o' rest'.
      unfold countsItsBytes in Ho.
      assert (Ep : pending ctx = rd_bytes o ++ concat (map rd_bytes rest)).
      { unfold pending. rewrite Hnone, Er. reflexivity. }
      set (c1 := {| file := {| is_open := is_open (file ctx); reads := rest |};
                    buffer := rd_bytes o
                              ++ skipn (length (rd_bytes o)) (buffer ctx);
                    bufferPos := 0; bufferFilled := rd_count o |}).
      assert (Ep1 : pending c1 = pending ctx).
      { rewrite Ep. unfold pending, c1; cbn [file buffer bufferPos bufferFilled
                                               reads].
        rewrite Z.sub_0_r, Ho, Nat2Z.id. cbn [Z.to_nat skipn].
        rewrite firstn_app, firstn_all, Nat.sub_diag. cbn [firstn].
        rewrite app_nil_r. reflexivity. }
      assert (Hw1 : windowOk c1).
      { split; cbn [c1 bufferPos bufferFilled buffer]; [lia|].
        rewrite length_app, Ho. lia. }
      destruct (Z.eqb_spec (rd_count o) 0) as [E0|Hn0].
      * eexists; split; [reflexivity|]. cbn [status pBuf].
        split; [reflexivity|]. fold c1.
        split; [rewrite Ep1; reflexivity|].
        cbn [c1 file is_open reads].
        split; [exact Hopen|]. split; [exact Hw1|]. split; [exact Hrest|].
        left. rewrite Ep1. cbn [length]. lia.
      * fold c1.
        destruct (copyOut_delivers_next c1 [o] Hw1) as
          (c' & Hc & Hs & Hb & Hf & Hw & Hne).
        { cbn [c1 bufferPos bufferFilled]. lia. }
        cbv zeta in Hc, Hs, Hb, Hne.
        exists c'. split; [exact Hc|]. split; [exact Hs|].
        split; [rewrite Hb; exact Ep1|].
        rewrite Hf. cbn [c1 file is_open reads].
        split; [exact Hopen|]. split; [exact Hw|]. split; [exact Hrest|].
        left. rewrite <- Ep1, <- Hb, length_app. cbn [length]. lia.
  - destruct (copyOut_delivers_next ctx [] Hwin Hsome) as
      (c' & Hc & Hs & Hb & Hf & Hw & Hne).
    cbv zeta in Hc, Hs, Hb, Hne.
    exists c'. split; [exact Hc|]. split; [exact Hs|].
    split; [exact Hb|]. rewrite Hf.
    split; [exact Hopen|]. split; [exact Hw|]. split; [exact Hreads|].
    left. rewrite <- Hb, length_app.
    destruct (pBuf (copyOut ctx buf_size [])); [contradiction|].
    cbn [length]. lia.
Qed.

End Pull.

Lemma pullBytes_invariant (errorCode buf_size : Z) (n : nat) :
  1 <= buf_size ->
  forall ctx,
    is_open (file ctx) = true -> windowOk ctx ->
    Forall countsItsBytes (reads (file ctx)) ->
    fst (pullBytes errorCode buf_size n ctx)
    ++ pending (snd (pullBytes errorCode buf_size n ctx))
    = pending ctx.
Proof.
  intros Hsize; induction n as [|n IH]; intros ctx Hopen Hwin Hreads;
    [reflexivity|].
  cbn [pullBytes].
  destruct (callback_delivers_next errorCode buf_size Hsize ctx Hopen Hwin
              Hreads) as (c' & Hc & _ & Hb & Ho & Hw & Hr & _).
  cbv zeta in Hc, Hb. rewrite Hc.
  specialize (IH c' Ho Hw Hr).
  destruct (pullBytes errorCode buf_size n c') as [bytes last].
  cbn [fst snd] in *. rewrite <- app_assoc, IH. exact Hb.
Qed.

Lemma pullBytes_completes (errorCode buf_size : Z) (m : nat) :
  1 <= buf_size ->
  forall ctx,
    (length (pending ctx) + length (reads (file ctx)) <= m)%nat ->
    is_open (file ctx) = true -> windowOk ctx ->
    Forall countsItsBytes (reads (file ctx)) ->
    fst (pullBytes errorCode buf_size m ctx) = pending ctx.
Proof.
  intros Hsize; induction m as [|m IH]; intros ctx Hm Hopen Hwin Hreads.
  - cbn [pullBytes fst].
    destruct (pending ctx); [reflexivity | cbn [length] in Hm; lia].
  - cbn [pullBytes].
    destruct (callback_delivers_next errorCode buf_size Hsize ctx Hopen Hwin
                Hreads) as (c' & Hc & _ & Hb & Ho & Hw & Hr & Hdec).
    cbv zeta in Hc, Hb. rewrite Hc.
    destruct Hdec as [Hdec|Hnil].
    + specialize (IH c' ltac:(lia) Ho Hw Hr).
      destruct (pullBytes errorCode buf_size m c') as [bytes last].
      cbn [fst] in *. rewrite IH. exact Hb.
    + pose proof (pullBytes_invariant errorCode buf_size m Hsize c' Ho Hw Hr)
        as Hinv.
      destruct (pullBytes errorCode buf_size m c') as [bytes last].
      cbn [fst snd] in *.
      rewrite Hnil in Hb |- *.
      destruct (pBuf _); [|discriminate Hb].
      cbn [app] in Hb |- *. rewrite Hb in Hinv.
      destruct bytes; [reflexivity | discriminate Hinv].
Qed.

(** X14. Repeated calls of the read callback hand the decoder the bytes of the
    file in order, none lost and none repeated: what has been delivered
    followed by what is still pending is always the pending data of the
    start, and enough calls deliver all of it. *)
Theorem callback_delivers_file_in_order (errorCode buf_size : Z)
  (ctx : JpegReadContext)
  (Hsize : 1 <= buf_size)
  (Hopen : is_open (file ctx) = true)
  (Hwindow : windowOk ctx)
  (Hreads : Forall countsItsBytes (reads (file ctx))) :
  (forall n,
     fst (pullBytes errorCode buf_size n ctx)
     ++ pending (snd (pullBytes errorCode buf_size n ctx))
     = pending ctx)
  /\ (exists n, fst (pullBytes errorCode buf_size n ctx) = pending ctx)
  /\ (bufferFilled ctx <= bufferPos ctx ->
      pending ctx = concat (map rd_bytes (reads (file ctx)))).
Proof.
  split; [|split].
  - intros n; apply pullBytes_invariant; assumption.
  - exists (length (pending ctx) + length (reads (file ctx)))%nat.
    apply pullBytes_completes; try assumption; lia.
  - intros Hempty; unfold pending.
    replace (Z.to_nat (bufferFilled ctx - bufferPos ctx)) with 0%nat by lia.
    reflexivity.
Qed.

Lemma callback_delivers_file_in_order_witness :
  exists n, fst (pullBytes 1 2 n fiveByteContext) = [255; 216; 255; 224; 0].
Proof.
  destruct (callback_delivers_file_in_order 1 2 fiveByteContext)
    as (_ & H & _).
  - lia.
  - reflexivity.
  - split; cbn; lia.
  - repeat constructor.
  - exact H.
Defined.

(** ** One call of the read callback *)

Lemma copyOut_count (c : JpegReadContext) (K : Z) (done : list ReadOutcome) :
  0 <= K <= 255 -> windowOk c -> bufferPos c <= bufferFilled c ->
  let r := copyOut c K done in
  pBytes_actually_read r = Some (Z.of_nat (length (pBuf r)))
  /\ Z.of_nat (length (pBuf r)) = Z.min K (bufferFilled c - bufferPos c)
  /\ exists c', context r = Some c'
                /\ windowOk c'
                /\ bufferPos c' <= bufferFilled c'
                /\ bufferPos c' = bufferPos c + Z.of_nat (length (pBuf r))
                /\ length (buffer c') = length (buffer c).
Proof.
  intros HK (Hp & Hf) Hle r; subst r; unfold copyOut.
  set (available := bufferFilled c - bufferPos c).
  set (toRead := if available <? K then available else K).
  assert (Ht : toRead = Z.min K available).
  { subst toRead. destruct (Z.ltb_spec available K); lia. }
  cbn [pBytes_actually_read pBuf context].
  assert (Hlen : Z.of_nat (length (firstn (Z.to_nat toRead)
                    (skipn (Z.to_nat (bufferPos c)) (buffer c)))) = toRead).
  { rewrite length_firstn, length_skipn. lia. }
  rewrite Hlen.
  split; [rewrite u8_small by lia; reflexivity|].
  split; [exact Ht|].
  eexists; split; [reflexivity|].
  unfold windowOk; cbn [bufferPos bufferFilled buffer].
  repeat split; lia.
Qed.

(** X15. A read callback on an open file succeeds, reports exactly the number of
    bytes it copied, never more than requested, and keeps the read window
    valid; when the window still held data it only advances the position by
    that number. *)
Theorem read_callback_reports_what_it_copied (errorCode buf_size : Z)
  (ctx : JpegReadContext)
  (Hsize : 0 <= buf_size <= 255)
  (Hopen : is_open (file ctx) = true)
  (Hwindow : windowOk ctx)
  (Horder : bufferPos ctx <= bufferFilled ctx)
  (Hreads : Forall countsItsBytes (reads (file ctx))) :
  let r := jpegReadCallback errorCode (Some ctx) buf_size in
  status r = 0
  /\ pBytes_actually_read r = Some (Z.of_nat (length (pBuf r)))
  /\ Z.of_nat (length (pBuf r)) <= buf_size
  /\ exists ctx',
       context r = Some ctx'
       /\ windowOk ctx'
       /\ bufferPos ctx' <= bufferFilled ctx'
       /\ (bufferPos ctx < bufferFilled ctx ->
           bufferPos ctx' = bufferPos ctx + Z.of_nat (length (pBuf r))
           /\ buffer ctx' = buffer ctx /\ file ctx' = file ctx).
Proof.
  intros r; subst r; unfold jpegReadCallback.
  rewrite Hopen; cbn [negb].
  destruct (Z.leb_spec (bufferFilled ctx) (bufferPos ctx)) as [Hempty|Hsome].
  - unfold file_read.
    destruct (reads (file ctx)) as [|o rest] eqn:Er.
    + cbn [rd_count end_of_file Z.eqb status pBytes_actually_read pBuf length
             Z.of_nat context].
      split; [reflexivity|]. split; [reflexivity|]. split; [lia|].
      eexists; split; [reflexivity|].
      unfold windowOk; cbn [bufferPos bufferFilled buffer file].
      repeat split; lia.
    + inversion Hreads as [|o' rest' Ho Hrest]; subst o' rest'.
      unfold countsItsBytes in Ho.
      set (c1 := {| file := {| is_open := is_open (file ctx); reads := rest |};
                    buffer := rd_bytes o
                              ++ skipn (length (rd_bytes o)) (buffer ctx);
                    bufferPos := 0; bufferFilled := rd_count o |}).
      assert (Hw1 : windowOk c1).
      { split; cbn [c1 bufferPos bufferFilled buffer]; [lia|].
        rewrite length_app, Ho. lia. }
      destruct (Z.eqb_spec (rd_count o) 0) as [E0|Hn0].
      * cbn [status pBytes_actually_read pBuf length Z.of_nat context].
        split; [reflexivity|]. split; [reflexivity|]. split; [lia|].
        exists c1. split; [reflexivity|]. split; [exact Hw1|].
        split; [cbn [c1 bufferPos bufferFilled]; lia|]. lia.
      * destruct (copyOut_count c1 buf_size [o] Hsize Hw1)
          as (Hcount & Hmin & c' & Hc & Hw & Hle & _ & Hlen).
        { cbn [c1 bufferPos bufferFilled]. lia. }
        cbv zeta in Hcount, Hmin, Hc.
        split; [apply copyOut_status|]. split; [exact Hcount|].
        split; [lia|].
        exists c'. split; [exact Hc|]. split; [exact Hw|].
        split; [exact Hle|]. lia.
  - destruct (copyOut_count ctx buf_size [] Hsize Hwindow Horder)
      as (Hcount & Hmin & c' & Hc & Hw & Hle & Hpos & Hlen).
    cbv zeta in Hcount, Hmin, Hc, Hpos.
    split; [apply copyOut_status|]. split; [exact Hcount|].
    split; [lia|].
    exists c'. split; [exact Hc|]. split; [exact Hw|].
    split; [exact Hle|].
    intros _. split; [exact Hpos|].
    unfold copyOut in Hc; cbn [context] in Hc.
    injection Hc as <-. split; reflexivity.
Qed.

Lemma read_callback_reports_what_it_copied_witness :
  pBytes_actually_read (jpegReadCallback 1 (Some fiveByteContext) 2)
  = Some 2.
Proof.
  destruct (read_callback_reports_what_it_copied 1 2 fiveByteContext)
    as (_ & H & _).
  - lia.
  - reflexivity.
  - split; cbn; lia.
  - cbn; lia.
  - repeat constructor.
  - exact H.
Defined.

(** ** The scaled dimensions *)

(** The product of two normal numbers is within one rounding of the exact
    product, on both sides. *)
Lemma mul_normal_both (mx my : positive) (ex ey : Z) :
  2 ^ 23 <= Z.pos mx < 2 ^ 24 -> 2 ^ 23 <= Z.pos my < 2 ^ 24 ->
  -23 <= ex <= 8 -> -55 <= ey <= 9 ->
  exists m e,
    F32.mul (S754_finite false mx ex) (S754_finite false my ey)
    = S754_finite false m e
    /\ ((IZR (Z.pos mx) * powerRZ 2 ex) * (IZR (Z.pos my) * powerRZ 2 ey)
        * (1 - / 8388608)
        <= IZR (Z.pos m) * powerRZ 2 e
        <= (IZR (Z.pos mx) * powerRZ 2 ex) * (IZR (Z.pos my) * powerRZ 2 ey)
           * (1 + / 8388608))%R.
Proof.
  intros Hx Hy Hex Hey.
  unfold F32.mul, F32.prec, F32.emax, SFmul; cbn [xorb].
  change (2 ^ 23) with 8388608 in *; change (2 ^ 24) with 16777216 in *.
  assert (HM : 70368744177664 <= Z.pos (mx * my) < 281474976710656)
    by (rewrite Pos2Z.inj_mul; nia).
  assert (Hd : Zdigits2 (Z.pos (mx * my)) <= 48).
  { pose proof (Zdigits2_bounds (Z.pos (mx * my)) ltac:(lia)) as [Dlo _].
    destruct (Z.le_gt_cases (Zdigits2 (Z.pos (mx * my))) 48); [assumption|].
    assert (2 ^ 48 <= 2 ^ (Zdigits2 (Z.pos (mx * my)) - 1))
      by (apply Z.pow_le_mono_r; lia).
    change (2 ^ 48) with 281474976710656 in *; lia. }
  destruct (round_aux_value false (Z.pos (mx * my)) (ex + ey) loc_Exact)
    as (m & e & Hres & _ & _ & Hv & _);
    [change (2 ^ 23) with 8388608; lia | lia | lia |].
  exists m, e; split; [exact Hres|].
  rewrite Pos2Z.inj_mul, mult_IZR, bpow_add in Hv.
  replace (IZR (Z.pos mx) * powerRZ 2 ex * (IZR (Z.pos my) * powerRZ 2 ey))%R
    with (IZR (Z.pos mx) * IZR (Z.pos my) * (powerRZ 2 ex * powerRZ 2 ey))%R
    by ring.
  exact Hv.
Qed.

(** Truncation takes away less than one. *)
Lemma to_int_gt_value (m : positive) (e : Z) :
  (F32.value (S754_finite false m e) - 1
   < IZR (F32.to_int (S754_finite false m e)))%R.
Proof.
  cbn [F32.to_int F32.value].
  rewrite Rmult_1_l.
  destruct (Z.leb_spec 0 e) as [He|He].
  - rewrite mult_IZR, <- bpow_nonneg_exp by lia; lra.
  - set (k := - e).
    assert (Hk : 0 < 2 ^ k) by (apply Z.pow_pos_nonneg; unfold k; lia).
    pose proof (Z.div_mod (Z.pos m) (2 ^ k) ltac:(lia)) as Hdm.
    pose proof (Z.mod_pos_bound (Z.pos m) (2 ^ k) Hk) as Hmod.
    assert (Hlt : Z.pos m < 2 ^ k * (Z.pos m / 2 ^ k + 1)) by lia.
    apply IZR_lt in Hlt. rewrite mult_IZR, plus_IZR in Hlt.
    rewrite <- bpow_nonneg_exp in Hlt by (unfold k; lia).
    pose proof (bpow_pos e) as Hb. pose proof (bpow_pos k) as Hbk.
    assert (Hone : (powerRZ 2 k * powerRZ 2 e = 1)%R).
    { rewrite <- bpow_add; replace (k + e) with 0 by (unfold k; lia).
      reflexivity. }
    set (a := IZR (Z.pos m / 2 ^ k)) in *.
    assert (H1 : (IZR (Z.pos m) * powerRZ 2 e
                  < powerRZ 2 k * (a + 1) * powerRZ 2 e)%R)
      by (apply Rmult_lt_compat_r; lra).
    replace (powerRZ 2 k * (a + 1) * powerRZ 2 e)%R
      with ((powerRZ 2 k * powerRZ 2 e) * (a + 1))%R in H1 by ring.
    rewrite Hone in H1. lra.
Qed.

(** The quotient of a bound by a larger dimension: a normal number which,
    multiplied back, is within two roundings of the bound. *)
Lemma quotient_value (t n : Z) :
  1 <= n <= 3072 -> 1 <= t < n ->
  exists m e,
    F32.div (F32.of_int t) (F32.of_int n) = S754_finite false m e
    /\ 2 ^ 23 <= Z.pos m < 2 ^ 24
    /\ -55 <= e <= 9
    /\ (IZR t * (1 - / 8388608)
        <= IZR (Z.pos m) * powerRZ 2 e * IZR n * (1 + / 8388608))%R
    /\ (IZR (Z.pos m) * powerRZ 2 e * IZR n <= IZR t * (1 + / 8388608))%R.
Proof.
  intros Hn Ht.
  destruct (of_int_pos n ltac:(lia)) as (mn & en & En & Hmn & Hen & _ & Hvn).
  destruct (Hvn ltac:(lia)) as [Hvn' Hen']; clear Hvn.
  destruct (of_int_pos t ltac:(lia)) as (mt & et & Et & Hmt & Het & _ & Hvt).
  destruct (Hvt ltac:(lia)) as [Hvt' Het']; clear Hvt.
  rewrite En, Et.
  destruct (div_normal mt mn et en Hmt Hmn Het Hen)
    as (m & e & Hres & Hm & He & Hhi & Hlo).
  exists m, e. split; [exact Hres|]. split; [exact Hm|]. split; [exact He|].
  cbv zeta in Hhi, Hlo. rewrite Hvt', Hvn' in Hhi, Hlo.
  split; [exact Hlo | exact Hhi].
Qed.

(** A dimension [n] scaled by a normal factor of value [v]: if [v * n] is
    at most the bound [t], up to one rounding, so is the truncated product;
    if [v * n] is at least [t], up to two roundings, the truncated product
    is [t - 1] at least. *)
Lemma scaled_le_bound (n t : Z) (m : positive) (e : Z) :
  1 <= n <= 3072 -> 1 <= t <= 3072 ->
  2 ^ 23 <= Z.pos m < 2 ^ 24 -> -55 <= e <= 9 ->
  (IZR (Z.pos m) * powerRZ 2 e * IZR n <= IZR t * (1 + / 8388608))%R ->
  F32.to_int (F32.mul (F32.of_int n) (S754_finite false m e)) <= t.
Proof.
  intros Hn Ht Hm He Hv.
  destruct (of_int_pos n ltac:(lia)) as (mn & en & En & Hmn & Hen & _ & Hvn).
  destruct (Hvn ltac:(lia)) as [Hvn' Hen']; clear Hvn.
  rewrite En.
  destruct (mul_normal_both mn m en e Hmn Hm ltac:(lia) He)
    as (mp & ep & Hres & _ & Hp).
  rewrite Hres.
  pose proof (to_int_le_value mp ep) as Hti.
  cbn [F32.value] in Hti; rewrite Rmult_1_l in Hti.
  rewrite Hvn' in Hp.
  set (v := (IZR (Z.pos m) * powerRZ 2 e)%R) in *.
  assert (Ht1 : (1 <= IZR t <= 3072)%R) by (split; apply IZR_le; lia).
  assert (Hlt : (IZR (F32.to_int (S754_finite false mp ep)) < IZR t + 1)%R).
  { apply Rle_lt_trans with (IZR n * v * (1 + / 8388608))%R; [lra|].
    apply Rle_lt_trans
      with (IZR t * (1 + / 8388608) * (1 + / 8388608))%R; [|nra].
    apply Rmult_le_compat_r; lra. }
  rewrite <- plus_IZR in Hlt; apply lt_IZR in Hlt; lia.
Qed.

Lemma scaled_ge_bound (n t : Z) (m : positive) (e : Z) :
  1 <= n <= 3072 -> 1 <= t <= 3072 ->
  2 ^ 23 <= Z.pos m < 2 ^ 24 -> -55 <= e <= 9 ->
  (IZR t * (1 - / 8388608)
   <= IZR (Z.pos m) * powerRZ 2 e * IZR n * (1 + / 8388608))%R ->
  t - 1 <= F32.to_int (F32.mul (F32.of_int n) (S754_finite false m e)).
Proof.
  intros Hn Ht Hm He Hv.
  destruct (of_int_pos n ltac:(lia)) as (mn & en & En & Hmn & Hen & _ & Hvn).
  destruct (Hvn ltac:(lia)) as [Hvn' Hen']; clear Hvn.
  rewrite En.
  destruct (mul_normal_both mn m en e Hmn Hm ltac:(lia) He)
    as (mp & ep & Hres & Hp & _).
  rewrite Hres.
  pose proof (to_int_gt_value mp ep) as Hti.
  cbn [F32.value] in Hti; rewrite Rmult_1_l in Hti.
  rewrite Hvn' in Hp.
  set (v := (IZR (Z.pos m) * powerRZ 2 e)%R) in *.
  assert (Ht1 : (1 <= IZR t <= 3072)%R) by (split; apply IZR_le; lia).
  assert (Hgt : (IZR t - 2 < IZR (F32.to_int (S754_finite false mp ep)))%R).
  { apply Rlt_trans with (IZR (Z.pos mp) * powerRZ 2 ep - 1)%R; [|lra].
    assert (H1 : (IZR t * (1 - / 8388608) * (1 - / 8388608)
                  <= IZR n * v * (1 - / 8388608) * (1 + / 8388608))%R).
    { replace (IZR n * v * (1 - / 8388608) * (1 + / 8388608))%R
        with (v * IZR n * (1 + / 8388608) * (1 - / 8388608))%R by ring.
      apply Rmult_le_compat_r; lra. }
    assert (H2 : (IZR n * v * (1 - / 8388608) * (1 + / 8388608)
                  <= IZR (Z.pos mp) * powerRZ 2 ep * (1 + / 8388608))%R)
      by (apply Rmult_le_compat_r; lra).
    nra. }
  assert (Hgt' : (IZR (t - 2) < IZR (F32.to_int (S754_finite false mp ep)))%R)
    by (rewrite minus_IZR; exact Hgt).
  apply lt_IZR in Hgt'; lia.
Qed.

(** On normal numbers the comparison tells the order of the values. *)
Lemma ltb_normal_inv (mx my : positive) (ex ey : Z) :
  2 ^ 23 <= Z.pos mx < 2 ^ 24 -> 2 ^ 23 <= Z.pos my < 2 ^ 24 ->
  let vx := (IZR (Z.pos mx) * powerRZ 2 ex)%R in
  let vy := (IZR (Z.pos my) * powerRZ 2 ey)%R in
  if F32.ltb (S754_finite false mx ex) (S754_finite false my ey)
  then (vx < vy)%R else (vy <= vx)%R.
Proof.
  intros Hx Hy vx vy.
  destruct (ltb_normal mx my ex ey Hx Hy) as (Hlt & Hge).
  fold vx vy in Hlt, Hge.
  destruct (Rlt_le_dec vx vy) as [H|H].
  - rewrite (Hlt H); exact H.
  - rewrite (Hge H); exact H.
Qed.

(** The two dimensions scaled by the chosen factor, before the clamp to one
    pixel. *)
Lemma chosen_scale_fits (w h tw th : Z) :
  1 <= w <= 3072 -> 1 <= h <= 3072 ->
  1 <= tw <= 2147483647 -> 1 <= th <= 2147483647 ->
  tw < w \/ th < h ->
  let sw := F32.div (F32.of_int tw) (F32.of_int w) in
  let sh := F32.div (F32.of_int th) (F32.of_int h) in
  let s := if F32.ltb sw sh then sw else sh in
  let ow := F32.to_int (F32.mul (F32.of_int w) s) in
  let oh := F32.to_int (F32.mul (F32.of_int h) s) in
  ow <= Z.min w tw /\ oh <= Z.min h th /\ (tw - 1 <= ow \/ th - 1 <= oh).
Proof.
  intros Hw Hh Htw Hth Hex sw sh s ow oh.
  pose proof (chosen_scale_small w h tw th Hw Hh ltac:(lia) ltac:(lia) Hex)
    as Hs.
  cbv zeta in Hs. fold sw sh s in Hs.
  pose proof (scaled_dimension_le w s Hw Hs) as Hw1.
  pose proof (scaled_dimension_le h s Hh Hs) as Hh1.
  fold ow in Hw1. fold oh in Hh1.
  destruct (Z.lt_ge_cases tw w) as [Hcw|Hcw];
    destruct (Z.lt_ge_cases th h) as [Hch|Hch]; try lia.
  - (* both axes exceed the box *)
    destruct (quotient_value tw w Hw ltac:(lia))
      as (mw & ew & Ew & Hmw & Hew & Hwlo & Hwhi).
    destruct (quotient_value th h Hh ltac:(lia))
      as (mh & eh & Eh & Hmh & Heh & Hhlo & Hhhi).
    fold sw in Ew. fold sh in Eh.
    pose proof (ltb_normal_inv mw mh ew eh Hmw Hmh) as Hcmp.
    cbv zeta in Hcmp. rewrite <- Ew, <- Eh in Hcmp.
    assert (Hw0 : (1 <= IZR w)%R) by (apply IZR_le; lia).
    assert (Hh0 : (1 <= IZR h)%R) by (apply IZR_le; lia).
    subst ow oh s.
    destruct (F32.ltb sw sh); rewrite ?Ew, ?Eh in *.
    + assert (Hoh : F32.to_int (F32.mul (F32.of_int h)
                                  (S754_finite false mw ew)) <= th).
      { apply scaled_le_bound; try assumption; try lia.
        apply Rle_trans
          with (IZR (Z.pos mh) * powerRZ 2 eh * IZR h)%R; [|exact Hhhi].
        apply Rmult_le_compat_r; lra. }
      pose proof (scaled_le_bound w tw mw ew Hw ltac:(lia) Hmw Hew Hwhi).
      pose proof (scaled_ge_bound w tw mw ew Hw ltac:(lia) Hmw Hew Hwlo).
      lia.
    + assert (How : F32.to_int (F32.mul (F32.of_int w)
                                  (S754_finite false mh eh)) <= tw).
      { apply scaled_le_bound; try assumption; try lia.
        apply Rle_trans
          with (IZR (Z.pos mw) * powerRZ 2 ew * IZR w)%R; [|exact Hwhi].
        apply Rmult_le_compat_r; lra. }
      pose proof (scaled_le_bound h th mh eh Hh ltac:(lia) Hmh Heh Hhhi).
      pose proof (scaled_ge_bound h th mh eh Hh ltac:(lia) Hmh Heh Hhlo).
      lia.
  - (* the width alone *)
    destruct (quotient_value tw w Hw ltac:(lia))
      as (mw & ew & Ew & Hmw & Hew & Hwlo & Hwhi).
    fold sw in Ew.
    assert (Hsmall : smallScale sw) by (apply quotient_small; lia).
    assert (Hbig : bigScale sh) by (apply quotient_big; lia).
    subst ow oh s. rewrite (ltb_small_big _ _ Hsmall Hbig) in *.
    rewrite Ew in *.
    pose proof (scaled_le_bound w tw mw ew Hw ltac:(lia) Hmw Hew Hwhi).
    pose proof (scaled_ge_bound w tw mw ew Hw ltac:(lia) Hmw Hew Hwlo).
    lia.
  - (* the height alone *)
    destruct (quotient_value th h Hh ltac:(lia))
      as (mh & eh & Eh & Hmh & Heh & Hhlo & Hhhi).
    fold sh in Eh.
    assert (Hbig : bigScale sw) by (apply quotient_big; lia).
    assert (Hsmall : smallScale sh) by (apply quotient_small; lia).
    subst ow oh s. rewrite (ltb_big_small _ _ Hbig Hsmall) in *.
    rewrite Eh in *.
    pose proof (scaled_le_bound h th mh eh Hh ltac:(lia) Hmh Heh Hhhi).
    pose proof (scaled_ge_bound h th mh eh Hh ltac:(lia) Hmh Heh Hhlo).
    lia.
Qed.

(** X16. With pre-scaling on, the output fits the target box and never enlarges:
    each output dimension is at least 1 and at most the smaller of the
    source dimension and the target; scaling is skipped exactly when the
    source already fits. *)
Theorem scaled_output_fits_target (cfg : Config) (info : pjpeg_image_info)
  (targetWidth targetHeight : Z)
  (Hwidth : 1 <= m_width info <= 2048)
  (Hheight : 1 <= m_height info <= 3072)
  (Htw : 1 <= targetWidth <= 2147483647)
  (Hth : 1 <= targetHeight <= 2147483647)
  (Hprescale : USE_PRESCALE cfg = true) :
  let plan := computeScale cfg info targetWidth targetHeight in
  1 <= outWidth plan <= Z.min (m_width info) targetWidth
  /\ 1 <= outHeight plan <= Z.min (m_height info) targetHeight
  /\ (needsScaling plan = false <->
      m_width info <= targetWidth /\ m_height info <= targetHeight).
Proof.
  intros plan; subst plan; unfold computeScale.
  rewrite Hprescale; cbn [andb].
  destruct ((targetWidth <? m_width info) || (targetHeight <? m_height info))
    eqn:Hex; cbn [needsScaling outWidth outHeight].
  - assert (Hex' : targetWidth < m_width info \/ targetHeight < m_height info).
    { apply Bool.orb_true_iff in Hex; destruct Hex as [H|H];
        apply Z.ltb_lt in H; auto. }
    destruct (chosen_scale_fits (m_width info) (m_height info) targetWidth
                targetHeight ltac:(lia) Hheight Htw Hth Hex')
      as (Hw1 & Hh1 & _).
    cbv zeta in Hw1, Hh1.
    split; [|split].
    + match goal with |- context [if ?x <? 1 then _ else _] =>
        destruct (Z.ltb_spec x 1) end; lia.
    + match goal with |- 1 <= (if ?x <? 1 then _ else _) <= _ =>
        destruct (Z.ltb_spec x 1) end; lia.
    + split; [intros H; discriminate H | lia].
  - apply Bool.orb_false_iff in Hex. destruct Hex as [H1 H2].
    apply Z.ltb_ge in H1, H2.
    split; [lia|]. split; [lia|]. split; [lia | reflexivity].
Qed.

Lemma scaled_output_fits_target_witness :
  outWidth (computeScale default_config info820x1230 480 800) <= Z.min 820 480.
Proof.
  destruct (scaled_output_fits_target default_config info820x1230 480 800)
    as ((_ & H) & _); [cbn; lia | cbn; lia | lia | lia | reflexivity | exact H].
Defined.

(** X17. When the image is scaled, one axis ends at its target bound or one pixel
    short of it, and the other axis stays within its bound. *)
Theorem scaled_output_near_target (cfg : Config) (info : pjpeg_image_info)
  (targetWidth targetHeight : Z)
  (Hwidth : 1 <= m_width info <= 2048)
  (Hheight : 1 <= m_height info <= 3072)
  (Htw : 1 <= targetWidth <= 2147483647)
  (Hth : 1 <= targetHeight <= 2147483647)
  (Hscaled : needsScaling (computeScale cfg info targetWidth targetHeight)
             = true) :
  let plan := computeScale cfg info targetWidth targetHeight in
  (targetWidth - 1 <= outWidth plan <= targetWidth
   /\ outHeight plan <= targetHeight)
  \/ (targetHeight - 1 <= outHeight plan <= targetHeight
      /\ outWidth plan <= targetWidth).
Proof.
  intros plan; subst plan; revert Hscaled; unfold computeScale.
  destruct (USE_PRESCALE cfg); cbn [andb needsScaling];
    [|intros H; discriminate H].
  destruct ((targetWidth <? m_width info) || (targetHeight <? m_height info))
    eqn:Hex; cbn [needsScaling outWidth outHeight]; [|intros H; discriminate H].
  intros _.
  assert (Hex' : targetWidth < m_width info \/ targetHeight < m_height info).
  { apply Bool.orb_true_iff in Hex; destruct Hex as [H|H];
      apply Z.ltb_lt in H; auto. }
  destruct (chosen_scale_fits (m_width info) (m_height info) targetWidth
              targetHeight ltac:(lia) Hheight Htw Hth Hex')
    as (Hw1 & Hh1 & Hnear).
  cbv zeta in Hw1, Hh1, Hnear.
  repeat match goal with |- context [if ?x <? 1 then _ else _] =>
    destruct (Z.ltb_spec x 1) end; lia.
Qed.

Lemma scaled_output_near_target_witness :
  let plan := computeScale default_config info820x1230 480 800 in
  (480 - 1 <= outWidth plan <= 480 /\ outHeight plan <= 800)
  \/ (800 - 1 <= outHeight plan <= 800 /\ outWidth plan <= 480).
Proof.
  apply (scaled_output_near_target default_config info820x1230 480 800);
    [cbn; lia | cbn; lia | lia | lia | vm_compute; reflexivity].
Defined.

(** ** Horizontal accumulation *)

Lemma fold_sum_count (f : Z -> Z) (l : list Z) :
  forall s c,
    fold_left (fun '(sum, count) k => (sum + f k, count + 1)) l (s, c)
    = (s + Buf.sum (map f l), c + Z.of_nat (length l)).
Proof.
  induction l as [|k l IH]; intros s c.
  - cbn. f_equal; lia.
  - cbn [fold_left map length]. rewrite IH. unfold Buf.sum; cbn [fold_right].
    f_equal; lia.
Qed.

(** The fixed-point factor of a scaled axis: source pixels per output pixel,
    at least 1.0, and [out] steps of it stay within the source, leaving out
    less than one pixel. *)
Lemma fixed_point_factor (n out : Z) :
  1 <= out <= n -> n <= 3072 ->
  let S := C.u32 (C.u32 n * 65536) / C.u32 out in
  S = n * 65536 / out
  /\ 65536 <= S
  /\ out * S <= n * 65536
  /\ n * 65536 - 65536 < out * S.
Proof.
  intros Ho Hn S; subst S. unfold C.u32.
  rewrite (Z.mod_small n), (Z.mod_small (n * 65536)), (Z.mod_small out) by lia.
  split; [reflexivity|].
  pose proof (Z.mul_div_le (n * 65536) out ltac:(lia)).
  pose proof (Z.mul_succ_div_gt (n * 65536) out ltac:(lia)).
  assert (65536 <= n * 65536 / out) by (apply Z.div_le_lower_bound; nia).
  repeat split; nia.
Qed.

(** The horizontal ranges of a plan whose factor is the fixed-point quotient
    of the source width by the output width. *)
Lemma horizontal_ranges (dec : Decoder) (plan : ScalePlan) :
  1 <= outWidth plan <= m_width (imageInfo dec) ->
  m_width (imageInfo dec) <= 3072 ->
  scaleX_fp plan
  = C.u32 (C.u32 (m_width (imageInfo dec)) * 65536) / C.u32 (outWidth plan) ->
  let width := m_width (imageInfo dec) in
  srcXStart plan 0 = 0
  /\ (forall outX, 0 <= outX < outWidth plan ->
        srcXStart plan outX < srcXStart plan (outX + 1) <= width)
  /\ width - 1 <= srcXStart plan (outWidth plan) <= width
  /\ (forall outX srcRow rowAccum rowCount,
        0 <= outX < outWidth plan ->
        accumulatePixel dec plan srcRow (rowAccum, rowCount) outX
        = (Buf.set rowAccum outX
             (C.u32 (Buf.get rowAccum outX
                     + sampleSum srcRow (srcXStart plan outX)
                         (srcXStart plan (outX + 1)))),
           Buf.set rowCount outX
             (C.u16 (Buf.get rowCount outX
                     + (srcXStart plan (outX + 1) - srcXStart plan outX))))).
Proof.
  intros Hout Hmax HS width.
  destruct (fixed_point_factor (m_width (imageInfo dec)) (outWidth plan)
              Hout Hmax) as (HS1 & Hone & Hle & Hgt).
  cbv zeta in HS1, Hone, Hle, Hgt. rewrite <- HS in HS1, Hone, Hle, Hgt.
  fold width in Hout, Hgt, Hle, HS1, Hmax.
  set (S := scaleX_fp plan) in *.
  assert (Hstep : forall outX, 0 <= outX < outWidth plan ->
            srcXStart plan outX < srcXStart plan (outX + 1) <= width).
  { intros outX Hx. unfold srcXStart. fold S.
    split.
    - assert (outX * S / 65536 + 1 <= (outX + 1) * S / 65536); [|lia].
      apply Z.div_le_lower_bound; [lia|].
      pose proof (Z.mul_div_le (outX * S) 65536 ltac:(lia)). nia.
    - apply Z.div_le_upper_bound; [lia|]. nia. }
  split; [reflexivity|]. split; [exact Hstep|].
  split.
  { unfold srcXStart. fold S. split.
    - apply Z.div_le_lower_bound; lia.
    - apply Z.div_le_upper_bound; lia. }
  intros outX srcRow rowAccum rowCount Hx.
  specialize (Hstep outX Hx).
  unfold accumulatePixel. fold S.
  assert (Ha : Z.shiftr (C.u32 (C.u32 outX * S)) 16 = srcXStart plan outX).
  { unfold C.u32. rewrite (Z.mod_small outX), Z.mod_small by nia.
    rewrite Z.shiftr_div_pow2 by lia. reflexivity. }
  assert (Hb : Z.shiftr (C.u32 (C.u32 (outX + 1) * S)) 16
               = srcXStart plan (outX + 1)).
  { unfold C.u32. rewrite (Z.mod_small (outX + 1)), Z.mod_small by nia.
    rewrite Z.shiftr_div_pow2 by lia. reflexivity. }
  rewrite Ha, Hb.
  set (a := srcXStart plan outX) in *. set (b := srcXStart plan (outX + 1)) in *.
  unfold sumRange. fold width.
  replace (Z.min b width) with b by lia.
  rewrite (fold_sum_count (fun k => srcRow (a + k))).
  rewrite length_range.
  replace (0 + Z.of_nat (Z.to_nat (b - a))) with (b - a) by lia.
  destruct (Z.eqb_spec (b - a) 0) as [E|_]; [lia|]. cbn [andb].
  unfold sampleSum. rewrite Z.add_0_l. reflexivity.
Qed.

(** X18. The source column ranges of the output columns tile the source row: they
    start at 0, each is non-empty and begins where the previous one ends,
    and they end at the width or one column short; so each output column
    accumulates exactly the samples of its range and their count, and the
    nearest-pixel fallback is never taken. *)
Theorem horizontal_ranges_tile_source (cfg : Config) (dec : Decoder)
  (targetWidth targetHeight : Z)
  (Hwidth : 1 <= m_width (imageInfo dec) <= 2048)
  (Hheight : 1 <= m_height (imageInfo dec) <= 3072)
  (Htw : -2147483648 <= targetWidth <= 2147483647)
  (Hth : -2147483648 <= targetHeight <= 2147483647)
  (Hscaled : needsScaling (computeScale cfg (imageInfo dec) targetWidth
                             targetHeight) = true) :
  let plan := computeScale cfg (imageInfo dec) targetWidth targetHeight in
  let width := m_width (imageInfo dec) in
  srcXStart plan 0 = 0
  /\ (forall outX, 0 <= outX < outWidth plan ->
        srcXStart plan outX < srcXStart plan (outX + 1) <= width)
  /\ width - 1 <= srcXStart plan (outWidth plan) <= width
  /\ (forall outX srcRow rowAccum rowCount,
        0 <= outX < outWidth plan ->
        accumulatePixel dec plan srcRow (rowAccum, rowCount) outX
        = (Buf.set rowAccum outX
             (C.u32 (Buf.get rowAccum outX
                     + sampleSum srcRow (srcXStart plan outX)
                         (srcXStart plan (outX + 1)))),
           Buf.set rowCount outX
             (C.u16 (Buf.get rowCount outX
                     + (srcXStart plan (outX + 1) - srcXStart plan outX))))).
Proof.
  intros plan width.
  destruct (computeScale_bounds cfg (imageInfo dec) targetWidth targetHeight
              Hwidth Hheight Htw Hth Hscaled) as (Hout & _).
  destruct (computeScale_fixed_point cfg (imageInfo dec) targetWidth
              targetHeight Hscaled) as (HS & _).
  apply (horizontal_ranges dec plan Hout ltac:(lia) HS).
Qed.

Lemma horizontal_ranges_tile_source_witness :
  let plan := computeScale default_config info820x1230 480 800 in
  820 - 1 <= srcXStart plan (outWidth plan) <= 820.
Proof.
  destruct (horizontal_ranges_tile_source default_config
              {| init_status := 0; imageInfo := info820x1230;
                 decode_mcu := decode_mcu firstMcuFails |} 480 800)
    as (_ & _ & H & _);
    [cbn; lia | cbn; lia | lia | lia | vm_compute; reflexivity | exact H].
Defined.

(** ** Exits and memory *)



(** X20. A successful conversion leaves nothing allocated; memory is left
    allocated only by a run that entered the MCU loop and failed there, and
    only when it had accumulators (scaling) or a ditherer to leave. *)
Theorem only_a_failing_mcu_leaks (cfg : Config) (dec : Decoder) (mem : Memory)
  (bitsPerPixel targetWidth targetHeight : Z) :
  let o := jpegFileToBmpStream cfg dec mem bitsPerPixel targetWidth
             targetHeight in
  let plan := computeScale cfg (imageInfo dec) targetWidth targetHeight in
  (result o = true -> heap o = [] /\ entersLoop dec mem bitsPerPixel)
  /\ (heap o <> [] ->
      result o = false
      /\ entersLoop dec mem bitsPerPixel
      /\ (needsScaling plan = true
          \/ (bitsPerPixel <> 8
              /\ (USE_ATKINSON cfg = true \/ USE_FLOYD_STEINBERG cfg = true)))).
Proof.
  intros o plan.
  destruct (heap_at_return cfg dec mem bitsPerPixel targetWidth targetHeight)
    as (Hok & Hearly & Hleak).
  fold o plan in Hok, Hearly, Hleak.
  split.
  - intros H; split; [apply Hok; exact H|].
    apply converter_success with (1 := H).
  - intros Hne.
    destruct (result o) eqn:Hr; [exfalso; apply Hne, Hok; reflexivity|].
    split; [reflexivity|].
    destruct (converter_cases cfg dec mem bitsPerPixel targetWidth
                targetHeight) as [Hin|(_ & Hh & _)];
      [|fold o in Hh; contradiction].
    split; [exact Hin|].
    specialize (Hleak Hin eq_refl). rewrite Hleak in Hne.
    unfold leakedBlocks in Hne.
    destruct (needsScaling plan); [left; reflexivity|].
    right. destruct (Z.eqb_spec bitsPerPixel 8) as [E|E]; cbn [negb app] in Hne;
      [contradiction|].
    split; [exact E|].
    destruct (USE_ATKINSON cfg); [left; reflexivity|].
    destruct (USE_FLOYD_STEINBERG cfg); [right; reflexivity|].
    contradiction.
Qed.

(** ** Decoded samples *)

Lemma storeSample_eq (dec : Decoder) (mcuX : Z) (m : McuResult)
  (blockY : Z) (buf : list Z) (blockX : Z) :
  storeSample dec mcuX m blockY buf blockX
  = let pixelX := mcuX * m_MCUWidth (imageInfo dec) + blockX in
    if m_width (imageInfo dec) <=? pixelX then buf
    else Buf.set buf (blockY * m_width (imageInfo dec) + pixelX)
           (mcuGray (imageInfo dec) m blockX blockY).
Proof. reflexivity. Qed.

(** A sample is a byte. *)
Lemma mcuGray_range (info : pjpeg_image_info) (m : McuResult)
  (blockX blockY : Z) :
  0 <= mcuGray info m blockX blockY <= 255.
Proof.
  unfold mcuGray, C.u8.
  destruct (m_comps info =? 1);
    match goal with |- 0 <= ?a mod 256 <= 255 =>
      pose proof (Z.mod_pos_bound a 256 ltac:(lia)); lia
    end.
Qed.

(** X21. The gray of a decoded pixel is a byte: the R sample for a one-component
    image, else (r + 2g + b) / 4 rounded down, which lies between the
    smallest and the largest of the three samples and equals them when they
    agree. *)
Theorem mcuGray_is_a_weighted_mean (info : pjpeg_image_info) (m : McuResult)
  (blockX blockY : Z) :
  let offset := (C.sdiv blockY 8 * C.sdiv (m_MCUWidth info) 8
                 + C.sdiv blockX 8) * 64
                + Z.rem blockY 8 * 8 + Z.rem blockX 8 in
  let r := C.u8 (Buf.get (m_pMCUBufR m) offset) in
  let g := C.u8 (Buf.get (m_pMCUBufG m) offset) in
  let b := C.u8 (Buf.get (m_pMCUBufB m) offset) in
  0 <= mcuGray info m blockX blockY <= 255
  /\ (m_comps info = 1 -> mcuGray info m blockX blockY = r)
  /\ (m_comps info <> 1 ->
      mcuGray info m blockX blockY = (r + 2 * g + b) / 4
      /\ Z.min r (Z.min g b) <= mcuGray info m blockX blockY
         <= Z.max r (Z.max g b)
      /\ (r = g -> g = b -> mcuGray info m blockX blockY = r)).
Proof.
  intros offset r g b. unfold mcuGray. fold offset. fold r g b.
  assert (Hr : 0 <= r <= 255)
    by (subst r; unfold C.u8;
        pose proof (Z.mod_pos_bound (Buf.get (m_pMCUBufR m) offset) 256); lia).
  assert (Hg : 0 <= g <= 255)
    by (subst g; unfold C.u8;
        pose proof (Z.mod_pos_bound (Buf.get (m_pMCUBufG m) offset) 256); lia).
  assert (Hb : 0 <= b <= 255)
    by (subst b; unfold C.u8;
        pose proof (Z.mod_pos_bound (Buf.get (m_pMCUBufB m) offset) 256); lia).
  clearbody r g b.
  assert (Hq : C.sdiv (r * 25 + g * 50 + b * 25) 100 = (r + 2 * g + b) / 4).
  { unfold C.sdiv. rewrite Z.quot_div_nonneg by lia.
    replace (r * 25 + g * 50 + b * 25) with ((r + 2 * g + b) * 25) by lia.
    change 100 with (4 * 25). rewrite Z.div_mul_cancel_r by lia. reflexivity. }
  assert (Hm : Z.min r (Z.min g b) <= (r + 2 * g + b) / 4
               <= Z.max r (Z.max g b)).
  { split; [apply Z.div_le_lower_bound | apply Z.div_le_upper_bound]; lia. }
  destruct (Z.eqb_spec (m_comps info) 1) as [E|E].
  - split; [exact Hr|]. split; [reflexivity | contradiction].
  - rewrite Hq, u8_small by lia.
    split; [lia|]. split; [contradiction|]. intros _.
    split; [reflexivity|]. split; [exact Hm|].
    intros -> ->. replace (b + 2 * b + b) with (b * 4) by lia.
    apply Z.div_mul; lia.
Qed.

Section StoreMcu.

Variable dec : Decoder.
Variable mcuX : Z.
Variable m : McuResult.

Let info := imageInfo dec.
Let w := m_width info.
Let W := m_MCUWidth info.

Hypothesis Hw : 1 <= w.
Hypothesis HmcuX : 0 <= mcuX * W.

(** One row of the MCU: the loop over [blockX] up to [n]. *)
Lemma storeMcu_row (blockY : Z) (n : nat) (buf : list Z) :
  0 <= blockY ->
  let r := fold_left (storeSample dec mcuX m blockY)
             (Buf.range (Z.of_nat n)) buf in
  length r = length buf
  /\ forall idx,
       Buf.get r idx
       = if (blockY * w + mcuX * W <=? idx)
            && (idx <? blockY * w + mcuX * W + Z.of_nat n)
            && (idx <? blockY * w + w)
            && (idx <? Z.of_nat (length buf))
         then mcuGray info m (idx - blockY * w - mcuX * W) blockY
         else Buf.get buf idx.
Proof.
  intros Hy. induction n as [|n IH]; intros r; subst r.
  - cbn [Z.of_nat Buf.range Z.to_nat seq map fold_left].
    split; [reflexivity|]. intros idx.
    destruct (Z.leb_spec (blockY * w + mcuX * W) idx),
      (Z.ltb_spec idx (blockY * w + mcuX * W + 0)); cbn [andb];
      try reflexivity; lia.
  - rewrite range_of_nat_succ, fold_left_app. cbn [fold_left].
    cbv zeta in IH. destruct IH as (Hlen & Hget).
    set (r := fold_left _ (Buf.range (Z.of_nat n)) buf) in *.
    rewrite storeSample_eq. cbv zeta. fold info w W.
    destruct (Z.leb_spec w (mcuX * W + Z.of_nat n)) as [Hout|Hin].
    + split; [exact Hlen|]. intros idx. rewrite Hget.
      rewrite Nat2Z.inj_succ.
      destruct (Z.leb_spec (blockY * w + mcuX * W) idx),
        (Z.ltb_spec idx (blockY * w + mcuX * W + Z.of_nat n)),
        (Z.ltb_spec idx (blockY * w + mcuX * W + Z.succ (Z.of_nat n))),
        (Z.ltb_spec idx (blockY * w + w)); cbn [andb];
        try reflexivity; lia.
    + split; [rewrite length_set; exact Hlen|]. intros idx.
      rewrite get_set by nia. rewrite Hget, Hlen.
      rewrite Nat2Z.inj_succ.
      destruct (Z.eqb_spec (blockY * w + (mcuX * W + Z.of_nat n)) idx)
        as [E|E].
      * subst idx.
        destruct (Z.ltb_spec (blockY * w + (mcuX * W + Z.of_nat n))
                    (Z.of_nat (length buf))); cbn [andb].
        -- destruct (Z.leb_spec (blockY * w + mcuX * W)
                       (blockY * w + (mcuX * W + Z.of_nat n))); [|lia].
           destruct (Z.ltb_spec (blockY * w + (mcuX * W + Z.of_nat n))
                       (blockY * w + mcuX * W + Z.succ (Z.of_nat n))); [|lia].
           destruct (Z.ltb_spec (blockY * w + (mcuX * W + Z.of_nat n))
                       (blockY * w + w)); [|lia].
           cbn [andb]. f_equal; lia.
        -- rewrite !andb_false_r. reflexivity.
      * cbn [andb].
        destruct (Z.leb_spec (blockY * w + mcuX * W) idx),
          (Z.ltb_spec idx (blockY * w + mcuX * W + Z.of_nat n)),
          (Z.ltb_spec idx (blockY * w + mcuX * W + Z.succ (Z.of_nat n))),
          (Z.ltb_spec idx (blockY * w + w)); cbn [andb];
          try reflexivity; lia.
Qed.

(** The whole MCU: the loop over [blockY] up to [nH], each row over [nW]
    places. *)
Lemma storeMcu_rows (nW : nat) (nH : nat) (buf : list Z) :
  let r := fold_left
             (fun buf blockY =>
                fold_left (storeSample dec mcuX m blockY)
                  (Buf.range (Z.of_nat nW)) buf)
             (Buf.range (Z.of_nat nH)) buf in
  length r = length buf
  /\ forall idx,
       Buf.get r idx
       = if (0 <=? idx) && (idx / w <? Z.of_nat nH)
            && (mcuX * W <=? idx mod w)
            && (idx mod w <? mcuX * W + Z.of_nat nW)
            && (idx <? Z.of_nat (length buf))
         then mcuGray info m (idx mod w - mcuX * W) (idx / w)
         else Buf.get buf idx.
Proof.
  induction nH as [|nH IH]; intros r; subst r.
  - cbn [Z.of_nat Buf.range Z.to_nat seq map fold_left].
    split; [reflexivity|]. intros idx.
    destruct (Z.leb_spec 0 idx); cbn [andb]; [|reflexivity].
    destruct (Z.ltb_spec (idx / w) 0); cbn [andb]; [|reflexivity].
    pose proof (Z.div_pos idx w ltac:(lia) ltac:(lia)); lia.
  - rewrite range_of_nat_succ, fold_left_app. cbn [fold_left].
    cbv zeta in IH. destruct IH as (Hlen & Hget).
    set (r := fold_left _ (Buf.range (Z.of_nat nH)) buf) in *.
    destruct (storeMcu_row (Z.of_nat nH) nW r ltac:(lia)) as (Hlen' & Hget').
    cbv zeta in Hlen', Hget'.
    split; [rewrite Hlen'; exact Hlen|]. intros idx.
    rewrite Hget', Hget, Hlen. rewrite Nat2Z.inj_succ.
    destruct (Z.leb_spec 0 idx) as [Hi|Hi]; cbn [andb].
    2:{ destruct (Z.leb_spec (Z.of_nat nH * w + mcuX * W) idx); cbn [andb];
          [nia | reflexivity]. }
    pose proof (Z.div_mod idx w ltac:(lia)) as Hdm.
    pose proof (Z.mod_pos_bound idx w ltac:(lia)) as Hmod.
    pose proof (Z.div_pos idx w Hi ltac:(lia)) as Hdiv.
    set (q := idx / w) in *. set (x := idx mod w) in *.
    destruct (Z.ltb_spec idx (Z.of_nat (length buf))) as [Hin|Hout];
      [|rewrite !andb_false_r; reflexivity].
    rewrite !andb_true_r.
    destruct (Z.eq_dec q (Z.of_nat nH)) as [Eq|Nq].
    + (* the row just written *)
      destruct (Z.ltb_spec q (Z.of_nat nH)); [lia|].
      destruct (Z.ltb_spec q (Z.succ (Z.of_nat nH))); [|lia].
      cbn [andb].
      destruct (Z.leb_spec (Z.of_nat nH * w + mcuX * W) idx),
        (Z.leb_spec (mcuX * W) x); try nia; cbn [andb]; [|reflexivity].
      destruct (Z.ltb_spec idx (Z.of_nat nH * w + mcuX * W + Z.of_nat nW)),
        (Z.ltb_spec x (mcuX * W + Z.of_nat nW)); try nia; cbn [andb];
        [|reflexivity].
      destruct (Z.ltb_spec idx (Z.of_nat nH * w + w)); [|nia].
      f_equal; nia.
    + (* another row *)
      assert (Hother :
                (Z.of_nat nH * w + mcuX * W <=? idx)
                && (idx <? Z.of_nat nH * w + mcuX * W + Z.of_nat nW)
                && (idx <? Z.of_nat nH * w + w) = false).
      { destruct (Z.leb_spec (Z.of_nat nH * w + mcuX * W) idx); cbn [andb];
          [|reflexivity].
        destruct (Z.ltb_spec idx (Z.of_nat nH * w + w));
          [|apply andb_false_r].
        exfalso; apply Nq. nia. }
      rewrite Hother.
      destruct (Z.ltb_spec q (Z.of_nat nH)),
        (Z.ltb_spec q (Z.succ (Z.of_nat nH))); try reflexivity; lia.
Qed.

End StoreMcu.

(** ** A decoded row of MCUs *)

Lemma storeMcu_spec (dec : Decoder) (mcuX : Z) (m : McuResult)
  (buf : list Z) :
  1 <= m_width (imageInfo dec) ->
  0 <= mcuX * m_MCUWidth (imageInfo dec) ->
  0 <= m_MCUWidth (imageInfo dec) -> 0 <= m_MCUHeight (imageInfo dec) ->
  let info := imageInfo dec in
  let r := storeMcu dec mcuX m buf in
  length r = length buf
  /\ forall idx,
       Buf.get r idx
       = if (0 <=? idx) && (idx / m_width info <? m_MCUHeight info)
            && (mcuX * m_MCUWidth info <=? idx mod m_width info)
            && (idx mod m_width info <? mcuX * m_MCUWidth info + m_MCUWidth info)
            && (idx <? Z.of_nat (length buf))
         then mcuGray info m (idx mod m_width info - mcuX * m_MCUWidth info)
                (idx / m_width info)
         else Buf.get buf idx.
Proof.
  intros Hw Hx HW HH info r; subst r; unfold storeMcu.
  pose proof (storeMcu_rows dec mcuX m Hw Hx
                (Z.to_nat (m_MCUWidth info)) (Z.to_nat (m_MCUHeight info)) buf)
    as H.
  cbv zeta in H.
  unfold Buf.range in *. rewrite !Nat2Z.id in H.
  rewrite !Z2Nat.id in H by assumption.
  exact H.
Qed.

Section DecodeRow.

Variable dec : Decoder.

Let info := imageInfo dec.
Let w := m_width info.
Let W := m_MCUWidth info.
Let H := m_MCUHeight info.

Hypothesis Hw : 1 <= w.
Hypothesis HW : 1 <= W.
Hypothesis HH : 0 <= H.

(** The loop over the MCUs [a .. a+k-1] of a row, when each one decodes. *)
Lemma decodeMcuRow_spec (k : nat) :
  forall (a c : nat) (buf : list Z) (c' : nat) (buf' : list Z),
    decodeMcuRow dec (map Z.of_nat (seq a k)) c buf = Some (c', buf') ->
    c' = (c + k)%nat
    /\ length buf' = length buf
    /\ forall idx,
         Buf.get buf' idx
         = if (0 <=? idx) && (idx / w <? H)
              && (Z.of_nat a * W <=? idx mod w)
              && (idx mod w <? Z.of_nat (a + k) * W)
              && (idx <? Z.of_nat (length buf))
           then mcuGray info
                  (decode_mcu dec (c + (Z.to_nat (idx mod w / W) - a))%nat)
                  ((idx mod w) mod W) (idx / w)
           else Buf.get buf idx.
Proof.
  induction k as [|k IH]; intros a c buf c' buf' Hrun.
  - cbn in Hrun. injection Hrun as <- <-.
    split; [lia|]. split; [reflexivity|]. intros idx.
    replace (Z.of_nat (a + 0)) with (Z.of_nat a) by lia.
    destruct (Z.leb_spec (Z.of_nat a * W) (idx mod w)),
      (Z.ltb_spec (idx mod w) (Z.of_nat a * W));
      rewrite ?andb_false_r; cbn [andb]; try reflexivity; try lia.
  - cbn [seq map decodeMcuRow] in Hrun.
    destruct (Z.eqb_spec (mcuStatus (decode_mcu dec c)) 0) as [Hok|Hbad];
      [|discriminate Hrun].
    destruct (IH (S a) (S c) _ c' buf' Hrun) as (Hc & Hlen & Hget).
    assert (Ha : 0 <= Z.of_nat a * W) by nia.
    assert (HW0 : 0 <= W) by lia.
    destruct (storeMcu_spec dec (Z.of_nat a) (decode_mcu dec c) buf
                Hw Ha HW0 HH) as (Hlen1 & Hget1).
    cbv zeta in Hlen1, Hget1. fold info w W H in Hlen1, Hget1.
    split; [lia|]. split; [lia|]. intros idx.
    rewrite Hget, Hget1, Hlen1.
    destruct (Z.leb_spec 0 idx) as [Hi|Hi]; cbn [andb]; [|reflexivity].
    destruct (Z.ltb_spec (idx / w) H) as [Hy|Hy]; cbn [andb]; [|reflexivity].
    destruct (Z.ltb_spec idx (Z.of_nat (length buf))) as [Hin|Hout];
      [|rewrite !andb_false_r; reflexivity].
    rewrite !andb_true_r.
    pose proof (Z.mod_pos_bound idx w ltac:(lia)) as Hmod.
    set (x := idx mod w) in *.
    pose proof (Z.div_mod x W ltac:(lia)) as Hdm.
    pose proof (Z.mod_pos_bound x W ltac:(lia)) as HmW.
    replace (Z.of_nat (S a)) with (Z.of_nat a + 1) by lia.
    replace (Z.of_nat (S a + k)) with (Z.of_nat (a + S k)) by lia.
    destruct (Z.leb_spec ((Z.of_nat a + 1) * W) x) as [Hnext|Hhere],
      (Z.leb_spec (Z.of_nat a * W) x) as [Hge|Hlt],
      (Z.ltb_spec x (Z.of_nat a * W + W)) as [Hin1|Hout1],
      (Z.ltb_spec x (Z.of_nat (a + S k) * W)) as [Hin2|Hout2];
      cbn [andb]; try reflexivity; try (exfalso; nia).
    + (* an MCU further right *)
      f_equal. f_equal.
      assert (Z.of_nat a + 1 <= x / W)
        by (apply Z.div_le_lower_bound; lia).
      lia.
    + (* this MCU *)
      assert (Eq : x / W = Z.of_nat a)
        by (symmetry; apply (Z.div_unique x W _ (x - Z.of_nat a * W)); lia).
      replace (c + (Z.to_nat (x / W) - a))%nat with c by lia.
      f_equal. rewrite Eq in Hdm. lia.
Qed.

End DecodeRow.

(** ** Conversion without scaling *)

Lemma fold_left_ext_in {A B : Type} (f g : A -> B -> A) (l : list B) :
  (forall a x, In x l -> f a x = g a x) ->
  forall a, fold_left f l a = fold_left g l a.
Proof.
  induction l as [|x l IH]; intros Hfg a; [reflexivity|].
  cbn [fold_left]. rewrite (Hfg a x) by (left; reflexivity).
  apply IH. intros a' x' Hin; apply Hfg; right; exact Hin.
Qed.

(** A packed row depends on the samples of its own columns only. *)
Lemma packRow_ext (cfg : Config) (bpp outW bpr : Z) (g1 g2 : Z -> Z) (y : Z)
  (d : Ditherer) :
  (forall x, 0 <= x < outW -> g1 x = g2 x) ->
  packRow cfg bpp outW bpr g1 y d = packRow cfg bpp outW bpr g2 y d.
Proof.
  intros Hg; unfold packRow.
  destruct (bpp =? 8).
  - f_equal. apply fold_left_ext_in. intros rb x Hx.
    apply in_range in Hx. rewrite (Hg x Hx). reflexivity.
  - rewrite (fold_left_ext_in
               (packPixel cfg bpp (Z.shiftl 1 bpp) g1 y)
               (packPixel cfg bpp (Z.shiftl 1 bpp) g2 y)); [reflexivity|].
    intros [d' rb] x Hx. apply in_range in Hx.
    unfold packPixel. rewrite (Hg x Hx). reflexivity.
Qed.

Lemma packRows_snoc (cfg : Config) (bpp outW bpr : Z) (g : Z -> Z -> Z)
  (ys : list Z) (y : Z) (start : list Z * Ditherer) :
  packRows cfg bpp outW bpr g (ys ++ [y]) start
  = (let '(out, d) := packRows cfg bpp outW bpr g ys start in
     let '(d', row) := packRow cfg bpp outW bpr (fun x => g x y) y d in
     (out ++ row, d')).
Proof.
  unfold packRows; rewrite fold_left_app; cbn [fold_left].
  destruct (fold_left _ ys start) as [out d]; reflexivity.
Qed.

(** The two loops over the MCU rows and over the source rows of one MCU row,
    for any property [Inv y] of the state before source row [y] that each
    source row carries on and that does not look at the MCU row buffer. *)
Section McuLoop.

Variable cfg : Config.
Variable dec : Decoder.
Variable plan : ScalePlan.
Variable bitsPerPixel : Z.
Variable Inv : Z -> Work -> Prop.

Let info := imageInfo dec.
Let w := m_width info.
Let h := m_height info.
Let W := m_MCUWidth info.
Let H := m_MCUHeight info.

Hypothesis Hw : 1 <= w.
Hypothesis HW : 1 <= W.
Hypothesis HH : 1 <= H.
Hypothesis Hcover : w <= m_MCUSPerRow info * W.

Hypothesis Inv_withMcuRow :
  forall y wk c buf, Inv y wk -> Inv y (withMcuRow wk c buf).

Hypothesis Inv_step :
  forall y startRow wk,
    0 <= y < h -> startRow <= y < startRow + H ->
    holdsMcuRow dec startRow (mcuRowBuffer wk) ->
    Inv y wk ->
    let wk' := processSourceRow cfg dec plan bitsPerPixel y startRow wk in
    Inv (y + 1) wk'
    /\ mcuRowBuffer wk' = mcuRowBuffer wk
    /\ calls wk' = calls wk.

Lemma sourceRows_carries (n : nat) :
  forall (y startRow : Z) (wk : Work),
    0 <= y -> startRow <= y -> y + Z.of_nat n <= startRow + H ->
    holdsMcuRow dec startRow (mcuRowBuffer wk) ->
    Inv (Z.min y h) wk ->
    let wk' := sourceRows cfg dec plan bitsPerPixel n y startRow wk in
    Inv (Z.min (y + Z.of_nat n) h) wk'
    /\ calls wk' = calls wk.
Proof.
  induction n as [|n IH]; intros y startRow wk Hy Hs Hn Hbuf Hdone wk';
    subst wk'.
  - cbn [sourceRows]. rewrite Z.add_0_r. split; [exact Hdone | reflexivity].
  - cbn [sourceRows]. fold info h.
    destruct (Z.ltb_spec y h) as [Hlt|Hge].
    + destruct (Inv_step y startRow wk ltac:(lia) ltac:(lia) Hbuf)
        as (Hdone1 & Hb1 & Hc1).
      { replace (Z.min y h) with y in Hdone by lia. exact Hdone. }
      cbv zeta in Hdone1, Hb1, Hc1.
      destruct (IH (y + 1) startRow
                  (processSourceRow cfg dec plan bitsPerPixel y startRow wk))
        as (Hdone2 & Hc2); try lia.
      * rewrite Hb1; exact Hbuf.
      * replace (Z.min (y + 1) h) with (y + 1) by lia. exact Hdone1.
      * cbv zeta in Hdone2, Hc2.
        replace (y + Z.of_nat (S n)) with (y + 1 + Z.of_nat n) by lia.
        split; [exact Hdone2 | lia].
    + replace (Z.min (y + Z.of_nat (S n)) h) with (Z.min y h) by lia.
      split; [exact Hdone | reflexivity].
Qed.

(** What a decoded MCU row leaves in the buffer. *)
Lemma decoded_row_holds (a : nat) (c' : nat) (buf' : list Z) :
  0 <= m_MCUSPerRow info ->
  decodeMcuRow dec (Buf.range (m_MCUSPerRow info))
    (a * Z.to_nat (m_MCUSPerRow info))%nat (Buf.zeros (w * H))
  = Some (c', buf') ->
  c' = (S a * Z.to_nat (m_MCUSPerRow info))%nat
  /\ holdsMcuRow dec (Z.of_nat a * H) buf'.
Proof.
  intros Hper Hrun.
  assert (HH0 : 0 <= H) by lia.
  destruct (decodeMcuRow_spec dec Hw HW HH0
              (Z.to_nat (m_MCUSPerRow info)) 0 _ _ c' buf' Hrun)
    as (Hc & Hlen & Hget).
  fold info w W H in Hget.
  split; [lia|].
  intros x y Hx Hyr. fold info w H in Hx, Hyr |- *.
  set (by_ := y - Z.of_nat a * H).
  assert (Hby : 0 <= by_ < H) by (unfold by_; lia).
  rewrite Hget.
  assert (Eq : (by_ * w + x) / w = by_)
    by (symmetry; apply (Z.div_unique _ w _ x); lia).
  assert (Em : (by_ * w + x) mod w = x)
    by (symmetry; apply (Z.mod_unique _ w by_ x); lia).
  rewrite Eq, Em, length_zeros.
  destruct (Z.leb_spec 0 (by_ * w + x)); [|nia].
  destruct (Z.ltb_spec by_ H); [|lia].
  destruct (Z.leb_spec (Z.of_nat 0 * W) x); [|lia].
  destruct (Z.ltb_spec x (Z.of_nat (0 + Z.to_nat (m_MCUSPerRow info)) * W));
    [|lia].
  destruct (Z.ltb_spec (by_ * w + x) (Z.of_nat (Z.to_nat (w * H)))); [|nia].
  cbn [andb]. unfold sampleAt. fold info W H.
  assert (Ey : y / H = Z.of_nat a)
    by (symmetry; apply (Z.div_unique y H _ by_); unfold by_ in *; lia).
  assert (Emy : y mod H = by_)
    by (symmetry; apply (Z.mod_unique y H (Z.of_nat a) by_);
        unfold by_ in *; lia).
  rewrite Ey, Emy. f_equal. f_equal.
  pose proof (Z.div_pos x W ltac:(lia) ltac:(lia)).
  nia.
Qed.

Lemma mcuRows_carries (n : nat) :
  forall (a : nat) (wk : Work),
    0 <= m_MCUSPerRow info ->
    calls wk = (a * Z.to_nat (m_MCUSPerRow info))%nat ->
    Inv (Z.min (Z.of_nat a * H) h) wk ->
    fst (mcuRows cfg dec plan bitsPerPixel (map Z.of_nat (seq a n)) wk) = true ->
    Inv (Z.min (Z.of_nat (a + n) * H) h)
      (snd (mcuRows cfg dec plan bitsPerPixel (map Z.of_nat (seq a n)) wk)).
Proof.
  induction n as [|n IH]; intros a wk Hper Hcalls Hdone Hok.
  - cbn [seq map mcuRows snd]. replace (a + 0)%nat with a by lia. exact Hdone.
  - cbn [seq map mcuRows] in Hok |- *. fold info w H in Hok |- *.
    rewrite Hcalls in Hok |- *.
    destruct (decodeMcuRow dec (Buf.range (m_MCUSPerRow info))
                (a * Z.to_nat (m_MCUSPerRow info))%nat (Buf.zeros (w * H)))
      as [[c buf]|] eqn:Hrun; [|discriminate Hok].
    destruct (decoded_row_holds a c buf Hper Hrun) as (Hc & Hbuf).
    change {| sink := sink wk; ditherer := ditherer wk;
              rowAccum := rowAccum wk; rowCount := rowCount wk;
              currentOutY := currentOutY wk;
              nextOutY_srcStart := nextOutY_srcStart wk;
              calls := c; mcuRowBuffer := buf |}
      with (withMcuRow wk c buf) in Hok |- *.
    destruct (sourceRows_carries (Z.to_nat H) (Z.of_nat a * H)
                (Z.of_nat a * H) (withMcuRow wk c buf)) as (Hdone1 & Hc1);
      [nia | lia | lia | exact Hbuf | apply Inv_withMcuRow; exact Hdone |].
    cbv zeta in Hdone1, Hc1.
    replace (a + S n)%nat with (S a + n)%nat by lia.
    apply IH; [exact Hper | rewrite Hc1; exact Hc | | exact Hok].
    replace (Z.of_nat (S a) * H) with (Z.of_nat a * H + Z.of_nat (Z.to_nat H))
      by lia.
    exact Hdone1.
Qed.

End McuLoop.

Lemma processSourceRow_direct (cfg : Config) (dec : Decoder)
  (plan : ScalePlan) (bitsPerPixel : Z) (start : list Z * Ditherer)
  (y startRow : Z) (wk : Work) :
  needsScaling plan = false ->
  outWidth plan = m_width (imageInfo dec) ->
  0 <= y < m_height (imageInfo dec) ->
  startRow <= y < startRow + m_MCUHeight (imageInfo dec) ->
  holdsMcuRow dec startRow (mcuRowBuffer wk) ->
  rowsDone cfg plan bitsPerPixel (sampleAt dec) start y wk ->
  let wk' := processSourceRow cfg dec plan bitsPerPixel y startRow wk in
  rowsDone cfg plan bitsPerPixel (sampleAt dec) start (y + 1) wk'
  /\ mcuRowBuffer wk' = mcuRowBuffer wk
  /\ calls wk' = calls wk.
Proof.
  intros Hdirect Hout Hy Hrow Hbuf Hdone wk'; subst wk'.
  unfold processSourceRow. rewrite Hdirect; cbn [negb].
  unfold emitRow.
  rewrite (packRow_ext cfg bitsPerPixel (outWidth plan) _ _
             (fun x => sampleAt dec x y)).
  2:{ intros x Hx. apply Hbuf; [lia | exact Hrow]. }
  unfold rowsDone in *.
  rewrite range_succ, packRows_snoc by lia.
  rewrite <- Hdone.
  destruct (packRow _ _ _ _ _ _ _) as [d row].
  cbn [sink ditherer mcuRowBuffer calls]. repeat split.
Qed.

(** A run that does not scale: the sink holds the header, then the rows of
    the decoded image, packed in turn. *)
Lemma direct_run_rows (cfg : Config)
  (dec : Decoder) (mem : Memory) (bitsPerPixel targetWidth targetHeight : Z)
  (Hok : result (jpegFileToBmpStream cfg dec mem bitsPerPixel targetWidth
                   targetHeight) = true)
  (Hdirect : needsScaling (computeScale cfg (imageInfo dec) targetWidth
                             targetHeight) = false)
  (Hwidth : 1 <= m_width (imageInfo dec))
  (Hheight : 1 <= m_height (imageInfo dec))
  (Hmcuw : 1 <= m_MCUWidth (imageInfo dec))
  (Hmcuh : 1 <= m_MCUHeight (imageInfo dec))
  (Hcols : m_width (imageInfo dec)
           <= m_MCUSPerRow (imageInfo dec) * m_MCUWidth (imageInfo dec))
  (Hrows : m_height (imageInfo dec)
           <= m_MCUSPerCol (imageInfo dec) * m_MCUHeight (imageInfo dec)) :
  let width := m_width (imageInfo dec) in
  let height := m_height (imageInfo dec) in
  bmpOut (jpegFileToBmpStream cfg dec mem bitsPerPixel targetWidth targetHeight)
  = fst (packRows cfg bitsPerPixel width (getBytesPerRow width bitsPerPixel)
           (sampleAt dec) (Buf.range height)
           (writeBmpHeader width height bitsPerPixel,
            fst (createDitherer cfg (negb (bitsPerPixel =? 8)) width
                   (Z.shiftl 1 bitsPerPixel) []))).
Proof.
  intros width height.
  pose proof (converter_success cfg dec mem bitsPerPixel targetWidth
                targetHeight Hok) as Hloop.
  pose proof (converter_in_loop cfg dec mem bitsPerPixel targetWidth
                targetHeight Hloop) as Hrun.
  cbv zeta in Hrun. rewrite Hrun in Hok |- *. clear Hrun.
  pose proof (computeScale_direct cfg (imageInfo dec) targetWidth targetHeight
                Hdirect) as Hplan.
  set (plan := computeScale cfg (imageInfo dec) targetWidth targetHeight) in *.
  set (start := (writeBmpHeader width height bitsPerPixel,
                 fst (createDitherer cfg (negb (bitsPerPixel =? 8)) width
                        (Z.shiftl 1 bitsPerPixel) []))).
  assert (HoutW : outWidth plan = width) by (rewrite Hplan; reflexivity).
  assert (HoutH : outHeight plan = height) by (rewrite Hplan; reflexivity).
  assert (Hper : 0 <= m_MCUSPerRow (imageInfo dec)) by nia.
  assert (Hcol : 1 <= m_MCUSPerCol (imageInfo dec)) by nia.
  pose proof (mcuRows_carries cfg dec plan bitsPerPixel
                (rowsDone cfg plan bitsPerPixel (sampleAt dec) start)
                Hwidth Hmcuw Hmcuh Hcols
                (fun y wk c buf Hi => Hi)
                (fun y startRow wk Hy Hrow Hbuf Hi =>
                   processSourceRow_direct cfg dec plan bitsPerPixel start
                     y startRow wk Hdirect HoutW Hy Hrow Hbuf Hi)
                (Z.to_nat (m_MCUSPerCol (imageInfo dec))) 0
                (startWork cfg (imageInfo dec) plan bitsPerPixel) Hper)
    as Hinv.
  change (map Z.of_nat (seq 0 (Z.to_nat (m_MCUSPerCol (imageInfo dec)))))
    with (Buf.range (m_MCUSPerCol (imageInfo dec))) in Hinv.
  destruct (mcuRows cfg dec plan bitsPerPixel
              (Buf.range (m_MCUSPerCol (imageInfo dec)))
              (startWork cfg (imageInfo dec) plan bitsPerPixel))
    as [[|] wk]; cbn [fst snd] in *; [|discriminate Hok].
  cbn [bmpOut].
  specialize (Hinv eq_refl).
  assert (Hstart : rowsDone cfg plan bitsPerPixel (sampleAt dec) start
                     (Z.min (Z.of_nat 0 * m_MCUHeight (imageInfo dec))
                            (m_height (imageInfo dec)))
                     (startWork cfg (imageInfo dec) plan bitsPerPixel)).
  { replace (Z.min (Z.of_nat 0 * m_MCUHeight (imageInfo dec))
                   (m_height (imageInfo dec))) with 0 by lia.
    unfold rowsDone, startWork, start. cbn [sink ditherer Buf.range Z.to_nat
                                              seq map packRows fold_left].
    rewrite HoutW, HoutH. reflexivity. }
  specialize (Hinv Hstart eq_refl).
  replace (Z.min (Z.of_nat (0 + Z.to_nat (m_MCUSPerCol (imageInfo dec)))
                  * m_MCUHeight (imageInfo dec)) (m_height (imageInfo dec)))
    with height in Hinv by (unfold height; nia).
  unfold rowsDone in Hinv. rewrite HoutW in Hinv.
  fold width in Hinv. rewrite <- Hinv. reflexivity.
Qed.

(** X22. A successful conversion that does not scale writes the header followed by
    one packed row for each image row, top to bottom; the row of y packs the
    decoded grays of source row y, with the ditherer state carried from row
    to row. *)
Theorem direct_conversion_packs_the_decoded_image (cfg : Config)
  (dec : Decoder) (mem : Memory) (bitsPerPixel targetWidth targetHeight : Z)
  (Hok : result (jpegFileToBmpStream cfg dec mem bitsPerPixel targetWidth
                   targetHeight) = true)
  (Hdirect : needsScaling (computeScale cfg (imageInfo dec) targetWidth
                             targetHeight) = false)
  (Hwidth : 1 <= m_width (imageInfo dec))
  (Hheight : 1 <= m_height (imageInfo dec))
  (Hmcuw : 1 <= m_MCUWidth (imageInfo dec))
  (Hmcuh : 1 <= m_MCUHeight (imageInfo dec))
  (Hcols : m_width (imageInfo dec)
           <= m_MCUSPerRow (imageInfo dec) * m_MCUWidth (imageInfo dec))
  (Hrows : m_height (imageInfo dec)
           <= m_MCUSPerCol (imageInfo dec) * m_MCUHeight (imageInfo dec)) :
  let width := m_width (imageInfo dec) in
  let height := m_height (imageInfo dec) in
  bmpOut (jpegFileToBmpStream cfg dec mem bitsPerPixel targetWidth targetHeight)
  = fst (packRows cfg bitsPerPixel width (getBytesPerRow width bitsPerPixel)
           (sampleAt dec) (Buf.range height)
           (writeBmpHeader width height bitsPerPixel,
            fst (createDitherer cfg (negb (bitsPerPixel =? 8)) width
                   (Z.shiftl 1 bitsPerPixel) []))).
Proof.
  exact (direct_run_rows cfg dec mem bitsPerPixel targetWidth targetHeight
           Hok Hdirect Hwidth Hheight Hmcuw Hmcuh Hcols Hrows).
Qed.

Lemma direct_conversion_packs_the_decoded_image_witness :
  bmpOut (jpegFileToBmpStream default_config gray16x16 enoughMemory 2 480 800)
  = fst (packRows default_config 2 16 (getBytesPerRow 16 2)
           (sampleAt gray16x16) (Buf.range 16)
           (writeBmpHeader 16 16 2,
            fst (createDitherer default_config (negb (2 =? 8)) 16
                   (Z.shiftl 1 2) []))).
Proof.
  apply (direct_conversion_packs_the_decoded_image default_config gray16x16
           enoughMemory 2 480 800).
  - vm_compute; reflexivity.
  - vm_compute; reflexivity.
  - cbn; lia.
  - cbn; lia.
  - cbn; lia.
  - cbn; lia.
  - cbn; lia.
  - cbn; lia.
Defined.

Lemma nth_range (f : Z -> Z) (n : Z) (i : nat) :
  (i < Z.to_nat n)%nat -> nth i (map f (Buf.range n)) 0 = f (Z.of_nat i).
Proof.
  intros Hi. unfold Buf.range. rewrite map_map.
  rewrite (nth_indep _ 0 (f (Z.of_nat 0)))
    by (rewrite length_map, length_seq; lia).
  change (f (Z.of_nat 0)) with ((fun k => f (Z.of_nat k)) 0%nat).
  rewrite map_nth, seq_nth by lia. reflexivity.
Qed.

(** The bytes of an 8-bit row: the tone-mapped samples, then the padding. *)
Lemma packRow_8bit_bytes (cfg : Config) (outW bpr : Z) (g : Z -> Z) (y : Z)
  (d : Ditherer) :
  0 <= outW <= bpr ->
  (forall x, 0 <= x < outW -> 0 <= g x <= 255) ->
  packRow cfg 8 outW bpr g y d
  = (d, map (fun x => if x <? outW then adjustPixel cfg (g x) else 0)
          (Buf.range bpr)).
Proof.
  intros Hw Hg. unfold packRow. cbn [Z.eqb Pos.eqb]. f_equal.
  assert (Hn : outW = Z.of_nat (Z.to_nat outW)) by lia.
  set (n := Z.to_nat outW) in *. clearbody n. subst outW.
  destruct (fill_bytes cfg g bpr n ltac:(lia) Hg) as (Hlen & Hget).
  cbv zeta in Hlen, Hget.
  set (row := fold_left _ _ _) in *.
  apply (nth_ext _ _ 0 0).
  - rewrite length_map, length_range. exact Hlen.
  - intros i Hi. rewrite Hlen in Hi.
    pose proof (Hget (Z.of_nat i)) as Hgi. unfold Buf.get in Hgi.
    destruct (Z.ltb_spec (Z.of_nat i) 0); [lia|].
    rewrite Nat2Z.id in Hgi. rewrite Hgi.
    destruct (Z.leb_spec 0 (Z.of_nat i)); [|lia]. cbn [andb].
    rewrite nth_range by exact Hi. reflexivity.
Qed.

(** X23. A successful 8-bit conversion that does not scale writes the header and
    then, for each image row, the tone-mapped gray of every pixel followed
    by zero padding up to the row length. *)
Theorem direct_8bit_output_is_the_tone_mapped_image (cfg : Config)
  (dec : Decoder) (mem : Memory) (targetWidth targetHeight : Z)
  (Hok : result (jpegFileToBmpStream cfg dec mem 8 targetWidth targetHeight)
         = true)
  (Hdirect : needsScaling (computeScale cfg (imageInfo dec) targetWidth
                             targetHeight) = false)
  (Hwidth : 1 <= m_width (imageInfo dec))
  (Hheight : 1 <= m_height (imageInfo dec))
  (Hmcuw : 1 <= m_MCUWidth (imageInfo dec))
  (Hmcuh : 1 <= m_MCUHeight (imageInfo dec))
  (Hcols : m_width (imageInfo dec)
           <= m_MCUSPerRow (imageInfo dec) * m_MCUWidth (imageInfo dec))
  (Hrows : m_height (imageInfo dec)
           <= m_MCUSPerCol (imageInfo dec) * m_MCUHeight (imageInfo dec)) :
  let width := m_width (imageInfo dec) in
  let height := m_height (imageInfo dec) in
  bmpOut (jpegFileToBmpStream cfg dec mem 8 targetWidth targetHeight)
  = writeBmpHeader width height 8
    ++ flat_map
         (fun y =>
            map (fun x => if x <? width
                          then adjustPixel cfg (sampleAt dec x y) else 0)
              (Buf.range (getBytesPerRow width 8)))
         (Buf.range height).
Proof.
  intros width height.
  rewrite (direct_run_rows cfg dec mem 8 targetWidth
             targetHeight Hok Hdirect Hwidth Hheight Hmcuw Hmcuh Hcols Hrows).
  fold width height. cbn [Z.eqb Pos.eqb negb createDitherer fst].
  assert (Hbpr : 0 <= width <= getBytesPerRow width 8).
  { unfold getBytesPerRow, C.sdiv. cbn [Z.eqb Pos.eqb].
    rewrite Z.quot_div_nonneg by (unfold width; lia).
    split; [unfold width; lia|].
    pose proof (Z.div_mod (width + 3) 4 ltac:(lia)).
    pose proof (Z.mod_pos_bound (width + 3) 4 ltac:(lia)). lia. }
  assert (Hrange : forall x y, 0 <= sampleAt dec x y <= 255).
  { intros x y. unfold sampleAt.
    apply (mcuGray_range (imageInfo dec)). }
  generalize (writeBmpHeader width height 8) as header.
  generalize (Buf.range height) as ys.
  intros ys; induction ys as [|y ys IH] using rev_ind; intros header.
  - cbn. rewrite app_nil_r. reflexivity.
  - rewrite packRows_snoc, flat_map_app. cbn [flat_map].
    rewrite app_nil_r, app_assoc, <- IH.
    assert (Hd : snd (packRows cfg 8 width (getBytesPerRow width 8)
                        (sampleAt dec) ys (header, NoDitherer)) = NoDitherer).
    { clear IH. generalize header.
      induction ys as [|y' ys' IH'] using rev_ind; intros hd; [reflexivity|].
      rewrite packRows_snoc.
      specialize (IH' hd).
      destruct (packRows cfg 8 width (getBytesPerRow width 8) (sampleAt dec)
                  ys' (hd, NoDitherer)) as [o d0].
      cbn [snd] in IH'; subst d0.
      rewrite packRow_8bit_bytes by (try intros; auto). reflexivity. }
    destruct (packRows cfg 8 width (getBytesPerRow width 8) (sampleAt dec)
                ys (header, NoDitherer)) as [out d].
    cbn [snd fst] in *. subst d.
    rewrite packRow_8bit_bytes by (try intros; auto). reflexivity.
Qed.

Lemma direct_8bit_output_is_the_tone_mapped_image_witness :
  bmpOut (jpegFileToBmpStream default_config gray16x16 enoughMemory 8 480 800)
  = writeBmpHeader 16 16 8
    ++ flat_map
         (fun y =>
            map (fun x => if x <? 16
                          then adjustPixel default_config
                                 (sampleAt gray16x16 x y)
                          else 0)
              (Buf.range (getBytesPerRow 16 8)))
         (Buf.range 16).
Proof.
  apply (direct_8bit_output_is_the_tone_mapped_image default_config gray16x16
           enoughMemory 480 800).
  - vm_compute; reflexivity.
  - vm_compute; reflexivity.
  - cbn; lia.
  - cbn; lia.
  - cbn; lia.
  - cbn; lia.
  - cbn; lia.
  - cbn; lia.
Defined.

(** ** Conversion with scaling *)

Lemma u16_small (z : Z) : 0 <= z < 65536 -> C.u16 z = z.
Proof. intros Hz; unfold C.u16; apply Z.mod_small; exact Hz. Qed.

Lemma sum_app (l1 l2 : list Z) : Buf.sum (l1 ++ l2) = Buf.sum l1 + Buf.sum l2.
Proof.
  unfold Buf.sum. induction l1 as [|a l1 IH]; cbn [app fold_right]; lia.
Qed.

Lemma sum_bounds (f : Z -> Z) (l : list Z) (lo hi : Z) :
  (forall k, In k l -> lo <= f k <= hi) ->
  lo * Z.of_nat (length l) <= Buf.sum (map f l) <= hi * Z.of_nat (length l).
Proof.
  unfold Buf.sum. induction l as [|a l IH]; intros Hf.
  - cbn; lia.
  - cbn [map fold_right length].
    pose proof (Hf a (or_introl eq_refl)).
    specialize (IH (fun k Hk => Hf k (or_intror Hk))). lia.
Qed.

Lemma sum_map_ext (f g : Z -> Z) (l : list Z) :
  (forall k, In k l -> f k = g k) -> Buf.sum (map f l) = Buf.sum (map g l).
Proof. intros Hfg. f_equal. apply map_ext_in. exact Hfg. Qed.

Lemma sampleSum_ext (f g : Z -> Z) (a b : Z) :
  (forall x, a <= x < b -> f x = g x) -> sampleSum f a b = sampleSum g a b.
Proof.
  intros Hfg. unfold sampleSum. apply sum_map_ext.
  intros k Hk. apply in_range in Hk. apply Hfg. lia.
Qed.

Lemma sampleSum_bounds (f : Z -> Z) (a b : Z) :
  a <= b -> (forall x, a <= x < b -> 0 <= f x <= 255) ->
  0 <= sampleSum f a b <= 255 * (b - a).
Proof.
  intros Hab Hf. unfold sampleSum.
  pose proof (sum_bounds (fun k => f (a + k)) (Buf.range (b - a)) 0 255) as Hs.
  rewrite length_range in Hs.
  replace (Z.of_nat (Z.to_nat (b - a))) with (b - a) in Hs by lia.
  apply Hs. intros k Hk. apply in_range in Hk. apply Hf. lia.
Qed.

Lemma rowsSum_0 (dec : Decoder) (plan : ScalePlan) (outX y0 : Z) :
  rowsSum dec plan outX y0 0 = 0.
Proof. reflexivity. Qed.

Lemma rowsSum_succ (dec : Decoder) (plan : ScalePlan) (outX y0 n : Z) :
  0 <= n ->
  rowsSum dec plan outX y0 (n + 1)
  = rowsSum dec plan outX y0 n + rowSum dec plan outX (y0 + n).
Proof.
  intros Hn. unfold rowsSum. rewrite range_succ by exact Hn.
  rewrite map_app, sum_app. cbn [map].
  assert (Hone : forall v, Buf.sum [v] = v)
    by (intros v; unfold Buf.sum; cbn [fold_right]; lia).
  rewrite Hone. reflexivity.
Qed.

Section ScaledPath.

Variable cfg : Config.
Variable dec : Decoder.
Variable plan : ScalePlan.
Variable bitsPerPixel : Z.
Variable start : list Z * Ditherer.

Let info := imageInfo dec.
Let w := m_width info.
Let h := m_height info.
Let W := m_MCUWidth info.
Let H := m_MCUHeight info.
Let bpr := getBytesPerRow (outWidth plan) bitsPerPixel.
Let S := scaleY_fp plan.
Let outW := outWidth plan.
Let outH := outHeight plan.

Hypothesis Hscaled : needsScaling plan = true.
Hypothesis HoutW : 1 <= outW <= w.
Hypothesis HoutH : 1 <= outH <= h.
Hypothesis Hwmax : w <= 3072.
Hypothesis Hhmax : h <= 3072.
Hypothesis HSx :
  scaleX_fp plan = C.u32 (C.u32 w * 65536) / C.u32 outW.
Hypothesis HSy : S = C.u32 (C.u32 h * 65536) / C.u32 outH.
Hypothesis HW : 1 <= W.
Hypothesis HH : 1 <= H.
Hypothesis Hcover : w <= m_MCUSPerRow info * W.
Hypothesis Hsmall :
  forall outX outY, 0 <= outX < outW -> 0 <= outY < outH ->
    blockCount plan outX outY < 65536.

Lemma vertical_factor :
  65536 <= S /\ outH * S <= h * 65536 /\ h * 65536 - 65536 < outH * S.
Proof.
  destruct (fixed_point_factor h outH HoutH Hhmax) as (_ & H1 & H2 & H3).
  cbv zeta in H1, H2, H3. rewrite <- HSy in H1, H2, H3. auto.
Qed.

Lemma columns (outX : Z) :
  0 <= outX < outW ->
  0 <= srcXStart plan outX
  /\ srcXStart plan outX < srcXStart plan (outX + 1) <= w.
Proof.
  intros Hx.
  destruct (horizontal_ranges dec plan HoutW Hwmax HSx) as (_ & Hstep & _).
  specialize (Hstep outX Hx). split; [|exact Hstep].
  unfold srcXStart. apply Z.div_pos; [|lia].
  destruct (fixed_point_factor w outW HoutW Hwmax) as (_ & H1 & _).
  cbv zeta in H1. rewrite <- HSx in H1. nia.
Qed.

Lemma rowSum_bounds (outX y : Z) :
  0 <= outX < outW ->
  0 <= rowSum dec plan outX y
  <= 255 * (srcXStart plan (outX + 1) - srcXStart plan outX).
Proof.
  intros Hx. destruct (columns outX Hx) as (_ & Hc).
  unfold rowSum. apply sampleSum_bounds; [lia|].
  intros x _. unfold sampleAt. apply mcuGray_range.
Qed.

Lemma rowsSum_bounds (outX y0 n : Z) :
  0 <= outX < outW -> 0 <= n ->
  0 <= rowsSum dec plan outX y0 n
  <= 255 * (n * (srcXStart plan (outX + 1) - srcXStart plan outX)).
Proof.
  intros Hx Hn. unfold rowsSum.
  pose proof (sum_bounds (fun k => rowSum dec plan outX (y0 + k))
                (Buf.range n) 0
                (255 * (srcXStart plan (outX + 1) - srcXStart plan outX)))
    as Hs.
  rewrite length_range in Hs.
  replace (Z.of_nat (Z.to_nat n)) with n in Hs by lia.
  assert (Hall : forall k, In k (Buf.range n) ->
            0 <= rowSum dec plan outX (y0 + k)
            <= 255 * (srcXStart plan (outX + 1) - srcXStart plan outX))
    by (intros k _; apply rowSum_bounds; exact Hx).
  specialize (Hs Hall). lia.
Qed.

(** The loop over [outX] that adds one source row to the accumulators. *)
Lemma accumulate_row (srcRow : Z -> Z) (n : nat) (acc cnt : list Z) :
  Z.of_nat n <= outW ->
  Z.of_nat (length acc) = outW -> Z.of_nat (length cnt) = outW ->
  let r := fold_left (accumulatePixel dec plan srcRow)
             (Buf.range (Z.of_nat n)) (acc, cnt) in
  Z.of_nat (length (fst r)) = outW
  /\ Z.of_nat (length (snd r)) = outW
  /\ forall outX,
       Buf.get (fst r) outX
       = (if (0 <=? outX) && (outX <? Z.of_nat n)
          then C.u32 (Buf.get acc outX
                      + sampleSum srcRow (srcXStart plan outX)
                          (srcXStart plan (outX + 1)))
          else Buf.get acc outX)
       /\ Buf.get (snd r) outX
          = (if (0 <=? outX) && (outX <? Z.of_nat n)
             then C.u16 (Buf.get cnt outX
                         + (srcXStart plan (outX + 1) - srcXStart plan outX))
             else Buf.get cnt outX).
Proof.
  intros Hn Hla Hlc.
  destruct (horizontal_ranges dec plan HoutW Hwmax HSx) as (_ & _ & _ & Hpix).
  induction n as [|n IH]; intros r; subst r.
  - cbn [Z.of_nat Buf.range Z.to_nat seq map fold_left fst snd].
    split; [exact Hla|]. split; [exact Hlc|]. intros outX.
    destruct (Z.leb_spec 0 outX), (Z.ltb_spec outX 0); cbn [andb];
      try (split; reflexivity); lia.
  - rewrite range_of_nat_succ, fold_left_app. cbn [fold_left].
    destruct IH as (Hl1 & Hl2 & Hget); [lia|].
    destruct (fold_left _ (Buf.range (Z.of_nat n)) (acc, cnt)) as [a c].
    cbn [fst snd] in Hl1, Hl2, Hget.
    rewrite Hpix by (fold outW; lia). cbn [fst snd].
    rewrite !length_set.
    split; [exact Hl1|]. split; [exact Hl2|]. intros outX.
    rewrite !get_set by lia. rewrite Hl1, Hl2.
    destruct (Hget outX) as (Ha & Hc). destruct (Hget (Z.of_nat n)) as (Ha' & Hc').
    rewrite Nat2Z.inj_succ.
    destruct (Z.eqb_spec (Z.of_nat n) outX) as [E|E].
    + subst outX.
      destruct (Z.ltb_spec (Z.of_nat n) outW); [|lia]. cbn [andb].
      destruct (Z.leb_spec 0 (Z.of_nat n)); [|lia].
      destruct (Z.ltb_spec (Z.of_nat n) (Z.succ (Z.of_nat n))); [|lia].
      destruct (Z.ltb_spec (Z.of_nat n) (Z.of_nat n)); [lia|].
      cbn [andb] in *. rewrite Ha', Hc'. split; reflexivity.
    + cbn [andb]. rewrite Ha, Hc.
      destruct (Z.leb_spec 0 outX); cbn [andb]; [|split; reflexivity].
      destruct (Z.ltb_spec outX (Z.of_nat n)),
        (Z.ltb_spec outX (Z.succ (Z.of_nat n)));
        try (split; reflexivity); lia.
Qed.

(** Where source row [y] falls among the blocks: [outY] is the block under
    way. *)
Lemma block_of_row (y outY : Z) :
  0 <= y -> outY = y * 65536 / S ->
  0 <= outY
  /\ outY * S <= y * 65536 < (outY + 1) * S
  /\ srcYStart plan outY <= y
  /\ y + 1 <= srcYStart plan (outY + 1)
  /\ ((outY + 1) * S <= (y + 1) * 65536 ->
      srcYStart plan (outY + 1) = y + 1
      /\ (y + 1) * 65536 / S = outY + 1)
  /\ ((y + 1) * 65536 < (outY + 1) * S -> (y + 1) * 65536 / S = outY).
Proof.
  intros Hy HY. destruct vertical_factor as (HS1 & _).
  pose proof (Z.mul_div_le (y * 65536) S ltac:(lia)) as H1.
  pose proof (Z.mul_succ_div_gt (y * 65536) S ltac:(lia)) as H2.
  rewrite <- HY in H1, H2.
  assert (H0 : 0 <= outY) by (subst outY; apply Z.div_pos; lia).
  assert (Hlo : srcYStart plan outY <= y).
  { unfold srcYStart. fold S.
    assert ((outY * S + 65535) / 65536 < y + 1); [|lia].
    apply Z.div_lt_upper_bound; lia. }
  assert (Hhi : y + 1 <= srcYStart plan (outY + 1)).
  { unfold srcYStart. fold S. apply Z.div_le_lower_bound; lia. }
  split; [exact H0|]. split; [lia|]. split; [exact Hlo|]. split; [exact Hhi|].
  split.
  - intros Hflush. split.
    + assert (srcYStart plan (outY + 1) < y + 2); [|lia].
      unfold srcYStart. fold S. apply Z.div_lt_upper_bound; lia.
    + symmetry.
      apply (Z.div_unique _ S _ ((y + 1) * 65536 - (outY + 1) * S)); lia.
  - intros Hno. symmetry.
    apply (Z.div_unique _ S _ ((y + 1) * 65536 - outY * S)); lia.
Qed.

(** The accumulators after source row [y] is added, while block [outY] is
    under way. *)
Lemma accumulated (y startRow outY : Z) (wk : Work) (acc cnt : list Z) :
  0 <= y < h -> startRow <= y < startRow + H ->
  holdsMcuRow dec startRow (mcuRowBuffer wk) ->
  outY = y * 65536 / S -> outY < outH ->
  (forall outX, 0 <= outX < outW ->
     Buf.get (rowAccum wk) outX
     = rowsSum dec plan outX (srcYStart plan outY) (y - srcYStart plan outY)
     /\ Buf.get (rowCount wk) outX
        = (y - srcYStart plan outY)
          * (srcXStart plan (outX + 1) - srcXStart plan outX)) ->
  Z.of_nat (length (rowAccum wk)) = outW ->
  Z.of_nat (length (rowCount wk)) = outW ->
  fold_left
    (accumulatePixel dec plan
       (fun x => Buf.get (mcuRowBuffer wk) ((y - startRow) * w + x)))
    (Buf.range outW) (rowAccum wk, rowCount wk) = (acc, cnt) ->
  Z.of_nat (length acc) = outW
  /\ Z.of_nat (length cnt) = outW
  /\ forall outX, 0 <= outX < outW ->
       Buf.get acc outX
       = rowsSum dec plan outX (srcYStart plan outY)
           (y + 1 - srcYStart plan outY)
       /\ Buf.get cnt outX
          = (y + 1 - srcYStart plan outY)
            * (srcXStart plan (outX + 1) - srcXStart plan outX)
       /\ (y + 1 - srcYStart plan outY)
          * (srcXStart plan (outX + 1) - srcXStart plan outX)
          <= blockCount plan outX outY.
Proof.
  intros Hy Hrow Hbuf HY HYlt Hacc Hla Hlc Hfold.
  destruct (block_of_row y outY ltac:(lia) HY) as (H0 & _ & Hlo & Hhi & _).
  pose proof (accumulate_row
                (fun x => Buf.get (mcuRowBuffer wk) ((y - startRow) * w + x))
                (Z.to_nat outW) (rowAccum wk) (rowCount wk) ltac:(lia) Hla Hlc)
    as Hrow'.
  cbv zeta in Hrow'.
  replace (Buf.range (Z.of_nat (Z.to_nat outW))) with (Buf.range outW)
    in Hrow' by (unfold Buf.range; rewrite Nat2Z.id; reflexivity).
  rewrite Hfold in Hrow'. cbn [fst snd] in Hrow'.
  destruct Hrow' as (Hl1 & Hl2 & Hget).
  split; [exact Hl1|]. split; [exact Hl2|].
  intros outX Hx.
  destruct (Hget outX) as (Ha & Hc). destruct (Hacc outX Hx) as (Ha0 & Hc0).
  destruct (columns outX Hx) as (Hc1 & Hc2).
  rewrite Z2Nat.id in Ha, Hc by lia.
  destruct (Z.leb_spec 0 outX); [|lia].
  destruct (Z.ltb_spec outX outW); [|lia]. cbn [andb] in Ha, Hc.
  assert (Hsum : sampleSum
                   (fun x => Buf.get (mcuRowBuffer wk) ((y - startRow) * w + x))
                   (srcXStart plan outX) (srcXStart plan (outX + 1))
                 = rowSum dec plan outX y).
  { unfold rowSum. apply sampleSum_ext. intros x Hx'.
    apply Hbuf; [fold info w; lia | fold info H; exact Hrow]. }
  set (cols := srcXStart plan (outX + 1) - srcXStart plan outX) in *.
  set (sY := srcYStart plan outY) in *.
  assert (Hle : (y + 1 - sY) * cols <= blockCount plan outX outY).
  { unfold blockCount. fold sY cols. apply Z.mul_le_mono_nonneg_r; lia. }
  pose proof (Hsmall outX outY Hx ltac:(lia)) as Hlt.
  pose proof (rowsSum_bounds outX sY (y + 1 - sY) Hx ltac:(lia)) as Hb.
  fold cols in Hb.
  rewrite Ha, Hc, Ha0, Hc0, Hsum.
  replace (y + 1 - sY) with (y - sY + 1) in Hb |- * by lia.
  rewrite rowsSum_succ in Hb |- * by lia.
  replace (sY + (y - sY)) with y in Hb |- * by lia.
  rewrite u32_small by lia.
  rewrite u16_small by lia.
  repeat split; lia.
Qed.

Lemma processSourceRow_scaled (y startRow : Z) (wk : Work) :
  0 <= y < h -> startRow <= y < startRow + H ->
  holdsMcuRow dec startRow (mcuRowBuffer wk) ->
  blocksDone cfg dec plan bitsPerPixel start y wk ->
  let wk' := processSourceRow cfg dec plan bitsPerPixel y startRow wk in
  blocksDone cfg dec plan bitsPerPixel start (y + 1) wk'
  /\ mcuRowBuffer wk' = mcuRowBuffer wk
  /\ calls wk' = calls wk.
Proof.
  intros Hy Hrow Hbuf (HY & Hnext & Hrows & Hla & Hlc & Hacc) wk'; subst wk'.
  destruct vertical_factor as (HS1 & HS2 & HS3).
  cbv zeta in HY, Hnext, Hrows, Hacc.
  fold outW outH S in HY, Hnext, Hrows, Hla, Hlc, Hacc.
  unfold rowsDue in HY. rewrite Hscaled in HY. fold outH S in HY.
  set (q := y * 65536 / S) in *.
  destruct (block_of_row y q ltac:(lia) eq_refl)
    as (Hq0 & Hq & Hlo & Hhi & Hflush & Hstay).
  assert (Hq' : q <= (y + 1) * 65536 / S)
    by (apply Z.div_le_mono; lia).
  unfold processSourceRow. rewrite Hscaled; cbn [negb].
  fold info w outW outH S.
  destruct (fold_left _ (Buf.range outW) (rowAccum wk, rowCount wk))
    as [acc cnt] eqn:Hfold.
  assert (Hsrc : C.u32 (C.u32 (y + 1) * 65536) = (y + 1) * 65536).
  { rewrite (u32_small (y + 1)) by lia. apply u32_small; lia. }
  rewrite Hsrc, Hnext.
  destruct (Z.ltb_spec (currentOutY wk) outH) as [Hin|Hdone].
  - (* a block is under way *)
    assert (EY : currentOutY wk = q) by lia.
    destruct (accumulated y startRow q wk acc cnt Hy Hrow Hbuf eq_refl
                ltac:(lia)) as (Hl1 & Hl2 & Hget); try assumption.
    { rewrite <- EY. apply Hacc; exact Hin. }
    rewrite EY in *.
    destruct (Z.leb_spec ((q + 1) * S) ((y + 1) * 65536)) as [Hf|Hnf];
      cbn [andb].
    + (* the block is complete: its row goes out *)
      destruct (Hflush Hf) as (Hs1 & Hq1).
      unfold emitRow. fold bpr outW.
      rewrite (packRow_ext cfg bitsPerPixel outW bpr _
                 (fun x => blockMean dec plan x q)).
      2:{ intros x Hx. destruct (Hget x Hx) as (Ha & Hc & _).
          rewrite Ha, Hc.
          destruct (columns x Hx) as (_ & Hcol).
          pose proof (Hsmall x q Hx ltac:(lia)) as Hlt.
          pose proof (rowsSum_bounds x (srcYStart plan q)
                        (y + 1 - srcYStart plan q) Hx ltac:(lia)) as Hb.
          unfold blockMean, blockSum, blockCount. rewrite Hs1.
          set (n := (y + 1 - srcYStart plan q)
                    * (srcXStart plan (x + 1) - srcXStart plan x)) in *.
          assert (Hn : 1 <= n) by (unfold n; nia).
          destruct (Z.ltb_spec 0 n); [|lia].
          apply u8_small.
          split; [apply Z.div_pos; lia|].
          apply Z.div_lt_upper_bound; lia. }
      unfold rowsDone in Hrows. fold bpr in Hrows. fold outW in Hrows.
      destruct (packRow cfg bitsPerPixel outW bpr
                  (fun x => blockMean dec plan x q) q (ditherer wk))
        as [d row] eqn:Hpack.
      cbn [sink ditherer rowAccum rowCount currentOutY nextOutY_srcStart
             calls mcuRowBuffer].
      split; [|split; reflexivity].
      unfold blocksDone.
      cbn [sink ditherer rowAccum rowCount currentOutY nextOutY_srcStart].
      fold outW outH S.
      split.
      { unfold rowsDue. rewrite Hscaled. fold outH S. lia. }
      split.
      { rewrite (u32_small (q + 1 + 1)) by lia. apply u32_small. nia. }
      split.
      { unfold rowsDone. fold bpr. fold outW.
        rewrite range_succ, packRows_snoc by lia.
        rewrite <- Hrows. cbv beta iota. rewrite Hpack. reflexivity. }
      split; [rewrite length_zeros; lia|].
      split; [rewrite length_zeros; lia|].
      intros _ outX Hx. rewrite !get_zeros, Hs1.
      replace (y + 1 - (y + 1)) with 0 by lia.
      rewrite rowsSum_0. lia.
    + (* the block goes on *)
      cbn [sink ditherer rowAccum rowCount currentOutY nextOutY_srcStart
             calls mcuRowBuffer].
      split; [|split; reflexivity].
      unfold blocksDone.
      cbn [sink ditherer rowAccum rowCount currentOutY nextOutY_srcStart].
      fold outW outH S.
      specialize (Hstay Hnf).
      split.
      { unfold rowsDue. rewrite Hscaled. fold outH S. lia. }
      split; [reflexivity|].
      split; [exact Hrows|].
      split; [exact Hl1|]. split; [exact Hl2|].
      intros _ outX Hx. destruct (Hget outX Hx) as (Ha & Hc & _).
      split; assumption.
  - (* every output row is out already *)
    rewrite andb_false_r.
    cbn [sink ditherer rowAccum rowCount currentOutY nextOutY_srcStart
           calls mcuRowBuffer].
    split; [|split; reflexivity].
    unfold blocksDone.
    cbn [sink ditherer rowAccum rowCount currentOutY nextOutY_srcStart].
    fold outW outH S.
    pose proof (accumulate_row
                  (fun x => Buf.get (mcuRowBuffer wk) ((y - startRow) * w + x))
                  (Z.to_nat outW) (rowAccum wk) (rowCount wk) ltac:(lia)
                  Hla Hlc) as Hrow'.
    cbv zeta in Hrow'.
    replace (Buf.range (Z.of_nat (Z.to_nat outW))) with (Buf.range outW)
      in Hrow' by (unfold Buf.range; rewrite Nat2Z.id; reflexivity).
    rewrite Hfold in Hrow'. cbn [fst snd] in Hrow'.
    destruct Hrow' as (Hl1 & Hl2 & _).
    split.
    { unfold rowsDue. rewrite Hscaled. fold outH S. lia. }
    split; [reflexivity|].
    split; [exact Hrows|].
    split; [exact Hl1|]. split; [exact Hl2|].
    intros Hno; lia.
Qed.

End ScaledPath.

(** A block has at most one row and one column more than the whole part of
    the two factors. *)
Lemma blockCount_le (plan : ScalePlan) (outX outY : Z) :
  0 <= scaleX_fp plan -> 0 <= scaleY_fp plan -> 0 <= outX -> 0 <= outY ->
  0 <= blockCount plan outX outY
  <= (scaleX_fp plan / 65536 + 1) * (scaleY_fp plan / 65536 + 1).
Proof.
  intros Hx Hy HX HY. unfold blockCount, srcYStart, srcXStart.
  set (Sx := scaleX_fp plan) in *. set (Sy := scaleY_fp plan) in *.
  assert (Hc : 0 <= (outX + 1) * Sx / 65536 - outX * Sx / 65536
               <= Sx / 65536 + 1).
  { split.
    - assert (outX * Sx / 65536 <= (outX + 1) * Sx / 65536)
        by (apply Z.div_le_mono; nia). lia.
    - replace ((outX + 1) * Sx) with (outX * Sx + Sx) by lia.
      pose proof (Z.div_mod (outX * Sx) 65536 ltac:(lia)).
      pose proof (Z.mod_pos_bound (outX * Sx) 65536 ltac:(lia)).
      pose proof (Z.div_mod Sx 65536 ltac:(lia)).
      pose proof (Z.mod_pos_bound Sx 65536 ltac:(lia)).
      assert ((outX * Sx + Sx) / 65536
              < outX * Sx / 65536 + Sx / 65536 + 2); [|lia].
      apply Z.div_lt_upper_bound; lia. }
  assert (Hr : 0 <= ((outY + 1) * Sy + 65535) / 65536
                    - (outY * Sy + 65535) / 65536
               <= Sy / 65536 + 1).
  { split.
    - assert ((outY * Sy + 65535) / 65536
              <= ((outY + 1) * Sy + 65535) / 65536)
        by (apply Z.div_le_mono; nia). lia.
    - replace ((outY + 1) * Sy + 65535) with (outY * Sy + 65535 + Sy) by lia.
      pose proof (Z.div_mod (outY * Sy + 65535) 65536 ltac:(lia)).
      pose proof (Z.mod_pos_bound (outY * Sy + 65535) 65536 ltac:(lia)).
      pose proof (Z.div_mod Sy 65536 ltac:(lia)).
      pose proof (Z.mod_pos_bound Sy 65536 ltac:(lia)).
      assert ((outY * Sy + 65535 + Sy) / 65536
              < (outY * Sy + 65535) / 65536 + Sy / 65536 + 2); [|lia].
      apply Z.div_lt_upper_bound; lia. }
  revert Hc Hr.
  generalize ((outX + 1) * Sx / 65536 - outX * Sx / 65536),
    (((outY + 1) * Sy + 65535) / 65536 - (outY * Sy + 65535) / 65536),
    (Sx / 65536), (Sy / 65536).
  intros cols rows qx qy Hc Hr. nia.
Qed.

(** A run that scales: the sink holds the header, then one row for each
    block row of the decoded image, packed in turn. *)
Lemma scaled_run_rows (cfg : Config) (dec : Decoder) (mem : Memory)
  (bitsPerPixel targetWidth targetHeight : Z) :
  result (jpegFileToBmpStream cfg dec mem bitsPerPixel targetWidth
            targetHeight) = true ->
  let plan := computeScale cfg (imageInfo dec) targetWidth targetHeight in
  needsScaling plan = true ->
  -2147483648 <= targetWidth <= 2147483647 ->
  -2147483648 <= targetHeight <= 2147483647 ->
  1 <= m_width (imageInfo dec) -> 1 <= m_height (imageInfo dec) ->
  1 <= m_MCUWidth (imageInfo dec) -> 1 <= m_MCUHeight (imageInfo dec) ->
  m_width (imageInfo dec)
  <= m_MCUSPerRow (imageInfo dec) * m_MCUWidth (imageInfo dec) ->
  m_height (imageInfo dec)
  <= m_MCUSPerCol (imageInfo dec) * m_MCUHeight (imageInfo dec) ->
  (scaleX_fp plan / 65536 + 1) * (scaleY_fp plan / 65536 + 1) < 65536 ->
  bmpOut (jpegFileToBmpStream cfg dec mem bitsPerPixel targetWidth targetHeight)
  = fst (packRows cfg bitsPerPixel (outWidth plan)
           (getBytesPerRow (outWidth plan) bitsPerPixel)
           (blockMean dec plan) (Buf.range (outHeight plan))
           (writeBmpHeader (outWidth plan) (outHeight plan) bitsPerPixel,
            fst (createDitherer cfg (negb (bitsPerPixel =? 8))
                   (outWidth plan) (Z.shiftl 1 bitsPerPixel) []))).
Proof.
  intros Hok plan Hscaled Htw Hth Hwidth Hheight Hmcuw Hmcuh Hcols Hrows
    Hblock.
  pose proof (converter_success cfg dec mem bitsPerPixel targetWidth
                targetHeight Hok) as Hloop.
  pose proof (converter_in_loop cfg dec mem bitsPerPixel targetWidth
                targetHeight Hloop) as Hrun.
  cbv zeta in Hrun. fold plan in Hrun. rewrite Hrun in Hok |- *. clear Hrun.
  destruct Hloop as (_ & _ & Hwmax & Hhmax & _).
  unfold MAX_IMAGE_WIDTH in Hwmax. unfold MAX_IMAGE_HEIGHT in Hhmax.
  destruct (computeScale_bounds cfg (imageInfo dec) targetWidth targetHeight
              ltac:(lia) ltac:(lia) Htw Hth Hscaled) as (HoutW & HoutH).
  destruct (computeScale_fixed_point cfg (imageInfo dec) targetWidth
              targetHeight Hscaled) as (HSx & HSy).
  fold plan in HoutW, HoutH, HSx, HSy.
  set (start := (writeBmpHeader (outWidth plan) (outHeight plan) bitsPerPixel,
                 fst (createDitherer cfg (negb (bitsPerPixel =? 8))
                        (outWidth plan) (Z.shiftl 1 bitsPerPixel) []))).
  destruct (fixed_point_factor (m_width (imageInfo dec)) (outWidth plan)
              HoutW ltac:(lia)) as (_ & HX1 & _).
  destruct (fixed_point_factor (m_height (imageInfo dec)) (outHeight plan)
              HoutH Hhmax) as (_ & HY1 & HY2 & _).
  cbv zeta in HX1, HY1, HY2. rewrite <- HSx in HX1. rewrite <- HSy in HY1, HY2.
  assert (Hsmall : forall outX outY,
            0 <= outX < outWidth plan -> 0 <= outY < outHeight plan ->
            blockCount plan outX outY < 65536).
  { intros outX outY HX HY.
    pose proof (blockCount_le plan outX outY ltac:(lia) ltac:(lia)
                  ltac:(lia) ltac:(lia)). lia. }
  assert (Hper : 0 <= m_MCUSPerRow (imageInfo dec)) by nia.
  assert (Hcol : 1 <= m_MCUSPerCol (imageInfo dec)) by nia.
  assert (Hw3072 : m_width (imageInfo dec) <= 3072) by lia.
  pose proof (mcuRows_carries cfg dec plan bitsPerPixel
                (blocksDone cfg dec plan bitsPerPixel start)
                Hwidth Hmcuw Hmcuh Hcols
                (fun y wk c buf Hi => Hi)
                (fun y startRow wk Hy Hrow Hbuf Hi =>
                   processSourceRow_scaled cfg dec plan bitsPerPixel start
                     Hscaled HoutW HoutH Hw3072 Hhmax HSx HSy Hsmall
                     y startRow wk Hy Hrow Hbuf Hi)
                (Z.to_nat (m_MCUSPerCol (imageInfo dec))) 0
                (startWork cfg (imageInfo dec) plan bitsPerPixel) Hper)
    as Hinv.
  change (map Z.of_nat (seq 0 (Z.to_nat (m_MCUSPerCol (imageInfo dec)))))
    with (Buf.range (m_MCUSPerCol (imageInfo dec))) in Hinv.
  destruct (mcuRows cfg dec plan bitsPerPixel
              (Buf.range (m_MCUSPerCol (imageInfo dec)))
              (startWork cfg (imageInfo dec) plan bitsPerPixel))
    as [[|] wk]; cbn [fst snd] in *; [|discriminate Hok].
  cbn [bmpOut].
  specialize (Hinv eq_refl).
  assert (Hstart : blocksDone cfg dec plan bitsPerPixel start
                     (Z.min (Z.of_nat 0 * m_MCUHeight (imageInfo dec))
                            (m_height (imageInfo dec)))
                     (startWork cfg (imageInfo dec) plan bitsPerPixel)).
  { replace (Z.min (Z.of_nat 0 * m_MCUHeight (imageInfo dec))
                   (m_height (imageInfo dec))) with 0 by lia.
    unfold blocksDone, startWork.
    cbn [sink ditherer rowAccum rowCount currentOutY nextOutY_srcStart].
    rewrite Hscaled.
    split.
    { unfold rowsDue. rewrite Hscaled. cbn [Z.mul]. rewrite Z.div_0_l by lia.
      lia. }
    split; [lia|].
    split; [reflexivity|].
    split; [rewrite length_zeros; lia|].
    split; [rewrite length_zeros; lia|].
    intros _ outX HX. rewrite !get_zeros.
    assert (E0 : srcYStart plan 0 = 0) by reflexivity.
    rewrite E0. cbn [Z.sub Z.opp]. rewrite rowsSum_0. lia. }
  specialize (Hinv Hstart eq_refl).
  replace (Z.min (Z.of_nat (0 + Z.to_nat (m_MCUSPerCol (imageInfo dec)))
                  * m_MCUHeight (imageInfo dec)) (m_height (imageInfo dec)))
    with (m_height (imageInfo dec)) in Hinv by nia.
  destruct Hinv as (HY & _ & Hdone & _).
  cbv zeta in HY, Hdone.
  assert (Hall : currentOutY wk = outHeight plan).
  { rewrite HY. unfold rowsDue. rewrite Hscaled.
    assert (outHeight plan
            <= m_height (imageInfo dec) * 65536 / scaleY_fp plan)
      by (apply Z.div_le_lower_bound; lia).
    lia. }
  rewrite Hall in Hdone. unfold rowsDone in Hdone.
  rewrite <- Hdone. reflexivity.
Qed.



(** ** The direction flag over the rows of an image *)

(** The pixels of a row leave the size, the level count and the row counter
    of a Floyd-Steinberg ditherer as they were. *)
Lemma floydSteinbergRow_keeps (cfg : Config) (grayAt : Z -> Z)
  (reverse : bool) (xs : list Z) :
  forall d,
    let d' := floydSteinbergRow cfg grayAt reverse xs d in
    FloydSteinberg.width d' = FloydSteinberg.width d
    /\ FloydSteinberg.levelCount d' = FloydSteinberg.levelCount d
    /\ FloydSteinberg.rowCount d' = FloydSteinberg.rowCount d.
Proof.
  induction xs as [|x xs IH]; intros d; [repeat split|].
  unfold floydSteinbergRow; cbn [fold_left].
  fold (floydSteinbergRow cfg grayAt reverse xs
          (fst (FloydSteinberg.processPixel cfg d (grayAt x) x reverse))).
  destruct (IH (fst (FloydSteinberg.processPixel cfg d (grayAt x) x reverse)))
    as (Hw & Hl & Hr).
  cbv zeta. rewrite Hw, Hl, Hr.
  unfold FloydSteinberg.processPixel.
  destruct (quantizeAdjustedWithValue _ _) as [q qv].
  destruct (negb reverse); repeat split.
Qed.

Lemma isReverseRow_odd (d : FloydSteinberg.t) :
  FloydSteinberg.isReverseRow d = Z.odd (FloydSteinberg.rowCount d).
Proof.
  unfold FloydSteinberg.isReverseRow.
  change 1 with (Z.ones 1) at 1. rewrite Z.land_ones by lia.
  change (2 ^ 1) with 2. rewrite Zmod_odd.
  destruct (Z.odd (FloydSteinberg.rowCount d)); reflexivity.
Qed.

(** X25. With Floyd-Steinberg dithering the direction flag follows the parity of
    the output row: after the first [k] rows of an image have been packed,
    starting from a new ditherer, the ditherer has counted [k] rows, so row
    [k] is dithered with the reverse flag set exactly when [k] is odd; its
    width and level count are those it was made with. *)
Theorem floydSteinberg_direction_follows_row_parity (cfg : Config)
  (bitsPerPixel outWidth bytesPerRow width levelCount : Z)
  (grayAt : Z -> Z -> Z) (header : list Z) (k : nat)
  (Hdepth : bitsPerPixel <> 8) :
  exists d,
    snd (packRows cfg bitsPerPixel outWidth bytesPerRow grayAt
           (Buf.range (Z.of_nat k))
           (header, UseFloydSteinberg (FloydSteinberg.make width levelCount)))
    = UseFloydSteinberg d
    /\ FloydSteinberg.rowCount d = Z.of_nat k
    /\ FloydSteinberg.isReverseRow d = Z.odd (Z.of_nat k)
    /\ FloydSteinberg.width d = width
    /\ FloydSteinberg.levelCount d = levelCount.
Proof.
  induction k as [|k (d & Hd & Hr & _ & Hw & Hl)].
  - exists (FloydSteinberg.make width levelCount). repeat split.
  - rewrite range_of_nat_succ, packRows_snoc.
    destruct (packRows cfg bitsPerPixel outWidth bytesPerRow grayAt
                (Buf.range (Z.of_nat k))
                (header,
                 UseFloydSteinberg (FloydSteinberg.make width levelCount)))
      as [out d0].
    cbn [snd] in Hd. subst d0.
    unfold packRow.
    destruct (Z.eqb_spec bitsPerPixel 8) as [E|_]; [contradiction|].
    pose proof (packRow_fold_floydSteinberg cfg bitsPerPixel
                  (Z.shiftl 1 bitsPerPixel) (fun x => grayAt x (Z.of_nat k))
                  (Z.of_nat k) (Buf.range outWidth) d
                  (Buf.zeros bytesPerRow)) as Hfold.
    destruct (fold_left _ (Buf.range outWidth) _) as [d1 rb].
    cbn [fst] in Hfold. subst d1. cbn [snd advanceRow].
    destruct (floydSteinbergRow_keeps cfg (fun x => grayAt x (Z.of_nat k))
                (FloydSteinberg.isReverseRow d) (Buf.range outWidth) d)
      as (Hw' & Hl' & Hr').
    set (d1 := floydSteinbergRow cfg (fun x => grayAt x (Z.of_nat k))
                 (FloydSteinberg.isReverseRow d) (Buf.range outWidth) d) in *.
    exists (FloydSteinberg.nextRow d1); split; [reflexivity|].
    rewrite (isReverseRow_odd (FloydSteinberg.nextRow d1)).
    cbn [FloydSteinberg.nextRow FloydSteinberg.rowCount FloydSteinberg.width
         FloydSteinberg.levelCount].
    rewrite Hw', Hl', Hr', Hr, Hw, Hl.
    replace (Z.of_nat k + 1) with (Z.of_nat (S k)) by lia.
    repeat split.
Qed.

Lemma floydSteinberg_direction_follows_row_parity_witness :
  exists d,
    snd (packRows floydSteinberg_config 1 8 4 (fun _ _ => 100)
           (Buf.range (Z.of_nat 3))
           ([], UseFloydSteinberg (FloydSteinberg.make 8 2)))
    = UseFloydSteinberg d
    /\ FloydSteinberg.rowCount d = Z.of_nat 3
    /\ FloydSteinberg.isReverseRow d = Z.odd (Z.of_nat 3)
    /\ FloydSteinberg.width d = 8
    /\ FloydSteinberg.levelCount d = 2.
Proof.
  apply (floydSteinberg_direction_follows_row_parity floydSteinberg_config 1 8 4 8 2
           (fun _ _ => 100) [] 3).
  lia.
Defined.

(** ** One row of MCUs *)

(** The loop over the MCUs of a row stops at the first one that fails to
    decode, and only then. *)
Lemma decodeMcuRow_fails (dec : Decoder) (xs : list Z) :
  forall (c : nat) (buf : list Z),
    decodeMcuRow dec xs c buf = None
    <-> exists j, (j < length xs)%nat
                  /\ mcuStatus (decode_mcu dec (c + j)) <> 0.
Proof.
  induction xs as [|x xs IH]; intros c buf; cbn [decodeMcuRow length].
  - split; [discriminate|]. intros (j & Hj & _); lia.
  - destruct (Z.eqb_spec (mcuStatus (decode_mcu dec c)) 0) as [Hok|Hbad].
    + rewrite IH. split.
      * intros (j & Hj & Hs). exists (S j). split; [lia|].
        replace (c + S j)%nat with (S c + j)%nat by lia. exact Hs.
      * intros ([|j] & Hj & Hs).
        -- rewrite Nat.add_0_r in Hs. contradiction.
        -- exists j. split; [lia|].
           replace (S c + j)%nat with (c + S j)%nat by lia. exact Hs.
    + split; [|reflexivity]. intros _. exists 0%nat. split; [lia|].
      rewrite Nat.add_0_r. exact Hbad.
Qed.

(** X26. Decoding the MCU row [a] fails exactly when one of its
    [m_MCUSPerRow] MCUs fails to decode; when it succeeds it has made
    [m_MCUSPerRow] calls of the decoder, the MCU row buffer keeps its size
    of [m_width * m_MCUHeight] bytes, and the sample of pixel [(x, y)] of the
    image is at offset [(y - startRow) * m_width + x], for every column of
    the image and every row of the MCU row; the columns of the last MCU
    beyond the image width are not stored. *)
Theorem mcu_row_buffer_holds_the_image_rows (dec : Decoder) (a : nat)
  (Hw : 1 <= m_width (imageInfo dec))
  (HW : 1 <= m_MCUWidth (imageInfo dec))
  (HH : 1 <= m_MCUHeight (imageInfo dec))
  (Hcover : m_width (imageInfo dec)
            <= m_MCUSPerRow (imageInfo dec) * m_MCUWidth (imageInfo dec)) :
  let info := imageInfo dec in
  let n := Z.to_nat (m_MCUSPerRow info) in
  let startRow := Z.of_nat a * m_MCUHeight info in
  let run := decodeMcuRow dec (Buf.range (m_MCUSPerRow info)) (a * n)%nat
               (Buf.zeros (m_width info * m_MCUHeight info)) in
  (run = None
   <-> exists j, (j < n)%nat
                 /\ mcuStatus (decode_mcu dec (a * n + j)) <> 0)
  /\ (forall c' buf',
        run = Some (c', buf') ->
        c' = (S a * n)%nat
        /\ length buf' = Z.to_nat (m_width info * m_MCUHeight info)
        /\ forall x y,
             0 <= x < m_width info ->
             startRow <= y < startRow + m_MCUHeight info ->
             Buf.get buf' ((y - startRow) * m_width info + x)
             = sampleAt dec x y).
Proof.
  intros info n startRow run.
  assert (Hper : 0 <= m_MCUSPerRow info) by (unfold info; nia).
  split.
  - unfold run. rewrite decodeMcuRow_fails.
    rewrite length_range. reflexivity.
  - intros c' buf' Hrun.
    destruct (decoded_row_holds dec Hw HW HH Hcover a c' buf' Hper Hrun)
      as (Hc & Hholds).
    split; [exact Hc|].
    split.
    + unfold run, Buf.range in Hrun.
      destruct (decodeMcuRow_spec dec Hw HW ltac:(lia) _ _ _ _ _ _ Hrun)
        as (_ & Hlen & _).
      rewrite Hlen. apply length_zeros.
    + intros x y Hx Hy. apply Hholds; assumption.
Qed.

Lemma mcu_row_buffer_holds_the_image_rows_witness :
  let info := imageInfo gray16x16 in
  let n := Z.to_nat (m_MCUSPerRow info) in
  let startRow := Z.of_nat 0 * m_MCUHeight info in
  let run := decodeMcuRow gray16x16 (Buf.range (m_MCUSPerRow info))
               (0 * n)%nat (Buf.zeros (m_width info * m_MCUHeight info)) in
  (run = None
   <-> exists j, (j < n)%nat
                 /\ mcuStatus (decode_mcu gray16x16 (0 * n + j)) <> 0)
  /\ (forall c' buf',
        run = Some (c', buf') ->
        c' = (1 * n)%nat
        /\ length buf' = Z.to_nat (m_width info * m_MCUHeight info)
        /\ forall x y,
             0 <= x < m_width info ->
             startRow <= y < startRow + m_MCUHeight info ->
             Buf.get buf' ((y - startRow) * m_width info + x)
             = sampleAt gray16x16 x y).
Proof.
  apply (mcu_row_buffer_holds_the_image_rows gray16x16 0);
    cbn; lia.
Defined.

(** ** When a conversion succeeds *)

(** A row of MCUs that decodes has made one call for each MCU. *)
Lemma decodeMcuRow_calls (dec : Decoder) (xs : list Z) :
  forall (c : nat) (buf : list Z) (c' : nat) (buf' : list Z),
    decodeMcuRow dec xs c buf = Some (c', buf') -> c' = (c + length xs)%nat.
Proof.
  induction xs as [|x xs IH]; intros c buf c' buf' Hrun;
    cbn [decodeMcuRow length] in *.
  - injection Hrun as Hc _. lia.
  - destruct (mcuStatus (decode_mcu dec c) =? 0); [|discriminate Hrun].
    rewrite (IH _ _ _ _ Hrun). lia.
Qed.

(** The rows of an MCU row call the decoder no further. *)
Lemma emitRow_calls (cfg : Config) (plan : ScalePlan) (bpp : Z)
  (grayAt : Z -> Z) (y : Z) (wk : Work) :
  calls (emitRow cfg plan bpp grayAt y wk) = calls wk.
Proof.
  unfold emitRow. destruct (packRow _ _ _ _ _ _ _) as [d row]. reflexivity.
Qed.

Lemma processSourceRow_calls (cfg : Config) (dec : Decoder) (plan : ScalePlan)
  (bpp y startRow : Z) (wk : Work) :
  calls (processSourceRow cfg dec plan bpp y startRow wk) = calls wk.
Proof.
  unfold processSourceRow.
  destruct (negb (needsScaling plan)); [apply emitRow_calls|].
  destruct (fold_left _ _ _) as [acc cnt].
  destruct (_ && _); [|reflexivity].
  cbn [calls]. apply emitRow_calls.
Qed.

Lemma sourceRows_calls (cfg : Config) (dec : Decoder) (plan : ScalePlan)
  (bpp : Z) (n : nat) :
  forall (y startRow : Z) (wk : Work),
    calls (sourceRows cfg dec plan bpp n y startRow wk) = calls wk.
Proof.
  induction n as [|n IH]; intros y startRow wk; cbn [sourceRows];
    [reflexivity|].
  destruct (y <? m_height (imageInfo dec)); [|reflexivity].
  rewrite IH. apply processSourceRow_calls.
Qed.

(** The loop over the MCU rows ends well exactly when every call of the
    decoder it makes does. *)
Lemma mcuRows_succeeds (cfg : Config) (dec : Decoder) (plan : ScalePlan)
  (bpp : Z) (ys : list Z) :
  forall wk : Work,
    fst (mcuRows cfg dec plan bpp ys wk) = true
    <-> forall j,
          (j < length ys * Z.to_nat (m_MCUSPerRow (imageInfo dec)))%nat ->
          mcuStatus (decode_mcu dec (calls wk + j)) = 0.
Proof.
  set (n := Z.to_nat (m_MCUSPerRow (imageInfo dec))).
  induction ys as [|mcuY ys IH]; intros wk; cbn [mcuRows length].
  - split; [intros _ j Hj; lia | reflexivity].
  - destruct (decodeMcuRow dec (Buf.range (m_MCUSPerRow (imageInfo dec)))
                (calls wk) _) as [[c buf]|] eqn:Hrun.
    + pose proof (decodeMcuRow_calls _ _ _ _ _ _ Hrun) as Hc.
      rewrite length_range in Hc. fold n in Hc.
      assert (Hrow : forall j, (j < n)%nat ->
                       mcuStatus (decode_mcu dec (calls wk + j)) = 0).
      { intros j Hj.
        destruct (Z.eq_dec (mcuStatus (decode_mcu dec (calls wk + j))) 0)
          as [E|E]; [exact E|].
        assert (Hnone : decodeMcuRow dec
                          (Buf.range (m_MCUSPerRow (imageInfo dec)))
                          (calls wk)
                          (Buf.zeros (m_width (imageInfo dec)
                                      * m_MCUHeight (imageInfo dec)))
                        = None).
        { apply decodeMcuRow_fails. exists j.
          rewrite length_range. fold n. split; [exact Hj | exact E]. }
        rewrite Hnone in Hrun. discriminate Hrun. }
      rewrite IH, sourceRows_calls. cbn [calls]. subst c.
      split.
      * intros Hall j Hj.
        destruct (Nat.lt_ge_cases j n) as [Hlt|Hge]; [apply Hrow; exact Hlt|].
        replace (calls wk + j)%nat with (calls wk + n + (j - n))%nat by lia.
        apply Hall. lia.
      * intros Hall j Hj.
        replace (calls wk + n + j)%nat with (calls wk + (n + j))%nat by lia.
        apply Hall. lia.
    + cbn [fst]. split; [discriminate|]. intros Hall.
      apply decodeMcuRow_fails in Hrun. destruct Hrun as (j & Hj & Hbad).
      rewrite length_range in Hj. fold n in Hj.
      exfalso. apply Hbad. apply Hall. lia.
Qed.

(** X27. A conversion returns true exactly when the depth is 1, 2 or 8, the
    decoder initialises, the image and its MCU row are within the limits,
    both buffers are allocated, and each of the
    [m_MCUSPerCol * m_MCUSPerRow] calls of [pjpeg_decode_mcu] returns 0. *)
Theorem conversion_succeeds_iff_every_mcu_decodes (cfg : Config)
  (dec : Decoder) (mem : Memory) (bitsPerPixel targetWidth targetHeight : Z) :
  result (jpegFileToBmpStream cfg dec mem bitsPerPixel targetWidth
            targetHeight) = true
  <-> entersLoop dec mem bitsPerPixel
      /\ forall j,
           (j < Z.to_nat (m_MCUSPerCol (imageInfo dec))
                * Z.to_nat (m_MCUSPerRow (imageInfo dec)))%nat ->
           mcuStatus (decode_mcu dec j) = 0.
Proof.
  pose proof (mcuRows_succeeds cfg dec
                (computeScale cfg (imageInfo dec) targetWidth targetHeight)
                bitsPerPixel (Buf.range (m_MCUSPerCol (imageInfo dec)))
                (startWork cfg (imageInfo dec)
                   (computeScale cfg (imageInfo dec) targetWidth targetHeight)
                   bitsPerPixel)) as Hloop.
  rewrite length_range in Hloop.
  change (calls (startWork cfg (imageInfo dec)
                   (computeScale cfg (imageInfo dec) targetWidth targetHeight)
                   bitsPerPixel)) with 0%nat in Hloop.
  cbn [Nat.add] in Hloop.
  split.
  - intros Hok.
    pose proof (converter_success cfg dec mem bitsPerPixel targetWidth
                  targetHeight Hok) as Henter.
    split; [exact Henter|].
    apply Hloop.
    rewrite (converter_in_loop cfg dec mem bitsPerPixel targetWidth
               targetHeight Henter) in Hok.
    cbv zeta in Hok.
    destruct (fst (mcuRows _ _ _ _ _ _)); [reflexivity | discriminate Hok].
  - intros (Henter & Hall).
    rewrite (converter_in_loop cfg dec mem bitsPerPixel targetWidth
               targetHeight Henter).
    cbv zeta. apply Hloop in Hall. rewrite Hall. reflexivity.
Qed.
